(** * udevd event broker: queue, worker pool and reactor of [src/udev/udevd.c]

    A shallow embedding of the parent (broker) side of udevd: the event
    list, the worker hashmap, the dependency check [is_devpath_busy], the
    dispatch path [event_run] / [worker_spawn], the handlers of the main
    loop and the loop itself.  Pointers are modelled by keys: an event is
    identified by the address of its [struct event], a worker by its pid
    (the key of the [workers] hashmap).  What the daemon does to the outside
    world (log lines, signals, netlink messages, database and marker-file
    operations) is appended to a trace carried by the broker state. *)

From Stdlib Require Import ZArith String Ascii List Bool Lia Sorted.
From stdpp Require Import gmap strings list fin_maps.

Local Open Scope Z_scope.

(** ** C strings and libc helpers *)

(** [s[i]] for a NUL-terminated string: the terminator is read at
    [i = strlen s]. *)
Definition char_at (s : string) (i : nat) : ascii :=
  match String.get i s with
  | Some c => c
  | None => Ascii.zero
  end.

Definition strlen (s : string) : nat := String.length s.

(** [memcmp(a, b, n)]: zero when the first [n] bytes agree, otherwise the
    difference of the first pair of bytes that differ. *)
Fixpoint memcmp_from (a b : string) (i n : nat) : Z :=
  match n with
  | O => 0
  | S n' =>
      if Ascii.eqb (char_at a i) (char_at b i)
      then memcmp_from a b (S i) n'
      else Z.of_nat (nat_of_ascii (char_at a i)) - Z.of_nat (nat_of_ascii (char_at b i))
  end.

Definition memcmp (a b : string) (n : nat) : Z := memcmp_from a b 0 n.

Definition streq (a b : string) : bool := String.eqb a b.

(** glibc's [major()] on a 64-bit [dev_t]. *)
Definition major (d : Z) : Z :=
  Z.lor (Z.land (Z.shiftr d 8) 4095) (Z.land (Z.shiftr d 32) 4294963200).

(** glibc's [makedev()]. *)
Definition makedev (ma mi : Z) : Z :=
  Z.lor (Z.lor (Z.shiftl (Z.land ma 4095) 8) (Z.shiftl (Z.land ma 4294963200) 32))
        (Z.lor (Z.land mi 255) (Z.shiftl (Z.land mi 4294967040) 12)).

(** ** Data model *)

Inductive event_state := EVENT_UNDEF | EVENT_QUEUED | EVENT_RUNNING.
Inductive worker_state := WORKER_UNDEF | WORKER_RUNNING | WORKER_IDLE | WORKER_KILLED.

Definition event_state_eqb (a b : event_state) : bool :=
  match a, b with
  | EVENT_UNDEF, EVENT_UNDEF | EVENT_QUEUED, EVENT_QUEUED | EVENT_RUNNING, EVENT_RUNNING => true
  | _, _ => false
  end.

Definition worker_state_eqb (a b : worker_state) : bool :=
  match a, b with
  | WORKER_UNDEF, WORKER_UNDEF | WORKER_RUNNING, WORKER_RUNNING
  | WORKER_IDLE, WORKER_IDLE | WORKER_KILLED, WORKER_KILLED => true
  | _, _ => false
  end.

(** What the broker reads of a [struct udev_device]. *)
Record udev_device := {
  dev_seqnum : Z;
  dev_devpath : string;
  dev_devpath_old : option string;
  dev_devnum : Z;
  dev_subsystem : string;
  dev_ifindex : Z;
  dev_action : string
}.

(** [struct event].  [e_ptr] is the address of the struct; [e_worker] is
    the [worker] back-pointer, held as the pid of the worker. *)
Record event := {
  e_ptr : nat;
  e_dev : udev_device;
  e_dev_kernel : udev_device;
  e_worker : option Z;
  e_state : event_state;
  e_delaying_seqnum : Z;
  e_seqnum : Z;
  e_devpath : string;
  e_devpath_len : nat;
  e_devpath_old : option string;
  e_devnum : Z;
  e_ifindex : Z;
  e_is_block : bool;
  e_start_usec : Z;
  e_warned : bool
}.

(** [struct worker].  [w_event] is the [event] pointer, held as the
    address of the event. *)
Record worker := {
  w_pid : Z;
  w_state : worker_state;
  w_event : option nat
}.

Definition set_delaying_seqnum (s : Z) (e : event) : event :=
  {| e_ptr := e_ptr e; e_dev := e_dev e; e_dev_kernel := e_dev_kernel e;
     e_worker := e_worker e; e_state := e_state e; e_delaying_seqnum := s;
     e_seqnum := e_seqnum e; e_devpath := e_devpath e;
     e_devpath_len := e_devpath_len e; e_devpath_old := e_devpath_old e;
     e_devnum := e_devnum e; e_ifindex := e_ifindex e; e_is_block := e_is_block e;
     e_start_usec := e_start_usec e; e_warned := e_warned e |}.

Definition set_e_state (s : event_state) (e : event) : event :=
  {| e_ptr := e_ptr e; e_dev := e_dev e; e_dev_kernel := e_dev_kernel e;
     e_worker := e_worker e; e_state := s; e_delaying_seqnum := e_delaying_seqnum e;
     e_seqnum := e_seqnum e; e_devpath := e_devpath e;
     e_devpath_len := e_devpath_len e; e_devpath_old := e_devpath_old e;
     e_devnum := e_devnum e; e_ifindex := e_ifindex e; e_is_block := e_is_block e;
     e_start_usec := e_start_usec e; e_warned := e_warned e |}.

Definition set_e_warned (w : bool) (e : event) : event :=
  {| e_ptr := e_ptr e; e_dev := e_dev e; e_dev_kernel := e_dev_kernel e;
     e_worker := e_worker e; e_state := e_state e;
     e_delaying_seqnum := e_delaying_seqnum e;
     e_seqnum := e_seqnum e; e_devpath := e_devpath e;
     e_devpath_len := e_devpath_len e; e_devpath_old := e_devpath_old e;
     e_devnum := e_devnum e; e_ifindex := e_ifindex e; e_is_block := e_is_block e;
     e_start_usec := e_start_usec e; e_warned := w |}.

(** The four stores [worker_attach_event] makes to the event. *)
Definition attach_to_worker (pid : Z) (now : Z) (e : event) : event :=
  {| e_ptr := e_ptr e; e_dev := e_dev e; e_dev_kernel := e_dev_kernel e;
     e_worker := Some pid; e_state := EVENT_RUNNING;
     e_delaying_seqnum := e_delaying_seqnum e;
     e_seqnum := e_seqnum e; e_devpath := e_devpath e;
     e_devpath_len := e_devpath_len e; e_devpath_old := e_devpath_old e;
     e_devnum := e_devnum e; e_ifindex := e_ifindex e; e_is_block := e_is_block e;
     e_start_usec := now; e_warned := false |}.

Definition set_w_state (s : worker_state) (w : worker) : worker :=
  {| w_pid := w_pid w; w_state := s; w_event := w_event w |}.

Definition set_w_event (p : option nat) (w : worker) : worker :=
  {| w_pid := w_pid w; w_state := w_state w; w_event := p |}.

(** ** The dependency check *)

(** Outcome of one pass through the body of the loop of
    [is_devpath_busy]: [continue], [break], [return true] without or with
    the store to [event->delaying_seqnum]. *)
Inductive scan_step := ScanContinue | ScanBreak | ScanTrue | ScanTrueRecord.

Definition devpath_step (ev loop_event : event) : scan_step :=
  (* compare devpath *)
  let common := Nat.min (e_devpath_len loop_event) (e_devpath_len ev) in
  (* one devpath is contained in the other? *)
  if negb (memcmp (e_devpath loop_event) (e_devpath ev) common =? 0) then ScanContinue
  (* identical device event found *)
  else if Nat.eqb (e_devpath_len loop_event) (e_devpath_len ev) then
    (* devices names might have changed/swapped in the meantime *)
    if negb (major (e_devnum ev) =? 0) &&
       (negb (e_devnum ev =? e_devnum loop_event) ||
        negb (Bool.eqb (e_is_block ev) (e_is_block loop_event)))
    then ScanContinue
    else if negb (e_ifindex ev =? 0) && negb (e_ifindex ev =? e_ifindex loop_event)
    then ScanContinue
    else ScanTrueRecord
  (* parent device event found *)
  else if Ascii.eqb (char_at (e_devpath ev) common) "/" then ScanTrueRecord
  (* child device event found *)
  else if Ascii.eqb (char_at (e_devpath loop_event) common) "/" then ScanTrueRecord
  (* no matching device *)
  else ScanContinue.

(** The tests of the loop body below the three comparisons of sequence
    numbers. *)
Definition dependency_step (ev loop_event : event) : scan_step :=
  (* check major/minor *)
  if negb (major (e_devnum ev) =? 0) &&
     (e_devnum ev =? e_devnum loop_event) &&
     Bool.eqb (e_is_block ev) (e_is_block loop_event)
  then ScanTrue
  (* check network device ifindex *)
  else if negb (e_ifindex ev =? 0) && (e_ifindex ev =? e_ifindex loop_event)
  then ScanTrue
  (* check our old name *)
  else if match e_devpath_old ev with
          | Some old => streq (e_devpath loop_event) old
          | None => false
          end
  then ScanTrueRecord
  else devpath_step ev loop_event.

Definition busy_step (ev loop_event : event) : scan_step :=
  (* we already found a later event, earlier can not block us *)
  if e_seqnum loop_event <? e_delaying_seqnum ev then ScanContinue
  (* event we checked earlier still exists *)
  else if e_seqnum loop_event =? e_delaying_seqnum ev then ScanTrue
  (* found ourself, no later event can block us *)
  else if e_seqnum loop_event >=? e_seqnum ev then ScanBreak
  else dependency_step ev loop_event.

(** The loop of [is_devpath_busy] over the event list: the value returned
    and the event as the call leaves it. *)
Fixpoint busy_scan (ev : event) (l : list event) : bool * event :=
  match l with
  | [] => (false, ev)
  | loop_event :: rest =>
      match busy_step ev loop_event with
      | ScanContinue => busy_scan ev rest
      | ScanBreak => (false, ev)
      | ScanTrue => (true, ev)
      | ScanTrueRecord => (true, set_delaying_seqnum (e_seqnum loop_event) ev)
      end
  end.

(** ** The world outside the broker *)

Inductive signal := SIGKILL | SIGTERM | SIGINT | SIGHUP | SIGCHLD.

Inductive log_level := LOG_ERR | LOG_WARNING | LOG_INFO | LOG_DEBUG.

(** One entry of the trace: what the broker did to its environment. *)
Inductive effect :=
| EffLog (lvl : log_level) (msg : string)
| EffKill (pid : Z) (sig : signal)
  (* udev_monitor_send_device(monitor, destination, device); the destination
     is a worker (unicast) or NULL (multicast to listeners); [count] is the
     result where the caller reads it and 0 where it is discarded *)
| EffSendDevice (dest : option Z) (d : udev_device) (count : Z)
| EffDeleteDb (d : udev_device)
| EffTagIndex (d : udev_device) (add : bool)
| EffTouchQueue (r : Z)
| EffUnlinkQueue (r : Z)
| EffCgKill
| EffSetLogLevel (lvl : Z)
| EffSynthesizeChange (d : udev_device).

(** The globals of udevd.c that the parent process reads and writes,
    the marker file [/run/udev/queue], the allocator's next address and
    the trace. *)
Record broker := {
  event_list : list event;
  workers : gmap Z worker;
  rules : bool;
  stop_exec_queue : bool;
  reload : bool;
  udev_exit : bool;
  arg_children_max : Z;
  arg_event_timeout_usec : Z;
  arg_event_timeout_warn_usec : Z;
  udev_cgroup : bool;
  properties_list : list (string * option string);
  udev_ctrl_conn : bool;
  queue_file : bool;
  heap_next : nat;
  trace : list effect
}.

Definition set_event_list (l : list event) (b : broker) : broker :=
  {| event_list := l; workers := workers b; rules := rules b;
     stop_exec_queue := stop_exec_queue b; reload := reload b; udev_exit := udev_exit b;
     arg_children_max := arg_children_max b;
     arg_event_timeout_usec := arg_event_timeout_usec b;
     arg_event_timeout_warn_usec := arg_event_timeout_warn_usec b;
     udev_cgroup := udev_cgroup b; properties_list := properties_list b;
     udev_ctrl_conn := udev_ctrl_conn b; queue_file := queue_file b;
     heap_next := heap_next b; trace := trace b |}.

Definition set_workers (m : gmap Z worker) (b : broker) : broker :=
  {| event_list := event_list b; workers := m; rules := rules b;
     stop_exec_queue := stop_exec_queue b; reload := reload b; udev_exit := udev_exit b;
     arg_children_max := arg_children_max b;
     arg_event_timeout_usec := arg_event_timeout_usec b;
     arg_event_timeout_warn_usec := arg_event_timeout_warn_usec b;
     udev_cgroup := udev_cgroup b; properties_list := properties_list b;
     udev_ctrl_conn := udev_ctrl_conn b; queue_file := queue_file b;
     heap_next := heap_next b; trace := trace b |}.

Definition set_rules (r : bool) (b : broker) : broker :=
  {| event_list := event_list b; workers := workers b; rules := r;
     stop_exec_queue := stop_exec_queue b; reload := reload b; udev_exit := udev_exit b;
     arg_children_max := arg_children_max b;
     arg_event_timeout_usec := arg_event_timeout_usec b;
     arg_event_timeout_warn_usec := arg_event_timeout_warn_usec b;
     udev_cgroup := udev_cgroup b; properties_list := properties_list b;
     udev_ctrl_conn := udev_ctrl_conn b; queue_file := queue_file b;
     heap_next := heap_next b; trace := trace b |}.

Definition set_stop_exec_queue (v : bool) (b : broker) : broker :=
  {| event_list := event_list b; workers := workers b; rules := rules b;
     stop_exec_queue := v; reload := reload b; udev_exit := udev_exit b;
     arg_children_max := arg_children_max b;
     arg_event_timeout_usec := arg_event_timeout_usec b;
     arg_event_timeout_warn_usec := arg_event_timeout_warn_usec b;
     udev_cgroup := udev_cgroup b; properties_list := properties_list b;
     udev_ctrl_conn := udev_ctrl_conn b; queue_file := queue_file b;
     heap_next := heap_next b; trace := trace b |}.

Definition set_reload (v : bool) (b : broker) : broker :=
  {| event_list := event_list b; workers := workers b; rules := rules b;
     stop_exec_queue := stop_exec_queue b; reload := v; udev_exit := udev_exit b;
     arg_children_max := arg_children_max b;
     arg_event_timeout_usec := arg_event_timeout_usec b;
     arg_event_timeout_warn_usec := arg_event_timeout_warn_usec b;
     udev_cgroup := udev_cgroup b; properties_list := properties_list b;
     udev_ctrl_conn := udev_ctrl_conn b; queue_file := queue_file b;
     heap_next := heap_next b; trace := trace b |}.

Definition set_udev_exit (v : bool) (b : broker) : broker :=
  {| event_list := event_list b; workers := workers b; rules := rules b;
     stop_exec_queue := stop_exec_queue b; reload := reload b; udev_exit := v;
     arg_children_max := arg_children_max b;
     arg_event_timeout_usec := arg_event_timeout_usec b;
     arg_event_timeout_warn_usec := arg_event_timeout_warn_usec b;
     udev_cgroup := udev_cgroup b; properties_list := properties_list b;
     udev_ctrl_conn := udev_ctrl_conn b; queue_file := queue_file b;
     heap_next := heap_next b; trace := trace b |}.

Definition set_arg_children_max (n : Z) (b : broker) : broker :=
  {| event_list := event_list b; workers := workers b; rules := rules b;
     stop_exec_queue := stop_exec_queue b; reload := reload b; udev_exit := udev_exit b;
     arg_children_max := n;
     arg_event_timeout_usec := arg_event_timeout_usec b;
     arg_event_timeout_warn_usec := arg_event_timeout_warn_usec b;
     udev_cgroup := udev_cgroup b; properties_list := properties_list b;
     udev_ctrl_conn := udev_ctrl_conn b; queue_file := queue_file b;
     heap_next := heap_next b; trace := trace b |}.

Definition set_properties_list (l : list (string * option string)) (b : broker) : broker :=
  {| event_list := event_list b; workers := workers b; rules := rules b;
     stop_exec_queue := stop_exec_queue b; reload := reload b; udev_exit := udev_exit b;
     arg_children_max := arg_children_max b;
     arg_event_timeout_usec := arg_event_timeout_usec b;
     arg_event_timeout_warn_usec := arg_event_timeout_warn_usec b;
     udev_cgroup := udev_cgroup b; properties_list := l;
     udev_ctrl_conn := udev_ctrl_conn b; queue_file := queue_file b;
     heap_next := heap_next b; trace := trace b |}.

Definition set_udev_ctrl_conn (v : bool) (b : broker) : broker :=
  {| event_list := event_list b; workers := workers b; rules := rules b;
     stop_exec_queue := stop_exec_queue b; reload := reload b; udev_exit := udev_exit b;
     arg_children_max := arg_children_max b;
     arg_event_timeout_usec := arg_event_timeout_usec b;
     arg_event_timeout_warn_usec := arg_event_timeout_warn_usec b;
     udev_cgroup := udev_cgroup b; properties_list := properties_list b;
     udev_ctrl_conn := v; queue_file := queue_file b;
     heap_next := heap_next b; trace := trace b |}.

Definition set_queue_file (v : bool) (b : broker) : broker :=
  {| event_list := event_list b; workers := workers b; rules := rules b;
     stop_exec_queue := stop_exec_queue b; reload := reload b; udev_exit := udev_exit b;
     arg_children_max := arg_children_max b;
     arg_event_timeout_usec := arg_event_timeout_usec b;
     arg_event_timeout_warn_usec := arg_event_timeout_warn_usec b;
     udev_cgroup := udev_cgroup b; properties_list := properties_list b;
     udev_ctrl_conn := udev_ctrl_conn b; queue_file := v;
     heap_next := heap_next b; trace := trace b |}.

Definition set_heap_next (n : nat) (b : broker) : broker :=
  {| event_list := event_list b; workers := workers b; rules := rules b;
     stop_exec_queue := stop_exec_queue b; reload := reload b; udev_exit := udev_exit b;
     arg_children_max := arg_children_max b;
     arg_event_timeout_usec := arg_event_timeout_usec b;
     arg_event_timeout_warn_usec := arg_event_timeout_warn_usec b;
     udev_cgroup := udev_cgroup b; properties_list := properties_list b;
     udev_ctrl_conn := udev_ctrl_conn b; queue_file := queue_file b;
     heap_next := n; trace := trace b |}.

Definition set_trace (t : list effect) (b : broker) : broker :=
  {| event_list := event_list b; workers := workers b; rules := rules b;
     stop_exec_queue := stop_exec_queue b; reload := reload b; udev_exit := udev_exit b;
     arg_children_max := arg_children_max b;
     arg_event_timeout_usec := arg_event_timeout_usec b;
     arg_event_timeout_warn_usec := arg_event_timeout_warn_usec b;
     udev_cgroup := udev_cgroup b; properties_list := properties_list b;
     udev_ctrl_conn := udev_ctrl_conn b; queue_file := queue_file b;
     heap_next := heap_next b; trace := t |}.

(** The trace grows at its end. *)
Definition emit (x : effect) (b : broker) : broker := set_trace (trace b ++ [x]) b.

Definition log (lvl : log_level) (msg : string) (b : broker) : broker :=
  emit (EffLog lvl msg) b.

(** ** Pointers into the event list *)

Fixpoint find_event (p : nat) (l : list event) : option event :=
  match l with
  | [] => None
  | e :: rest => if Nat.eqb (e_ptr e) p then Some e else find_event p rest
  end.

(** A store through the pointer [p]. *)
Fixpoint update_event (p : nat) (f : event -> event) (l : list event) : list event :=
  match l with
  | [] => []
  | e :: rest =>
      if Nat.eqb (e_ptr e) p then f e :: rest else e :: update_event p f rest
  end.

(** [udev_list_node_remove] of the node of the event at [p]. *)
Fixpoint remove_event (p : nat) (l : list event) : list event :=
  match l with
  | [] => []
  | e :: rest => if Nat.eqb (e_ptr e) p then rest else e :: remove_event p rest
  end.

(** The keys of the hashmap in the order [HASHMAP_FOREACH] visits them. *)
Definition worker_pids (b : broker) : list Z := (map_to_list (workers b)).*1.

(** ** Events and workers: allocation and release *)

(** [event_free(event)], [None] being the NULL pointer. *)
Definition event_free (ev : option nat) (b : broker) : broker :=
  match ev with
  | None => b
  | Some p =>
      match find_event p (event_list b) with
      | None => b
      | Some e =>
          let b1 := set_event_list (remove_event p (event_list b)) b in
          match e_worker e with
          | Some pid => set_workers (alter (set_w_event None) pid (workers b1)) b1
          | None => b1
          end
      end
  end.

(** [worker_free(worker)] for the worker registered under [pid]. *)
Definition worker_free (pid : Z) (b : broker) : broker :=
  match workers b !! pid with
  | None => b
  | Some w =>
      let b1 := set_workers (delete pid (workers b)) b in
      event_free (w_event w) b1
  end.

(** [worker_new]: [None] when [assert(pid > 1)] fails, otherwise the
    return value and the state. *)
Definition worker_new (pid : Z) (alloc_ok : bool) (b : broker) : option (Z * broker) :=
  if negb (pid >? 1) then None
  else if negb alloc_ok then Some (-12, b)            (* -ENOMEM *)
  else match workers b !! pid with
       | Some _ => Some (-17, b)                        (* hashmap_put: -EEXIST *)
       | None =>
           let w := {| w_pid := pid; w_state := WORKER_UNDEF; w_event := None |} in
           Some (0, set_workers (<[pid := w]> (workers b)) b)
       end.

(** [worker_attach_event(worker, event)]: [None] when one of its four
    assertions fails. *)
Definition worker_attach_event (pid : Z) (p : nat) (now : Z) (b : broker) : option broker :=
  match workers b !! pid, find_event p (event_list b) with
  | Some w, Some e =>
      match e_worker e, w_event w with
      | None, None =>
          let w' := {| w_pid := w_pid w; w_state := WORKER_RUNNING; w_event := Some p |} in
          Some (set_event_list (update_event p (attach_to_worker pid now) (event_list b))
                  (set_workers (<[pid := w']> (workers b)) b))
      | _, _ => None
      end
  | _, _ => None
  end.

(** ** Dispatch *)

(** What the parent sees of the system calls of [worker_spawn]. *)
Inductive spawn_outcome :=
| MonitorFailed                          (* udev_monitor_new_from_netlink() = NULL *)
| ForkFailed                             (* fork() = -1 *)
| Forked (pid : Z) (alloc_ok : bool).    (* fork() = pid; do the allocations of worker_new succeed *)

(** The environment of one call of [event_run]: the result of the unicast
    send to each worker, the outcome of the spawn, the monotonic clock. *)
Record run_env := {
  send_count : Z -> Z;
  spawn : spawn_outcome;
  now_usec : Z
}.

(** The parent's side of [worker_spawn(event)]. *)
Definition worker_spawn (ev : event) (env : run_env) (b : broker) : option broker :=
  match spawn env with
  | MonitorFailed => Some b
  | ForkFailed =>
      let b1 := set_event_list (update_event (e_ptr ev) (set_e_state EVENT_QUEUED) (event_list b)) b in
      Some (log LOG_ERR "fork of child failed: %m" b1)
  | Forked pid alloc_ok =>
      match worker_new pid alloc_ok b with
      | None => None
      | Some (r, b1) =>
          if r <? 0 then Some b1
          else
            b2 ← worker_attach_event pid (e_ptr ev) (now_usec env) b1;
            Some (log LOG_DEBUG "seq %llu forked new worker [%d]" b2)
      end
  end.

(** The [HASHMAP_FOREACH] loop of [event_run]: [true] when the function
    returned from inside the loop. *)
Fixpoint event_run_loop (ev : event) (env : run_env) (pids : list Z) (b : broker)
  : option (bool * broker) :=
  match pids with
  | [] => Some (false, b)
  | pid :: rest =>
      match workers b !! pid with
      | None => event_run_loop ev env rest b
      | Some w =>
          if negb (worker_state_eqb (w_state w) WORKER_IDLE)
          then event_run_loop ev env rest b
          else
            let count := send_count env pid in
            let b1 := emit (EffSendDevice (Some pid) (e_dev ev) count) b in
            if count <? 0 then
              let b2 := log LOG_ERR "worker [%d] did not accept message %zi (%m), kill it" b1 in
              let b3 := emit (EffKill pid SIGKILL) b2 in
              let b4 := set_workers (alter (set_w_state WORKER_KILLED) pid (workers b3)) b3 in
              event_run_loop ev env rest b4
            else
              b2 ← worker_attach_event pid (e_ptr ev) (now_usec env) b1;
              Some (true, b2)
      end
  end.

Definition hashmap_size (b : broker) : Z := Z.of_nat (size (workers b)).

Definition event_run (ev : event) (env : run_env) (b : broker) : option broker :=
  '(returned, b1) ← event_run_loop ev env (worker_pids b) b;
  if (returned : bool) then Some b1
  else if hashmap_size b1 >=? arg_children_max b1 then
    Some (if arg_children_max b1 >? 1
          then log LOG_DEBUG "maximum number (%i) of children reached" b1
          else b1)
  else
    (* start new worker and pass initial device *)
    worker_spawn ev env b1.

(** ** The event queue *)

(** The [struct event] that [event_queue_insert] builds at address [p]
    for the device [d]; [dev_kernel] is a clone of the device with its
    properties. *)
Definition event_new (p : nat) (d : udev_device) : event :=
  {| e_ptr := p;
     e_dev := d;
     e_dev_kernel := d;
     e_worker := None;
     e_state := EVENT_QUEUED;
     e_delaying_seqnum := 0;
     e_seqnum := dev_seqnum d;
     e_devpath := dev_devpath d;
     e_devpath_len := strlen (dev_devpath d);
     e_devpath_old := dev_devpath_old d;
     e_devnum := dev_devnum d;
     e_ifindex := dev_ifindex d;
     e_is_block := streq "block" (dev_subsystem d);
     e_start_usec := 0;
     e_warned := false |}.

(** [event_queue_insert(dev)]: the return value and the state.  [new0]
    yields NULL when [alloc_ok] is false. *)
Definition event_queue_insert (d : udev_device) (alloc_ok : bool) (b : broker) : Z * broker :=
  if negb alloc_ok then (-1, b)
  else
    let ev := event_new (heap_next b) d in
    let b1 := log LOG_DEBUG "seq %llu queued, '%s' '%s'" (set_heap_next (S (heap_next b)) b) in
    (0, set_event_list (event_list b1 ++ [ev]) b1).

Definition worker_kill_one (b : broker) (pid : Z) : broker :=
  match workers b !! pid with
  | None => b
  | Some w =>
      if worker_state_eqb (w_state w) WORKER_KILLED then b
      else
        emit (EffKill pid SIGTERM)
             (set_workers (alter (set_w_state WORKER_KILLED) pid (workers b)) b)
  end.

Definition worker_kill (b : broker) : broker :=
  foldl worker_kill_one b (worker_pids b).

(** [is_devpath_busy(event)]: the value returned, and the state with the
    event as the scan leaves it. *)
Definition is_devpath_busy (ev : event) (b : broker) : bool * broker :=
  let '(busy, ev') := busy_scan ev (event_list b) in
  (busy,
   set_event_list
     (update_event (e_ptr ev) (set_delaying_seqnum (e_delaying_seqnum ev')) (event_list b)) b).

(** The loop of [event_queue_start] over the nodes of the event list;
    [envs] gives the environment of the [event_run] of each event. *)
Fixpoint event_queue_start_loop (envs : nat -> run_env) (ptrs : list nat) (b : broker)
  : option broker :=
  match ptrs with
  | [] => Some b
  | p :: rest =>
      match find_event p (event_list b) with
      | None => event_queue_start_loop envs rest b
      | Some ev =>
          if negb (event_state_eqb (e_state ev) EVENT_QUEUED)
          then event_queue_start_loop envs rest b
          else
            (* do not start event if parent or child event is still running *)
            let '(busy, b1) := is_devpath_busy ev b in
            if busy then event_queue_start_loop envs rest b1
            else
              b2 ← event_run ev (envs p) b1;
              event_queue_start_loop envs rest b2
      end
  end.

Definition event_queue_start (envs : nat -> run_env) (b : broker) : option broker :=
  event_queue_start_loop envs (map e_ptr (event_list b)) b.

Definition event_queue_cleanup_one (match_type : event_state) (b : broker) (p : nat) : broker :=
  match find_event p (event_list b) with
  | None => b
  | Some ev =>
      if negb (event_state_eqb match_type EVENT_UNDEF) &&
         negb (event_state_eqb match_type (e_state ev))
      then b
      else event_free (Some p) b
  end.

Definition event_queue_cleanup (match_type : event_state) (b : broker) : broker :=
  foldl (event_queue_cleanup_one match_type) b (map e_ptr (event_list b)).

(** ** Handlers of the main loop *)

(** One [recvmsg] on the worker socket. *)
Inductive recv_result :=
| RecvError (again : bool)                    (* size < 0; errno is EAGAIN or EINTR *)
| RecvMsg (size : Z) (ucred_pid : option Z).  (* the payload size, the pid of SCM_CREDENTIALS *)

(** [sizeof(struct worker_message)]: the struct has no member. *)
Definition sizeof_worker_message : Z := 0.

(** [on_worker]: [incoming] is what the successive [recvmsg] calls yield;
    when it runs out the socket is drained and [recvmsg] fails with EAGAIN. *)
Fixpoint on_worker (incoming : list recv_result) (b : broker) : broker :=
  match incoming with
  | [] => b
  | RecvError again :: _ =>
      if again then b else log LOG_ERR "failed to receive message: %m" b
  | RecvMsg size ucred_pid :: rest =>
      if negb (size =? sizeof_worker_message) then
        on_worker rest (log LOG_WARNING "ignoring worker message with invalid size %zi bytes" b)
      else
        match ucred_pid with
        | None => on_worker rest (log LOG_WARNING "ignoring worker message without valid PID" b)
        | Some pid =>
            if pid <=? 0 then
              on_worker rest (log LOG_WARNING "ignoring worker message without valid PID" b)
            else
              (* lookup worker who sent the signal *)
              match workers b !! pid with
              | None =>
                  on_worker rest (log LOG_DEBUG "worker [%d] returned, but is no longer tracked" b)
              | Some w =>
                  let b1 :=
                    if negb (worker_state_eqb (w_state w) WORKER_KILLED)
                    then set_workers (alter (set_w_state WORKER_IDLE) pid (workers b)) b
                    else b in
                  (* worker returned *)
                  on_worker rest (event_free (w_event w) b1)
              end
        end
  end.

(** [on_uevent]: [received] is the device [udev_monitor_receive_device]
    returns, if any. *)
Definition on_uevent (received : option udev_device) (alloc_ok : bool) (b : broker) : broker :=
  match received with
  | None => b
  | Some d => snd (event_queue_insert d alloc_ok b)
  end.

(** glibc's wait-status macros. *)
Definition WTERMSIG (status : Z) : Z := Z.land status 127.
Definition WEXITSTATUS (status : Z) : Z := Z.shiftr (Z.land status 65280) 8.
Definition WIFEXITED (status : Z) : bool := WTERMSIG status =? 0.
Definition WIFSIGNALED (status : Z) : bool :=
  let x := Z.land status 127 + 1 in
  let sc := if x >=? 128 then x - 256 else x in      (* (signed char) *)
  Z.shiftr sc 1 >? 0.
Definition WIFSTOPPED (status : Z) : bool := Z.land status 255 =? 127.
Definition WIFCONTINUED (status : Z) : bool := status =? 65535.

(** The block of [on_sigchld] that runs for a worker that did not exit
    with code zero. *)
Definition on_sigchld_failed (w : worker) (b : broker) : broker :=
  match w_event w with
  | None => b
  | Some p =>
      match find_event p (event_list b) with
      | None => b
      | Some ev =>
          let b1 := log LOG_ERR "worker [%d] failed while handling '%s'" b in
          (* delete state from disk *)
          let b2 := emit (EffDeleteDb (e_dev ev)) b1 in
          let b3 := emit (EffTagIndex (e_dev ev) false) b2 in
          (* forward kernel event without amending it *)
          emit (EffSendDevice None (e_dev_kernel ev) 0) b3
      end
  end.

(** [on_sigchld]: [reaped] is what the successive [waitpid(-1, &status,
    WNOHANG)] calls return, as pairs of pid and status; when it runs out
    [waitpid] returns zero. *)
Fixpoint on_sigchld (reaped : list (Z * Z)) (b : broker) : broker :=
  match reaped with
  | [] => b
  | (pid, status) :: rest =>
      if pid <=? 0 then b
      else
        match workers b !! pid with
        | None => log LOG_WARNING "worker [%d] is unknown, ignoring" b
        | Some w =>
            let after_status : broker * bool :=      (* the state, and whether to go on *)
              if WIFEXITED status then
                if WEXITSTATUS status =? 0
                then (log LOG_DEBUG "worker [%d] exited" b, true)
                else (log LOG_WARNING "worker [%d] exited with return code %i" b, true)
              else if WIFSIGNALED status then
                (log LOG_WARNING "worker [%d] terminated by signal %i (%s)" b, true)
              else if WIFSTOPPED status then
                (log LOG_INFO "worker [%d] stopped" b, false)
              else if WIFCONTINUED status then
                (log LOG_INFO "worker [%d] continued" b, false)
              else (log LOG_WARNING "worker [%d] exit with status 0x%04x" b, true) in
            let '(b1, go_on) := after_status in
            if negb go_on then b1
            else
              let b2 :=
                if negb (WIFEXITED status) || negb (WEXITSTATUS status =? 0)
                then on_sigchld_failed w b1
                else b1 in
              on_sigchld rest (worker_free pid b2)
        end
  end.

(** [event_queue_update]: [fs_ok] tells whether the file system lets the
    daemon create or remove the marker file. *)
Definition event_queue_update (fs_ok : bool) (b : broker) : broker :=
  match event_list b with
  | _ :: _ =>
      if fs_ok then set_queue_file true (emit (EffTouchQueue 0) b)
      else log LOG_WARNING "could not touch /run/udev/queue: %m" (emit (EffTouchQueue (-1)) b)
  | [] =>
      if negb (queue_file b) then emit (EffUnlinkQueue (-1)) b       (* errno = ENOENT *)
      else if fs_ok then set_queue_file false (emit (EffUnlinkQueue 0) b)
      else log LOG_WARNING "could not unlink /run/udev/queue: %m" (emit (EffUnlinkQueue (-1)) b)
  end.

(** What the accessors of [udev_ctrl_msg] return for one control message. *)
Record ctrl_msg := {
  ctrl_set_log_level : Z;
  ctrl_stop_exec_queue : Z;
  ctrl_start_exec_queue : Z;
  ctrl_reload : Z;
  ctrl_set_env : option string;
  ctrl_set_children_max : Z;
  ctrl_ping : Z;
  ctrl_exit : Z
}.

(** [strchr(key, '=')] followed by the split at that character. *)
Fixpoint split_at_equals (s : string) : option (string * string) :=
  match s with
  | EmptyString => None
  | String c rest =>
      if Ascii.eqb c "=" then Some (EmptyString, rest)
      else match split_at_equals rest with
           | Some (k, v) => Some (String c k, v)
           | None => None
           end
  end.

(** [udev_list_entry_add] on a list with unique names. *)
Fixpoint udev_list_entry_add (l : list (string * option string)) (k : string) (v : option string)
  : list (string * option string) :=
  match l with
  | [] => [(k, v)]
  | (k', v') :: rest =>
      if String.eqb k' k then (k, v) :: rest else (k', v') :: udev_list_entry_add rest k v
  end.

(** [on_ctrl_msg]: [received] is the message, when a connection and a
    message could be obtained. *)
Definition on_ctrl_msg (received : option ctrl_msg) (b : broker) : broker :=
  match received with
  | None => b
  | Some m =>
      let b1 :=
        if ctrl_set_log_level m >=? 0 then
          worker_kill (emit (EffSetLogLevel (ctrl_set_log_level m))
                         (log LOG_DEBUG "udevd message (SET_LOG_LEVEL) received, log_priority=%i" b))
        else b in
      let b2 :=
        if ctrl_stop_exec_queue m >? 0 then
          set_stop_exec_queue true (log LOG_DEBUG "udevd message (STOP_EXEC_QUEUE) received" b1)
        else b1 in
      let b3 :=
        if ctrl_start_exec_queue m >? 0 then
          set_stop_exec_queue false (log LOG_DEBUG "udevd message (START_EXEC_QUEUE) received" b2)
        else b2 in
      let b4 :=
        if ctrl_reload m >? 0 then
          set_reload true (log LOG_DEBUG "udevd message (RELOAD) received" b3)
        else b3 in
      let b5 :=
        match ctrl_set_env m with
        | None => b4
        | Some str =>
            worker_kill
              match split_at_equals str with
              | Some (key, val) =>
                  if String.eqb val EmptyString then
                    set_properties_list (udev_list_entry_add (properties_list b4) key None)
                      (log LOG_DEBUG "udevd message (ENV) received, unset '%s'" b4)
                  else
                    set_properties_list (udev_list_entry_add (properties_list b4) key (Some val))
                      (log LOG_DEBUG "udevd message (ENV) received, set '%s=%s'" b4)
              | None => log LOG_ERR "wrong key format '%s'" b4
              end
        end in
      let b6 :=
        if ctrl_set_children_max m >=? 0 then
          set_arg_children_max (ctrl_set_children_max m)
            (log LOG_DEBUG "udevd message (SET_MAX_CHILDREN) received, children_max=%i" b5)
        else b5 in
      let b7 :=
        if ctrl_ping m >? 0 then log LOG_DEBUG "udevd message (SYNC) received" b6 else b6 in
      if ctrl_exit m >? 0 then
        (* keep reference to block the client until we exit *)
        set_udev_ctrl_conn true
          (set_udev_exit true (log LOG_DEBUG "udevd message (EXIT) received" b7))
      else b7
  end.

(** One [struct inotify_event] of the buffer read by [on_inotify]. *)
Inductive inotify_item :=
| InotifyUnknown                         (* udev_watch_lookup() = NULL *)
| InotifyCloseWrite (watched : udev_device) (received : option udev_device) (alloc_ok : bool)
| InotifyIgnored (watched : udev_device)
| InotifyOther (watched : udev_device).

(** [on_inotify]: [None] when the read fails. *)
Definition on_inotify (buffer : option (list inotify_item)) (b : broker) : broker :=
  match buffer with
  | None => b
  | Some items =>
      foldl (fun b item =>
               match item with
               | InotifyCloseWrite watched received alloc_ok =>
                   let b1 := log LOG_DEBUG "inotify event: %x for %s" b in
                   on_uevent received alloc_ok (emit (EffSynthesizeChange watched) b1)
               | InotifyIgnored _ | InotifyOther _ => log LOG_DEBUG "inotify event: %x for %s" b
               | InotifyUnknown => b
               end) b items
  end.

(** ** The main loop *)

Definition list_is_empty (b : broker) : bool :=
  match event_list b with [] => true | _ :: _ => false end.

Definition hashmap_isempty (b : broker) : bool := Nat.eqb (size (workers b)) 0.

Definition MSEC_PER_SEC : Z := 1000.

(** Where the first part of an iteration ends: at the [break] of the
    exit path, or in [epoll_wait] with the timeout computed. *)
Inductive head_result :=
| HeadBreak (b : broker)
| HeadWait (timeout : Z) (b : broker).

(** From the top of the loop body to the call of [epoll_wait]. *)
Definition main_loop_head (fs_ok : bool) (b : broker) : head_result :=
  if udev_exit b then
    (* discard queued events and kill workers *)
    let b1 := worker_kill (event_queue_cleanup EVENT_QUEUED b) in
    (* exit after all has cleaned up *)
    if list_is_empty b1 && hashmap_isempty b1 then HeadBreak b1
    else HeadWait (30 * MSEC_PER_SEC) (event_queue_update fs_ok b1)
  else if list_is_empty b && hashmap_isempty b then
    (* we are idle *)
    let b1 := if udev_cgroup b then emit EffCgKill b else b in
    HeadWait (-1) (event_queue_update fs_ok b1)
  else
    (* kill idle or hanging workers *)
    HeadWait (3 * MSEC_PER_SEC) (event_queue_update fs_ok b).

Inductive source := SrcWorker | SrcNetlink | SrcSignal | SrcInotify | SrcCtrl.

Definition source_eqb (a b : source) : bool :=
  match a, b with
  | SrcWorker, SrcWorker | SrcNetlink, SrcNetlink | SrcSignal, SrcSignal
  | SrcInotify, SrcInotify | SrcCtrl, SrcCtrl => true
  | _, _ => false
  end.

(** What one iteration reads from its environment after the wait. *)
Record loop_input := {
  in_epoll : option (list source);     (* None: epoll_wait failed; else the ready sources *)
  in_now : Z;                          (* now(CLOCK_MONOTONIC) of the timeout sweep *)
  in_config_changed : bool;            (* three seconds passed and rules or builtins changed *)
  in_worker_msgs : list recv_result;
  in_uevent : option udev_device;
  in_alloc_ok : bool;
  in_rules_loadable : bool;            (* udev_rules_new() succeeds *)
  in_envs : nat -> run_env;
  in_signal : option signal;           (* the signal read from the signalfd *)
  in_reaped : list (Z * Z);
  in_inotify : option (list inotify_item);
  in_fs_ok : bool;
  in_ctrl : option ctrl_msg
}.

Definition usec_sub (a b : Z) : Z := (a - b) mod 2 ^ 64.

(** The body of the "check for hanging events" loop for one worker;
    [None] when [assert(event)] fails. *)
Definition hanging_check_one (now : Z) (ob : option broker) (pid : Z) : option broker :=
  b ← ob;
  match workers b !! pid with
  | None => Some b
  | Some w =>
      if negb (worker_state_eqb (w_state w) WORKER_RUNNING) then Some b
      else
        p ← w_event w;
        ev ← find_event p (event_list b);
        if usec_sub now (e_start_usec ev) >? arg_event_timeout_warn_usec b then
          if usec_sub now (e_start_usec ev) >? arg_event_timeout_usec b then
            let b1 := log LOG_ERR "worker [%d] %s timeout; kill it" b in
            let b2 := emit (EffKill pid SIGKILL) b1 in
            let b3 := set_workers (alter (set_w_state WORKER_KILLED) pid (workers b2)) b2 in
            Some (log LOG_ERR "seq %llu '%s' killed" b3)
          else if negb (e_warned ev) then
            let b1 := log LOG_WARNING "worker [%d] %s is taking a long time" b in
            Some (set_event_list (update_event p (set_e_warned true) (event_list b1)) b1)
          else Some b
        else Some b
  end.

(** The [fdcount == 0] block below its [udev_exit] test. *)
Definition on_timeout (now : Z) (b : broker) : option broker :=
  (* kill idle workers *)
  let b1 := if list_is_empty b then worker_kill (log LOG_DEBUG "cleanup idle workers" b) else b in
  (* check for hanging events *)
  foldl (hanging_check_one now) (Some b1) (worker_pids b1).

(** Where the part of an iteration after the wait stops short of the
    control handler, or arrives at it. *)
Inductive body_result :=
| BodyAbort                      (* an assertion failed *)
| BodyBreak (b : broker)         (* left the loop *)
| BodyContinue (b : broker)      (* [continue]: back to the top of the loop *)
| BodyAtCtrl (b : broker).       (* at [if (is_ctrl)] *)

Definition is_ready (s : source) (ready : list source) : bool := existsb (source_eqb s) ready.

(** The "start new events" block. *)
Definition start_new_events (inp : loop_input) (b : broker) : option broker :=
  if negb (list_is_empty b) && negb (udev_exit b) && negb (stop_exec_queue b) then
    let b1 := if rules b then b else set_rules (in_rules_loadable inp) b in
    if rules b1 then event_queue_start (in_envs inp) b1 else Some b1
  else Some b.

Definition on_signal (inp : loop_input) (b : broker) : broker :=
  match in_signal inp with
  | Some SIGINT | Some SIGTERM => set_udev_exit true b      (* on_request_exit *)
  | Some SIGHUP => set_reload true b                         (* on_request_reload *)
  | Some SIGCHLD => on_sigchld (in_reaped inp) b
  | _ => b
  end.

(** From the return of [epoll_wait] to the test of [is_ctrl].  The exit
    path at the top of the loop removes the control, netlink and inotify
    descriptors from the epoll set; [udev_exit] is only ever set below the
    wait, so those three sources can be ready only when [udev_exit] was
    clear at the wait. *)
Definition main_loop_events (inp : loop_input) (b : broker) : body_result :=
  match in_epoll inp with
  | None => BodyContinue b
  | Some ready =>
      let registered := negb (udev_exit b) in
      let timed_out := match ready with [] => true | _ => false end in
      if timed_out && udev_exit b then
        BodyBreak (log LOG_ERR "timeout, giving up waiting for workers to finish" b)
      else
        match (if timed_out then on_timeout (in_now inp) b else Some b) with
        | None => BodyAbort
        | Some b1 =>
            let is_worker := is_ready SrcWorker ready in
            let is_netlink := registered && is_ready SrcNetlink ready in
            let is_signal := is_ready SrcSignal ready in
            let is_inotify := registered && is_ready SrcInotify ready in
            (* check for changed config, every 3 seconds at most *)
            let b2 := if in_config_changed inp then set_reload true b1 else b1 in
            (* reload requested, HUP signal received, rules changed, builtin changed *)
            let b3 := if reload b2
                      then set_reload false (set_rules false (worker_kill b2))
                      else b2 in
            (* event has finished *)
            let b4 := if is_worker then on_worker (in_worker_msgs inp) b3 else b3 in
            (* uevent from kernel *)
            let b5 := if is_netlink then on_uevent (in_uevent inp) (in_alloc_ok inp) b4 else b4 in
            (* start new events *)
            match start_new_events inp b5 with
            | None => BodyAbort
            | Some b6 =>
                let b7 := if is_signal then on_signal inp b6 else b6 in
                (* we are shutting down, the events below are not handled anymore *)
                if udev_exit b7 then BodyContinue b7
                else
                  (* device node watch *)
                  let b8 := if is_inotify then on_inotify (in_inotify inp) b7 else b7 in
                  (* tell settle that we are busy or idle, this needs to be before the
                     PING handling *)
                  BodyAtCtrl (event_queue_update (in_fs_ok inp) b8)
            end
        end
  end.

Inductive loop_result :=
| LoopAbort
| LoopBreak (b : broker)
| LoopNext (b : broker).

(** The part of an iteration after the wait. *)
Definition main_loop_body (inp : loop_input) (b : broker) : loop_result :=
  match main_loop_events inp b with
  | BodyAbort => LoopAbort
  | BodyBreak b1 => LoopBreak b1
  | BodyContinue b1 => LoopNext b1
  | BodyAtCtrl b1 =>
      match in_epoll inp with
      | Some ready =>
          if negb (udev_exit b) && is_ready SrcCtrl ready
          then LoopNext (on_ctrl_msg (in_ctrl inp) b1)
          else LoopNext b1
      | None => LoopNext b1
      end
  end.

(** The state [main] enters the loop with. *)
Definition broker_init (children_max timeout_usec warn_usec : Z) (cgroup : bool) : broker :=
  {| event_list := []; workers := ∅; rules := true;
     stop_exec_queue := false; reload := false; udev_exit := false;
     arg_children_max := children_max;
     arg_event_timeout_usec := timeout_usec;
     arg_event_timeout_warn_usec := warn_usec;
     udev_cgroup := cgroup; properties_list := [];
     udev_ctrl_conn := false; queue_file := false;
     heap_next := 1; trace := [] |}.

(** ** Specification predicates *)

(** The event list is in strictly increasing order of sequence number:
    the kernel numbers its uevents in the order it emits them and
    [event_queue_insert] appends. *)
Definition seqnum_sorted (l : list event) : Prop :=
  StronglySorted (fun a b => e_seqnum a < e_seqnum b) l.

(** [devpath_len] is what [event_queue_insert] stored. *)
Definition event_wf (e : event) : Prop := e_devpath_len e = strlen (e_devpath e).

(** [child] is [parent], a slash, and more. *)
Definition devpath_below (parent child : string) : Prop :=
  exists rest, child = String.append parent (String "/" rest).

(** No entry below the memoized sequence number depends-blocks its owner:
    what makes skipping those entries harmless. *)
Definition memo_sound (l : list event) : Prop :=
  forall E L, In E l -> In L l -> e_seqnum L < e_seqnum E ->
              dependency_step E L <> ScanContinue ->
              e_delaying_seqnum E <= e_seqnum L.

Definition memo_below (l : list event) : Prop :=
  forall E, In E l -> e_delaying_seqnum E = 0 \/ e_delaying_seqnum E < e_seqnum E.

(** ** Concrete devices and queues *)

Module Examples.

Definition device (seq : Z) (path : string) (old : option string)
           (devnum : Z) (subsystem : string) (ifindex : Z) : udev_device :=
  {| dev_seqnum := seq; dev_devpath := path; dev_devpath_old := old;
     dev_devnum := devnum; dev_subsystem := subsystem; dev_ifindex := ifindex;
     dev_action := "add" |}.

(** The broker at the start of the loop with the default timeouts and
    room for [n] workers. *)
Definition fresh (n : Z) : broker := broker_init n 180000000 60000000 false.

(** The queue after the uevents [ds] arrived, in this order. *)
Definition queued (n : Z) (ds : list udev_device) : broker :=
  foldl (fun b d => snd (event_queue_insert d true b)) (fresh n) ds.

(** Two character devices with unrelated paths whose device number has
    major 0 and minor 5. *)
Definition minor_a : udev_device := device 1 "/devices/a" None 5 "tty" 0.
Definition minor_b : udev_device := device 2 "/devices/b" None 5 "tty" 0.

(** Two block devices with unrelated paths and the device number 8:0. *)
Definition disk_a : udev_device := device 1 "/devices/a" None (makedev 8 0) "block" 0.
Definition disk_b : udev_device := device 2 "/devices/b" None (makedev 8 0) "block" 0.

(** A device and its child. *)
Definition pci : udev_device := device 10 "/devices/pci" None 0 "pci" 0.
Definition pci_a : udev_device := device 11 "/devices/pci/a" None 0 "usb" 0.

(** An environment in which every unicast send is accepted and a spawn
    forks the worker [pid]. *)
Definition spawn_env (pid : Z) : run_env :=
  {| send_count := fun _ => 0; spawn := Forked pid true; now_usec := 1000 |}.

(** An environment in which no worker accepts a device and a spawn forks
    the worker [pid]. *)
Definition refuse_env (pid : Z) : run_env :=
  {| send_count := fun _ => -1; spawn := Forked pid true; now_usec := 2000 |}.

(** An environment in which no worker accepts a device and fork fails. *)
Definition fork_fails_env : run_env :=
  {| send_count := fun _ => -1; spawn := ForkFailed; now_usec := 2000 |}.

(** The event for [pci] is running on the freshly forked worker 100. *)
Definition dispatched : broker :=
  default (fresh 2) (event_queue_start (fun _ => spawn_env 100) (queued 2 [pci])).

(** Worker 100 reported completion: it is idle and the queue is empty. *)
Definition idle : broker := on_worker [RecvMsg 0 (Some 100)] dispatched.

(** The uevent for [pci_a] arrives while worker 100 is idle. *)
Definition idle_queued : broker := on_uevent (Some pci_a) true idle.

(** The queue [pci; pci_a] after [is_devpath_busy] ran on the event for
    [pci_a]: that event has memoized the sequence number 10 of [pci]. *)
Definition checked : broker :=
  snd (is_devpath_busy (event_new 2 pci_a) (queued 2 [pci; pci_a])).

(** What an iteration reads when only the netlink socket is ready and it
    delivers the uevent for [pci]. *)
Definition uevent_input : loop_input :=
  {| in_epoll := Some [SrcNetlink]; in_now := 5000; in_config_changed := false;
     in_worker_msgs := []; in_uevent := Some pci; in_alloc_ok := true;
     in_rules_loadable := true; in_envs := fun _ => spawn_env 100;
     in_signal := None; in_reaped := []; in_inotify := None; in_fs_ok := true;
     in_ctrl := None |}.

(** The same iteration while the file system refuses the touch of the
    marker. *)
Definition readonly_input : loop_input :=
  {| in_epoll := Some [SrcNetlink]; in_now := 5000; in_config_changed := false;
     in_worker_msgs := []; in_uevent := Some pci; in_alloc_ok := true;
     in_rules_loadable := true; in_envs := fun _ => spawn_env 100;
     in_signal := None; in_reaped := []; in_inotify := None; in_fs_ok := false;
     in_ctrl := None |}.

End Examples.

(** Entries that the first comparison of the loop body passes over. *)
Definition not_below (s : Z) (L : event) : bool := negb (e_seqnum L <? s).

(** ** Reachable states and the pool invariant *)

(** The cross-links between the event list and the worker hashmap: the
    addresses of the listed events are distinct and were handed out by the
    allocator; a worker's [event] pointer leads to a listed event whose
    [worker] pointer leads back, and the other way round; a queued event has
    no worker; an idle worker has no event. *)
Record pool_inv (l : list event) (ws : gmap Z worker) (hn : nat) : Prop := {
  inv_nodup : NoDup (map e_ptr l);
  inv_heap : forall p e, find_event p l = Some e -> (p < hn)%nat;
  inv_worker_event : forall pid w p,
      ws !! pid = Some w -> w_event w = Some p ->
      exists e, find_event p l = Some e /\ e_worker e = Some pid;
  inv_event_worker : forall p e pid,
      find_event p l = Some e -> e_worker e = Some pid ->
      exists w, ws !! pid = Some w /\ w_event w = Some p;
  inv_queued : forall p e,
      find_event p l = Some e -> e_state e = EVENT_QUEUED -> e_worker e = None;
  inv_idle : forall pid w,
      ws !! pid = Some w -> w_state w = WORKER_IDLE -> w_event w = None
}.

Definition broker_inv (b : broker) : Prop :=
  pool_inv (event_list b) (workers b) (heap_next b).

(** One operation of the broker.  [delivers] says which devices the netlink
    socket may deliver in a given state. *)
Inductive step (delivers : broker -> udev_device -> Prop) : broker -> broker -> Prop :=
| step_uevent b d alloc_ok :
    delivers b d -> step delivers b (on_uevent (Some d) alloc_ok b)
| step_busy b ev :
    In ev (event_list b) -> step delivers b (snd (is_devpath_busy ev b))
| step_run b ev env b' :
    In ev (event_list b) -> e_state ev = EVENT_QUEUED ->
    event_run ev env b = Some b' -> step delivers b b'
| step_start b envs b' :
    event_queue_start envs b = Some b' -> step delivers b b'
| step_worker b incoming :
    step delivers b (on_worker incoming b)
| step_sigchld b reaped :
    step delivers b (on_sigchld reaped b)
| step_cleanup b match_type :
    step delivers b (event_queue_cleanup match_type b)
| step_kill b :
    step delivers b (worker_kill b)
| step_timeout b now b' :
    on_timeout now b = Some b' -> step delivers b b'
| step_ctrl b received :
    step delivers b (on_ctrl_msg received b)
| step_env b b' :      (* flags, log lines, the marker file *)
    event_list b' = event_list b -> workers b' = workers b ->
    heap_next b' = heap_next b -> step delivers b b'.

Inductive reachable (delivers : broker -> udev_device -> Prop) : broker -> Prop :=
| reach_init children_max timeout_usec warn_usec cgroup :
    reachable delivers (broker_init children_max timeout_usec warn_usec cgroup)
| reach_step b b' :
    reachable delivers b -> step delivers b b' -> reachable delivers b'.

(** No assumption on what the kernel sends. *)
Definition any_device (b : broker) (d : udev_device) : Prop := True.

(** The kernel numbers uevents in increasing order; a sequence number is
    an unsigned integer. *)
Definition in_order (b : broker) (d : udev_device) : Prop :=
  0 <= dev_seqnum d /\ forall e, In e (event_list b) -> e_seqnum e < dev_seqnum d.

(** The fields of an event that the dependency check reads, and the
    memoized sequence number, are those of [e]. *)
Definition keys_kept (e e' : event) : Prop :=
  e_ptr e' = e_ptr e /\ e_seqnum e' = e_seqnum e /\
  e_devpath e' = e_devpath e /\ e_devpath_len e' = e_devpath_len e /\
  e_devpath_old e' = e_devpath_old e /\ e_devnum e' = e_devnum e /\
  e_ifindex e' = e_ifindex e /\ e_is_block e' = e_is_block e /\
  e_delaying_seqnum e' = e_delaying_seqnum e.

(** What holds of the event list when uevents arrive in order: it is in
    seqnum order, its events are as [event_queue_insert] built them, and
    the memoized sequence numbers are sound. *)
Record queue_inv (l : list event) : Prop := {
  q_nodup : NoDup (map e_ptr l);
  q_sorted : seqnum_sorted l;
  q_wf : forall e, In e l -> event_wf e /\ 0 <= e_seqnum e;
  q_memo : memo_sound l;
  q_below : memo_below l
}.

(** The event handed to [event_run] is a listed event that is queued. *)
Definition queued_at (ev : event) (b : broker) : Prop :=
  exists e, find_event (e_ptr ev) (event_list b) = Some e /\ e_state e = EVENT_QUEUED.

(** The worker registered under [pid] is in state [WORKER_KILLED]. *)
Definition killed (pid : Z) (b : broker) : Prop :=
  exists w, workers b !! pid = Some w /\ w_state w = WORKER_KILLED.

(** What a call that turned [b] into [b'] and appended [appended] to the
    trace did about refused devices: a worker that refused the device of
    [ev] was sent SIGKILL and is killed; killed workers stay killed; the
    event is not newly attached to a killed worker. *)
Definition refusals_handled (ev : event) (b b' : broker) (appended : list effect) : Prop :=
  (forall pid count,
      In (EffSendDevice (Some pid) (e_dev ev) count) appended -> count < 0 ->
      In (EffKill pid SIGKILL) appended /\ killed pid b') /\
  (forall pid, killed pid b -> killed pid b') /\
  (forall pid e, killed pid b' ->
                 find_event (e_ptr ev) (event_list b') = Some e -> e_worker e = Some pid ->
                 exists e0, find_event (e_ptr ev) (event_list b) = Some e0 /\
                            e_worker e0 = Some pid).

(** The call handed [ev] to the worker [pid]: the event is as
    [worker_attach_event] leaves it at the time [now], running and
    pointing to the worker, and the worker is running and points back. *)
Definition attached_to (ev : event) (pid now : Z) (b' : broker) : Prop :=
  find_event (e_ptr ev) (event_list b') = Some (attach_to_worker pid now ev) /\
  exists w', workers b' !! pid = Some w' /\ w_state w' = WORKER_RUNNING /\
             w_event w' = Some (e_ptr ev).

(** Each worker among [pids] that was idle in [b] was sent the device of
    [ev], refused it, was sent SIGKILL and is killed in [b']. *)
Definition refused_and_killed (ev : event) (env : run_env) (pids : list Z)
           (b b' : broker) (appended : list effect) : Prop :=
  forall pid w, In pid pids -> workers b !! pid = Some w -> w_state w = WORKER_IDLE ->
                send_count env pid < 0 /\
                In (EffSendDevice (Some pid) (e_dev ev) (send_count env pid)) appended /\
                In (EffKill pid SIGKILL) appended /\ killed pid b'.

(** [event_run] gets no new worker: the pool is at [arg_children_max],
    or [worker_spawn] gets no monitor, or [fork] fails, or [worker_new]
    fails in the parent (no memory, or the pid is already a key of the
    hashmap). *)
Definition cannot_spawn (env : run_env) (b : broker) : Prop :=
  arg_children_max b <= hashmap_size b \/
  spawn env = MonitorFailed \/ spawn env = ForkFailed \/
  (exists pid, spawn env = Forked pid false) \/
  (exists pid alloc_ok w, spawn env = Forked pid alloc_ok /\ workers b !! pid = Some w).

(** The fields the dependency check reads are those of [e]. *)
Definition same_dev (e e' : event) : Prop :=
  e_seqnum e' = e_seqnum e /\
  e_devpath e' = e_devpath e /\ e_devpath_len e' = e_devpath_len e /\
  e_devpath_old e' = e_devpath_old e /\ e_devnum e' = e_devnum e /\
  e_ifindex e' = e_ifindex e /\ e_is_block e' = e_is_block e.

(** ** Predicates for the further properties *)

(** The kernel numbers uevents from 1, in increasing order. *)
Definition in_order_pos (b : broker) (d : udev_device) : Prop :=
  0 < dev_seqnum d /\ forall e, In e (event_list b) -> e_seqnum e < dev_seqnum d.

(** Sequence numbers are positive, and a memoized sequence number that
    is still in the list is that of an earlier entry on which one of the
    recording tests matches. *)
Record memo_inv (l : list event) : Prop := {
  m_pos : forall e, In e l -> 0 < e_seqnum e;
  m_genuine : forall E L, In E l -> In L l -> e_seqnum L = e_delaying_seqnum E ->
                          e_seqnum L < e_seqnum E /\
                          dependency_step E L = ScanTrueRecord
}.

(** An earlier entry on which one of the tests for devnum, ifindex, old
    name or devpath matches. *)
Definition depends_on (E L : event) : Prop :=
  e_seqnum L < e_seqnum E /\
  (dependency_step E L = ScanTrue \/ dependency_step E L = ScanTrueRecord).


(** While an entry numbered 0 is listed, no event has memoized a
    sequence number. *)
Definition zero_inv (l : list event) : Prop :=
  (exists L, In L l /\ e_seqnum L = 0) -> forall E, In E l -> e_delaying_seqnum E = 0.


(** The worker registered under [pid] is in a state other than
    [WORKER_KILLED]. *)
Definition not_killed (b : broker) (pid : Z) : bool :=
  match workers b !! pid with
  | Some w => negb (worker_state_eqb (w_state w) WORKER_KILLED)
  | None => false
  end.


(** The events that [event_queue_cleanup(match_type)] keeps. *)
Definition cleanup_keeps (match_type : event_state) (e : event) : bool :=
  negb (event_state_eqb match_type EVENT_UNDEF) &&
  negb (event_state_eqb match_type (e_state e)).

(** A message on the worker socket that [on_worker] drops: its size is
    not that of [struct worker_message], it carries no credentials or no
    positive pid, or its pid is not a key of the worker map [ws]. *)
Definition dropped_message (ws : gmap Z worker) (m : recv_result) : Prop :=
  match m with
  | RecvError _ => False
  | RecvMsg size ucred_pid =>
      size <> sizeof_worker_message \/
      match ucred_pid with
      | None => True
      | Some pid => pid <= 0 \/ ws !! pid = None
      end
  end.

Definition is_log (x : effect) : Prop := exists lvl msg, x = EffLog lvl msg.


(** What [event_queue_insert] captures from the device, with the address
    of the event. *)
Definition event_key (e : event)
  : nat * Z * string * nat * option string * Z * Z * bool :=
  (e_ptr e, e_seqnum e, e_devpath e, e_devpath_len e, e_devpath_old e,
   e_devnum e, e_ifindex e, e_is_block e).


(** The control messages that make [on_ctrl_msg] call [worker_kill]. *)
Definition ctrl_kills (m : ctrl_msg) : bool :=
  (ctrl_set_log_level m >=? 0) ||
  match ctrl_set_env m with Some _ => true | None => false end.

(** What of the state of the broker the main loop reads besides the
    worker map. *)
Definition ctrl_view (b : broker) : list event * bool * bool * bool * Z * bool :=
  (event_list b, queue_file b, stop_exec_queue b, reload b, arg_children_max b, udev_exit b).


(** A worker in state [WORKER_RUNNING] holds an event. *)
Definition running_has_event (ws : gmap Z worker) : Prop :=
  forall pid w, ws !! pid = Some w -> w_state w = WORKER_RUNNING -> w_event w <> None.

Definition pool_ok (b : broker) : Prop :=
  broker_inv b /\ running_has_event (workers b).

(** [fork] returns a pid above 1 to the parent: 0 is the child, 1 is
    init. *)
Definition forks_ok (envs : nat -> run_env) : Prop :=
  forall p pid alloc_ok, spawn (envs p) = Forked pid alloc_ok -> 1 < pid.

(** The states in which the main loop waits in [epoll_wait]. *)
Inductive at_wait : broker -> Prop :=
| wait_first children_max timeout_usec warn_usec cgroup fs_ok timeout b :
    main_loop_head fs_ok (broker_init children_max timeout_usec warn_usec cgroup) =
      HeadWait timeout b ->
    at_wait b
| wait_next b inp b1 fs_ok timeout b2 :
    at_wait b -> main_loop_body inp b = LoopNext b1 ->
    main_loop_head fs_ok b1 = HeadWait timeout b2 -> at_wait b2.


(** The "check for hanging events" loop, with the clock as each pass
    through the loop body reads it. *)
Definition check_hanging_events (clock : Z -> Z) (b : broker) : option broker :=
  foldl (fun ob pid => hanging_check_one (clock pid) ob pid) (Some b) (worker_pids b).


(** What the passes of the check for hanging events for the other
    workers keep of the worker [pid] and of its event at [p]. *)
Definition kept (pid : Z) (p : nat) (w : worker) (e : event) (x x' : broker)
           (app : list effect) : Prop :=
  workers x' !! pid = Some w /\ find_event p (event_list x') = Some e /\
  arg_event_timeout_usec x' = arg_event_timeout_usec x /\
  arg_event_timeout_warn_usec x' = arg_event_timeout_warn_usec x /\
  trace x' = trace x ++ app /\ ~ In (EffKill pid SIGKILL) app.


(** An event that is running depends on no event in the list. *)
Definition running_clear (l : list event) : Prop :=
  forall E L, In E l -> In L l -> e_state E = EVENT_RUNNING -> ~ depends_on E L.

(** One operation of the broker as the main loop performs it:
    [event_run] is called from [event_queue_start] only, and uevents
    arrive in the order of their sequence numbers. *)
Inductive loop_step : broker -> broker -> Prop :=
| loop_uevent b d alloc_ok :
    in_order b d -> loop_step b (on_uevent (Some d) alloc_ok b)
| loop_start b envs b' :
    event_queue_start envs b = Some b' -> loop_step b b'
| loop_worker b incoming :
    loop_step b (on_worker incoming b)
| loop_sigchld b reaped :
    loop_step b (on_sigchld reaped b)
| loop_cleanup b match_type :
    loop_step b (event_queue_cleanup match_type b)
| loop_kill b :
    loop_step b (worker_kill b)
| loop_timeout b now b' :
    on_timeout now b = Some b' -> loop_step b b'
| loop_ctrl b received :
    loop_step b (on_ctrl_msg received b)
| loop_env b b' :
    event_list b' = event_list b -> workers b' = workers b ->
    heap_next b' = heap_next b -> loop_step b b'.

Inductive scheduled : broker -> Prop :=
| sched_init children_max timeout_usec warn_usec cgroup :
    scheduled (broker_init children_max timeout_usec warn_usec cgroup)
| sched_step b b' :
    scheduled b -> loop_step b b' -> scheduled b'.


(** ** The forked child *)

(** [workers_free]: every worker is freed, then the hashmap. *)
Definition workers_free (b : broker) : broker :=
  set_workers ∅ (foldl (fun x pid => worker_free pid x) b (worker_pids b)).

(** What the child does to its copy of the state of the broker before it
    handles its first device. *)
Definition child_reset (b : broker) : broker :=
  event_queue_cleanup EVENT_UNDEF (workers_free b).

(** [startswith(s, prefix)] of util.h: the rest of [s] behind [prefix],
    NULL when [s] does not begin with [prefix]. *)
Fixpoint startswith (s prefix : string) : option string :=
  match prefix with
  | EmptyString => Some s
  | String c prefix' =>
      match s with
      | EmptyString => None
      | String d s' => if Ascii.eqb c d then startswith s' prefix' else None
      end
  end.

(** [streq_ptr] of util.h with a string literal for one of its arguments. *)
Definition streq_ptr (a : option string) (b : string) : bool :=
  match a with
  | Some s => streq s b
  | None => false
  end.

Definition is_some {A : Type} (o : option A) : bool :=
  match o with Some _ => true | None => false end.

(** What the child reads of the device it handles. *)
Record child_device := {
  cd_action : option string;
  cd_subsystem : option string;
  cd_sysname : string;
  cd_devtype : option string;
  cd_has_parent : bool           (* udev_device_get_parent() is not NULL *)
}.

(** The environment of one pass through the loop of the child. *)
Record child_env := {
  ce_event_new : bool;           (* udev_event_new() succeeds *)
  ce_open : Z;                   (* open() of the device node to lock *)
  ce_flock : Z;                  (* flock(fd_lock, LOCK_SH|LOCK_NB) *)
  ce_inotify_watch : bool;       (* udev_event->inotify_watch after the rules *)
  ce_send : Z;                   (* send() of the worker message *)
  ce_sigterm : bool              (* udev_event->sigterm *)
}.

Inductive child_effect :=
| CeLog (msg : string)
| CeOpen (of_parent : bool)      (* open() of the node of the device, or of its parent *)
| CeClose                        (* safe_close(fd_lock) of an open descriptor *)
| CeExecuteRules
| CeExecuteRun
| CeWatchBegin
| CeUpdateDb
| CeSendProcessed                (* udev_monitor_send_device(worker_monitor, NULL, dev) *)
| CeSendResult.                  (* send(worker_watch[WRITE_END], &msg, ...) *)

(** Where one pass ends: at [out] with the value of [r], or in the wait
    for the next device. *)
Inductive child_next :=
| ChildOut (r : Z)
| ChildWait (r : Z).

(** The test that guards the shared lock. *)
Definition takes_lock (dev : child_device) : bool :=
  negb (streq_ptr (cd_action dev) "remove") &&
  streq_ptr (cd_subsystem dev) "block" &&
  negb (is_some (startswith (cd_sysname dev) "dm-")) &&
  negb (is_some (startswith (cd_sysname dev) "md")).

(** From [skip:] to the wait for the next device. *)
Definition child_report (env : child_env) (done : list child_effect)
  : list child_effect * child_next :=
  let done1 := done ++ [CeLog "seq %llu processed"; CeSendResult] in
  let r := ce_send env in
  let done2 :=
    if r <? 0
    then done1 ++ [CeLog "failed to send result of seq %llu to main daemon: %m"]
    else done1 in
  if ce_sigterm env then (done2, ChildOut r) else (done2, ChildWait r).

(** One pass through the [for (;;)] loop of the child, up to the wait for
    the next device. *)
Definition child_handle_device (dev : child_device) (env : child_env)
  : list child_effect * child_next :=
  let t0 := [CeLog "seq %llu running"] in
  if negb (ce_event_new env) then (t0, ChildOut (-12))            (* -ENOMEM *)
  else
    let of_parent := streq_ptr (cd_devtype dev) "partition" in
    let has_d := if of_parent then cd_has_parent dev else true in
    let locking := takes_lock dev && has_d in
    let t1 := if locking then t0 ++ [CeOpen of_parent] else t0 in
    if locking && (ce_open env >=? 0) && (ce_flock env <? 0) then
      child_report env
        (t1 ++ [CeLog "Unable to flock(%s), skipping event handling: %m"; CeClose])
    else
      (* apply rules, create node, symlinks *)
      let t2 := t1 ++ [CeExecuteRules; CeExecuteRun] in
      (* apply/restore inotify watch *)
      let t3 := if ce_inotify_watch env then t2 ++ [CeWatchBegin; CeUpdateDb] else t2 in
      let t4 := if locking && (ce_open env >=? 0) then t3 ++ [CeClose] else t3 in
      (* send processed event back to libudev listeners *)
      child_report env (t4 ++ [CeSendProcessed]).

(** The exit status of the child that leaves through [out] with [r]. *)
Definition child_exit_status (r : Z) : Z := if r <? 0 then 1 else 0.

(** ** [synthesize_change] *)

Definition UTIL_PATH_SIZE : nat := 1024.

(** [strscpyl(filename, sizeof(filename), a, b, NULL)]: the concatenation,
    cut to fit the buffer with its terminator. *)
Definition strscpyl (size : nat) (a b : string) : string :=
  String.substring 0 (size - 1) (String.append a b).

Record sys_device := {
  sd_subsystem : option string;
  sd_devtype : option string;
  sd_sysname : string;
  sd_syspath : string
}.

(** One entry of the enumeration: what [udev_device_new_from_syspath]
    yields for it in the search for partitions and in the loop that
    writes. *)
Record enum_entry := {
  en_search : option sys_device;
  en_write : option sys_device
}.

Record change_env := {
  ch_open : Z;                          (* open() of the device node *)
  ch_flock : Z;                         (* flock(fd, LOCK_EX|LOCK_NB) *)
  ch_ioctl : Z;                         (* ioctl(fd, BLKRRPART, 0) *)
  ch_enumerate_new : bool;              (* udev_enumerate_new() succeeds *)
  ch_add_match_parent : Z;
  ch_add_match_subsystem : Z;
  ch_scan_devices : Z;
  ch_entries : list enum_entry
}.

Inductive change_effect :=
| ChLog (msg : string)
| ChWrite (file : string).              (* write_string_file(file, "change") *)

Definition is_partition (d : option sys_device) : bool :=
  match d with
  | Some x => streq_ptr (sd_devtype x) "partition"
  | None => false
  end.

(** The loop that searches for partitions: it breaks at the first. *)
Fixpoint has_partitions (entries : list enum_entry) : bool :=
  match entries with
  | [] => false
  | e :: rest => if is_partition (en_search e) then true else has_partitions rest
  end.

Definition uevent_file (d : sys_device) : string :=
  strscpyl UTIL_PATH_SIZE (sd_syspath d) "/uevent".

(** The loop that writes "change" for the partitions. *)
Fixpoint write_partitions (entries : list enum_entry) : list change_effect :=
  match entries with
  | [] => []
  | e :: rest =>
      match en_write e with
      | Some d =>
          if streq_ptr (sd_devtype d) "partition"
          then ChLog "device %s closed, synthesising partition '%s' 'change'"
                 :: ChWrite (uevent_file d) :: write_partitions rest
          else write_partitions rest
      | None => write_partitions rest
      end
  end.

(** The test for a whole disk that is not a device-mapper device. *)
Definition whole_disk (dev : sys_device) : bool :=
  streq_ptr (sd_subsystem dev) "block" &&
  streq_ptr (sd_devtype dev) "disk" &&
  negb (is_some (startswith (sd_sysname dev) "dm-")).

(** Whether the kernel re-read the partition table. *)
Definition part_table_read (env : change_env) : bool :=
  if ch_open env >=? 0 then
    let r := ch_flock env in
    let r := if r >=? 0 then ch_ioctl env else r in
    r >=? 0
  else false.

(** [synthesize_change(dev)]: the return value and what it logs and
    writes. *)
Definition synthesize_change (dev : sys_device) (env : change_env)
  : Z * list change_effect :=
  if whole_disk dev then
    (* search for partitions *)
    if negb (ch_enumerate_new env) then (-12, [])                 (* -ENOMEM *)
    else if ch_add_match_parent env <? 0 then (ch_add_match_parent env, [])
    else if ch_add_match_subsystem env <? 0 then (ch_add_match_subsystem env, [])
    else if ch_scan_devices env <? 0 then (ch_scan_devices env, [])
    else if part_table_read env && has_partitions (ch_entries env) then (0, [])
    else
      (0, ChLog "device %s closed, synthesising 'change'"
            :: ChWrite (uevent_file dev) :: write_partitions (ch_entries env))
  else
    (0, [ChLog "device %s closed, synthesising 'change'"; ChWrite (uevent_file dev)]).

(** The files written. *)
Definition written (effects : list change_effect) : list string :=
  flat_map (fun x => match x with ChWrite f => [f] | ChLog _ => [] end) effects.

(** ** Start-up *)

Definition SD_LISTEN_FDS_START : Z := 3.

(** The loop of [systemd_fds] over the descriptors from [fd] on;
    [is_seqpacket fd] and [is_netlink fd] are the values of
    [sd_is_socket(fd, AF_LOCAL, SOCK_SEQPACKET, -1)] and
    [sd_is_socket(fd, AF_NETLINK, SOCK_RAW, -1)]; [None] is [return -1]. *)
Fixpoint systemd_fds_loop (is_seqpacket is_netlink : Z -> Z) (count : nat) (fd : Z)
         (ctrl netlink : Z) : option (Z * Z) :=
  match count with
  | O => Some (ctrl, netlink)
  | S count' =>
      if negb (is_seqpacket fd =? 0) then
        if ctrl >=? 0 then None
        else systemd_fds_loop is_seqpacket is_netlink count' (fd + 1) fd netlink
      else if negb (is_netlink fd =? 0) then
        if netlink >=? 0 then None
        else systemd_fds_loop is_seqpacket is_netlink count' (fd + 1) ctrl fd
      else None
  end.

(** [systemd_fds]: [n] is what [sd_listen_fds] returns; [None] is the
    return value -1, [Some (ctrl, netlink)] the return value 0 with the two
    descriptors stored. *)
Definition systemd_fds (is_seqpacket is_netlink : Z -> Z) (n : Z) : option (Z * Z) :=
  if n <=? 0 then None
  else
    match systemd_fds_loop is_seqpacket is_netlink (Z.to_nat n) SD_LISTEN_FDS_START (-1) (-1) with
    | None => None
    | Some (ctrl, netlink) =>
        if (ctrl <? 0) || (netlink <? 0) then None else Some (ctrl, netlink)
    end.

Definition USEC_PER_SEC : Z := 1000000.

(** The globals that the command lines set. *)
Record settings := {
  s_max_level : Z;                       (* what log_set_max_level was last called with *)
  s_children_max : Z;                    (* unsigned arg_children_max *)
  s_exec_delay : Z;                      (* int arg_exec_delay *)
  s_event_timeout_usec : Z;              (* usec_t arg_event_timeout_usec *)
  s_event_timeout_warn_usec : Z;         (* usec_t arg_event_timeout_warn_usec *)
  s_warnings : list string
}.

(** The values of the globals before any command line is read. *)
Definition settings_init (max_level : Z) : settings :=
  {| s_max_level := max_level; s_children_max := 0; s_exec_delay := 0;
     s_event_timeout_usec := 180 * USEC_PER_SEC;
     s_event_timeout_warn_usec := 180 * USEC_PER_SEC / 3;
     s_warnings := [] |}.

Definition warn (msg : string) (s : settings) : settings :=
  {| s_max_level := s_max_level s; s_children_max := s_children_max s;
     s_exec_delay := s_exec_delay s;
     s_event_timeout_usec := s_event_timeout_usec s;
     s_event_timeout_warn_usec := s_event_timeout_warn_usec s;
     s_warnings := s_warnings s ++ [msg] |}.

(** The two stores that follow a successful [safe_atou64] of the event
    timeout, in [parse_proc_cmdline_item] and in [parse_argv] alike; [n]
    is the number parsed, [usec_t] has 64 bits. *)
Definition set_event_timeout (n : Z) (s : settings) : settings :=
  let timeout := (n * USEC_PER_SEC) mod 2 ^ 64 in
  {| s_max_level := s_max_level s; s_children_max := s_children_max s;
     s_exec_delay := s_exec_delay s;
     s_event_timeout_usec := timeout;
     s_event_timeout_warn_usec := if timeout / 3 =? 0 then 1 else timeout / 3;
     s_warnings := s_warnings s |}.

Section CommandLine.

(** The parsers of util.c: the number, or an error that leaves the
    variable as it is. *)
Variable util_log_priority : string -> Z.
Variable safe_atou : string -> option Z.
Variable safe_atoi : string -> option Z.
Variable safe_atou64 : string -> option Z.

(** [parse_proc_cmdline_item(key, value)]; it returns 0 on every path. *)
Definition parse_proc_cmdline_item (key : string) (value : option string) (s : settings)
  : settings :=
  match value with
  | None => s
  | Some value =>
      let key := match startswith key "rd." with Some rest => rest | None => key end in
      match startswith key "udev." with
      | None => s
      | Some key =>
          if streq key "log-priority" then
            {| s_max_level := util_log_priority value;
               s_children_max := s_children_max s; s_exec_delay := s_exec_delay s;
               s_event_timeout_usec := s_event_timeout_usec s;
               s_event_timeout_warn_usec := s_event_timeout_warn_usec s;
               s_warnings := s_warnings s |}
          else if streq key "children-max" then
            match safe_atou value with
            | Some n =>
                {| s_max_level := s_max_level s; s_children_max := n;
                   s_exec_delay := s_exec_delay s;
                   s_event_timeout_usec := s_event_timeout_usec s;
                   s_event_timeout_warn_usec := s_event_timeout_warn_usec s;
                   s_warnings := s_warnings s |}
            | None => warn "invalid udev.children-max ignored: %s" s
            end
          else if streq key "exec-delay" then
            match safe_atoi value with
            | Some n =>
                {| s_max_level := s_max_level s; s_children_max := s_children_max s;
                   s_exec_delay := n;
                   s_event_timeout_usec := s_event_timeout_usec s;
                   s_event_timeout_warn_usec := s_event_timeout_warn_usec s;
                   s_warnings := s_warnings s |}
            | None => warn "invalid udev.exec-delay ignored: %s" s
            end
          else if streq key "event-timeout" then
            match safe_atou64 value with
            | Some n => set_event_timeout n s
            | None => warn "invalid udev.event-timeout ignored: %s" s
            end
          else s
      end
  end.

End CommandLine.

(** The default of [main] for [arg_children_max]; [cpu_count] is
    [CPU_COUNT] of the affinity mask when [sched_getaffinity] succeeds.
    The variable is an [unsigned]. *)
Definition default_children_max (children_max : Z) (cpu_count : option Z) : Z :=
  if children_max =? 0 then
    match cpu_count with
    | Some n => (8 + n * 2) mod 2 ^ 32
    | None => 8
    end
  else children_max.


(** ** Predicates on what the child and [synthesize_change] do *)

Definition is_result (x : child_effect) : bool :=
  match x with CeSendResult => true | _ => false end.

Definition is_rules (x : child_effect) : bool :=
  match x with CeExecuteRules => true | _ => false end.

Definition is_processed (x : child_effect) : bool :=
  match x with CeSendProcessed => true | _ => false end.

(** The device node to lock could be opened and another process holds
    an exclusive lock on it. *)
Definition lock_contended (dev : child_device) (env : child_env) : bool :=
  takes_lock dev &&
  (if streq_ptr (cd_devtype dev) "partition" then cd_has_parent dev else true) &&
  (ce_open env >=? 0) && (ce_flock env <? 0).

(** The four calls that set up the enumeration succeed. *)
Definition enumerated (env : change_env) : bool :=
  ch_enumerate_new env && negb (ch_add_match_parent env <? 0) &&
  negb (ch_add_match_subsystem env <? 0) && negb (ch_scan_devices env <? 0).

(** The partitions among the entries, as the loop that writes sees them. *)
Definition partitions_to_write (entries : list enum_entry) : list sys_device :=
  flat_map (fun e => match en_write e with
                     | Some d => if streq_ptr (sd_devtype d) "partition" then [d] else []
                     | None => []
                     end) entries.

(** * Lemmas and theorems *)

(** ** C strings *)

Lemma char_at_append_l (a s : string) (i : nat) :
  (i < String.length a)%nat -> char_at (String.append a s) i = char_at a i.
Proof.
  revert i. induction a as [|c a IH]; intros i Hi; simpl in Hi; [lia|].
  destruct i as [|i]; [reflexivity|].
  unfold char_at in *. simpl. apply IH. lia.
Qed.

Lemma char_at_append_here (a : string) (c : ascii) (s : string) :
  char_at (String.append a (String c s)) (String.length a) = c.
Proof. induction a as [|d a IH]; [reflexivity|]. unfold char_at in *. simpl. exact IH. Qed.

Lemma char_at_end (a : string) : char_at a (String.length a) = Ascii.zero.
Proof. induction a as [|d a IH]; [reflexivity|]. unfold char_at in *. simpl. exact IH. Qed.

Lemma length_append_string (a s : string) :
  String.length (String.append a s) = (String.length a + String.length s)%nat.
Proof. induction a as [|c a IH]; simpl; [reflexivity | now rewrite IH]. Qed.

Lemma memcmp_from_prefix_r (a s : string) (n i : nat) :
  (i + n <= String.length a)%nat -> memcmp_from a (String.append a s) i n = 0.
Proof.
  revert i. induction n as [|n IH]; intros i Hi; simpl; [reflexivity|].
  rewrite char_at_append_l by lia. rewrite Ascii.eqb_refl. apply IH. lia.
Qed.

Lemma memcmp_from_prefix_l (a s : string) (n i : nat) :
  (i + n <= String.length a)%nat -> memcmp_from (String.append a s) a i n = 0.
Proof.
  revert i. induction n as [|n IH]; intros i Hi; simpl; [reflexivity|].
  rewrite char_at_append_l by lia. rewrite Ascii.eqb_refl. apply IH. lia.
Qed.

(** ** The scan of [is_devpath_busy] *)

Lemma busy_step_break (E L : event) :
  busy_step E L = ScanBreak -> e_seqnum E <= e_seqnum L.
Proof.
  unfold busy_step.
  destruct (e_seqnum L <? e_delaying_seqnum E); [discriminate|].
  destruct (e_seqnum L =? e_delaying_seqnum E); [discriminate|].
  destruct (e_seqnum L >=? e_seqnum E) eqn:Hge.
  - intros _. apply Z.geb_le in Hge. lia.
  - unfold dependency_step, devpath_step.
    repeat match goal with |- context [if ?c then _ else _] => destruct c end;
      discriminate.
Qed.

Lemma dependency_step_not_break (E L : event) : dependency_step E L <> ScanBreak.
Proof.
  unfold dependency_step, devpath_step.
  repeat match goal with |- context [if ?c then _ else _] => destruct c end;
    discriminate.
Qed.

(** Below the memoized number the step is [continue]; at it, [return
    true]; past both and below the own number, the dependency tests. *)
Lemma busy_step_tests (E L : event) :
  e_delaying_seqnum E < e_seqnum L -> e_seqnum L < e_seqnum E ->
  busy_step E L = dependency_step E L.
Proof.
  intros H1 H2. unfold busy_step.
  destruct (e_seqnum L <? e_delaying_seqnum E) eqn:A; [apply Z.ltb_lt in A; lia|].
  destruct (e_seqnum L =? e_delaying_seqnum E) eqn:B; [apply Z.eqb_eq in B; lia|].
  destruct (e_seqnum L >=? e_seqnum E) eqn:C; [apply Z.geb_le in C; lia|].
  reflexivity.
Qed.

(** An earlier entry on which the loop body returns true makes the whole
    scan return true, when the list is in order. *)
Lemma busy_scan_finds (E L : event) (l : list event) :
  seqnum_sorted l -> In L l -> e_seqnum L < e_seqnum E ->
  (busy_step E L = ScanTrue \/ busy_step E L = ScanTrueRecord) ->
  fst (busy_scan E l) = true.
Proof.
  intros Hs Hin Hlt Hstep. induction Hs as [|a l Hs IH Hall]; [destruct Hin|].
  simpl. destruct Hin as [->|Hin].
  - destruct Hstep as [-> | ->]; reflexivity.
  - destruct (busy_step E a) eqn:Ha; try reflexivity.
    + apply IH, Hin.
    + apply busy_step_break in Ha.
      rewrite List.Forall_forall in Hall. specialize (Hall L Hin). simpl in Hall. lia.
Qed.

Lemma busy_step_true_of_dependency (E L : event) :
  e_delaying_seqnum E <= e_seqnum L -> e_seqnum L < e_seqnum E ->
  dependency_step E L = ScanTrue \/ dependency_step E L = ScanTrueRecord ->
  busy_step E L = ScanTrue \/ busy_step E L = ScanTrueRecord.
Proof.
  intros H1 H2 Hd.
  destruct (Z.eq_dec (e_seqnum L) (e_delaying_seqnum E)) as [Heq|Hne].
  - left. unfold busy_step.
    destruct (e_seqnum L <? e_delaying_seqnum E) eqn:A; [apply Z.ltb_lt in A; lia|].
    apply Z.eqb_eq in Heq. now rewrite Heq.
  - rewrite busy_step_tests by lia. exact Hd.
Qed.

Lemma is_devpath_busy_fst (E : event) (b : broker) :
  fst (is_devpath_busy E b) = fst (busy_scan E (event_list b)).
Proof. unfold is_devpath_busy. now destruct (busy_scan E (event_list b)). Qed.

(** *** Same device number *)

Lemma dependency_step_devnum (E L : event) :
  major (e_devnum E) <> 0 -> e_devnum E = e_devnum L -> e_is_block E = e_is_block L ->
  dependency_step E L = ScanTrue.
Proof.
  intros Hm Hd Hb. unfold dependency_step.
  destruct (major (e_devnum E) =? 0) eqn:A; [apply Z.eqb_eq in A; contradiction|].
  rewrite <- Hd, <- Hb, Z.eqb_refl, Bool.eqb_reflx. reflexivity.
Qed.

(** The scan finds an earlier entry with the same device number, when
    the list is in order and the memoized number does not lie past it. *)
Lemma devnum_blocks_scan (b : broker) (E L : event) :
  seqnum_sorted (event_list b) ->
  In L (event_list b) ->
  e_seqnum L < e_seqnum E ->
  major (e_devnum E) <> 0 ->
  e_devnum E = e_devnum L ->
  e_is_block E = e_is_block L ->
  e_delaying_seqnum E <= e_seqnum L ->
  fst (is_devpath_busy E b) = true.
Proof.
  intros Hs Hin Hlt Hm Hd Hb Hmemo.
  rewrite is_devpath_busy_fst.
  apply (busy_scan_finds E L); auto.
  apply busy_step_true_of_dependency; auto.
  left. now apply dependency_step_devnum.
Qed.

(** *** Parent and child devices *)

Lemma devpath_below_length (p c : string) :
  devpath_below p c -> (String.length p < String.length c)%nat.
Proof. intros [rest ->]. rewrite length_append_string. simpl. lia. Qed.

(** The entry is an ancestor of the event: the "parent device event
    found" test fires unless an earlier test already returned true. *)
Lemma dependency_step_parent (E L : event) :
  event_wf E -> event_wf L -> devpath_below (e_devpath L) (e_devpath E) ->
  dependency_step E L = ScanTrue \/ dependency_step E L = ScanTrueRecord.
Proof.
  intros HE HL Hbelow. pose proof (devpath_below_length _ _ Hbelow) as Hlen.
  destruct Hbelow as [rest Hrest].
  unfold dependency_step.
  destruct (_ && _ && _); [now left|].
  destruct (_ && _); [now left|].
  destruct (match e_devpath_old E with Some _ => _ | None => _ end); [now right|].
  right. unfold devpath_step. rewrite HE, HL. unfold strlen.
  rewrite Nat.min_l by lia.
  unfold memcmp. rewrite Hrest at 1. rewrite memcmp_from_prefix_r by lia. simpl.
  destruct (Nat.eqb_spec (String.length (e_devpath L)) (String.length (e_devpath E)));
    [lia|].
  rewrite Hrest at 1. rewrite char_at_append_here. reflexivity.
Qed.

(** The entry is a descendant of the event: the "child device event
    found" test fires. *)
Lemma dependency_step_child (E L : event) :
  event_wf E -> event_wf L -> devpath_below (e_devpath E) (e_devpath L) ->
  dependency_step E L = ScanTrue \/ dependency_step E L = ScanTrueRecord.
Proof.
  intros HE HL Hbelow. pose proof (devpath_below_length _ _ Hbelow) as Hlen.
  destruct Hbelow as [rest Hrest].
  unfold dependency_step.
  destruct (_ && _ && _); [now left|].
  destruct (_ && _); [now left|].
  destruct (match e_devpath_old E with Some _ => _ | None => _ end); [now right|].
  right. unfold devpath_step. rewrite HE, HL. unfold strlen.
  rewrite Nat.min_r by lia.
  unfold memcmp. rewrite Hrest at 1. rewrite memcmp_from_prefix_l by lia. simpl.
  destruct (Nat.eqb_spec (String.length (e_devpath L)) (String.length (e_devpath E)));
    [lia|].
  rewrite char_at_end. simpl.
  rewrite Hrest at 1. rewrite char_at_append_here. reflexivity.
Qed.

Lemma seqnum_sorted_inj (l : list event) (A B : event) :
  seqnum_sorted l -> In A l -> In B l -> e_seqnum A = e_seqnum B -> A = B.
Proof.
  intros Hs. induction Hs as [|a l Hs IH Hall]; intros HA HB Heq; [destruct HA|].
  rewrite List.Forall_forall in Hall.
  destruct HA as [<-|HA], HB as [<-|HB]; auto.
  - specialize (Hall _ HB). simpl in Hall. lia.
  - specialize (Hall _ HA). simpl in Hall. lia.
Qed.

(** Of two listed events of which one's devpath is the other's followed
    by a slash and more, the scan on the later one finds the earlier one,
    when the list is in order and neither has memoized a number past the
    other. *)
Lemma prefix_blocks_scan (b : broker) (A B : event) :
  seqnum_sorted (event_list b) ->
  In A (event_list b) -> In B (event_list b) ->
  event_wf A -> event_wf B ->
  devpath_below (e_devpath A) (e_devpath B) ->
  (e_seqnum A < e_seqnum B -> e_delaying_seqnum B <= e_seqnum A) ->
  (e_seqnum B < e_seqnum A -> e_delaying_seqnum A <= e_seqnum B) ->
  (e_seqnum A < e_seqnum B /\ fst (is_devpath_busy B b) = true) \/
  (e_seqnum B < e_seqnum A /\ fst (is_devpath_busy A b) = true).
Proof.
  intros Hs HA HB HwA HwB Hbelow HmB HmA.
  assert (Hne : e_seqnum A <> e_seqnum B).
  { intros Heq. apply (seqnum_sorted_inj _ _ _ Hs HA HB) in Heq. subst B.
    apply devpath_below_length in Hbelow. lia. }
  destruct (Z.lt_total (e_seqnum A) (e_seqnum B)) as [Hlt|[Heq|Hgt]]; [|contradiction|].
  - left. split; [exact Hlt|]. rewrite is_devpath_busy_fst.
    apply (busy_scan_finds B A); auto.
    apply busy_step_true_of_dependency; auto.
    now apply dependency_step_parent.
  - right. split; [exact Hgt|]. rewrite is_devpath_busy_fst.
    apply (busy_scan_finds A B); auto.
    apply busy_step_true_of_dependency; auto.
    now apply dependency_step_child.
Qed.

(** *** The memoized scan *)

Lemma busy_step_below (E L : event) :
  e_seqnum L < e_delaying_seqnum E -> busy_step E L = ScanContinue.
Proof. intros H. unfold busy_step. apply Z.ltb_lt in H. now rewrite H. Qed.

Lemma busy_step_at (E L : event) :
  e_seqnum L = e_delaying_seqnum E -> busy_step E L = ScanTrue.
Proof.
  intros H. unfold busy_step. rewrite H, Z.ltb_irrefl, Z.eqb_refl. reflexivity.
Qed.

Lemma busy_step_past (E L : event) :
  e_delaying_seqnum E < e_seqnum E -> e_seqnum E <= e_seqnum L ->
  busy_step E L = ScanBreak.
Proof.
  intros H1 H2. unfold busy_step.
  destruct (e_seqnum L <? e_delaying_seqnum E) eqn:A; [apply Z.ltb_lt in A; lia|].
  destruct (e_seqnum L =? e_delaying_seqnum E) eqn:B; [apply Z.eqb_eq in B; lia|].
  destruct (e_seqnum L >=? e_seqnum E) eqn:C; [reflexivity|].
  rewrite Z.geb_leb in C. apply Z.leb_gt in C. lia.
Qed.

Lemma busy_scan_skips (E : event) (l : list event) :
  busy_scan E l = busy_scan E (filter (not_below (e_delaying_seqnum E)) l).
Proof.
  induction l as [|L l IH]; [reflexivity|].
  unfold filter. simpl. fold (filter (not_below (e_delaying_seqnum E)) l).
  destruct (decide (not_below (e_delaying_seqnum E) L)) as [H|H].
  - simpl. rewrite IH. reflexivity.
  - rewrite busy_step_below; [exact IH|].
    unfold not_below in H. destruct (e_seqnum L <? e_delaying_seqnum E) eqn:A.
    + now apply Z.ltb_lt.
    + exfalso. apply H. reflexivity.
Qed.

Lemma busy_scan_continue_prefix (E : event) (pre l : list event) :
  (forall x, In x pre -> busy_step E x = ScanContinue) ->
  busy_scan E (pre ++ l) = busy_scan E l.
Proof.
  induction pre as [|x pre IH]; intros H; [reflexivity|].
  simpl. rewrite (H x) by (left; reflexivity).
  apply IH. intros y Hy. apply H. right. exact Hy.
Qed.

Lemma busy_scan_memoized_present (E L : event) (l : list event) :
  seqnum_sorted l -> In L l -> e_seqnum L = e_delaying_seqnum E ->
  busy_scan E l = (true, E).
Proof.
  intros Hs Hin Heq. induction Hs as [|a l Hs IH Hall]; [destruct Hin|].
  simpl. destruct Hin as [->|Hin].
  - now rewrite busy_step_at.
  - rewrite busy_step_below; [now apply IH|].
    rewrite List.Forall_forall in Hall. specialize (Hall L Hin). simpl in Hall. lia.
Qed.

(** *** What the scan records *)

(** The first entry on which the loop body does not [continue] decides
    the call. *)
Lemma busy_scan_first (E L : event) (pre rest : list event) :
  (forall x, In x pre -> busy_step E x = ScanContinue) ->
  busy_scan E (pre ++ L :: rest) =
  match busy_step E L with
  | ScanContinue => busy_scan E rest
  | ScanBreak => (false, E)
  | ScanTrue => (true, E)
  | ScanTrueRecord => (true, set_delaying_seqnum (e_seqnum L) E)
  end.
Proof. intros H. now rewrite busy_scan_continue_prefix. Qed.

(** The old-name test and the three devpath tests store the sequence
    number of the entry found. *)
Lemma busy_scan_records (E L : event) (pre rest : list event) :
  (forall x, In x pre -> busy_step E x = ScanContinue) ->
  busy_step E L = ScanTrueRecord ->
  busy_scan E (pre ++ L :: rest) = (true, set_delaying_seqnum (e_seqnum L) E).
Proof. intros H HL. rewrite busy_scan_first by exact H. now rewrite HL. Qed.

(** The device-number test and the ifindex test return without a store. *)
Lemma busy_scan_no_record (E L : event) (pre rest : list event) :
  (forall x, In x pre -> busy_step E x = ScanContinue) ->
  busy_step E L = ScanTrue ->
  busy_scan E (pre ++ L :: rest) = (true, E).
Proof. intros H HL. rewrite busy_scan_first by exact H. now rewrite HL. Qed.

(** C2, the code at the failing input: the later of two block devices
    numbered 8:0 is found busy because of the earlier one (the
    device-number test is the first to match), and the call leaves the
    broker, and with it [delaying_seqnum] of the event, as it was: zero, not
    the sequence number 1 of the blocker. *)
Lemma C2_devnum_match_not_recorded :
  let b := Examples.queued 2 [Examples.disk_a; Examples.disk_b] in
  let L := event_new 1 Examples.disk_a in
  let E := event_new 2 Examples.disk_b in
  event_list b = [L; E] /\
  busy_step E L = ScanTrue /\ dependency_step E L = ScanTrue /\
  is_devpath_busy E b = (true, b) /\
  find_event (e_ptr E) (event_list (snd (is_devpath_busy E b))) = Some E /\
  e_delaying_seqnum E = 0 /\ e_seqnum L = 1.
Proof. cbv zeta. repeat apply conj; vm_compute; reflexivity. Qed.

(** ** Pointers into the event list *)

Lemma find_event_ptr (p : nat) (l : list event) (e : event) :
  find_event p l = Some e -> e_ptr e = p.
Proof.
  induction l as [|a l IH]; simpl; [discriminate|].
  destruct (Nat.eqb_spec (e_ptr a) p); [intros [= <-]; assumption | exact IH].
Qed.

Lemma find_event_In (p : nat) (l : list event) (e : event) :
  find_event p l = Some e -> In e l.
Proof.
  induction l as [|a l IH]; simpl; [discriminate|].
  destruct (Nat.eqb (e_ptr a) p); [intros [= <-]; now left | intros H; right; auto].
Qed.

Lemma find_event_None (p : nat) (l : list event) :
  find_event p l = None <-> ~ In p (map e_ptr l).
Proof.
  induction l as [|a l IH]; simpl; [tauto|].
  destruct (Nat.eqb_spec (e_ptr a) p); split; try discriminate; tauto.
Qed.

Lemma NoDup_ptr_cons (a : event) (l : list event) :
  NoDup (map e_ptr (a :: l)) <-> ~ In (e_ptr a) (map e_ptr l) /\ NoDup (map e_ptr l).
Proof. simpl. rewrite NoDup_cons, list_elem_of_In. reflexivity. Qed.

Lemma find_event_of_In (l : list event) (e : event) :
  NoDup (map e_ptr l) -> In e l -> find_event (e_ptr e) l = Some e.
Proof.
  induction l as [|a l IH]; intros Hnd Hin; [destruct Hin|].
  apply NoDup_ptr_cons in Hnd as [Hnotin Hnd]. simpl.
  destruct Hin as [->|Hin]; [now rewrite Nat.eqb_refl|].
  destruct (Nat.eqb_spec (e_ptr a) (e_ptr e)) as [Heq|_]; [|auto].
  exfalso. apply Hnotin. rewrite Heq. now apply in_map.
Qed.

Lemma map_ptr_update (p : nat) (f : event -> event) (l : list event) :
  (forall e, e_ptr (f e) = e_ptr e) ->
  map e_ptr (update_event p f l) = map e_ptr l.
Proof.
  intros Hf. induction l as [|a l IH]; [reflexivity|]. simpl.
  destruct (Nat.eqb (e_ptr a) p); simpl; [now rewrite Hf | now rewrite IH].
Qed.

Lemma find_update (p q : nat) (f : event -> event) (l : list event) :
  (forall e, e_ptr (f e) = e_ptr e) ->
  find_event q (update_event p f l) =
  if Nat.eqb q p then option_map f (find_event q l) else find_event q l.
Proof.
  intros Hf. induction l as [|a l IH]; simpl; [now destruct (Nat.eqb q p)|].
  destruct (Nat.eqb_spec (e_ptr a) p) as [Hap|Hap]; simpl.
  - rewrite Hf. destruct (Nat.eqb_spec (e_ptr a) q) as [Haq|Haq].
    + subst. now rewrite Nat.eqb_refl.
    + destruct (Nat.eqb_spec q p); [congruence | reflexivity].
  - destruct (Nat.eqb_spec (e_ptr a) q) as [Haq|Haq].
    + destruct (Nat.eqb_spec q p); [congruence | reflexivity].
    + exact IH.
Qed.

Lemma update_event_id (p : nat) (f : event -> event) (l : list event) :
  (forall e, In e l -> e_ptr e = p -> f e = e) -> update_event p f l = l.
Proof.
  induction l as [|a l IH]; intros H; [reflexivity|]. simpl.
  destruct (Nat.eqb_spec (e_ptr a) p).
  - rewrite H; auto. now left.
  - rewrite IH; auto. intros e He. apply H. now right.
Qed.

Lemma find_remove (p q : nat) (l : list event) :
  NoDup (map e_ptr l) ->
  find_event q (remove_event p l) = if Nat.eqb q p then None else find_event q l.
Proof.
  induction l as [|a l IH]; intros Hnd; simpl; [now destruct (Nat.eqb q p)|].
  apply NoDup_ptr_cons in Hnd as [Hnotin Hnd].
  destruct (Nat.eqb_spec (e_ptr a) p) as [Hap|Hap].
  - destruct (Nat.eqb_spec q p) as [->|Hqp].
    + apply find_event_None. now rewrite <- Hap.
    + destruct (Nat.eqb_spec (e_ptr a) q); [congruence | reflexivity].
  - simpl. destruct (Nat.eqb_spec (e_ptr a) q) as [Haq|Haq].
    + destruct (Nat.eqb_spec q p); [congruence | reflexivity].
    + now apply IH.
Qed.

Lemma In_ptr_remove (p q : nat) (l : list event) :
  In q (map e_ptr (remove_event p l)) -> In q (map e_ptr l).
Proof.
  induction l as [|a l IH]; simpl; [tauto|].
  destruct (Nat.eqb (e_ptr a) p); simpl; tauto.
Qed.

Lemma NoDup_ptr_remove (p : nat) (l : list event) :
  NoDup (map e_ptr l) -> NoDup (map e_ptr (remove_event p l)).
Proof.
  induction l as [|a l IH]; intros Hnd; [exact Hnd|].
  apply NoDup_ptr_cons in Hnd as [Hnotin Hnd]. simpl.
  destruct (Nat.eqb (e_ptr a) p); [exact Hnd|].
  apply NoDup_ptr_cons. split; [|auto].
  intros H. apply Hnotin. now apply In_ptr_remove in H.
Qed.

Lemma find_snoc (q : nat) (l : list event) (e : event) :
  find_event q (l ++ [e]) =
  match find_event q l with
  | Some x => Some x
  | None => if Nat.eqb (e_ptr e) q then Some e else None
  end.
Proof.
  induction l as [|a l IH]; simpl; [reflexivity|].
  destruct (Nat.eqb (e_ptr a) q); [reflexivity | exact IH].
Qed.

Lemma NoDup_ptr_snoc (l : list event) (e : event) :
  NoDup (map e_ptr l) -> ~ In (e_ptr e) (map e_ptr l) ->
  NoDup (map e_ptr (l ++ [e])).
Proof.
  induction l as [|a l IH]; intros Hnd Hnotin; simpl.
  - apply NoDup_singleton.
  - apply NoDup_ptr_cons in Hnd as [Ha Hnd].
    change (NoDup (map e_ptr (a :: (l ++ [e])))). apply NoDup_ptr_cons. split.
    + rewrite map_app, in_app_iff. simpl in *. intros [H|[H|[]]]; [tauto|].
      apply Hnotin. left. symmetry. exact H.
    + apply IH; [exact Hnd|]. simpl in Hnotin. tauto.
Qed.

(** ** The pool invariant under the elementary stores *)

Section PoolInvariant.

Variables (l : list event) (ws : gmap Z worker) (hn : nat).
Hypothesis Hinv : pool_inv l ws hn.

(** A store to an event that leaves its address and its worker pointer
    alone, and marks it queued only when it has no worker. *)
Lemma pool_inv_update (p : nat) (f : event -> event) :
  (forall e, e_ptr (f e) = e_ptr e) ->
  (forall e, e_worker (f e) = e_worker e) ->
  (forall e, find_event p l = Some e ->
             e_state (f e) = EVENT_QUEUED -> e_state e = EVENT_QUEUED \/ e_worker e = None) ->
  pool_inv (update_event p f l) ws hn.
Proof.
  intros Hptr Hw Hq. destruct Hinv as [Hnd Hheap Hwe Hew Hqd Hidle]. constructor.
  - now rewrite map_ptr_update.
  - intros q e. rewrite find_update by exact Hptr.
    destruct (Nat.eqb q p); [|apply Hheap].
    destruct (find_event q l) as [e0|] eqn:He0; [|discriminate].
    intros _. now apply (Hheap q e0).
  - intros pid w q Hpid Hev. destruct (Hwe pid w q Hpid Hev) as [e [He Hwk]].
    rewrite find_update by exact Hptr. rewrite He.
    destruct (Nat.eqb q p); simpl; eauto.
    exists (f e). now rewrite Hw.
  - intros q e pid. rewrite find_update by exact Hptr.
    destruct (Nat.eqb q p); [|apply Hew].
    destruct (find_event q l) as [e0|] eqn:He0; [|discriminate].
    simpl. intros [= <-]. rewrite Hw. now apply Hew.
  - intros q e. rewrite find_update by exact Hptr.
    destruct (Nat.eqb_spec q p) as [->|Hne]; [|apply Hqd].
    destruct (find_event p l) as [e0|] eqn:He0; [|discriminate].
    simpl. intros [= <-] Hst. rewrite Hw.
    destruct (Hq e0 eq_refl Hst) as [H|H]; [now apply (Hqd p) | exact H].
  - exact Hidle.
Qed.

(** A store to the state of a worker, which makes it idle only when it
    has no event. *)
Lemma pool_inv_set_state (pid : Z) (s : worker_state) :
  (s = WORKER_IDLE -> forall w, ws !! pid = Some w -> w_event w = None) ->
  pool_inv l (alter (set_w_state s) pid ws) hn.
Proof.
  intros Hs. destruct Hinv as [Hnd Hheap Hwe Hew Hqd Hidle]. constructor; auto.
  - intros pid0 w q. rewrite lookup_alter. destruct (decide (pid = pid0)) as [<-|Hne].
    + destruct (ws !! pid) as [w0|] eqn:Hw0; [|discriminate].
      simpl. intros [= <-]. simpl. now apply Hwe.
    + apply Hwe.
  - intros q e pid0 He Hwk. destruct (Hew q e pid0 He Hwk) as [w [Hw Hev]].
    rewrite lookup_alter. destruct (decide (pid = pid0)) as [<-|Hne]; [|eauto].
    rewrite Hw. simpl. eauto.
  - intros pid0 w. rewrite lookup_alter. destruct (decide (pid = pid0)) as [<-|Hne].
    + destruct (ws !! pid) as [w0|] eqn:Hw0; [|discriminate].
      simpl. intros [= <-]. simpl. intros ->. now apply (Hs eq_refl).
    + apply Hidle.
Qed.

(** Taking the event at [p] off the list and clearing the pointer its
    worker holds. *)
Lemma pool_inv_free (p : nat) (e : event) :
  find_event p l = Some e ->
  pool_inv (remove_event p l)
           (match e_worker e with
            | Some pid => alter (set_w_event None) pid ws
            | None => ws
            end) hn.
Proof.
  intros He. destruct Hinv as [Hnd Hheap Hwe Hew Hqd Hidle].
  assert (Hfind : forall q x, find_event q (remove_event p l) = Some x ->
                              q <> p /\ find_event q l = Some x).
  { intros q x. rewrite find_remove by exact Hnd.
    destruct (Nat.eqb_spec q p); [discriminate | auto]. }
  assert (Hkeep : forall q x, q <> p -> find_event q l = Some x ->
                              find_event q (remove_event p l) = Some x).
  { intros q x Hq Hx. rewrite find_remove by exact Hnd.
    destruct (Nat.eqb_spec q p); [contradiction | exact Hx]. }
  constructor.
  - now apply NoDup_ptr_remove.
  - intros q x Hx. apply Hfind in Hx as [_ Hx]. eauto.
  - intros pid0 w q Hw Hev.
    assert (Hold : ws !! pid0 = Some w /\ e_worker e <> Some pid0).
    { destruct (e_worker e) as [pid|]; [|split; [exact Hw | discriminate]].
      rewrite lookup_alter in Hw. destruct (decide (pid = pid0)) as [<-|Hne].
      - destruct (ws !! pid); [|discriminate]. simpl in Hw.
        injection Hw as <-. discriminate.
      - split; [exact Hw | congruence]. }
    destruct Hold as [Hw0 Hnot].
    destruct (Hwe pid0 w q Hw0 Hev) as [x [Hx Hxw]].
    exists x. split; [|exact Hxw]. apply Hkeep; [|exact Hx].
    intros ->. rewrite He in Hx. injection Hx as <-. contradiction.
  - intros q x pid0 Hx Hxw. apply Hfind in Hx as [Hq Hx].
    destruct (Hew q x pid0 Hx Hxw) as [w [Hw Hev]].
    destruct (e_worker e) as [pid|] eqn:Hewk; [|eauto].
    rewrite lookup_alter. destruct (decide (pid = pid0)) as [<-|Hne]; [|eauto].
    destruct (Hew p e pid He Hewk) as [w' [Hw' Hev']]. congruence.
  - intros q x Hx. apply Hfind in Hx as [_ Hx]. eauto.
  - intros pid0 w Hw.
    destruct (e_worker e) as [pid|]; [|eauto].
    rewrite lookup_alter in Hw. destruct (decide (pid = pid0)) as [<-|Hne]; [|eauto].
    destruct (ws !! pid); [|discriminate]. simpl in Hw. injection Hw as <-. reflexivity.
Qed.

(** Dropping from the hashmap a worker that no event points to. *)
Lemma pool_inv_delete (pid : Z) :
  (forall q e, find_event q l = Some e -> e_worker e <> Some pid) ->
  pool_inv l (delete pid ws) hn.
Proof.
  intros Hfree. destruct Hinv as [Hnd Hheap Hwe Hew Hqd Hidle]. constructor; auto.
  - intros pid0 w q. rewrite lookup_delete.
    destruct (decide (pid = pid0)); [discriminate | apply Hwe].
  - intros q e pid0 He Hwk. destruct (Hew q e pid0 He Hwk) as [w [Hw Hev]].
    rewrite lookup_delete. destruct (decide (pid = pid0)) as [<-|Hne]; [|eauto].
    exfalso. exact (Hfree q e He Hwk).
  - intros pid0 w. rewrite lookup_delete.
    destruct (decide (pid = pid0)); [discriminate | apply Hidle].
Qed.

(** The stores of [worker_attach_event] when its assertions hold. *)
Lemma pool_inv_attach (pid : Z) (w : worker) (p : nat) (e : event) (now : Z) :
  ws !! pid = Some w -> w_event w = None ->
  find_event p l = Some e -> e_worker e = None ->
  pool_inv (update_event p (attach_to_worker pid now) l)
           (<[pid := {| w_pid := w_pid w; w_state := WORKER_RUNNING; w_event := Some p |}]> ws)
           hn.
Proof.
  intros Hw Hev He Hewk. destruct Hinv as [Hnd Hheap Hwe Hew Hqd Hidle].
  assert (Hptr : forall x, e_ptr (attach_to_worker pid now x) = e_ptr x) by reflexivity.
  constructor.
  - now rewrite map_ptr_update.
  - intros q x. rewrite find_update by exact Hptr.
    destruct (Nat.eqb q p); [|apply Hheap].
    destruct (find_event q l) as [x0|] eqn:Hx0; [|discriminate].
    intros _. now apply (Hheap q x0).
  - intros pid0 w0 q. rewrite lookup_insert. destruct (decide (pid = pid0)) as [<-|Hne].
    + intros [= <-]. simpl. intros [= <-].
      rewrite find_update by exact Hptr. rewrite Nat.eqb_refl, He. simpl. eauto.
    + intros Hw0 Hev0. destruct (Hwe pid0 w0 q Hw0 Hev0) as [x [Hx Hxw]].
      exists x. split; [|exact Hxw].
      rewrite find_update by exact Hptr.
      destruct (Nat.eqb_spec q p) as [->|_]; [congruence | exact Hx].
  - intros q x pid0. rewrite find_update by exact Hptr.
    destruct (Nat.eqb_spec q p) as [->|Hq].
    + rewrite He. simpl. intros [= <-]. simpl. intros [= <-].
      rewrite lookup_insert_eq. eauto.
    + intros Hx Hxw. destruct (Hew q x pid0 Hx Hxw) as [w0 [Hw0 Hev0]].
      rewrite lookup_insert. destruct (decide (pid = pid0)) as [<-|Hne]; [congruence | eauto].
  - intros q x. rewrite find_update by exact Hptr.
    destruct (Nat.eqb_spec q p) as [->|Hq]; [|apply Hqd].
    rewrite He. simpl. intros [= <-]. simpl. discriminate.
  - intros pid0 w0. rewrite lookup_insert. destruct (decide (pid = pid0)) as [<-|Hne].
    + intros [= <-]. simpl. discriminate.
    + apply Hidle.
Qed.

(** The [hashmap_put] of [worker_new]. *)
Lemma pool_inv_new_worker (pid : Z) (s : worker_state) :
  ws !! pid = None -> s <> WORKER_IDLE ->
  pool_inv l (<[pid := {| w_pid := pid; w_state := s; w_event := None |}]> ws) hn.
Proof.
  intros Hnone Hs. destruct Hinv as [Hnd Hheap Hwe Hew Hqd Hidle]. constructor; auto.
  - intros pid0 w q. rewrite lookup_insert. destruct (decide (pid = pid0)) as [<-|Hne].
    + intros [= <-]. discriminate.
    + apply Hwe.
  - intros q e pid0 He Hwk. destruct (Hew q e pid0 He Hwk) as [w [Hw Hev]].
    rewrite lookup_insert. destruct (decide (pid = pid0)) as [<-|Hne]; [congruence | eauto].
  - intros pid0 w. rewrite lookup_insert. destruct (decide (pid = pid0)) as [<-|Hne].
    + intros [= <-]. reflexivity.
    + apply Hidle.
Qed.

(** The append of [event_queue_insert]. *)
Lemma pool_inv_insert (d : udev_device) :
  pool_inv (l ++ [event_new hn d]) ws (S hn).
Proof.
  destruct Hinv as [Hnd Hheap Hwe Hew Hqd Hidle].
  assert (Hfresh : find_event hn l = None).
  { destruct (find_event hn l) as [x|] eqn:Hx; [|reflexivity].
    apply Hheap in Hx. lia. }
  constructor.
  - apply NoDup_ptr_snoc; [exact Hnd|]. simpl. now apply find_event_None.
  - intros q x. rewrite find_snoc. destruct (find_event q l) as [x0|] eqn:Hx0.
    + intros _. apply Hheap in Hx0. lia.
    + simpl. destruct (Nat.eqb_spec hn q); [intros _; lia | discriminate].
  - intros pid w q Hw Hev. destruct (Hwe pid w q Hw Hev) as [x [Hx Hxw]].
    exists x. rewrite find_snoc, Hx. auto.
  - intros q x pid. rewrite find_snoc. destruct (find_event q l) as [x0|] eqn:Hx0.
    + intros [= <-]. apply (Hew q x0 pid Hx0).
    + simpl. destruct (Nat.eqb hn q); [|discriminate]. intros [= <-]. discriminate.
  - intros q x. rewrite find_snoc. destruct (find_event q l) as [x0|] eqn:Hx0.
    + intros [= <-]. apply (Hqd q x0 Hx0).
    + simpl. destruct (Nat.eqb hn q); [|discriminate]. intros [= <-]. reflexivity.
  - exact Hidle.
Qed.

End PoolInvariant.

(** ** The pool invariant under the operations of the broker *)

Lemma broker_inv_env (b b' : broker) :
  event_list b' = event_list b -> workers b' = workers b -> heap_next b' = heap_next b ->
  broker_inv b -> broker_inv b'.
Proof. unfold broker_inv. now intros -> -> ->. Qed.

Lemma foldl_preserves {A B : Type} (P : A -> Prop) (f : A -> B -> A) (xs : list B) (a : A) :
  (forall a x, P a -> P (f a x)) -> P a -> P (foldl f a xs).
Proof. intros Hf. revert a. induction xs as [|x xs IH]; simpl; auto. Qed.

Lemma broker_inv_init (cm t w : Z) (cg : bool) : broker_inv (broker_init cm t w cg).
Proof.
  constructor; simpl; try discriminate; try apply NoDup_nil_2;
    intros pid x; rewrite lookup_empty; discriminate.
Qed.

Lemma broker_inv_insert (d : udev_device) (alloc_ok : bool) (b : broker) :
  broker_inv b -> broker_inv (snd (event_queue_insert d alloc_ok b)).
Proof.
  intros H. unfold event_queue_insert. destruct alloc_ok; simpl; [|exact H].
  unfold broker_inv. simpl. now apply pool_inv_insert.
Qed.

Lemma broker_inv_busy (ev : event) (b : broker) :
  broker_inv b -> broker_inv (snd (is_devpath_busy ev b)).
Proof.
  intros H. unfold is_devpath_busy. destruct (busy_scan ev (event_list b)) as [r ev'].
  unfold broker_inv. simpl. apply pool_inv_update; auto.
Qed.

Lemma broker_inv_event_free (op : option nat) (b : broker) :
  broker_inv b -> broker_inv (event_free op b).
Proof.
  intros H. unfold event_free. destruct op as [p|]; [|exact H].
  destruct (find_event p (event_list b)) as [e|] eqn:He; [|exact H].
  pose proof (pool_inv_free _ _ _ H p e He) as H'.
  unfold broker_inv. destruct (e_worker e); exact H'.
Qed.

Lemma broker_inv_set_state (pid : Z) (s : worker_state) (b : broker) :
  broker_inv b ->
  (s = WORKER_IDLE -> forall w, workers b !! pid = Some w -> w_event w = None) ->
  broker_inv (set_workers (alter (set_w_state s) pid (workers b)) b).
Proof. intros H Hs. unfold broker_inv. simpl. now apply pool_inv_set_state. Qed.

Lemma broker_inv_kill_one (b : broker) (pid : Z) :
  broker_inv b -> broker_inv (worker_kill_one b pid).
Proof.
  intros H. unfold worker_kill_one. destruct (workers b !! pid) as [w|]; [|exact H].
  destruct (worker_state_eqb (w_state w) WORKER_KILLED); [exact H|].
  apply (broker_inv_env (set_workers (alter (set_w_state WORKER_KILLED) pid (workers b)) b));
    try reflexivity.
  apply broker_inv_set_state; [exact H | discriminate].
Qed.

Lemma broker_inv_worker_kill (b : broker) : broker_inv b -> broker_inv (worker_kill b).
Proof. intros H. unfold worker_kill. apply foldl_preserves; auto using broker_inv_kill_one. Qed.

(** [event_free] commutes with a change of the hashmap that commutes
    with clearing a worker's event pointer. *)
Lemma event_free_set_workers (op : option nat) (b : broker)
      (g : gmap Z worker -> gmap Z worker) :
  (forall pid m, alter (set_w_event None) pid (g m) = g (alter (set_w_event None) pid m)) ->
  event_free op (set_workers (g (workers b)) b) =
  set_workers (g (workers (event_free op b))) (event_free op b).
Proof.
  intros Hg. unfold event_free. destruct op as [p|]; [|reflexivity]. simpl.
  destruct (find_event p (event_list b)) as [e|]; [|reflexivity].
  destruct (e_worker e) as [pid|]; simpl; [|reflexivity].
  unfold set_workers. simpl. now rewrite Hg.
Qed.

Lemma alter_event_state_commute (pid pid' : Z) (s : worker_state) (m : gmap Z worker) :
  alter (set_w_event None) pid (alter (set_w_state s) pid' m) =
  alter (set_w_state s) pid' (alter (set_w_event None) pid m).
Proof.
  apply map_eq. intros k.
  destruct (decide (pid = k)) as [->|H1], (decide (pid' = k)) as [->|H2];
    repeat (rewrite lookup_alter_eq || (rewrite lookup_alter_ne by done));
    try reflexivity.
  destruct (m !! k); reflexivity.
Qed.

Lemma alter_event_delete_commute (pid pid' : Z) (m : gmap Z worker) :
  alter (set_w_event None) pid (delete pid' m) =
  delete pid' (alter (set_w_event None) pid m).
Proof.
  apply map_eq. intros k.
  destruct (decide (pid = k)) as [->|H1], (decide (pid' = k)) as [->|H2];
    repeat (rewrite lookup_alter_eq || (rewrite lookup_alter_ne by done) ||
            rewrite lookup_delete_eq || (rewrite lookup_delete_ne by done));
    reflexivity.
Qed.

(** After [event_free(worker->event)] the worker holds no event and no
    listed event points to it. *)
Lemma event_free_owner (b : broker) (pid : Z) (w : worker) :
  broker_inv b -> workers b !! pid = Some w ->
  (exists w', workers (event_free (w_event w) b) !! pid = Some w' /\
              w_event w' = None /\ w_state w' = w_state w) /\
  (forall q e, find_event q (event_list (event_free (w_event w) b)) = Some e ->
               e_worker e <> Some pid).
Proof.
  intros H Hw. destruct H as [Hnd Hheap Hwe Hew Hqd Hidle].
  unfold event_free. destruct (w_event w) as [p|] eqn:Hev.
  - destruct (Hwe pid w p Hw Hev) as [e [He Hewk]]. rewrite He, Hewk. simpl. split.
    + rewrite lookup_alter_eq, Hw. simpl. eauto.
    + intros q x. rewrite find_remove by exact Hnd.
      destruct (Nat.eqb_spec q p) as [->|Hq]; [discriminate|].
      intros Hx Hxw. destruct (Hew q x pid Hx Hxw) as [w' [Hw' Hev']]. congruence.
  - split; [eauto|].
    intros q x Hx Hxw. destruct (Hew q x pid Hx Hxw) as [w' [Hw' Hev']]. congruence.
Qed.

(** One completion message from a tracked worker. *)
Lemma broker_inv_returned (b : broker) (pid : Z) (w : worker) (s : worker_state) :
  broker_inv b -> workers b !! pid = Some w ->
  broker_inv (event_free (w_event w)
                (set_workers (alter (set_w_state s) pid (workers b)) b)).
Proof.
  intros H Hw.
  rewrite (event_free_set_workers _ _ (alter (set_w_state s) pid))
    by (intros; apply alter_event_state_commute).
  destruct (event_free_owner b pid w H Hw) as [[w' [Hw' [Hev' _]]] _].
  apply broker_inv_set_state; [now apply broker_inv_event_free|].
  intros _ w0 Hw0. congruence.
Qed.

Lemma broker_inv_on_worker (incoming : list recv_result) (b : broker) :
  broker_inv b -> broker_inv (on_worker incoming b).
Proof.
  revert b. induction incoming as [|m rest IH]; intros b H; simpl; [exact H|].
  destruct m as [again|size ucred_pid]; [destruct again; exact H|].
  destruct (negb (size =? sizeof_worker_message)); [apply IH; exact H|].
  destruct ucred_pid as [pid|]; [|apply IH; exact H].
  destruct (pid <=? 0); [apply IH; exact H|].
  destruct (workers b !! pid) as [w|] eqn:Hw; [|apply IH; exact H].
  apply IH. destruct (negb (worker_state_eqb (w_state w) WORKER_KILLED)).
  - now apply broker_inv_returned.
  - now apply broker_inv_event_free.
Qed.

Lemma broker_inv_worker_free (pid : Z) (b : broker) :
  broker_inv b -> broker_inv (worker_free pid b).
Proof.
  intros H. unfold worker_free. destruct (workers b !! pid) as [w|] eqn:Hw; [|exact H].
  rewrite (event_free_set_workers _ _ (delete pid))
    by (intros; apply alter_event_delete_commute).
  destruct (event_free_owner b pid w H Hw) as [_ Hfree].
  unfold broker_inv. simpl. apply pool_inv_delete; [|exact Hfree].
  now apply broker_inv_event_free.
Qed.

Lemma broker_inv_sigchld_failed (w : worker) (b : broker) :
  broker_inv b -> broker_inv (on_sigchld_failed w b).
Proof.
  intros H. unfold on_sigchld_failed. destruct (w_event w) as [p|]; [|exact H].
  destruct (find_event p (event_list b)); exact H.
Qed.

Lemma broker_inv_on_sigchld (reaped : list (Z * Z)) (b : broker) :
  broker_inv b -> broker_inv (on_sigchld reaped b).
Proof.
  revert b. induction reaped as [|[pid status] rest IH]; intros b H; simpl; [exact H|].
  destruct (pid <=? 0); [exact H|].
  destruct (workers b !! pid) as [w|] eqn:Hw; [|exact H].
  assert (Hgo : forall (b1 : broker) (go_on : bool),
             broker_inv b1 ->
             broker_inv (if negb go_on then b1
                         else on_sigchld rest
                                (worker_free pid
                                   (if negb (WIFEXITED status) || negb (WEXITSTATUS status =? 0)
                                    then on_sigchld_failed w b1 else b1)))).
  { intros b1 [] H1; simpl; [|exact H1].
    apply IH, broker_inv_worker_free.
    destruct (_ || _); [now apply broker_inv_sigchld_failed | exact H1]. }
  destruct (WIFEXITED status); [destruct (WEXITSTATUS status =? 0)|];
    [apply Hgo; exact H | apply Hgo; exact H|].
  destruct (WIFSIGNALED status); [apply Hgo; exact H|].
  destruct (WIFSTOPPED status); [apply Hgo; exact H|].
  destruct (WIFCONTINUED status); apply Hgo; exact H.
Qed.

Lemma broker_inv_cleanup (match_type : event_state) (b : broker) :
  broker_inv b -> broker_inv (event_queue_cleanup match_type b).
Proof.
  intros H. unfold event_queue_cleanup. apply foldl_preserves; [|exact H].
  intros a p Ha. unfold event_queue_cleanup_one.
  destruct (find_event p (event_list a)); [|exact Ha].
  destruct (_ && _); [exact Ha | now apply broker_inv_event_free].
Qed.

Lemma broker_inv_attach (pid : Z) (p : nat) (now : Z) (b b' : broker) :
  broker_inv b -> worker_attach_event pid p now b = Some b' -> broker_inv b'.
Proof.
  intros H. unfold worker_attach_event.
  destruct (workers b !! pid) as [w|] eqn:Hw; [|discriminate].
  destruct (find_event p (event_list b)) as [e|] eqn:He; [|discriminate].
  destruct (e_worker e) eqn:Hewk; [discriminate|].
  destruct (w_event w) eqn:Hev; [discriminate|].
  intros [= <-]. unfold broker_inv. simpl. now apply (pool_inv_attach _ _ _ H pid w p e).
Qed.

Lemma broker_inv_spawn (ev : event) (env : run_env) (b b' : broker) :
  broker_inv b -> queued_at ev b -> worker_spawn ev env b = Some b' -> broker_inv b'.
Proof.
  intros H [e [He Hst]]. unfold worker_spawn. destruct (spawn env) as [| |pid alloc_ok].
  - now intros [= <-].
  - intros [= <-]. unfold broker_inv. simpl. apply pool_inv_update; auto.
    intros x Hx _. left. congruence.
  - unfold worker_new. destruct (negb (pid >? 1)); [discriminate|].
    destruct (negb alloc_ok); simpl; [now intros [= <-]|].
    destruct (workers b !! pid) as [w|] eqn:Hw; simpl; [now intros [= <-]|].
    destruct (worker_attach_event pid (e_ptr ev) (now_usec env) _) as [b2|] eqn:Hatt;
      simpl; [|discriminate].
    intros [= <-]. apply broker_inv_attach in Hatt.
    + exact Hatt.
    + unfold broker_inv. simpl. apply pool_inv_new_worker; auto.
Qed.

Lemma event_run_loop_inv (ev : event) (env : run_env) (pids : list Z) (b b' : broker)
      (returned : bool) :
  broker_inv b -> event_run_loop ev env pids b = Some (returned, b') ->
  broker_inv b' /\ (returned = false -> event_list b' = event_list b).
Proof.
  revert b. induction pids as [|pid rest IH]; intros b H; simpl.
  - intros [= <- <-]. auto.
  - destruct (workers b !! pid) as [w|] eqn:Hw; [|now apply IH].
    destruct (negb (worker_state_eqb (w_state w) WORKER_IDLE)); [now apply IH|].
    destruct (send_count env pid <? 0).
    + intros Hloop. apply IH in Hloop; [exact Hloop|].
      apply (broker_inv_env (set_workers (alter (set_w_state WORKER_KILLED) pid (workers b)) b));
        try reflexivity.
      apply broker_inv_set_state; [exact H | discriminate].
    + destruct (worker_attach_event pid (e_ptr ev) (now_usec env) _) as [b2|] eqn:Hatt;
        simpl; [|discriminate].
      intros [= <- <-]. split; [|discriminate].
      apply broker_inv_attach in Hatt; [exact Hatt|]. exact H.
Qed.

Lemma broker_inv_event_run (ev : event) (env : run_env) (b b' : broker) :
  broker_inv b -> queued_at ev b -> event_run ev env b = Some b' -> broker_inv b'.
Proof.
  intros H Hq. unfold event_run.
  destruct (event_run_loop ev env (worker_pids b) b) as [[returned b1]|] eqn:Hloop;
    simpl; [|discriminate].
  apply event_run_loop_inv in Hloop as [H1 Hlist]; [|exact H].
  destruct returned; [now intros [= <-]|].
  destruct (hashmap_size b1 >=? arg_children_max b1).
  - intros [= <-]. destruct (arg_children_max b1 >? 1); exact H1.
  - apply broker_inv_spawn; [exact H1|].
    unfold queued_at. now rewrite Hlist.
Qed.

Lemma broker_inv_start_loop (envs : nat -> run_env) (ptrs : list nat) (b b' : broker) :
  broker_inv b -> event_queue_start_loop envs ptrs b = Some b' -> broker_inv b'.
Proof.
  revert b. induction ptrs as [|p rest IH]; intros b H; simpl; [now intros [= <-]|].
  destruct (find_event p (event_list b)) as [ev|] eqn:Hev; [|now apply IH].
  destruct (event_state_eqb (e_state ev) EVENT_QUEUED) eqn:Hst; simpl; [|now apply IH].
  pose proof (broker_inv_busy ev b H) as Hb.
  assert (Hq : queued_at ev (snd (is_devpath_busy ev b))).
  { unfold is_devpath_busy. destruct (busy_scan ev (event_list b)) as [r ev']. simpl.
    pose proof (find_event_ptr _ _ _ Hev) as Hp.
    exists (set_delaying_seqnum (e_delaying_seqnum ev') ev). split.
    - simpl. rewrite find_update by reflexivity. now rewrite Nat.eqb_refl, Hp, Hev.
    - simpl. now destruct (e_state ev). }
  destruct (is_devpath_busy ev b) as [busy b1]. simpl in Hb, Hq.
  destruct busy; [now apply IH|].
  destruct (event_run ev (envs p) b1) as [b2|] eqn:Hrun; simpl; [|discriminate].
  apply IH. now apply (broker_inv_event_run ev (envs p) b1).
Qed.

Lemma broker_inv_start (envs : nat -> run_env) (b b' : broker) :
  broker_inv b -> event_queue_start envs b = Some b' -> broker_inv b'.
Proof. apply broker_inv_start_loop. Qed.

Lemma broker_inv_hanging (now : Z) (ob : option broker) (pid : Z) :
  (forall b, ob = Some b -> broker_inv b) ->
  forall b', hanging_check_one now ob pid = Some b' -> broker_inv b'.
Proof.
  intros H b'. unfold hanging_check_one. destruct ob as [b|]; simpl; [|discriminate].
  specialize (H b eq_refl).
  destruct (workers b !! pid) as [w|]; [|now intros [= <-]].
  destruct (negb (worker_state_eqb (w_state w) WORKER_RUNNING)); [now intros [= <-]|].
  destruct (w_event w) as [p|]; simpl; [|discriminate].
  destruct (find_event p (event_list b)) as [ev|]; simpl; [|discriminate].
  destruct (_ >? arg_event_timeout_warn_usec b); [|now intros [= <-]].
  destruct (_ >? arg_event_timeout_usec b).
  - intros [= <-].
    apply (broker_inv_env (set_workers (alter (set_w_state WORKER_KILLED) pid (workers b)) b));
      try reflexivity.
    apply broker_inv_set_state; [exact H | discriminate].
  - destruct (negb (e_warned ev)); [|now intros [= <-]].
    intros [= <-]. unfold broker_inv. simpl. apply pool_inv_update; auto.
Qed.

Lemma broker_inv_on_timeout (now : Z) (b b' : broker) :
  broker_inv b -> on_timeout now b = Some b' -> broker_inv b'.
Proof.
  intros H. unfold on_timeout.
  set (b1 := if list_is_empty b then _ else b).
  assert (H1 : broker_inv b1).
  { unfold b1. destruct (list_is_empty b); [|exact H]. now apply broker_inv_worker_kill. }
  clearbody b1. revert b'.
  apply (foldl_preserves (fun ob => forall b', ob = Some b' -> broker_inv b')).
  - intros ob pid Hob. now apply broker_inv_hanging.
  - now intros b' [= <-].
Qed.

(** A property that [worker_kill] keeps, and that does not depend on
    the flags, the properties list and the trace, is kept by the control
    handler. *)
Lemma on_ctrl_msg_preserves (P : broker -> Prop) (received : option ctrl_msg) (b : broker) :
  (forall x, P x -> P (worker_kill x)) ->
  (forall x x', event_list x' = event_list x -> workers x' = workers x ->
                heap_next x' = heap_next x -> queue_file x' = queue_file x ->
                P x -> P x') ->
  P b -> P (on_ctrl_msg received b).
Proof.
  intros Hkill Henv H. unfold on_ctrl_msg. destruct received as [m|]; [|exact H].
  cbv zeta.
  repeat lazymatch goal with
         | |- P (if ?c then ?t else ?e) =>
             cut (P e);
             [ let He := fresh "He" in
               intros He; destruct c; [|exact He];
               repeat first
                      [ exact He
                      | apply Hkill
                      | apply (Henv e); [reflexivity | reflexivity | reflexivity | reflexivity |] ]
             | ]
         | |- P (match ?o with Some _ => _ | None => ?e end) =>
             cut (P e);
             [ let He := fresh "He" in
               intros He; destruct o; [|exact He];
               apply Hkill;
               repeat lazymatch goal with
                      | |- P (match ?z with Some _ => _ | None => _ end) => destruct z
                      | |- P (let '(_, _) := ?z in _) => destruct z
                      | |- P (if ?z then _ else _) => destruct z
                      end;
               first [ exact He
                     | apply (Henv e);
                       [reflexivity | reflexivity | reflexivity | reflexivity | exact He] ]
             | ]
         end.
  exact H.
Qed.

Lemma broker_inv_on_ctrl_msg (received : option ctrl_msg) (b : broker) :
  broker_inv b -> broker_inv (on_ctrl_msg received b).
Proof.
  apply on_ctrl_msg_preserves.
  - apply broker_inv_worker_kill.
  - intros x x' H1 H2 H3 _. now apply broker_inv_env.
Qed.

(** ** Reachable states *)

Lemma queued_at_of_In (ev : event) (b : broker) :
  broker_inv b -> In ev (event_list b) -> e_state ev = EVENT_QUEUED -> queued_at ev b.
Proof.
  intros H Hin Hst. exists ev. split; [|exact Hst].
  apply find_event_of_In; [apply H | exact Hin].
Qed.

Lemma step_broker_inv (delivers : broker -> udev_device -> Prop) (b b' : broker) :
  broker_inv b -> step delivers b b' -> broker_inv b'.
Proof.
  intros H Hstep. destruct Hstep.
  - now apply broker_inv_insert.
  - now apply broker_inv_busy.
  - eapply broker_inv_event_run; eauto using queued_at_of_In.
  - eapply broker_inv_start; eauto.
  - now apply broker_inv_on_worker.
  - now apply broker_inv_on_sigchld.
  - now apply broker_inv_cleanup.
  - now apply broker_inv_worker_kill.
  - eapply broker_inv_on_timeout; eauto.
  - now apply broker_inv_on_ctrl_msg.
  - eapply broker_inv_env; eauto.
Qed.

Lemma reachable_broker_inv (delivers : broker -> udev_device -> Prop) (b : broker) :
  reachable delivers b -> broker_inv b.
Proof.
  induction 1 as [cm t w cg | b b' _ IH Hstep].
  - apply broker_inv_init.
  - exact (step_broker_inv delivers b b' IH Hstep).
Qed.

(** What the invariant says about attachment. *)
Lemma broker_inv_attachment (b : broker) :
  broker_inv b ->
  (forall pid w e, workers b !! pid = Some w -> In e (event_list b) ->
                   (w_event w = Some (e_ptr e) <-> e_worker e = Some pid)) /\
  (forall pid e1 e2, In e1 (event_list b) -> In e2 (event_list b) ->
                     e_worker e1 = Some pid -> e_worker e2 = Some pid -> e1 = e2) /\
  (forall p pid1 pid2 w1 w2, workers b !! pid1 = Some w1 -> workers b !! pid2 = Some w2 ->
                             w_event w1 = Some p -> w_event w2 = Some p -> pid1 = pid2) /\
  (forall pid w p, workers b !! pid = Some w -> w_event w = Some p ->
                   exists e, In e (event_list b) /\ e_ptr e = p) /\
  (forall pid e, In e (event_list b) -> e_worker e = Some pid ->
                 exists w, workers b !! pid = Some w).
Proof.
  intros [Hnd Hheap Hwe Hew Hqd Hidle]. repeat split.
  - intros Hev. destruct (Hwe pid w _ H Hev) as [x [Hx Hxw]].
    rewrite (find_event_of_In _ _ Hnd H0) in Hx. congruence.
  - intros Hewk. destruct (Hew _ e pid (find_event_of_In _ _ Hnd H0) Hewk) as [w' [Hw' Hev']].
    congruence.
  - intros pid e1 e2 H1 H2 Hw1 Hw2.
    destruct (Hew _ e1 pid (find_event_of_In _ _ Hnd H1) Hw1) as [w1 [Hl1 Hev1]].
    destruct (Hew _ e2 pid (find_event_of_In _ _ Hnd H2) Hw2) as [w2 [Hl2 Hev2]].
    assert (Hp : e_ptr e1 = e_ptr e2) by congruence.
    pose proof (find_event_of_In _ _ Hnd H1) as F1.
    pose proof (find_event_of_In _ _ Hnd H2) as F2. congruence.
  - intros p pid1 pid2 w1 w2 Hl1 Hl2 Hev1 Hev2.
    destruct (Hwe pid1 w1 p Hl1 Hev1) as [x1 [Hx1 Hxw1]].
    destruct (Hwe pid2 w2 p Hl2 Hev2) as [x2 [Hx2 Hxw2]]. congruence.
  - intros pid w p Hl Hev. destruct (Hwe pid w p Hl Hev) as [x [Hx _]].
    exists x. split; [now apply find_event_In in Hx | now apply find_event_ptr in Hx].
  - intros pid e Hin Hewk.
    destruct (Hew _ e pid (find_event_of_In _ _ Hnd Hin) Hewk) as [w [Hw _]]. eauto.
Qed.

(** C4: in every state the broker reaches from its initial state by
    uevent insertion, dependency checks, dispatch ([event_run],
    [event_queue_start]), completion messages, child exits, queue cleanup,
    worker kills, timeouts and control messages, the back-pointers are
    mutual (a worker's [event] is an event exactly when that event's
    [worker] is this worker), no two listed events are attached to one
    worker, no two workers to one event, and neither pointer dangles. *)
Theorem C4_attachment_mutual (b : broker) :
  reachable any_device b ->
  (forall pid w e, workers b !! pid = Some w -> In e (event_list b) ->
                   (w_event w = Some (e_ptr e) <-> e_worker e = Some pid)) /\
  (forall pid e1 e2, In e1 (event_list b) -> In e2 (event_list b) ->
                     e_worker e1 = Some pid -> e_worker e2 = Some pid -> e1 = e2) /\
  (forall p pid1 pid2 w1 w2, workers b !! pid1 = Some w1 -> workers b !! pid2 = Some w2 ->
                             w_event w1 = Some p -> w_event w2 = Some p -> pid1 = pid2) /\
  (forall pid w p, workers b !! pid = Some w -> w_event w = Some p ->
                   exists e, In e (event_list b) /\ e_ptr e = p) /\
  (forall pid e, In e (event_list b) -> e_worker e = Some pid ->
                 exists w, workers b !! pid = Some w).
Proof. intros H. apply broker_inv_attachment. exact (reachable_broker_inv _ _ H). Qed.

Lemma reachable_dispatched : reachable any_device Examples.dispatched.
Proof.
  apply (reach_step _ (Examples.queued 2 [Examples.pci])).
  - apply (reach_step _ (Examples.fresh 2)).
    + apply reach_init.
    + apply (step_uevent any_device (Examples.fresh 2) Examples.pci true). exact I.
  - apply (step_start _ _ (fun _ => Examples.spawn_env 100)). vm_compute. reflexivity.
Qed.

Lemma C4_attachment_mutual_witness :
  let b := Examples.dispatched in
  (forall pid w e, workers b !! pid = Some w -> In e (event_list b) ->
                   (w_event w = Some (e_ptr e) <-> e_worker e = Some pid)) /\
  (forall pid e1 e2, In e1 (event_list b) -> In e2 (event_list b) ->
                     e_worker e1 = Some pid -> e_worker e2 = Some pid -> e1 = e2) /\
  (forall p pid1 pid2 w1 w2, workers b !! pid1 = Some w1 -> workers b !! pid2 = Some w2 ->
                             w_event w1 = Some p -> w_event w2 = Some p -> pid1 = pid2) /\
  (forall pid w p, workers b !! pid = Some w -> w_event w = Some p ->
                   exists e, In e (event_list b) /\ e_ptr e = p) /\
  (forall pid e, In e (event_list b) -> e_worker e = Some pid ->
                 exists w, workers b !! pid = Some w).
Proof. apply C4_attachment_mutual. apply reachable_dispatched. Defined.

(** ** Completion messages *)

Lemma set_workers_same (b : broker) : set_workers (workers b) b = b.
Proof. now destruct b. Qed.

Lemma set_event_list_same (b : broker) : set_event_list (event_list b) b = b.
Proof. now destruct b. Qed.

Lemma on_worker_idle (b : broker) (pid : Z) (w : worker) :
  workers b !! pid = Some w -> w_state w = WORKER_IDLE -> w_event w = None -> 0 < pid ->
  on_worker [RecvMsg sizeof_worker_message (Some pid)] b = b.
Proof.
  intros Hw Hst Hev Hpid. simpl.
  destruct (pid <=? 0) eqn:Hle; [apply Z.leb_le in Hle; lia|].
  rewrite Hw, Hst, Hev. simpl.
  rewrite alter_id; [apply set_workers_same|].
  intros x Hx. rewrite Hw in Hx. injection Hx as <-.
  destruct w as [wp ws we]. simpl in *. now subst.
Qed.

(** C8, as the code has it: a completion message from a tracked worker
    that is idle and holds no event leaves the whole state as it was,
    trace included: the worker stays idle, no event is freed, and nothing
    is logged. *)
Theorem C8_repeated_completion (b : broker) (pid : Z) (w : worker) :
  workers b !! pid = Some w ->
  w_state w = WORKER_IDLE ->
  w_event w = None ->
  0 < pid ->
  on_worker [RecvMsg sizeof_worker_message (Some pid)] b = b.
Proof. apply on_worker_idle. Qed.

Lemma C8_repeated_completion_witness :
  on_worker [RecvMsg sizeof_worker_message (Some 100)] Examples.idle = Examples.idle.
Proof.
  apply (C8_repeated_completion Examples.idle 100
           {| w_pid := 100; w_state := WORKER_IDLE; w_event := None |}).
  - vm_compute. reflexivity.
  - reflexivity.
  - reflexivity.
  - lia.
Defined.

(** C8 as stated fails in its last part: the message of the idle worker
    100 is processed without any log line, so no warning is among what the
    call appends to the trace. *)
Lemma C8_counterexample :
  let b := Examples.idle in
  let b' := on_worker [RecvMsg sizeof_worker_message (Some 100)] b in
  workers b !! 100 = Some {| w_pid := 100; w_state := WORKER_IDLE; w_event := None |} /\
  ~ (exists appended msg,
        trace b' = trace b ++ appended /\ In (EffLog LOG_WARNING msg) appended).
Proof.
  cbv zeta. split; [vm_compute; reflexivity|].
  intros [appended [msg [Htr Hin]]].
  rewrite (on_worker_idle Examples.idle 100
             {| w_pid := 100; w_state := WORKER_IDLE; w_event := None |}) in Htr
    by (try lia; vm_compute; reflexivity).
  rewrite <- (app_nil_r (trace Examples.idle)) in Htr at 1.
  apply app_inv_head in Htr. subst appended. destruct Hin.
Qed.

(** ** Child exits *)

Lemma worker_free_attached (b : broker) (pid : Z) (w : worker) (p : nat) (ev : event) :
  workers b !! pid = Some w -> w_event w = Some p ->
  find_event p (event_list b) = Some ev -> e_worker ev = Some pid ->
  worker_free pid b =
  set_workers (delete pid (workers b)) (set_event_list (remove_event p (event_list b)) b).
Proof.
  intros Hw Hev He Hewk. unfold worker_free, event_free. rewrite Hw, Hev. simpl.
  rewrite He, Hewk. simpl. unfold set_workers, set_event_list. simpl.
  rewrite alter_id'; [reflexivity | apply lookup_delete_eq].
Qed.

Lemma on_sigchld_failed_trace (b : broker) (w : worker) (p : nat) (ev : event) :
  w_event w = Some p -> find_event p (event_list b) = Some ev ->
  on_sigchld_failed w b =
  set_trace (trace b ++ [EffLog LOG_ERR "worker [%d] failed while handling '%s'";
                         EffDeleteDb (e_dev ev);
                         EffTagIndex (e_dev ev) false;
                         EffSendDevice None (e_dev_kernel ev) 0]) b.
Proof.
  intros Hev He. unfold on_sigchld_failed. rewrite Hev, He.
  unfold log, emit, set_trace. simpl. now rewrite <- !app_assoc.
Qed.

Lemma on_sigchld_failed_worker (b : broker) (pid status : Z) (w : worker) (p : nat)
      (ev : event) :
  broker_inv b ->
  0 < pid ->
  workers b !! pid = Some w ->
  w_event w = Some p ->
  find_event p (event_list b) = Some ev ->
  WIFEXITED status = true \/ WIFSIGNALED status = true ->
  WIFEXITED status = false \/ WEXITSTATUS status <> 0 ->
  let b' := on_sigchld [(pid, status)] b in
  (exists lvl msg,
      trace b' = trace b ++ [EffLog lvl msg;
                             EffLog LOG_ERR "worker [%d] failed while handling '%s'";
                             EffDeleteDb (e_dev ev);
                             EffTagIndex (e_dev ev) false;
                             EffSendDevice None (e_dev_kernel ev) 0]) /\
  workers b' = delete pid (workers b) /\
  event_list b' = remove_event p (event_list b) /\
  find_event p (event_list b') = None.
Proof.
  intros Hinv Hpid Hw Hev He Hterm Habn b'.
  assert (Hewk : e_worker ev = Some pid).
  { destruct (inv_worker_event _ _ _ Hinv pid w p Hw Hev) as [x [Hx Hxw]]. congruence. }
  assert (Hfailed : negb (WIFEXITED status) || negb (WEXITSTATUS status =? 0) = true).
  { destruct Habn as [->|Hne]; [reflexivity|].
    apply orb_true_iff. right. apply negb_true_iff. now apply Z.eqb_neq. }
  assert (Hshape : forall lvl msg,
             trace (worker_free pid (on_sigchld_failed w (log lvl msg b))) =
             trace b ++ [EffLog lvl msg;
                         EffLog LOG_ERR "worker [%d] failed while handling '%s'";
                         EffDeleteDb (e_dev ev);
                         EffTagIndex (e_dev ev) false;
                         EffSendDevice None (e_dev_kernel ev) 0] /\
             workers (worker_free pid (on_sigchld_failed w (log lvl msg b))) =
             delete pid (workers b) /\
             event_list (worker_free pid (on_sigchld_failed w (log lvl msg b))) =
             remove_event p (event_list b)).
  { intros lvl msg.
    rewrite (on_sigchld_failed_trace _ w p ev) by assumption.
    rewrite (worker_free_attached _ pid w p ev) by assumption.
    simpl. rewrite <- app_assoc. auto. }
  assert (Hgone : find_event p (remove_event p (event_list b)) = None).
  { rewrite find_remove by apply Hinv. now rewrite Nat.eqb_refl. }
  subst b'. simpl.
  destruct (pid <=? 0) eqn:Hle; [apply Z.leb_le in Hle; lia|].
  rewrite Hw.
  destruct (WIFEXITED status) eqn:Hex.
  - destruct (WEXITSTATUS status =? 0) eqn:Hcode; [discriminate|]. simpl.
    destruct (Hshape LOG_WARNING "worker [%d] exited with return code %i"%string)
      as [Ht [Hws Hl]].
    rewrite Hl. eauto 10.
  - destruct Hterm as [Hc|Hsig]; [discriminate|]. rewrite Hsig. simpl.
    destruct (Hshape LOG_WARNING "worker [%d] terminated by signal %i (%s)"%string)
      as [Ht [Hws Hl]].
    rewrite Hl. eauto 10.
Qed.

(** C9, as the code has it: in every reachable state, when a worker
    that holds an event is reaped and did not exit with code zero (it was
    killed by a signal, or its exit code is not zero), [on_sigchld] logs the
    exit, deletes the database record of the event's device, removes its
    tag index entries, sends the kernel's copy of the device to the
    listeners, and frees the worker and its event. *)
Theorem C9_failed_worker (b : broker) (pid status : Z) (w : worker) (p : nat) (ev : event) :
  reachable any_device b ->
  0 < pid ->
  workers b !! pid = Some w ->
  w_event w = Some p ->
  find_event p (event_list b) = Some ev ->
  WIFEXITED status = true \/ WIFSIGNALED status = true ->
  WIFEXITED status = false \/ WEXITSTATUS status <> 0 ->
  let b' := on_sigchld [(pid, status)] b in
  (exists lvl msg,
      trace b' = trace b ++ [EffLog lvl msg;
                             EffLog LOG_ERR "worker [%d] failed while handling '%s'";
                             EffDeleteDb (e_dev ev);
                             EffTagIndex (e_dev ev) false;
                             EffSendDevice None (e_dev_kernel ev) 0]) /\
  workers b' = delete pid (workers b) /\
  event_list b' = remove_event p (event_list b) /\
  find_event p (event_list b') = None.
Proof.
  intros Hr. apply on_sigchld_failed_worker. exact (reachable_broker_inv _ _ Hr).
Qed.

Lemma C9_failed_worker_witness :
  let ev := attach_to_worker 100 1000 (event_new 1 Examples.pci) in
  let b := Examples.dispatched in
  let b' := on_sigchld [(100, 9)] b in
  (exists lvl msg,
      trace b' = trace b ++ [EffLog lvl msg;
                             EffLog LOG_ERR "worker [%d] failed while handling '%s'";
                             EffDeleteDb (e_dev ev);
                             EffTagIndex (e_dev ev) false;
                             EffSendDevice None (e_dev_kernel ev) 0]) /\
  workers b' = delete 100 (workers b) /\
  event_list b' = remove_event 1 (event_list b) /\
  find_event 1 (event_list b') = None.
Proof.
  apply (C9_failed_worker Examples.dispatched 100 9
           {| w_pid := 100; w_state := WORKER_RUNNING; w_event := Some 1%nat |}).
  - apply reachable_dispatched.
  - lia.
  - vm_compute. reflexivity.
  - reflexivity.
  - vm_compute. reflexivity.
  - right. vm_compute. reflexivity.
  - left. vm_compute. reflexivity.
Defined.

(** C9 as stated fails: in a reachable state worker 100 holds the event
    for [pci] when it is reaped with status 0 (it exited with code zero); the handler logs the
    exit and frees the worker and the event, and neither deletes the
    database record, nor touches the tag index, nor sends the kernel event
    to the listeners. *)
Lemma C9_counterexample :
  let b := Examples.dispatched in
  let b' := on_sigchld [(100, 0)] b in
  reachable any_device b /\
  workers b !! 100 = Some {| w_pid := 100; w_state := WORKER_RUNNING; w_event := Some 1%nat |} /\
  find_event 1 (event_list b) = Some (attach_to_worker 100 1000 (event_new 1 Examples.pci)) /\
  WIFEXITED 0 = true /\
  trace b' = trace b ++ [EffLog LOG_DEBUG "worker [%d] exited"] /\
  workers b' !! 100 = None /\
  (forall d, ~ In (EffDeleteDb d) (trace b')) /\
  (forall d add, ~ In (EffTagIndex d add) (trace b')) /\
  (forall dest d count, ~ In (EffSendDevice dest d count) (trace b')).
Proof.
  cbv zeta.
  assert (Ht : trace (on_sigchld [(100, 0)] Examples.dispatched) =
               trace Examples.dispatched ++ [EffLog LOG_DEBUG "worker [%d] exited"])
    by (vm_compute; reflexivity).
  split; [apply reachable_dispatched|].
  repeat split; try (vm_compute; reflexivity); try exact Ht.
  - intros d H. rewrite Ht in H. vm_compute in H. intuition discriminate.
  - intros d add H. rewrite Ht in H. vm_compute in H. intuition discriminate.
  - intros dest d count H. rewrite Ht in H. vm_compute in H. intuition discriminate.
Qed.

(** ** Fork failure *)

Lemma event_run_loop_no_idle (ev : event) (env : run_env) (pids : list Z) (b : broker) :
  (forall pid w, workers b !! pid = Some w -> w_state w <> WORKER_IDLE) ->
  event_run_loop ev env pids b = Some (false, b).
Proof.
  intros Hno. induction pids as [|pid rest IH]; simpl; [reflexivity|].
  destruct (workers b !! pid) as [w|] eqn:Hw; [|exact IH].
  specialize (Hno pid w Hw). destruct (w_state w); try exact IH. contradiction.
Qed.

Lemma set_queued_at (l : list event) (p : nat) (e0 : event) :
  NoDup (map e_ptr l) -> find_event p l = Some e0 -> e_state e0 = EVENT_QUEUED ->
  update_event p (set_e_state EVENT_QUEUED) l = l.
Proof.
  intros Hnd Hfind Hst. apply update_event_id. intros e He Hp.
  assert (e = e0) as ->.
  { pose proof (find_event_of_In _ _ Hnd He) as F1. congruence. }
  destruct e0. simpl in *. now subst.
Qed.

Lemma set_queued_same (l : list event) (ev : event) :
  NoDup (map e_ptr l) -> In ev l -> e_state ev = EVENT_QUEUED ->
  update_event (e_ptr ev) (set_e_state EVENT_QUEUED) l = l.
Proof.
  intros Hnd Hin Hst. apply (set_queued_at l (e_ptr ev) ev); auto.
  now apply find_event_of_In.
Qed.

Lemma worker_spawn_fork_failed (b : broker) (ev : event) (env : run_env) :
  broker_inv b -> In ev (event_list b) -> e_state ev = EVENT_QUEUED ->
  spawn env = ForkFailed ->
  worker_spawn ev env b = Some (log LOG_ERR "fork of child failed: %m" b).
Proof.
  intros Hinv Hin Hst Hfork. unfold worker_spawn. rewrite Hfork.
  rewrite set_queued_same by (auto; apply Hinv). now rewrite set_event_list_same.
Qed.

(** C10: in every reachable state, when [fork] fails for a listed,
    queued event, [worker_spawn] changes nothing in the broker but the
    log: the state it returns is the state it was given with one error line
    appended to the trace, so the event list and the worker hashmap are the
    same and the event is still listed, queued and without a worker.  An
    [event_run] that finds no idle worker and room for another child is
    that [worker_spawn], and returns the same state. *)
Theorem C10_fork_failure (b : broker) (ev : event) (env : run_env) :
  reachable any_device b ->
  In ev (event_list b) ->
  e_state ev = EVENT_QUEUED ->
  spawn env = ForkFailed ->
  let b' := log LOG_ERR "fork of child failed: %m" b in
  worker_spawn ev env b = Some b' /\
  ((forall pid w, workers b !! pid = Some w -> w_state w <> WORKER_IDLE) ->
   hashmap_size b < arg_children_max b ->
   event_run ev env b = Some b') /\
  b' = set_trace (trace b ++ [EffLog LOG_ERR "fork of child failed: %m"]) b /\
  event_list b' = event_list b /\ workers b' = workers b /\
  In ev (event_list b') /\ e_state ev = EVENT_QUEUED /\ e_worker ev = None.
Proof.
  intros Hr Hin Hst Hfork b'. pose proof (reachable_broker_inv _ _ Hr) as Hinv.
  repeat split; auto.
  - now apply worker_spawn_fork_failed.
  - intros Hno Hroom. unfold event_run.
    rewrite event_run_loop_no_idle by exact Hno. simpl.
    destruct (hashmap_size b >=? arg_children_max b) eqn:Hcap.
    + rewrite Z.geb_leb in Hcap. apply Z.leb_le in Hcap. lia.
    + now apply worker_spawn_fork_failed.
  - apply (inv_queued _ _ _ Hinv (e_ptr ev)); [|exact Hst].
    apply find_event_of_In; [apply Hinv | exact Hin].
Qed.

Lemma C10_fork_failure_witness :
  let b := Examples.queued 2 [Examples.pci] in
  let ev := event_new 1 Examples.pci in
  let b' := log LOG_ERR "fork of child failed: %m" b in
  worker_spawn ev Examples.fork_fails_env b = Some b' /\
  ((forall pid w, workers b !! pid = Some w -> w_state w <> WORKER_IDLE) ->
   hashmap_size b < arg_children_max b ->
   event_run ev Examples.fork_fails_env b = Some b') /\
  b' = set_trace (trace b ++ [EffLog LOG_ERR "fork of child failed: %m"]) b /\
  event_list b' = event_list b /\ workers b' = workers b /\
  In ev (event_list b') /\ e_state ev = EVENT_QUEUED /\ e_worker ev = None.
Proof.
  apply (C10_fork_failure (Examples.queued 2 [Examples.pci]) (event_new 1 Examples.pci)
           Examples.fork_fails_env).
  - apply (reach_step _ (Examples.fresh 2)); [apply reach_init|].
    apply (step_uevent any_device (Examples.fresh 2) Examples.pci true). exact I.
  - simpl. auto.
  - reflexivity.
  - reflexivity.
Defined.

(** ** The marker file *)

Lemma event_queue_update_list (fs_ok : bool) (b : broker) :
  event_list (event_queue_update fs_ok b) = event_list b.
Proof.
  unfold event_queue_update.
  destruct (event_list b) eqn:Hl, fs_ok, (queue_file b); simpl; now rewrite ?Hl.
Qed.

Lemma event_queue_update_marker (b : broker) :
  queue_file (event_queue_update true b) =
  negb (list_is_empty (event_queue_update true b)).
Proof.
  unfold list_is_empty. rewrite event_queue_update_list.
  unfold event_queue_update. destruct (event_list b); simpl; [|reflexivity].
  destruct (queue_file b) eqn:Hq; simpl; [reflexivity | exact Hq].
Qed.

Lemma queue_file_kill_one (b : broker) (pid : Z) :
  queue_file (worker_kill_one b pid) = queue_file b /\
  event_list (worker_kill_one b pid) = event_list b.
Proof.
  unfold worker_kill_one. destruct (workers b !! pid) as [w|]; [|auto].
  destruct (worker_state_eqb (w_state w) WORKER_KILLED); auto.
Qed.

Lemma worker_kill_marker (b : broker) :
  queue_file (worker_kill b) = queue_file b /\ event_list (worker_kill b) = event_list b.
Proof.
  unfold worker_kill. generalize (worker_pids b). intros pids. revert b.
  induction pids as [|pid pids IH]; intros b; simpl; [auto|].
  destruct (IH (worker_kill_one b pid)) as [H1 H2].
  destruct (queue_file_kill_one b pid) as [H3 H4]. split; congruence.
Qed.

(** The control handler touches neither the event list nor the marker. *)
Lemma on_ctrl_msg_marker (received : option ctrl_msg) (b : broker) :
  queue_file (on_ctrl_msg received b) = queue_file b /\
  event_list (on_ctrl_msg received b) = event_list b.
Proof.
  apply (on_ctrl_msg_preserves
           (fun x => queue_file x = queue_file b /\ event_list x = event_list b)).
  - intros x [H1 H2]. destruct (worker_kill_marker x) as [K1 K2]. split; congruence.
  - intros x x' E1 _ _ E2 [H1 H2]. split; congruence.
  - auto.
Qed.

(** C6, as the code has it: when the file system lets the daemon create
    and remove the marker (the touch or unlink of that call of
    [event_queue_update] succeeds), at each of the two points where the
    loop has just called [event_queue_update] (when it blocks in
    [epoll_wait], and when it arrives at the control handler), and when the
    control handler has returned, the marker file exists exactly when the
    event list is not empty. *)
Theorem C6_marker_honest :
  (forall b timeout b',
      main_loop_head true b = HeadWait timeout b' ->
      queue_file b' = negb (list_is_empty b')) /\
  (forall inp b b',
      in_fs_ok inp = true ->
      main_loop_events inp b = BodyAtCtrl b' ->
      queue_file b' = negb (list_is_empty b') /\
      queue_file (on_ctrl_msg (in_ctrl inp) b') =
      negb (list_is_empty (on_ctrl_msg (in_ctrl inp) b'))).
Proof.
  split.
  - intros b timeout b'. unfold main_loop_head.
    destruct (udev_exit b).
    + destruct (_ && _); [discriminate|].
      intros [= _ <-]. apply event_queue_update_marker.
    + destruct (_ && _); intros [= _ <-]; apply event_queue_update_marker.
  - intros inp b b' Hfs. unfold main_loop_events.
    destruct (in_epoll inp) as [ready|]; [|discriminate].
    destruct (_ && udev_exit b); [discriminate|].
    match goal with
    | |- context [match ?x with Some _ => _ | None => BodyAbort end] =>
        destruct x as [b1|]; [|discriminate]
    end.
    destruct (start_new_events inp _) as [b6|]; [|discriminate].
    destruct (udev_exit _); [discriminate|].
    rewrite Hfs. intros [= <-].
    split; [apply event_queue_update_marker|].
    destruct (on_ctrl_msg_marker (in_ctrl inp) (event_queue_update true
                (if negb (udev_exit b) && is_ready SrcInotify ready
                 then on_inotify (in_inotify inp) (if is_ready SrcSignal ready
                                                   then on_signal inp b6 else b6)
                 else if is_ready SrcSignal ready then on_signal inp b6 else b6)))
      as [H1 H2].
    unfold list_is_empty. rewrite H1, H2. apply event_queue_update_marker.
Qed.

Lemma C6_marker_honest_witness :
  let b := Examples.queued 2 [Examples.pci] in
  queue_file (event_queue_update true b) = negb (list_is_empty (event_queue_update true b)).
Proof.
  apply (proj1 C6_marker_honest (Examples.queued 2 [Examples.pci]) (3 * MSEC_PER_SEC)).
  reflexivity.
Defined.

(** Inside an iteration the marker can lag behind the list: after
    [on_uevent] queued the first event and until the next
    [event_queue_update], the list is not empty and the marker is absent. *)
Lemma marker_lags_inside_iteration :
  let b := on_uevent (Some Examples.pci) true (Examples.fresh 2) in
  queue_file (Examples.fresh 2) = negb (list_is_empty (Examples.fresh 2)) /\
  list_is_empty b = false /\ queue_file b = false.
Proof. cbv zeta. repeat split. Qed.

(** C6 as stated fails when the file system refuses the marker:
    [event_queue_update] only logs a warning then.  The daemon starts with
    an empty list and no marker and waits; the netlink socket delivers one
    uevent, the event is queued and started, the touch of the marker fails:
    the loop arrives at the control handler, and then at its next wait,
    with an event in the list and no marker.  It also fails between two
    handlers while the file system works: after [on_uevent] queued the
    first event the list is not empty and the marker is absent, until the
    next [event_queue_update]. *)
Lemma C6_counterexample :
  (exists b1 b2 b3,
      main_loop_head true (Examples.fresh 2) = HeadWait (-1) b1 /\
      queue_file b1 = negb (list_is_empty b1) /\
      main_loop_events Examples.readonly_input b1 = BodyAtCtrl b2 /\
      list_is_empty b2 = false /\ queue_file b2 = false /\
      main_loop_body Examples.readonly_input b1 = LoopNext b2 /\
      main_loop_head false b2 = HeadWait (3 * MSEC_PER_SEC) b3 /\
      at_wait b3 /\
      list_is_empty b3 = false /\ queue_file b3 = false) /\
  (exists b1,
      main_loop_head true (Examples.fresh 2) = HeadWait (-1) b1 /\
      queue_file b1 = negb (list_is_empty b1) /\
      list_is_empty (on_uevent (Some Examples.pci) true b1) = false /\
      queue_file (on_uevent (Some Examples.pci) true b1) = false).
Proof.
  split.
  - pose (b1 := event_queue_update true (Examples.fresh 2)).
    assert (H1 : main_loop_head true (Examples.fresh 2) = HeadWait (-1) b1)
      by reflexivity.
    evar (b2 : broker).
    assert (H2 : main_loop_body Examples.readonly_input b1 = LoopNext b2).
    { unfold b2. vm_compute. reflexivity. }
    evar (b3 : broker).
    assert (H3 : main_loop_head false b2 = HeadWait (3 * MSEC_PER_SEC) b3).
    { unfold b3. vm_compute. reflexivity. }
    exists b1, b2, b3.
    split; [exact H1|]. split; [reflexivity|].
    split; [vm_compute; reflexivity|].
    split; [vm_compute; reflexivity|]. split; [vm_compute; reflexivity|].
    split; [exact H2|]. split; [exact H3|].
    split; [|split; vm_compute; reflexivity].
    exact (wait_next b1 Examples.readonly_input b2 false (3 * MSEC_PER_SEC) b3
             (wait_first 2 180000000 60000000 false true (-1) b1 H1) H2 H3).
  - eexists. split; [reflexivity|]. repeat split.
Qed.

(** ** Refused devices *)

Lemma worker_attach_event_result (pid : Z) (p : nat) (now : Z) (b b' : broker) :
  worker_attach_event pid p now b = Some b' ->
  exists w e,
    workers b !! pid = Some w /\ w_event w = None /\
    find_event p (event_list b) = Some e /\ e_worker e = None /\
    b' = set_event_list (update_event p (attach_to_worker pid now) (event_list b))
           (set_workers
              (<[pid := {| w_pid := w_pid w; w_state := WORKER_RUNNING; w_event := Some p |}]>
                 (workers b)) b).
Proof.
  unfold worker_attach_event.
  destruct (workers b !! pid) as [w|]; [|discriminate].
  destruct (find_event p (event_list b)) as [e|]; [|discriminate].
  destruct (e_worker e) eqn:Hewk; [discriminate|].
  destruct (w_event w) eqn:Hev; [discriminate|].
  intros [= <-]. exists w, e. auto.
Qed.

Lemma size_alter_workers (f : worker -> worker) (pid : Z) (m : gmap Z worker) :
  size (alter f pid m) = size m.
Proof. rewrite <- !size_dom. now rewrite dom_alter_L. Qed.

Lemma killed_set_killed (pid q : Z) (b b0 : broker) :
  killed q b ->
  killed q (set_workers (alter (set_w_state WORKER_KILLED) pid (workers b)) b0).
Proof.
  intros [w [Hw Hst]]. unfold killed. simpl. rewrite lookup_alter.
  destruct (decide (pid = q)) as [->|Hne]; [|eauto].
  rewrite Hw. simpl. eauto.
Qed.

Lemma worker_state_eqb_eq (a b : worker_state) : worker_state_eqb a b = true <-> a = b.
Proof. destruct a, b; simpl; split; intros H; try reflexivity; discriminate. Qed.

Lemma worker_pids_In (b : broker) (pid : Z) (w : worker) :
  workers b !! pid = Some w -> In pid (worker_pids b).
Proof.
  intros Hw. apply list_elem_of_In. unfold worker_pids.
  apply (list_elem_of_fmap_2 fst (map_to_list (workers b)) (pid, w)).
  now apply elem_of_map_to_list.
Qed.

Lemma find_event_attached (l : list event) (ev : event) (pid now : Z) :
  NoDup (map e_ptr l) -> In ev l ->
  find_event (e_ptr ev) (update_event (e_ptr ev) (attach_to_worker pid now) l) =
    Some (attach_to_worker pid now ev) /\
  forall q, q <> e_ptr ev ->
            find_event q (update_event (e_ptr ev) (attach_to_worker pid now) l) =
            find_event q l.
Proof.
  intros Hnd Hin. split.
  - rewrite find_update by reflexivity.
    now rewrite Nat.eqb_refl, (find_event_of_In _ _ Hnd Hin).
  - intros q Hq. rewrite find_update by reflexivity.
    destruct (Nat.eqb_spec q (e_ptr ev)); [contradiction | reflexivity].
Qed.

Section EventRun.

Variables (ev : event) (env : run_env).

Lemma attach_refusals (pid : Z) (b b' : broker) :
  (send_count env pid <? 0) = false ->
  (exists w, workers b !! pid = Some w /\ w_state w = WORKER_IDLE) ->
  worker_attach_event pid (e_ptr ev) (now_usec env)
    (emit (EffSendDevice (Some pid) (e_dev ev) (send_count env pid)) b) = Some b' ->
  trace b' = trace b ++ [EffSendDevice (Some pid) (e_dev ev) (send_count env pid)] /\
  refusals_handled ev b b' [EffSendDevice (Some pid) (e_dev ev) (send_count env pid)].
Proof.
  intros Hcount [w0 [Hw0 Hidle]] Hatt. apply Z.ltb_ge in Hcount.
  apply worker_attach_event_result in Hatt as [w [e [Hw [Hev [He [Hewk ->]]]]]].
  simpl in Hw, He. split; [reflexivity|]. split; [|split].
  - intros q c [H|[]] Hc. injection H as _ <-. lia.
  - intros q [wq [Hwq Hst]]. unfold killed. simpl.
    rewrite lookup_insert. destruct (decide (pid = q)) as [<-|Hne]; [|eauto].
    congruence.
  - intros q x [wq [Hwq Hst]]. simpl in Hwq. simpl.
    rewrite find_update by reflexivity. rewrite Nat.eqb_refl, He. simpl.
    intros [= <-]. simpl. intros [= <-].
    rewrite lookup_insert_eq in Hwq. injection Hwq as <-. discriminate.
Qed.

Lemma event_run_loop_refusals (pids : list Z) (b b' : broker) (returned : bool) :
  event_run_loop ev env pids b = Some (returned, b') ->
  exists appended,
    trace b' = trace b ++ appended /\
    refusals_handled ev b b' appended /\
    (returned = false ->
       event_list b' = event_list b /\ arg_children_max b' = arg_children_max b /\
       hashmap_size b' = hashmap_size b) /\
    (returned = true ->
       exists pid count, In (EffSendDevice (Some pid) (e_dev ev) count) appended /\
                         0 <= count).
Proof.
  revert b. induction pids as [|pid rest IH]; intros b; simpl.
  - intros [= <- <-]. exists []. rewrite app_nil_r.
    split; [reflexivity|]. split; [|split; [auto | discriminate]].
    split; [intros q c []|]. split; [auto|]. intros q e _ He Hw. eauto.
  - destruct (workers b !! pid) as [w|] eqn:Hw; [|apply IH].
    destruct (worker_state_eqb (w_state w) WORKER_IDLE) eqn:Hidle; simpl; [|apply IH].
    destruct (send_count env pid <? 0) eqn:Hcount.
    + intros Hloop. apply IH in Hloop as [appended [Htr [[HS [HK HW]] [Hf Ht]]]].
      simpl in Htr. rewrite <- !app_assoc in Htr. simpl in Htr.
      eexists. split; [exact Htr|]. apply Z.ltb_lt in Hcount.
      assert (Hk : killed pid b').
      { apply HK. unfold killed. simpl. rewrite lookup_alter_eq, Hw. simpl. eauto. }
      split; [split; [|split]|split].
      * intros q c [H|[H|[H|H]]] Hc; try discriminate.
        -- injection H as <- _. split; [|exact Hk]. right. right. now left.
        -- destruct (HS q c H Hc) as [Hkill Hq]. split; [|exact Hq].
           right. right. right. exact Hkill.
      * intros q Hq. apply HK. now apply killed_set_killed.
      * intros q x Hq Hx Hxw. exact (HW q x Hq Hx Hxw).
      * intros Hret. destruct (Hf Hret) as [Hl [Hc Hs]]. repeat split; auto.
        rewrite Hs. unfold hashmap_size. simpl. now rewrite size_alter_workers.
      * intros Hret. destruct (Ht Hret) as [q [c [Hin Hc]]].
        exists q, c. split; [|exact Hc]. right. right. right. exact Hin.
    + destruct (worker_attach_event pid (e_ptr ev) (now_usec env) _) as [b2|] eqn:Hatt;
        simpl; [|discriminate].
      intros [= <- <-].
      apply attach_refusals in Hatt as [Htr Href]; [|exact Hcount|].
      * eexists. split; [exact Htr|]. split; [exact Href|]. split; [discriminate|].
        intros _. exists pid, (send_count env pid). split; [now left|].
        now apply Z.ltb_ge in Hcount.
      * exists w. split; [exact Hw|]. now destruct (w_state w).
Qed.

End EventRun.

Lemma worker_spawn_refusals (ev : event) (env : run_env) (b b' : broker) :
  worker_spawn ev env b = Some b' ->
  exists appended,
    trace b' = trace b ++ appended /\
    (forall dest d count, ~ In (EffSendDevice dest d count) appended) /\
    (forall pid, killed pid b -> killed pid b') /\
    (forall pid e, killed pid b' ->
                   find_event (e_ptr ev) (event_list b') = Some e -> e_worker e = Some pid ->
                   exists e0, find_event (e_ptr ev) (event_list b) = Some e0 /\
                              e_worker e0 = Some pid) /\
    (spawn env = MonitorFailed \/ spawn env = ForkFailed ->
     event_list b' = update_event (e_ptr ev) (set_e_state EVENT_QUEUED) (event_list b) \/
     event_list b' = event_list b).
Proof.
  assert (Hsame : forall x, spawn env = x ->
             exists appended,
               trace b = trace b ++ appended /\
               (forall dest d count, ~ In (EffSendDevice dest d count) appended) /\
               (forall pid, killed pid b -> killed pid b) /\
               (forall pid e, killed pid b ->
                              find_event (e_ptr ev) (event_list b) = Some e ->
                              e_worker e = Some pid ->
                              exists e0, find_event (e_ptr ev) (event_list b) = Some e0 /\
                                         e_worker e0 = Some pid) /\
               (x = MonitorFailed \/ x = ForkFailed ->
                event_list b =
                update_event (e_ptr ev) (set_e_state EVENT_QUEUED) (event_list b) \/
                event_list b = event_list b)).
  { intros x _. exists []. rewrite app_nil_r.
    split; [reflexivity|]. split; [intros dest d count []|]. split; [auto|].
    split; [|now right]. intros pid e _ He Hw. eauto. }
  unfold worker_spawn. destruct (spawn env) as [| |pid alloc_ok] eqn:Hspawn.
  - intros [= <-]. now apply Hsame.
  - intros [= <-]. eexists. split; [reflexivity|]. split; [|split; [|split]].
    + intros dest d count [H|[]]. discriminate.
    + auto.
    + intros pid e _. simpl. rewrite find_update by reflexivity. rewrite Nat.eqb_refl.
      destruct (find_event (e_ptr ev) (event_list b)) as [e0|]; [|discriminate].
      simpl. intros [= <-]. simpl. eauto.
    + intros _. now left.
  - unfold worker_new. destruct (negb (pid >? 1)); [discriminate|].
    destruct (negb alloc_ok); simpl; [intros [= <-]; now apply Hsame|].
    destruct (workers b !! pid) as [w|] eqn:Hw; simpl; [intros [= <-]; now apply Hsame|].
    destruct (worker_attach_event pid (e_ptr ev) (now_usec env) _) as [b2|] eqn:Hatt;
      simpl; [|discriminate].
    intros [= <-].
    apply worker_attach_event_result in Hatt as [w [e [Hlw [Hev [He [Hewk ->]]]]]].
    simpl in Hlw, He. rewrite lookup_insert_eq in Hlw. injection Hlw as <-. simpl.
    eexists. split; [reflexivity|]. split; [|split; [|split]].
    + intros dest d count [H|[]]. discriminate.
    + intros q [wq [Hwq Hst]]. unfold killed. simpl.
      rewrite !lookup_insert. destruct (decide (pid = q)) as [<-|Hne]; [congruence | eauto].
    + intros q x [wq [Hwq Hst]]. simpl in Hwq. simpl.
      rewrite find_update by reflexivity. rewrite Nat.eqb_refl, He. simpl.
      intros [= <-]. simpl. intros [= <-].
      rewrite lookup_insert_eq in Hwq. injection Hwq as <-. discriminate.
    + intros [H|H]; discriminate.
Qed.

Lemma event_run_refusals (b b' : broker) (ev : event) (env : run_env)
      (appended : list effect) :
  broker_inv b ->
  queued_at ev b ->
  event_run ev env b = Some b' ->
  trace b' = trace b ++ appended ->
  (forall pid count,
      In (EffSendDevice (Some pid) (e_dev ev) count) appended -> count < 0 ->
      In (EffKill pid SIGKILL) appended /\
      killed pid b' /\
      (forall e, find_event (e_ptr ev) (event_list b') = Some e -> e_worker e <> Some pid)) /\
  ((forall dest d count, In (EffSendDevice dest d count) appended -> count < 0) ->
   (arg_children_max b <= hashmap_size b \/
    spawn env = MonitorFailed \/ spawn env = ForkFailed) ->
   event_list b' = event_list b).
Proof.
  intros Hinv [e0 [He0 Hst0]] Hrun Htrace.
  assert (Hnone : e_worker e0 = None) by exact (inv_queued _ _ _ Hinv _ e0 He0 Hst0).
  unfold event_run in Hrun.
  destruct (event_run_loop ev env (worker_pids b) b) as [[returned b1]|] eqn:Hloop;
    simpl in Hrun; [|discriminate].
  apply event_run_loop_refusals in Hloop
    as [app1 [Htr1 [[HS [HK HW]] [Hfalse Htrue]]]].
  assert (Htail : exists app2,
             trace b' = trace b1 ++ app2 /\
             (forall dest d count, ~ In (EffSendDevice dest d count) app2) /\
             (forall pid, killed pid b1 -> killed pid b') /\
             (forall pid e, killed pid b' ->
                            find_event (e_ptr ev) (event_list b') = Some e ->
                            e_worker e = Some pid ->
                            exists e1, find_event (e_ptr ev) (event_list b1) = Some e1 /\
                                       e_worker e1 = Some pid) /\
             (returned = false ->
              arg_children_max b <= hashmap_size b \/
              spawn env = MonitorFailed \/ spawn env = ForkFailed ->
              event_list b' = event_list b)).
  { assert (Hstay : forall lines,
               (forall dest d count, ~ In (EffSendDevice dest d count) lines) ->
               forall b2, trace b2 = trace b1 ++ lines ->
                          workers b2 = workers b1 -> event_list b2 = event_list b1 ->
               (returned = false -> event_list b1 = event_list b) ->
               exists app2,
                 trace b2 = trace b1 ++ app2 /\
                 (forall dest d count, ~ In (EffSendDevice dest d count) app2) /\
                 (forall pid, killed pid b1 -> killed pid b2) /\
                 (forall pid e, killed pid b2 ->
                                find_event (e_ptr ev) (event_list b2) = Some e ->
                                e_worker e = Some pid ->
                                exists e1, find_event (e_ptr ev) (event_list b1) = Some e1 /\
                                           e_worker e1 = Some pid) /\
                 (returned = false ->
                  arg_children_max b <= hashmap_size b \/
                  spawn env = MonitorFailed \/ spawn env = ForkFailed ->
                  event_list b2 = event_list b)).
    { intros lines Hlines b2 Ht Hw Hl Hb. exists lines.
      split; [exact Ht|]. split; [exact Hlines|]. split; [|split].
      - intros pid [w [Hlw Hs]]. exists w. now rewrite Hw.
      - intros pid e _ He Hwk. rewrite Hl in He. eauto.
      - intros Hret _. rewrite Hl. now apply Hb. }
    destruct returned.
    - injection Hrun as <-. apply (Hstay []); auto.
      + now rewrite app_nil_r.
      + discriminate.
    - destruct (Hfalse eq_refl) as [Hl [Hc Hs]].
      destruct (hashmap_size b1 >=? arg_children_max b1) eqn:Hcap.
      + injection Hrun as <-. destruct (arg_children_max b1 >? 1).
        * apply (Hstay [EffLog LOG_DEBUG "maximum number (%i) of children reached"]); auto.
          intros dest d count [H|[]]. discriminate.
        * apply (Hstay []); auto. now rewrite app_nil_r.
      + apply worker_spawn_refusals in Hrun as [app2 [Htr2 [Hno [HK2 [HW2 Hfail]]]]].
        exists app2. split; [exact Htr2|]. split; [exact Hno|].
        split; [exact HK2|]. split; [exact HW2|].
        intros _ [Hroom|Hspawn].
        * rewrite Z.geb_leb in Hcap. apply Z.leb_gt in Hcap. lia.
        * destruct (Hfail Hspawn) as [Hupd|Hsame]; [|congruence].
          rewrite Hupd, Hl. apply (set_queued_at _ _ e0); auto. apply Hinv. }
  destruct Htail as [app2 [Htr2 [Hno [HK2 [HW2 Hleft]]]]].
  assert (Happ : appended = app1 ++ app2).
  { rewrite Htr2, Htr1, <- app_assoc in Htrace. now apply app_inv_head in Htrace. }
  subst appended. split.
  - intros pid count Hin Hneg. apply in_app_iff in Hin as [Hin|Hin];
      [|exfalso; exact (Hno _ _ _ Hin)].
    destruct (HS pid count Hin Hneg) as [Hkill Hk1].
    split; [apply in_app_iff; now left|]. split; [now apply HK2|].
    intros e He Hwk.
    destruct (HW2 pid e (HK2 pid Hk1) He Hwk) as [e1 [He1 Hwk1]].
    destruct (HW pid e1 Hk1 He1 Hwk1) as [e2 [He2 Hwk2]]. congruence.
  - intros Hall Hcannot. apply Hleft; [|exact Hcannot].
    destruct returned; [|reflexivity].
    destruct (Htrue eq_refl) as [pid [count [Hin Hpos]]].
    assert (count < 0) by (apply (Hall (Some pid) (e_dev ev)); apply in_app_iff; now left).
    lia.
Qed.

(** No assertion of [worker_attach_event] fails for an unattached
    listed event and a worker without an event. *)
Lemma worker_attach_event_total (pid : Z) (p : nat) (now : Z) (b : broker)
      (w : worker) (e : event) :
  workers b !! pid = Some w -> w_event w = None ->
  find_event p (event_list b) = Some e -> e_worker e = None ->
  exists b', worker_attach_event pid p now b = Some b'.
Proof.
  intros Hw Hev He Hewk. unfold worker_attach_event. rewrite Hw, He, Hewk, Hev. eauto.
Qed.

Lemma event_run_loop_total (ev : event) (env : run_env) (pids : list Z) (b : broker) :
  broker_inv b -> queued_at ev b ->
  exists returned b', event_run_loop ev env pids b = Some (returned, b').
Proof.
  revert b. induction pids as [|pid rest IH]; intros b Hinv Hq; simpl; [eauto|].
  destruct (workers b !! pid) as [w|] eqn:Hw; [|now apply IH].
  destruct (worker_state_eqb (w_state w) WORKER_IDLE) eqn:Hidle; simpl; [|now apply IH].
  destruct (send_count env pid <? 0).
  - apply IH.
    + apply (broker_inv_env (set_workers (alter (set_w_state WORKER_KILLED) pid (workers b)) b));
        try reflexivity.
      apply broker_inv_set_state; [exact Hinv | discriminate].
    + exact Hq.
  - destruct Hq as [e [He Hst]].
    destruct (worker_attach_event_total pid (e_ptr ev) (now_usec env)
                (emit (EffSendDevice (Some pid) (e_dev ev) (send_count env pid)) b) w e)
      as [b' Hb']; auto.
    + apply (inv_idle _ _ _ Hinv pid w Hw). now destruct (w_state w).
    + exact (inv_queued _ _ _ Hinv _ e He Hst).
    + rewrite Hb'. simpl. eauto.
Qed.

(** [event_run] returns for a listed, queued event in a state that
    satisfies the pool invariant, [fork] returning a pid above 1. *)
Lemma event_run_total (ev : event) (env : run_env) (b : broker) :
  broker_inv b -> queued_at ev b ->
  (forall pid alloc_ok, spawn env = Forked pid alloc_ok -> 1 < pid) ->
  exists b', event_run ev env b = Some b'.
Proof.
  intros Hinv Hq Hpid. unfold event_run.
  destruct (event_run_loop_total ev env (worker_pids b) b Hinv Hq) as [returned [b1 Hloop]].
  rewrite Hloop. simpl.
  apply event_run_loop_inv in Hloop as [Hinv1 Hlist]; [|exact Hinv].
  destruct returned; [eauto|]. specialize (Hlist eq_refl).
  destruct (hashmap_size b1 >=? arg_children_max b1); [eauto|].
  unfold worker_spawn. destruct (spawn env) as [| |pid alloc_ok] eqn:Hspawn; [eauto | eauto|].
  unfold worker_new. specialize (Hpid pid alloc_ok eq_refl).
  destruct (pid >? 1) eqn:Hgt; [|rewrite Z.gtb_ltb in Hgt; apply Z.ltb_ge in Hgt; lia]. simpl.
  destruct (negb alloc_ok); simpl; [eauto|].
  destruct (workers b1 !! pid) as [w|] eqn:Hw; simpl; [eauto|].
  destruct Hq as [e [He Hst]]. rewrite <- Hlist in He.
  destruct (worker_attach_event_total pid (e_ptr ev) (now_usec env)
              (set_workers (<[pid := {| w_pid := pid; w_state := WORKER_UNDEF;
                                        w_event := None |}]> (workers b1)) b1)
              {| w_pid := pid; w_state := WORKER_UNDEF; w_event := None |} e)
    as [b' Hb']; auto.
  - simpl. apply lookup_insert_eq.
  - exact (inv_queued _ _ _ Hinv1 _ e He Hst).
  - rewrite Hb'. simpl. eauto.
Qed.

Lemma event_run_trace (ev : event) (env : run_env) (b b' : broker) :
  event_run ev env b = Some b' -> exists appended, trace b' = trace b ++ appended.
Proof.
  unfold event_run.
  destruct (event_run_loop ev env (worker_pids b) b) as [[returned b1]|] eqn:Hloop;
    simpl; [|discriminate].
  apply event_run_loop_refusals in Hloop as [app1 [Htr1 _]].
  destruct returned; [intros [= <-]; eauto|].
  destruct (hashmap_size b1 >=? arg_children_max b1).
  - intros [= <-]. destruct (arg_children_max b1 >? 1); [|eauto].
    simpl. rewrite Htr1, <- app_assoc. eauto.
  - intros Hsp. apply worker_spawn_refusals in Hsp as [app2 [Htr2 _]].
    rewrite Htr2, Htr1, <- app_assoc. eauto.
Qed.

(** How far the loop of [event_run] gets: the idle workers among the
    pids [tried] refused the device, and either the next pid is an idle
    worker that accepted it and got the event, or the loop ran through
    all the pids. *)
Lemma event_run_loop_scan (ev : event) (env : run_env) (pids : list Z) (b b' : broker)
      (returned : bool) :
  event_run_loop ev env pids b = Some (returned, b') ->
  exists tried appended,
    trace b' = trace b ++ appended /\
    (forall pid w, In pid tried -> workers b !! pid = Some w -> w_state w = WORKER_IDLE ->
                   send_count env pid < 0 /\
                   In (EffSendDevice (Some pid) (e_dev ev) (send_count env pid)) appended) /\
    (forall pid, workers b' !! pid = None <-> workers b !! pid = None) /\
    if returned then
      exists pid rest w,
        pids = tried ++ pid :: rest /\
        workers b !! pid = Some w /\ w_state w = WORKER_IDLE /\
        0 <= send_count env pid /\
        In (EffSendDevice (Some pid) (e_dev ev) (send_count env pid)) appended /\
        event_list b' =
          update_event (e_ptr ev) (attach_to_worker pid (now_usec env)) (event_list b) /\
        workers b' !! pid =
          Some {| w_pid := w_pid w; w_state := WORKER_RUNNING; w_event := Some (e_ptr ev) |}
    else tried = pids.
Proof.
  revert b. induction pids as [|q pids IH]; intros b; simpl.
  { intros [= <- <-]. exists [], []. rewrite app_nil_r.
    split; [reflexivity|]. split; [intros pid w []|]. split; [tauto | reflexivity]. }
  assert (Hskip : (forall w, workers b !! q = Some w -> w_state w <> WORKER_IDLE) ->
                  event_run_loop ev env pids b = Some (returned, b') ->
                  exists tried appended,
                    trace b' = trace b ++ appended /\
                    (forall pid w, In pid tried -> workers b !! pid = Some w ->
                                   w_state w = WORKER_IDLE ->
                                   send_count env pid < 0 /\
                                   In (EffSendDevice (Some pid) (e_dev ev) (send_count env pid))
                                      appended) /\
                    (forall pid, workers b' !! pid = None <-> workers b !! pid = None) /\
                    if returned then
                      exists pid rest w,
                        q :: pids = tried ++ pid :: rest /\
                        workers b !! pid = Some w /\ w_state w = WORKER_IDLE /\
                        0 <= send_count env pid /\
                        In (EffSendDevice (Some pid) (e_dev ev) (send_count env pid)) appended /\
                        event_list b' =
                          update_event (e_ptr ev) (attach_to_worker pid (now_usec env))
                                       (event_list b) /\
                        workers b' !! pid =
                          Some {| w_pid := w_pid w; w_state := WORKER_RUNNING;
                                  w_event := Some (e_ptr ev) |}
                    else tried = q :: pids).
  { intros Hq Hloop.
    destruct (IH b Hloop) as (tried & appended & Htr & Htried & Hkeys & Hres).
    exists (q :: tried), appended. split; [exact Htr|]. split; [|split; [exact Hkeys|]].
    - intros pid w [<- | Hin] Hw Hidle; [|now apply (Htried pid w)].
      exfalso. exact (Hq w Hw Hidle).
    - destruct returned; [|now rewrite Hres].
      destruct Hres as (pid & rest & w & -> & Hres). exists pid, rest, w.
      split; [reflexivity | exact Hres]. }
  destruct (workers b !! q) as [wq|] eqn:Hwq; [|apply Hskip; discriminate].
  destruct (worker_state_eqb (w_state wq) WORKER_IDLE) eqn:Hidleq; simpl.
  2:{ apply Hskip. intros w [= <-] Hidle. rewrite Hidle in Hidleq. discriminate. }
  apply worker_state_eqb_eq in Hidleq. clear Hskip.
  destruct (Z.ltb_spec (send_count env q) 0) as [Hneg|Hok].
  - intros Hloop.
    destruct (IH _ Hloop) as (tried & appended & Htr & Htried & Hkeys & Hres).
    simpl in Htr. rewrite <- !app_assoc in Htr. simpl in Htr.
    assert (Hother : forall pid, pid <> q ->
               workers (set_workers (alter (set_w_state WORKER_KILLED) q (workers b))
                          (emit (EffKill q SIGKILL)
                             (log LOG_ERR "worker [%d] did not accept message %zi (%m), kill it"
                                (emit (EffSendDevice (Some q) (e_dev ev) (send_count env q)) b))))
                 !! pid = workers b !! pid).
    { intros pid Hne. simpl. rewrite lookup_alter_ne; [reflexivity | congruence]. }
    eexists (q :: tried), _. split; [exact Htr|]. split; [|split].
    + intros pid w Hin Hw Hidle. destruct (Z.eq_dec pid q) as [-> | Hne].
      * split; [exact Hneg | now left].
      * destruct Hin as [<- | Hin]; [contradiction|].
        rewrite <- (Hother pid Hne) in Hw.
        destruct (Htried pid w Hin Hw Hidle) as [H1 H2].
        split; [exact H1|]. right. right. right. exact H2.
    + intros pid. rewrite Hkeys. simpl. rewrite lookup_alter.
      destruct (decide (q = pid)) as [<- | Hne]; [|reflexivity].
      rewrite Hwq. simpl. split; discriminate.
    + destruct returned; [|now rewrite Hres].
      destruct Hres as (pid & rest & w & -> & Hw & Hidle & Hcount & Hsent & Hl & Hw').
      assert (Hne : pid <> q).
      { intros ->. simpl in Hw. rewrite lookup_alter_eq, Hwq in Hw. simpl in Hw.
        injection Hw as <-. discriminate. }
      rewrite (Hother pid Hne) in Hw.
      exists pid, rest, w. split; [reflexivity|]. split; [exact Hw|].
      split; [exact Hidle|]. split; [exact Hcount|].
      split; [right; right; right; exact Hsent|]. split; [exact Hl | exact Hw'].
  - destruct (worker_attach_event q (e_ptr ev) (now_usec env) _) as [b2|] eqn:Hatt;
      simpl; [|discriminate].
    intros [= <- <-].
    apply worker_attach_event_result in Hatt as (w & e & Hw & _ & _ & _ & ->).
    simpl in Hw. rewrite Hwq in Hw. injection Hw as <-.
    exists [], [EffSendDevice (Some q) (e_dev ev) (send_count env q)].
    split; [reflexivity|]. split; [intros pid w []|]. split.
    + intros pid. simpl. rewrite lookup_insert.
      destruct (decide (q = pid)) as [<- | Hne]; [|reflexivity].
      rewrite Hwq. split; discriminate.
    + exists q, pids, wq. simpl. rewrite lookup_insert_eq. repeat split; auto.
Qed.

(** What [event_run] does past a refusal: the loop goes on to the other
    idle workers, and when it has run through all of them the function
    goes on to [worker_spawn]. *)
Lemma event_run_continues (b b' : broker) (ev : event) (env : run_env)
      (appended : list effect) :
  broker_inv b -> In ev (event_list b) -> e_state ev = EVENT_QUEUED ->
  event_run ev env b = Some b' ->
  trace b' = trace b ++ appended ->
  ((exists pid w, workers b !! pid = Some w /\ w_state w = WORKER_IDLE /\
                  0 <= send_count env pid) ->
   exists tried pid rest w,
     worker_pids b = tried ++ pid :: rest /\
     refused_and_killed ev env tried b b' appended /\
     workers b !! pid = Some w /\ w_state w = WORKER_IDLE /\
     0 <= send_count env pid /\
     In (EffSendDevice (Some pid) (e_dev ev) (send_count env pid)) appended /\
     attached_to ev pid (now_usec env) b') /\
  ((forall pid w, workers b !! pid = Some w -> w_state w = WORKER_IDLE ->
                  send_count env pid < 0) ->
   refused_and_killed ev env (worker_pids b) b b' appended /\
   (hashmap_size b < arg_children_max b ->
    forall pid, spawn env = Forked pid true -> workers b !! pid = None ->
                attached_to ev pid (now_usec env) b') /\
   (cannot_spawn env b ->
    event_list b' = event_list b /\ In ev (event_list b') /\ e_worker ev = None)).
Proof.
  intros Hinv Hin Hst Hrun Htrace.
  pose proof (queued_at_of_In ev b Hinv Hin Hst) as Hq.
  pose proof (inv_nodup _ _ _ Hinv) as Hnd.
  pose proof (find_event_of_In _ _ Hnd Hin) as Hfind.
  destruct (event_run_refusals b b' ev env appended Hinv Hq Hrun Htrace) as [Hkill _].
  assert (Hkilled : forall tried app1,
             (forall x, In x app1 -> In x appended) ->
             (forall pid w, In pid tried -> workers b !! pid = Some w ->
                            w_state w = WORKER_IDLE ->
                            send_count env pid < 0 /\
                            In (EffSendDevice (Some pid) (e_dev ev) (send_count env pid)) app1) ->
             refused_and_killed ev env tried b b' appended).
  { intros tried app1 Hsub Htried pid w Hp Hw Hidle.
    destruct (Htried pid w Hp Hw Hidle) as [Hneg Hsent]. apply Hsub in Hsent.
    destruct (Hkill pid _ Hsent Hneg) as (K1 & K2 & _). auto. }
  unfold event_run in Hrun.
  destruct (event_run_loop ev env (worker_pids b) b) as [[returned b1]|] eqn:Hloop;
    simpl in Hrun; [|discriminate].
  destruct (event_run_loop_refusals _ _ _ _ _ _ Hloop) as (app0 & Htr0 & _ & Hfalse & _).
  destruct (event_run_loop_scan _ _ _ _ _ _ Hloop)
    as (tried & app1 & Htr1 & Htried & Hkeys & Hres).
  destruct returned.
  - injection Hrun as <-.
    assert (app1 = appended) as ->.
    { rewrite Htr1 in Htrace. now apply app_inv_head in Htrace. }
    destruct Hres as (pid & rest & w & Hpids & Hw & Hidle & Hcount & Hsent & Hl & Hw').
    split.
    + intros _. exists tried, pid, rest, w. split; [exact Hpids|].
      split; [apply (Hkilled tried appended); auto|].
      split; [exact Hw|]. split; [exact Hidle|]. split; [exact Hcount|].
      split; [exact Hsent|]. split.
      * rewrite Hl. apply (find_event_attached _ ev pid (now_usec env) Hnd Hin).
      * eexists. split; [exact Hw'|]. split; reflexivity.
    + intros Hall. specialize (Hall pid w Hw Hidle). lia.
  - subst tried. destruct (Hfalse eq_refl) as (Hl & Hcap & Hsize).
    assert (Hsub : forall x, In x app1 -> In x appended).
    { assert (Hext : exists app2, trace b' = trace b1 ++ app2).
      { destruct (hashmap_size b1 >=? arg_children_max b1).
        - injection Hrun as <-. destruct (arg_children_max b1 >? 1); simpl; eauto.
          exists []. now rewrite app_nil_r.
        - apply worker_spawn_refusals in Hrun as (app2 & Htr2 & _). eauto. }
      destruct Hext as [app2 Htr2]. rewrite Htr2, Htr1, <- app_assoc in Htrace.
      apply app_inv_head in Htrace. subst appended.
      intros x Hx. apply in_app_iff. now left. }
    split.
    + intros (pid & w & Hw & Hidle & Hcount). exfalso.
      destruct (Htried pid w (worker_pids_In b pid w Hw) Hw Hidle) as [Hneg _]. lia.
    + intros _. split; [apply (Hkilled (worker_pids b) app1); auto|]. split.
      * intros Hroom pid Hspawn Hnew.
        destruct (Z.geb_spec (hashmap_size b1) (arg_children_max b1)) as [Hfull|_]; [lia|].
        unfold worker_spawn in Hrun. rewrite Hspawn in Hrun. unfold worker_new in Hrun.
        destruct (negb (pid >? 1)); [discriminate|]. simpl in Hrun.
        rewrite (proj2 (Hkeys pid) Hnew) in Hrun. simpl in Hrun.
        destruct (worker_attach_event _ _ _ _) as [b2|] eqn:Hatt; simpl in Hrun;
          [|discriminate].
        injection Hrun as <-.
        apply worker_attach_event_result in Hatt as (w0 & e & Hw0 & _ & _ & _ & ->).
        simpl in *. rewrite Hl. split.
        -- apply (find_event_attached _ ev pid (now_usec env) Hnd Hin).
        -- eexists. split; [apply lookup_insert_eq|]. split; reflexivity.
      * intros Hcannot.
        assert (Hsame : event_list b' = event_list b).
        { destruct (Z.geb_spec (hashmap_size b1) (arg_children_max b1)) as [Hfull|Hroom].
          { injection Hrun as <-. now destruct (arg_children_max b1 >? 1). }
          unfold worker_spawn in Hrun.
          destruct Hcannot as [Hc|[Hc|[Hc|[[pid Hc]|(pid & alloc_ok & w & Hc & Hw)]]]].
          - lia.
          - rewrite Hc in Hrun. now injection Hrun as <-.
          - rewrite Hc in Hrun. injection Hrun as <-. simpl. rewrite Hl.
            apply (set_queued_at _ _ ev); auto.
          - rewrite Hc in Hrun. unfold worker_new in Hrun.
            destruct (negb (pid >? 1)); [discriminate|]. simpl in Hrun.
            now injection Hrun as <-.
          - rewrite Hc in Hrun. unfold worker_new in Hrun.
            destruct (negb (pid >? 1)); [discriminate|].
            destruct (negb alloc_ok); simpl in Hrun; [now injection Hrun as <-|].
            destruct (workers b1 !! pid) as [w1|] eqn:Hw1; simpl in Hrun;
              [now injection Hrun as <-|].
            apply Hkeys in Hw1. congruence. }
        rewrite Hsame. split; [reflexivity|]. split; [exact Hin|].
        exact (inv_queued _ _ _ Hinv _ ev Hfind Hst).
Qed.

(** C7, as the code has it: in every reachable state, an [event_run] for
    a listed, queued event E returns ([fork] yielding a pid above 1), and
    - each idle worker that refused E's device in it (the unicast send
      returned a negative count) was sent SIGKILL and is left in state
      [WORKER_KILLED], and E is not attached to it;
    - the loop goes on to the remaining idle workers: when some idle
      worker accepts the device, the idle workers before the first such
      worker, in the order of the loop, were each sent the device, refused
      it and were killed, and E is attached to that worker and running;
    - past the loop the call goes on to [worker_spawn]: when every idle
      worker refuses, each of them was sent the device and killed, and E
      is attached to the newly forked worker and running when the pool is
      below [children_max] and the fork and [worker_new] succeed, and is
      left as it was (queued, with no worker) when no worker can be had;
    - E is left as it was when every send of the call was refused and the
      pool is at [children_max], or the monitor or the fork fails. *)
Theorem C7_send_failure (b : broker) (ev : event) (env : run_env) :
  reachable any_device b ->
  In ev (event_list b) ->
  e_state ev = EVENT_QUEUED ->
  (forall pid alloc_ok, spawn env = Forked pid alloc_ok -> 1 < pid) ->
  exists b' appended,
    event_run ev env b = Some b' /\
    trace b' = trace b ++ appended /\
    (forall pid count,
        In (EffSendDevice (Some pid) (e_dev ev) count) appended -> count < 0 ->
        In (EffKill pid SIGKILL) appended /\
        killed pid b' /\
        (forall e, find_event (e_ptr ev) (event_list b') = Some e ->
                   e_worker e <> Some pid)) /\
    ((exists pid w, workers b !! pid = Some w /\ w_state w = WORKER_IDLE /\
                    0 <= send_count env pid) ->
     exists tried pid rest w,
       worker_pids b = tried ++ pid :: rest /\
       refused_and_killed ev env tried b b' appended /\
       workers b !! pid = Some w /\ w_state w = WORKER_IDLE /\
       0 <= send_count env pid /\
       In (EffSendDevice (Some pid) (e_dev ev) (send_count env pid)) appended /\
       attached_to ev pid (now_usec env) b') /\
    ((forall pid w, workers b !! pid = Some w -> w_state w = WORKER_IDLE ->
                    send_count env pid < 0) ->
     refused_and_killed ev env (worker_pids b) b b' appended /\
     (hashmap_size b < arg_children_max b ->
      forall pid, spawn env = Forked pid true -> workers b !! pid = None ->
                  attached_to ev pid (now_usec env) b') /\
     (cannot_spawn env b ->
      event_list b' = event_list b /\ In ev (event_list b') /\ e_worker ev = None)) /\
    ((forall dest d count, In (EffSendDevice dest d count) appended -> count < 0) ->
     (arg_children_max b <= hashmap_size b \/
      spawn env = MonitorFailed \/ spawn env = ForkFailed) ->
     event_list b' = event_list b /\ In ev (event_list b') /\ e_worker ev = None).
Proof.
  intros Hr Hin Hst Hpid. pose proof (reachable_broker_inv _ _ Hr) as Hinv.
  pose proof (queued_at_of_In ev b Hinv Hin Hst) as Hq.
  destruct (event_run_total ev env b Hinv Hq Hpid) as [b' Hrun].
  destruct (event_run_trace ev env b b' Hrun) as [appended Htrace].
  exists b', appended. split; [exact Hrun|]. split; [exact Htrace|].
  destruct (event_run_refusals b b' ev env appended Hinv Hq Hrun Htrace) as [H1 H2].
  destruct (event_run_continues b b' ev env appended Hinv Hin Hst Hrun Htrace) as [H3 H4].
  split; [exact H1|]. split; [exact H3|]. split; [exact H4|]. intros Hall Hcannot.
  rewrite (H2 Hall Hcannot). split; [reflexivity|]. split; [exact Hin|].
  apply (inv_queued _ _ _ Hinv (e_ptr ev)); [|exact Hst].
  apply find_event_of_In; [apply Hinv | exact Hin].
Qed.

Lemma reachable_idle_queued : reachable any_device Examples.idle_queued.
Proof.
  apply (reach_step _ Examples.idle).
  - apply (reach_step _ Examples.dispatched); [apply reachable_dispatched|].
    apply step_worker.
  - apply (step_uevent any_device Examples.idle Examples.pci_a true). exact I.
Qed.

Lemma C7_send_failure_witness :
  let b := Examples.idle_queued in
  let ev := event_new 2 Examples.pci_a in
  let env := Examples.refuse_env 101 in
  exists b' appended,
    event_run ev env b = Some b' /\
    trace b' = trace b ++ appended /\
    (forall pid count,
        In (EffSendDevice (Some pid) (e_dev ev) count) appended -> count < 0 ->
        In (EffKill pid SIGKILL) appended /\
        killed pid b' /\
        (forall e, find_event (e_ptr ev) (event_list b') = Some e ->
                   e_worker e <> Some pid)) /\
    ((exists pid w, workers b !! pid = Some w /\ w_state w = WORKER_IDLE /\
                    0 <= send_count env pid) ->
     exists tried pid rest w,
       worker_pids b = tried ++ pid :: rest /\
       refused_and_killed ev env tried b b' appended /\
       workers b !! pid = Some w /\ w_state w = WORKER_IDLE /\
       0 <= send_count env pid /\
       In (EffSendDevice (Some pid) (e_dev ev) (send_count env pid)) appended /\
       attached_to ev pid (now_usec env) b') /\
    ((forall pid w, workers b !! pid = Some w -> w_state w = WORKER_IDLE ->
                    send_count env pid < 0) ->
     refused_and_killed ev env (worker_pids b) b b' appended /\
     (hashmap_size b < arg_children_max b ->
      forall pid, spawn env = Forked pid true -> workers b !! pid = None ->
                  attached_to ev pid (now_usec env) b') /\
     (cannot_spawn env b ->
      event_list b' = event_list b /\ In ev (event_list b') /\ e_worker ev = None)) /\
    ((forall dest d count, In (EffSendDevice dest d count) appended -> count < 0) ->
     (arg_children_max b <= hashmap_size b \/
      spawn env = MonitorFailed \/ spawn env = ForkFailed) ->
     event_list b' = event_list b /\ In ev (event_list b') /\ e_worker ev = None).
Proof.
  apply (C7_send_failure Examples.idle_queued (event_new 2 Examples.pci_a)
           (Examples.refuse_env 101)).
  - apply reachable_idle_queued.
  - vm_compute. auto.
  - reflexivity.
  - intros pid alloc_ok [= <- _]. lia.
Defined.

(** C7 as stated fails in its last part: in a reachable state the idle
    worker 100 refuses the device of the queued event, is killed, and the same [event_run] goes on
    to fork worker 101 and attaches the event to it: the event leaves the
    call running, not queued. *)
Lemma C7_counterexample :
  let b := Examples.idle_queued in
  let ev := event_new 2 Examples.pci_a in
  let env := Examples.refuse_env 101 in
  reachable any_device b /\
  workers b !! 100 = Some {| w_pid := 100; w_state := WORKER_IDLE; w_event := None |} /\
  find_event 2 (event_list b) = Some ev /\
  e_state ev = EVENT_QUEUED /\
  send_count env 100 < 0 /\
  exists b',
    event_run ev env b = Some b' /\
    workers b' !! 100 = Some {| w_pid := 100; w_state := WORKER_KILLED; w_event := None |} /\
    find_event 2 (event_list b') = Some (attach_to_worker 101 2000 ev) /\
    e_state (attach_to_worker 101 2000 ev) = EVENT_RUNNING /\
    e_worker (attach_to_worker 101 2000 ev) = Some 101.
Proof.
  cbv zeta. split; [apply reachable_idle_queued|].
  split; [vm_compute; reflexivity|]. split; [reflexivity|].
  split; [reflexivity|]. split; [reflexivity|].
  eexists. split; [vm_compute; reflexivity|].
  split; [vm_compute; reflexivity|]. split; [vm_compute; reflexivity|].
  split; reflexivity.
Qed.

(** ** The event list when uevents arrive in order *)

Lemma In_remove_event (p : nat) (l : list event) (e : event) :
  In e (remove_event p l) -> In e l.
Proof.
  induction l as [|a l IH]; simpl; [tauto|].
  destruct (Nat.eqb (e_ptr a) p); simpl; tauto.
Qed.

Lemma In_update_event (p : nat) (f : event -> event) (l : list event) (e' : event) :
  In e' (update_event p f l) ->
  In e' l \/ exists e, In e l /\ e_ptr e = p /\ e' = f e.
Proof.
  induction l as [|a l IH]; simpl; [tauto|].
  destruct (Nat.eqb_spec (e_ptr a) p) as [Hp|Hp]; simpl.
  - intros [<-|H]; [right; exists a; auto | auto].
  - intros [<-|H]; [auto|].
    destruct (IH H) as [H1|[e [H1 [H2 H3]]]]; [auto|].
    right. exists e. auto.
Qed.

Lemma In_update_kept (p : nat) (f : event -> event) (l : list event) (e' : event) :
  (forall e, keys_kept e (f e)) ->
  In e' (update_event p f l) -> exists e, In e l /\ keys_kept e e'.
Proof.
  intros Hf Hin. apply In_update_event in Hin as [H|[e [H1 [H2 ->]]]].
  - exists e'. split; [exact H|]. repeat split.
  - exists e. auto.
Qed.

Lemma seqnum_sorted_remove (p : nat) (l : list event) :
  seqnum_sorted l -> seqnum_sorted (remove_event p l).
Proof.
  induction 1 as [|a l Hs IH Hall]; simpl; [constructor|].
  destruct (Nat.eqb (e_ptr a) p); [exact Hs|].
  constructor; [exact IH|].
  rewrite List.Forall_forall in *. intros x Hx. apply Hall. now apply In_remove_event in Hx.
Qed.

Lemma seqnum_sorted_update (p : nat) (f : event -> event) (l : list event) :
  (forall e, e_seqnum (f e) = e_seqnum e) ->
  seqnum_sorted l -> seqnum_sorted (update_event p f l).
Proof.
  intros Hf. induction 1 as [|a l Hs IH Hall]; simpl; [constructor|].
  destruct (Nat.eqb (e_ptr a) p).
  - constructor; [exact Hs|]. rewrite Hf. exact Hall.
  - constructor; [exact IH|].
    rewrite List.Forall_forall in *. intros x Hx.
    apply In_update_event in Hx as [Hx|[e [Hx [_ ->]]]]; [auto|].
    rewrite Hf. auto.
Qed.

Lemma seqnum_sorted_snoc (l : list event) (x : event) :
  seqnum_sorted l -> (forall e, In e l -> e_seqnum e < e_seqnum x) ->
  seqnum_sorted (l ++ [x]).
Proof.
  induction 1 as [|a l Hs IH Hall]; intros Hlt; simpl.
  - repeat constructor.
  - constructor.
    + apply IH. intros e He. apply Hlt. now right.
    + rewrite List.Forall_forall in *. intros y Hy. apply in_app_iff in Hy as [Hy|[<-|[]]].
      * now apply Hall.
      * apply Hlt. now left.
Qed.

Lemma dependency_step_keys (E E' L L' : event) :
  keys_kept E E' -> keys_kept L L' -> dependency_step E' L' = dependency_step E L.
Proof.
  intros (_ & _ & E3 & E4 & E5 & E6 & E7 & E8 & _) (_ & _ & L3 & L4 & L5 & L6 & L7 & L8 & _).
  unfold dependency_step, devpath_step.
  now rewrite E3, E4, E5, E6, E7, E8, L3, L4, L6, L7, L8.
Qed.

Lemma queue_inv_remove (p : nat) (l : list event) :
  queue_inv l -> queue_inv (remove_event p l).
Proof.
  intros [Hnd Hs Hwf Hm Hb]. constructor.
  - now apply NoDup_ptr_remove.
  - now apply seqnum_sorted_remove.
  - intros e He. apply Hwf. now apply In_remove_event in He.
  - intros E L HE HL. apply Hm; now apply In_remove_event with p.
  - intros E HE. apply Hb. now apply In_remove_event in HE.
Qed.

Lemma queue_inv_update (p : nat) (f : event -> event) (l : list event) :
  (forall e, keys_kept e (f e)) ->
  queue_inv l -> queue_inv (update_event p f l).
Proof.
  intros Hf [Hnd Hs Hwf Hm Hb]. constructor.
  - rewrite map_ptr_update; [exact Hnd|]. intros e. apply Hf.
  - apply seqnum_sorted_update; [|exact Hs]. intros e. apply Hf.
  - intros e' He'. destruct (In_update_kept _ _ _ _ Hf He') as [e [He Hk]].
    destruct (Hwf e He) as [Hw Hpos].
    destruct Hk as (_ & K2 & K3 & K4 & _). unfold event_wf in *.
    rewrite K2, K3, K4. auto.
  - intros E' L' HE' HL' Hlt Hdep.
    destruct (In_update_kept _ _ _ _ Hf HE') as [E [HE HkE]].
    destruct (In_update_kept _ _ _ _ Hf HL') as [L [HL HkL]].
    rewrite (dependency_step_keys E E' L L' HkE HkL) in Hdep.
    destruct HkE as (_ & K2 & _ & _ & _ & _ & _ & _ & K9).
    destruct HkL as (_ & J2 & _).
    rewrite K2, J2 in Hlt. rewrite K9, J2. now apply Hm.
  - intros E' HE'. destruct (In_update_kept _ _ _ _ Hf HE') as [E [HE HkE]].
    destruct HkE as (_ & K2 & _ & _ & _ & _ & _ & _ & K9). rewrite K2, K9. now apply Hb.
Qed.

Lemma queue_inv_snoc (l : list event) (p : nat) (d : udev_device) :
  queue_inv l -> ~ In p (map e_ptr l) -> 0 <= dev_seqnum d ->
  (forall e, In e l -> e_seqnum e < dev_seqnum d) ->
  queue_inv (l ++ [event_new p d]).
Proof.
  intros [Hnd Hs Hwf Hm Hb] Hfresh Hpos Hlt. constructor.
  - now apply NoDup_ptr_snoc.
  - now apply seqnum_sorted_snoc.
  - intros e He. apply in_app_iff in He as [He|[<-|[]]]; [now apply Hwf|].
    split; [reflexivity | exact Hpos].
  - intros E L HE HL Hseq Hdep.
    apply in_app_iff in HE as [HE|[<-|[]]]; apply in_app_iff in HL as [HL|[<-|[]]].
    + now apply Hm.
    + specialize (Hlt E HE). simpl in Hseq. lia.
    + simpl. now apply Hwf.
    + lia.
  - intros E HE. apply in_app_iff in HE as [HE|[<-|[]]]; [now apply Hb | now left].
Qed.

Lemma dependency_step_dev (E E' L L' : event) :
  same_dev E E' -> same_dev L L' -> dependency_step E' L' = dependency_step E L.
Proof.
  intros (_ & E3 & E4 & E5 & E6 & E7 & E8) (_ & L3 & L4 & L5 & L6 & L7 & L8).
  unfold dependency_step, devpath_step.
  now rewrite E3, E4, E5, E6, E7, E8, L3, L4, L6, L7, L8.
Qed.

Lemma busy_scan_cases (E : event) (l : list event) :
  snd (busy_scan E l) = E \/
  exists pre M rest,
    l = pre ++ M :: rest /\
    (forall x, In x pre -> busy_step E x = ScanContinue) /\
    busy_step E M = ScanTrueRecord /\
    snd (busy_scan E l) = set_delaying_seqnum (e_seqnum M) E.
Proof.
  induction l as [|a l IH]; simpl; [now left|].
  destruct (busy_step E a) eqn:Ha; try (now left).
  - destruct IH as [IH|(pre & M & rest & -> & Hpre & HM & Hsnd)]; [now left|].
    right. exists (a :: pre), M, rest. repeat split; auto.
    intros x [<-|Hx]; auto.
  - right. exists [], a, l. repeat split; auto. intros x [].
Qed.

Lemma busy_step_record (E M : event) :
  busy_step E M = ScanTrueRecord ->
  e_seqnum M < e_seqnum E /\ dependency_step E M = ScanTrueRecord.
Proof.
  unfold busy_step.
  destruct (e_seqnum M <? e_delaying_seqnum E); [discriminate|].
  destruct (e_seqnum M =? e_delaying_seqnum E); [discriminate|].
  destruct (e_seqnum M >=? e_seqnum E) eqn:Hge; [discriminate|].
  rewrite Z.geb_leb in Hge. apply Z.leb_gt in Hge. auto.
Qed.

Lemma busy_step_continue (E x : event) :
  busy_step E x = ScanContinue -> e_seqnum x < e_seqnum E ->
  e_seqnum x < e_delaying_seqnum E \/ dependency_step E x = ScanContinue.
Proof.
  unfold busy_step. intros H Hlt.
  destruct (e_seqnum x <? e_delaying_seqnum E) eqn:A; [left; now apply Z.ltb_lt|].
  destruct (e_seqnum x =? e_delaying_seqnum E); [discriminate|].
  destruct (e_seqnum x >=? e_seqnum E) eqn:Hge; [discriminate|]. now right.
Qed.

Lemma seqnum_sorted_before (pre rest : list event) (M L : event) :
  seqnum_sorted (pre ++ M :: rest) -> In L (pre ++ M :: rest) ->
  e_seqnum L < e_seqnum M -> In L pre.
Proof.
  induction pre as [|a pre IH]; simpl; intros Hs Hin Hlt.
  - apply StronglySorted_inv in Hs as [_ Hall]. rewrite List.Forall_forall in Hall.
    destruct Hin as [<-|Hin]; [lia|]. specialize (Hall L Hin). simpl in Hall. lia.
  - apply StronglySorted_inv in Hs as [Hs Hall].
    destruct Hin as [<-|Hin]; [now left|]. right. now apply IH.
Qed.

Lemma set_delaying_same (e : event) : set_delaying_seqnum (e_delaying_seqnum e) e = e.
Proof. now destruct e. Qed.

(** The store that ends [is_devpath_busy] keeps the memoized numbers
    sound. *)
Lemma queue_inv_busy (E : event) (l : list event) :
  queue_inv l -> In E l ->
  queue_inv (update_event (e_ptr E)
               (set_delaying_seqnum (e_delaying_seqnum (snd (busy_scan E l)))) l).
Proof.
  intros Hq HE. pose proof Hq as [Hnd Hs Hwf Hm Hb].
  assert (Huniq : forall e, In e l -> e_ptr e = e_ptr E -> e = E).
  { intros e He Hp. pose proof (find_event_of_In _ _ Hnd He) as F1.
    pose proof (find_event_of_In _ _ Hnd HE) as F2. congruence. }
  destruct (busy_scan_cases E l) as [Hsame|(pre & M & rest & Hl & Hpre & HM & Hsnd)].
  - rewrite Hsame, update_event_id; [exact Hq|].
    intros e He Hp. rewrite (Huniq e He Hp). apply set_delaying_same.
  - rewrite Hsnd. simpl. set (s := e_seqnum M).
    apply busy_step_record in HM as [HMlt HMdep].
    assert (HMin : In M l) by (rewrite Hl; apply in_app_iff; right; now left).
    assert (Hshape : forall e', In e' (update_event (e_ptr E) (set_delaying_seqnum s) l) ->
               exists e, In e l /\ same_dev e e' /\
                         (e_delaying_seqnum e' = e_delaying_seqnum e \/
                          (e = E /\ e_delaying_seqnum e' = s))).
    { intros e' He'. apply In_update_event in He' as [H|[e [H1 [H2 ->]]]].
      - exists e'. repeat split; auto.
      - exists e. rewrite (Huniq e H1 H2) in *. repeat split; auto. }
    constructor.
    + now rewrite map_ptr_update.
    + now apply seqnum_sorted_update.
    + intros e' He'. destruct (Hshape e' He') as [e [He [Hk _]]].
      destruct (Hwf e He) as [Hw Hpos]. destruct Hk as (K1 & K2 & K3 & _).
      unfold event_wf in *. rewrite K1, K2, K3. auto.
    + intros E' L' HE' HL' Hlt Hdep.
      destruct (Hshape E' HE') as [E0 [HE0 [HkE Hd]]].
      destruct (Hshape L' HL') as [L0 [HL0 [HkL _]]].
      rewrite (dependency_step_dev E0 E' L0 L' HkE HkL) in Hdep.
      destruct HkE as (K1 & _). destruct HkL as (J1 & _).
      rewrite K1, J1 in Hlt. rewrite J1.
      destruct Hd as [Hd|[-> Hd]]; rewrite Hd; [now apply Hm|].
      destruct (Z.le_gt_cases s (e_seqnum L0)) as [Hle|Hgt]; [exact Hle|exfalso].
      assert (HLpre : In L0 pre).
      { apply (seqnum_sorted_before pre rest M); [now rewrite <- Hl | now rewrite <- Hl | lia]. }
      destruct (busy_step_continue E L0 (Hpre L0 HLpre) Hlt) as [Hskip|Hcont];
        [|contradiction].
      specialize (Hm E L0 HE HL0 Hlt Hdep). lia.
    + intros E' HE'. destruct (Hshape E' HE') as [E0 [HE0 [HkE Hd]]].
      destruct HkE as (K1 & _). rewrite K1.
      destruct Hd as [Hd|[-> Hd]]; rewrite Hd; [now apply Hb|].
      right. exact HMlt.
Qed.

(** ** Properties of the event list that every operation keeps *)

Lemma event_list_kill_one (b : broker) (pid : Z) :
  event_list (worker_kill_one b pid) = event_list b.
Proof.
  unfold worker_kill_one. destruct (workers b !! pid) as [w|]; [|reflexivity].
  now destruct (worker_state_eqb (w_state w) WORKER_KILLED).
Qed.

Lemma event_list_worker_kill (b : broker) : event_list (worker_kill b) = event_list b.
Proof.
  unfold worker_kill. generalize (worker_pids b). intros pids. revert b.
  induction pids as [|pid pids IH]; intros b; simpl; [reflexivity|].
  now rewrite IH, event_list_kill_one.
Qed.

Lemma event_list_on_ctrl_msg (received : option ctrl_msg) (b : broker) :
  event_list (on_ctrl_msg received b) = event_list b.
Proof. apply on_ctrl_msg_marker. Qed.

Section QueueClosed.

Variable P : list event -> Prop.
Hypothesis Hrem : forall p l, P l -> P (remove_event p l).
Hypothesis Hupd : forall p f l, (forall e, keys_kept e (f e)) -> P l -> P (update_event p f l).
Hypothesis Hbusy : forall E l,
    P l -> In E l ->
    P (update_event (e_ptr E)
         (set_delaying_seqnum (e_delaying_seqnum (snd (busy_scan E l)))) l).

Lemma closed_event_free (op : option nat) (b : broker) :
  P (event_list b) -> P (event_list (event_free op b)).
Proof.
  intros H. unfold event_free. destruct op as [p|]; [|exact H].
  destruct (find_event p (event_list b)) as [e|]; [|exact H].
  destruct (e_worker e); simpl; now apply Hrem.
Qed.

Lemma closed_on_worker (incoming : list recv_result) (b : broker) :
  P (event_list b) -> P (event_list (on_worker incoming b)).
Proof.
  revert b. induction incoming as [|m rest IH]; intros b H; simpl; [exact H|].
  destruct m as [again|size ucred_pid]; [destruct again; exact H|].
  destruct (negb (size =? sizeof_worker_message)); [apply IH; exact H|].
  destruct ucred_pid as [pid|]; [|apply IH; exact H].
  destruct (pid <=? 0); [apply IH; exact H|].
  destruct (workers b !! pid) as [w|]; [|apply IH; exact H].
  apply IH, closed_event_free. now destruct (negb _).
Qed.

Lemma closed_worker_free (pid : Z) (b : broker) :
  P (event_list b) -> P (event_list (worker_free pid b)).
Proof.
  intros H. unfold worker_free. destruct (workers b !! pid) as [w|]; [|exact H].
  now apply closed_event_free.
Qed.

Lemma event_list_sigchld_failed (w : worker) (b : broker) :
  event_list (on_sigchld_failed w b) = event_list b.
Proof.
  unfold on_sigchld_failed. destruct (w_event w) as [p|]; [|reflexivity].
  now destruct (find_event p (event_list b)).
Qed.

Lemma closed_on_sigchld (reaped : list (Z * Z)) (b : broker) :
  P (event_list b) -> P (event_list (on_sigchld reaped b)).
Proof.
  revert b. induction reaped as [|[pid status] rest IH]; intros b H; simpl; [exact H|].
  destruct (pid <=? 0); [exact H|].
  destruct (workers b !! pid) as [w|]; [|exact H].
  assert (Hgo : forall (b1 : broker) (go_on : bool),
             P (event_list b1) ->
             P (event_list
                  (if negb go_on then b1
                   else on_sigchld rest
                          (worker_free pid
                             (if negb (WIFEXITED status) || negb (WEXITSTATUS status =? 0)
                              then on_sigchld_failed w b1 else b1))))).
  { intros b1 [] H1; simpl; [|exact H1].
    apply IH, closed_worker_free.
    destruct (_ || _); [now rewrite event_list_sigchld_failed | exact H1]. }
  destruct (WIFEXITED status); [destruct (WEXITSTATUS status =? 0)|];
    [apply Hgo; exact H | apply Hgo; exact H|].
  destruct (WIFSIGNALED status); [apply Hgo; exact H|].
  destruct (WIFSTOPPED status); [apply Hgo; exact H|].
  destruct (WIFCONTINUED status); apply Hgo; exact H.
Qed.

Lemma closed_cleanup (match_type : event_state) (b : broker) :
  P (event_list b) -> P (event_list (event_queue_cleanup match_type b)).
Proof.
  intros H. unfold event_queue_cleanup.
  apply (foldl_preserves (fun b => P (event_list b))); [|exact H].
  intros a p Ha. unfold event_queue_cleanup_one.
  destruct (find_event p (event_list a)); [|exact Ha].
  destruct (_ && _); [exact Ha | now apply closed_event_free].
Qed.

Lemma keys_kept_attach (pid now : Z) (e : event) : keys_kept e (attach_to_worker pid now e).
Proof. repeat split. Qed.

Lemma keys_kept_state (s : event_state) (e : event) : keys_kept e (set_e_state s e).
Proof. repeat split. Qed.

Lemma keys_kept_warned (w : bool) (e : event) : keys_kept e (set_e_warned w e).
Proof. repeat split. Qed.

Lemma closed_attach (pid : Z) (p : nat) (now : Z) (b b' : broker) :
  P (event_list b) -> worker_attach_event pid p now b = Some b' -> P (event_list b').
Proof.
  intros H Hatt. apply worker_attach_event_result in Hatt as (w & e & _ & _ & _ & _ & ->).
  simpl. apply Hupd; [apply keys_kept_attach | exact H].
Qed.

Lemma closed_spawn (ev : event) (env : run_env) (b b' : broker) :
  P (event_list b) -> worker_spawn ev env b = Some b' -> P (event_list b').
Proof.
  intros H. unfold worker_spawn. destruct (spawn env) as [| |pid alloc_ok].
  - now intros [= <-].
  - intros [= <-]. simpl. apply Hupd; [apply keys_kept_state | exact H].
  - unfold worker_new. destruct (negb (pid >? 1)); [discriminate|].
    destruct (negb alloc_ok); simpl; [now intros [= <-]|].
    destruct (workers b !! pid); simpl; [now intros [= <-]|].
    destruct (worker_attach_event pid (e_ptr ev) (now_usec env) _) as [b2|] eqn:Hatt;
      simpl; [|discriminate].
    intros [= <-]. simpl. now apply closed_attach in Hatt.
Qed.

Lemma closed_event_run_loop (ev : event) (env : run_env) (pids : list Z) (b b' : broker)
      (returned : bool) :
  P (event_list b) -> event_run_loop ev env pids b = Some (returned, b') ->
  P (event_list b').
Proof.
  revert b. induction pids as [|pid rest IH]; intros b H; simpl.
  - now intros [= <- <-].
  - destruct (workers b !! pid) as [w|]; [|now apply IH].
    destruct (negb (worker_state_eqb (w_state w) WORKER_IDLE)); [now apply IH|].
    destruct (send_count env pid <? 0); [now apply IH|].
    destruct (worker_attach_event pid (e_ptr ev) (now_usec env) _) as [b2|] eqn:Hatt;
      simpl; [|discriminate].
    intros [= <- <-]. now apply closed_attach in Hatt.
Qed.

Lemma closed_event_run (ev : event) (env : run_env) (b b' : broker) :
  P (event_list b) -> event_run ev env b = Some b' -> P (event_list b').
Proof.
  intros H. unfold event_run.
  destruct (event_run_loop ev env (worker_pids b) b) as [[returned b1]|] eqn:Hloop;
    simpl; [|discriminate].
  apply closed_event_run_loop in Hloop; [|exact H].
  destruct returned; [now intros [= <-]|].
  destruct (hashmap_size b1 >=? arg_children_max b1).
  - intros [= <-]. now destruct (arg_children_max b1 >? 1).
  - now apply closed_spawn.
Qed.

Lemma closed_busy (ev : event) (b : broker) :
  P (event_list b) -> In ev (event_list b) -> P (event_list (snd (is_devpath_busy ev b))).
Proof.
  intros H Hin. unfold is_devpath_busy.
  pose proof (Hbusy ev (event_list b) H Hin) as H'.
  destruct (busy_scan ev (event_list b)) as [r ev']. exact H'.
Qed.

Lemma closed_start_loop (envs : nat -> run_env) (ptrs : list nat) (b b' : broker) :
  P (event_list b) -> event_queue_start_loop envs ptrs b = Some b' -> P (event_list b').
Proof.
  revert b. induction ptrs as [|p rest IH]; intros b H; simpl; [now intros [= <-]|].
  destruct (find_event p (event_list b)) as [ev|] eqn:Hev; [|now apply IH].
  destruct (negb (event_state_eqb (e_state ev) EVENT_QUEUED)); [now apply IH|].
  pose proof (closed_busy ev b H (find_event_In _ _ _ Hev)) as Hb.
  destruct (is_devpath_busy ev b) as [busy b1]. simpl in Hb.
  destruct busy; [now apply IH|].
  destruct (event_run ev (envs p) b1) as [b2|] eqn:Hrun; simpl; [|discriminate].
  apply IH. now apply (closed_event_run ev (envs p) b1).
Qed.

Lemma closed_hanging (now : Z) (ob : option broker) (pid : Z) :
  (forall b, ob = Some b -> P (event_list b)) ->
  forall b', hanging_check_one now ob pid = Some b' -> P (event_list b').
Proof.
  intros H b'. unfold hanging_check_one. destruct ob as [b|]; simpl; [|discriminate].
  specialize (H b eq_refl).
  destruct (workers b !! pid) as [w|]; [|now intros [= <-]].
  destruct (negb (worker_state_eqb (w_state w) WORKER_RUNNING)); [now intros [= <-]|].
  destruct (w_event w) as [p|]; simpl; [|discriminate].
  destruct (find_event p (event_list b)) as [ev|]; simpl; [|discriminate].
  destruct (_ >? arg_event_timeout_warn_usec b); [|now intros [= <-]].
  destruct (_ >? arg_event_timeout_usec b); [now intros [= <-]|].
  destruct (negb (e_warned ev)); [|now intros [= <-]].
  intros [= <-]. simpl. apply Hupd; [apply keys_kept_warned | exact H].
Qed.

Lemma closed_on_timeout (now : Z) (b b' : broker) :
  P (event_list b) -> on_timeout now b = Some b' -> P (event_list b').
Proof.
  intros H. unfold on_timeout.
  set (b1 := if list_is_empty b then _ else b).
  assert (H1 : P (event_list b1)).
  { unfold b1. destruct (list_is_empty b); [|exact H]. now rewrite event_list_worker_kill. }
  clearbody b1. revert b'.
  apply (foldl_preserves (fun ob => forall b', ob = Some b' -> P (event_list b'))).
  - intros ob pid Hob. now apply closed_hanging.
  - now intros b' [= <-].
Qed.

End QueueClosed.

(** ** Reachable states when uevents arrive in order *)

Lemma step_queue_inv (b b' : broker) :
  broker_inv b -> queue_inv (event_list b) -> step in_order b b' ->
  queue_inv (event_list b').
Proof.
  intros Hinv Hq Hstep. destruct Hstep.
  - destruct H as [Hpos Hlt]. simpl. unfold event_queue_insert.
    destruct alloc_ok; simpl; [|exact Hq].
    apply queue_inv_snoc; auto.
    apply find_event_None.
    destruct (find_event (heap_next b) (event_list b)) as [x|] eqn:Hx; [|reflexivity].
    apply (inv_heap _ _ _ Hinv) in Hx. lia.
  - apply closed_busy; auto using queue_inv_busy.
  - eapply closed_event_run; eauto using queue_inv_update.
  - eapply closed_start_loop; eauto using queue_inv_update, queue_inv_busy.
  - apply closed_on_worker; auto using queue_inv_remove.
  - apply closed_on_sigchld; auto using queue_inv_remove.
  - apply closed_cleanup; auto using queue_inv_remove.
  - now rewrite event_list_worker_kill.
  - eapply closed_on_timeout; eauto using queue_inv_update.
  - now rewrite event_list_on_ctrl_msg.
  - now rewrite H.
Qed.

Lemma queue_inv_nil : queue_inv [].
Proof.
  constructor.
  - apply NoDup_nil_2.
  - constructor.
  - intros e [].
  - intros E L [].
  - intros E [].
Qed.

Lemma reachable_queue_inv (b : broker) :
  reachable in_order b -> broker_inv b /\ queue_inv (event_list b).
Proof.
  induction 1 as [cm t w cg | b b' _ [IH1 IH2] Hstep].
  - split; [apply broker_inv_init | apply queue_inv_nil].
  - split; [exact (step_broker_inv in_order b b' IH1 Hstep)|].
    exact (step_queue_inv b b' IH1 IH2 Hstep).
Qed.

(** In a reachable state an entry that matches one of the dependency
    tests is not below the memoized number of the event it blocks. *)
Lemma reachable_memo (b : broker) (E L : event) :
  reachable in_order b -> In E (event_list b) -> In L (event_list b) ->
  e_seqnum L < e_seqnum E ->
  dependency_step E L = ScanTrue \/ dependency_step E L = ScanTrueRecord ->
  e_delaying_seqnum E <= e_seqnum L.
Proof.
  intros Hr HE HL Hlt Hdep. apply reachable_queue_inv in Hr as [_ Hq].
  apply (q_memo _ Hq E L HE HL Hlt). destruct Hdep as [H|H]; rewrite H; discriminate.
Qed.

(** The queue after uevents that arrive in order is reachable. *)
Lemma reachable_two (n : Z) (d1 d2 : udev_device) :
  0 <= dev_seqnum d1 -> dev_seqnum d1 < dev_seqnum d2 ->
  reachable in_order (Examples.queued n [d1; d2]).
Proof.
  intros H1 H2.
  apply (reach_step _ (Examples.queued n [d1])).
  - apply (reach_step _ (Examples.fresh n)); [apply reach_init|].
    apply (step_uevent in_order (Examples.fresh n) d1 true). split; [exact H1|].
    intros e [].
  - apply (step_uevent in_order (Examples.queued n [d1]) d2 true). split; [lia|].
    intros e [<-|[]]. exact H2.
Qed.

(** C1, as the code has it: in every state the broker reaches when
    uevents arrive in the order of their sequence numbers, for listed
    events E and L with seqnum(L) < seqnum(E), the same device number and
    the same block flag, [is_devpath_busy] on E returns true if the MAJOR of
    the device number is not zero: the code tests
    [major(event->devnum) != 0], not [devnum != 0]. *)
Theorem C1_same_devnum_blocks (b : broker) (E L : event) :
  reachable in_order b ->
  In E (event_list b) ->
  In L (event_list b) ->
  e_seqnum L < e_seqnum E ->
  major (e_devnum E) <> 0 ->
  e_devnum E = e_devnum L ->
  e_is_block E = e_is_block L ->
  fst (is_devpath_busy E b) = true.
Proof.
  intros Hr HE HL Hlt Hm Hd Hb.
  apply (devnum_blocks_scan b E L); auto.
  - apply reachable_queue_inv in Hr as [_ Hq]. apply Hq.
  - apply (reachable_memo b E L); auto. left. now apply dependency_step_devnum.
Qed.

Lemma C1_same_devnum_blocks_witness :
  fst (is_devpath_busy (event_new 2 Examples.disk_b)
         (Examples.queued 2 [Examples.disk_a; Examples.disk_b])) = true.
Proof.
  apply (C1_same_devnum_blocks _ _ (event_new 1 Examples.disk_a)).
  - apply reachable_two; simpl; lia.
  - simpl. auto.
  - simpl. auto.
  - simpl. lia.
  - vm_compute. discriminate.
  - reflexivity.
  - reflexivity.
Defined.

(** C1 as stated fails: in a reachable state two queued events share the
    non-zero device number 5 (major 0, minor 5) and the block flag, and
    [is_devpath_busy] on the later one returns false. *)
Lemma C1_counterexample :
  let b := Examples.queued 2 [Examples.minor_a; Examples.minor_b] in
  let L := event_new 1 Examples.minor_a in
  let E := event_new 2 Examples.minor_b in
  reachable in_order b /\
  In L (event_list b) /\ In E (event_list b) /\
  e_seqnum L < e_seqnum E /\
  e_devnum E <> 0 /\ e_devnum E = e_devnum L /\ e_is_block E = e_is_block L /\
  fst (is_devpath_busy E b) = false.
Proof.
  cbv zeta. split; [apply reachable_two; simpl; lia|].
  repeat split.
  - simpl. auto.
  - simpl. auto.
  - simpl. discriminate.
Qed.

(** C3: in every state the broker reaches when uevents arrive in the
    order of their sequence numbers, of two listed events of which one's
    devpath is the other's followed by a slash and more, the one with the
    lower sequence number blocks the other: [is_devpath_busy] on the later
    one returns true. *)
Theorem C3_prefix_blocks (b : broker) (A B : event) :
  reachable in_order b ->
  In A (event_list b) -> In B (event_list b) ->
  devpath_below (e_devpath A) (e_devpath B) ->
  (e_seqnum A < e_seqnum B /\ fst (is_devpath_busy B b) = true) \/
  (e_seqnum B < e_seqnum A /\ fst (is_devpath_busy A b) = true).
Proof.
  intros Hr HA HB Hbelow.
  destruct (reachable_queue_inv b Hr) as [_ Hq].
  destruct (q_wf _ Hq A HA) as [HwA _]. destruct (q_wf _ Hq B HB) as [HwB _].
  apply prefix_blocks_scan; auto.
  - apply Hq.
  - intros Hlt. apply (reachable_memo b B A); auto. now apply dependency_step_parent.
  - intros Hlt. apply (reachable_memo b A B); auto. now apply dependency_step_child.
Qed.

Lemma C3_prefix_blocks_witness :
  let b := Examples.queued 2 [Examples.pci; Examples.pci_a] in
  (e_seqnum (event_new 1 Examples.pci) < e_seqnum (event_new 2 Examples.pci_a) /\
   fst (is_devpath_busy (event_new 2 Examples.pci_a) b) = true) \/
  (e_seqnum (event_new 2 Examples.pci_a) < e_seqnum (event_new 1 Examples.pci) /\
   fst (is_devpath_busy (event_new 1 Examples.pci) b) = true).
Proof.
  apply C3_prefix_blocks.
  - apply reachable_two; simpl; lia.
  - simpl. auto.
  - simpl. auto.
  - exists "a"%string. reflexivity.
Defined.

Lemma is_devpath_busy_unchanged (b : broker) (E : event) (r : bool) :
  NoDup (map e_ptr (event_list b)) -> In E (event_list b) ->
  busy_scan E (event_list b) = (r, E) -> is_devpath_busy E b = (r, b).
Proof.
  intros Hnd HE Hscan. unfold is_devpath_busy. rewrite Hscan.
  rewrite update_event_id; [now rewrite set_event_list_same|].
  intros e He Hp.
  assert (e = E) as ->.
  { pose proof (find_event_of_In _ _ Hnd He) as F1.
    pose proof (find_event_of_In _ _ Hnd HE) as F2. congruence. }
  apply set_delaying_same.
Qed.

(** C5: in every state the broker reaches when uevents arrive in the
    order of their sequence numbers, a call of [is_devpath_busy] on a listed
    event E that has memoized the sequence number s > 0 (1) passes over
    every entry numbered below s without testing it, so that the scan gives
    what it gives on the list without those entries; (2) returns true, and
    changes nothing, when an entry numbered s is still in the list; (3)
    stops at the first entry numbered at or past E's own number and returns
    false, changing nothing, when every entry before that one was passed
    over or matched no test. *)
Theorem C5_memoized_scan (b : broker) (E : event) (s : Z) :
  reachable in_order b ->
  In E (event_list b) ->
  e_delaying_seqnum E = s ->
  0 < s ->
  (forall L, In L (event_list b) -> e_seqnum L < s -> busy_step E L = ScanContinue) /\
  busy_scan E (event_list b) = busy_scan E (filter (not_below s) (event_list b)) /\
  (forall L, In L (event_list b) -> e_seqnum L = s -> is_devpath_busy E b = (true, b)) /\
  (forall pre L rest,
      event_list b = pre ++ L :: rest ->
      (forall x, In x pre -> busy_step E x = ScanContinue) ->
      e_seqnum E <= e_seqnum L ->
      is_devpath_busy E b = (false, b)).
Proof.
  intros Hr HE Hs Hpos. destruct (reachable_queue_inv b Hr) as [_ Hq]. subst s.
  assert (Hbelow : e_delaying_seqnum E < e_seqnum E).
  { destruct (q_below _ Hq E HE); lia. }
  split; [|split; [|split]].
  - intros L _ HL. now apply busy_step_below.
  - apply busy_scan_skips.
  - intros L HL Heq. apply is_devpath_busy_unchanged; [apply Hq | exact HE|].
    apply (busy_scan_memoized_present E L); [apply Hq | exact HL | exact Heq].
  - intros pre L rest Hl Hpre Hge.
    apply is_devpath_busy_unchanged; [apply Hq | exact HE|].
    rewrite Hl, busy_scan_continue_prefix by exact Hpre.
    simpl. now rewrite busy_step_past.
Qed.

Lemma reachable_checked : reachable in_order Examples.checked.
Proof.
  apply (reach_step _ (Examples.queued 2 [Examples.pci; Examples.pci_a])).
  - apply reachable_two; simpl; lia.
  - apply step_busy. simpl. auto.
Qed.

Lemma C5_memoized_scan_witness :
  let b := Examples.checked in
  let E := set_delaying_seqnum 10 (event_new 2 Examples.pci_a) in
  (forall L, In L (event_list b) -> e_seqnum L < 10 -> busy_step E L = ScanContinue) /\
  busy_scan E (event_list b) = busy_scan E (filter (not_below 10) (event_list b)) /\
  (forall L, In L (event_list b) -> e_seqnum L = 10 -> is_devpath_busy E b = (true, b)) /\
  (forall pre L rest,
      event_list b = pre ++ L :: rest ->
      (forall x, In x pre -> busy_step E x = ScanContinue) ->
      e_seqnum E <= e_seqnum L ->
      is_devpath_busy E b = (false, b)).
Proof.
  apply (C5_memoized_scan Examples.checked
           (set_delaying_seqnum 10 (event_new 2 Examples.pci_a)) 10).
  - apply reachable_checked.
  - vm_compute. auto.
  - reflexivity.
  - lia.
Defined.

(** ** The main loop stays within the reachable states *)

Lemma reach_env (b b' : broker) :
  reachable any_device b ->
  event_list b' = event_list b -> workers b' = workers b -> heap_next b' = heap_next b ->
  reachable any_device b'.
Proof. intros Hr H1 H2 H3. apply (reach_step _ b); [exact Hr | now apply step_env]. Qed.

Lemma reachable_on_uevent (received : option udev_device) (alloc_ok : bool) (b : broker) :
  reachable any_device b -> reachable any_device (on_uevent received alloc_ok b).
Proof.
  intros Hr. destruct received as [d|]; [|exact Hr].
  apply (reach_step _ b); [exact Hr|]. now apply step_uevent.
Qed.

Lemma reachable_on_inotify (buffer : option (list inotify_item)) (b : broker) :
  reachable any_device b -> reachable any_device (on_inotify buffer b).
Proof.
  intros Hr. unfold on_inotify. destruct buffer as [items|]; [|exact Hr].
  apply foldl_preserves; [|exact Hr].
  intros a item Ha. destruct item as [|watched received alloc_ok|watched|watched].
  - exact Ha.
  - apply reachable_on_uevent. now apply (reach_env a).
  - now apply (reach_env a).
  - now apply (reach_env a).
Qed.

Lemma reachable_update (fs_ok : bool) (b : broker) :
  reachable any_device b -> reachable any_device (event_queue_update fs_ok b).
Proof.
  intros Hr. unfold event_queue_update.
  destruct (event_list b) eqn:Hl, fs_ok, (queue_file b); simpl;
    now apply (reach_env b).
Qed.

Lemma reachable_main_loop_head (fs_ok : bool) (b : broker) :
  reachable any_device b ->
  match main_loop_head fs_ok b with
  | HeadBreak b' | HeadWait _ b' => reachable any_device b'
  end.
Proof.
  intros Hr. unfold main_loop_head. destruct (udev_exit b).
  - assert (H1 : reachable any_device (worker_kill (event_queue_cleanup EVENT_QUEUED b))).
    { apply (reach_step _ (event_queue_cleanup EVENT_QUEUED b)); [|apply step_kill].
      apply (reach_step _ b); [exact Hr | apply step_cleanup]. }
    destruct (_ && _); [exact H1 | now apply reachable_update].
  - destruct (_ && _); apply reachable_update; [|exact Hr].
    destruct (udev_cgroup b); [now apply (reach_env b) | exact Hr].
Qed.

Lemma reachable_main_loop_events (inp : loop_input) (b : broker) :
  reachable any_device b ->
  match main_loop_events inp b with
  | BodyAbort => True
  | BodyBreak b' | BodyContinue b' | BodyAtCtrl b' => reachable any_device b'
  end.
Proof.
  intros Hr. unfold main_loop_events. destruct (in_epoll inp) as [ready|]; [|exact Hr].
  destruct (_ && udev_exit b); [now apply (reach_env b)|].
  match goal with
  | |- context [match ?x with Some _ => _ | None => BodyAbort end] =>
      destruct x as [b1|] eqn:H1; [|exact I]
  end.
  assert (Hr1 : reachable any_device b1).
  { destruct ready; [|now injection H1 as <-].
    apply (reach_step _ b); [exact Hr | now apply (step_timeout _ b (in_now inp))]. }
  clear H1.
  set (b2 := if in_config_changed inp then set_reload true b1 else b1).
  assert (Hr2 : reachable any_device b2).
  { unfold b2. destruct (in_config_changed inp); [now apply (reach_env b1) | exact Hr1]. }
  clearbody b2.
  set (b3 := if reload b2 then _ else b2).
  assert (Hr3 : reachable any_device b3).
  { unfold b3. destruct (reload b2); [|exact Hr2].
    apply (reach_env (worker_kill b2)); try reflexivity.
    apply (reach_step _ b2); [exact Hr2 | apply step_kill]. }
  clearbody b3.
  set (b4 := if is_ready SrcWorker ready then _ else b3).
  assert (Hr4 : reachable any_device b4).
  { unfold b4. destruct (is_ready SrcWorker ready); [|exact Hr3].
    apply (reach_step _ b3); [exact Hr3 | apply step_worker]. }
  clearbody b4.
  set (b5 := if _ && is_ready SrcNetlink ready then _ else b4).
  assert (Hr5 : reachable any_device b5).
  { unfold b5. destruct (_ && is_ready SrcNetlink ready); [|exact Hr4].
    now apply reachable_on_uevent. }
  clearbody b5.
  destruct (start_new_events inp b5) as [b6|] eqn:H6; [|exact I].
  assert (Hr6 : reachable any_device b6).
  { unfold start_new_events in H6.
    destruct (_ && negb (stop_exec_queue b5)); [|now injection H6 as <-].
    set (b5' := if rules b5 then b5 else _) in H6.
    assert (Hr5' : reachable any_device b5').
    { unfold b5'. destruct (rules b5); [exact Hr5 | now apply (reach_env b5)]. }
    clearbody b5'.
    destruct (rules b5'); [|now injection H6 as <-].
    apply (reach_step _ b5'); [exact Hr5' | now apply (step_start _ _ (in_envs inp))]. }
  set (b7 := if is_ready SrcSignal ready then _ else b6).
  assert (Hr7 : reachable any_device b7).
  { unfold b7. destruct (is_ready SrcSignal ready); [|exact Hr6].
    unfold on_signal. destruct (in_signal inp) as [[]|]; try exact Hr6;
      try (now apply (reach_env b6)).
    apply (reach_step _ b6); [exact Hr6 | apply step_sigchld]. }
  clearbody b7.
  destruct (udev_exit b7); [exact Hr7|].
  apply reachable_update.
  destruct (_ && is_ready SrcInotify ready); [|exact Hr7].
  now apply reachable_on_inotify.
Qed.

(** Every state the loop passes through from a reachable state, by the
    part before the wait or by the part after it, is reachable: what holds
    of the reachable states holds throughout a run of the daemon. *)
Lemma reachable_main_loop_body (inp : loop_input) (b : broker) :
  reachable any_device b ->
  match main_loop_body inp b with
  | LoopAbort => True
  | LoopBreak b' | LoopNext b' => reachable any_device b'
  end.
Proof.
  intros Hr. unfold main_loop_body.
  pose proof (reachable_main_loop_events inp b Hr) as He.
  destruct (main_loop_events inp b) as [|b1|b1|b1]; try exact He.
  destruct (in_epoll inp) as [ready|]; [|exact He].
  destruct (_ && is_ready SrcCtrl ready); [|exact He].
  apply (reach_step _ b1); [exact He | apply step_ctrl].
Qed.

(** * Further properties of the code *)

(** ** What [is_devpath_busy] decides *)

(** A property of the event list that removal, stores that keep the
    keys, and the store of [is_devpath_busy] keep, and that arriving
    uevents keep, holds after every step. *)
Lemma step_closed (P : list event -> Prop) (delivers : broker -> udev_device -> Prop)
      (b b' : broker) :
  (forall p l, P l -> P (remove_event p l)) ->
  (forall p f l, (forall e, keys_kept e (f e)) -> P l -> P (update_event p f l)) ->
  (forall E l, P l -> In E l ->
               P (update_event (e_ptr E)
                    (set_delaying_seqnum (e_delaying_seqnum (snd (busy_scan E l)))) l)) ->
  (forall d alloc_ok, delivers b d -> P (event_list b) ->
                      P (event_list (on_uevent (Some d) alloc_ok b))) ->
  step delivers b b' -> P (event_list b) -> P (event_list b').
Proof.
  intros Hrem Hupd Hbusy Hins Hstep H. destruct Hstep.
  - now apply Hins.
  - now apply closed_busy.
  - eapply closed_event_run; eauto.
  - eapply closed_start_loop; eauto.
  - now apply closed_on_worker.
  - now apply closed_on_sigchld.
  - now apply closed_cleanup.
  - now rewrite event_list_worker_kill.
  - eapply closed_on_timeout; eauto.
  - now rewrite event_list_on_ctrl_msg.
  - now rewrite H0.
Qed.

Lemma reachable_weaken (D D' : broker -> udev_device -> Prop) (b : broker) :
  (forall x d, D x d -> D' x d) -> reachable D b -> reachable D' b.
Proof.
  intros Himp. induction 1 as [cm t w cg | b b' _ IH Hstep]; [apply reach_init|].
  apply (reach_step _ b); [exact IH|].
  destruct Hstep; try (now constructor).
  - apply step_uevent. now apply Himp.
  - eapply step_run; eauto.
  - eapply step_start; eauto.
  - eapply step_timeout; eauto.
Qed.

Lemma in_order_pos_in_order (b : broker) (d : udev_device) :
  in_order_pos b d -> in_order b d.
Proof. intros [H1 H2]. split; [lia | exact H2]. Qed.

Lemma memo_inv_remove (p : nat) (l : list event) :
  memo_inv l -> memo_inv (remove_event p l).
Proof.
  intros [Hpos Hg]. constructor.
  - intros e He. apply Hpos. now apply In_remove_event in He.
  - intros E L HE HL. apply Hg; now apply In_remove_event with p.
Qed.

Lemma memo_inv_update (p : nat) (f : event -> event) (l : list event) :
  (forall e, keys_kept e (f e)) -> memo_inv l -> memo_inv (update_event p f l).
Proof.
  intros Hf [Hpos Hg]. constructor.
  - intros e' He'. destruct (In_update_kept _ _ _ _ Hf He') as [e [He Hk]].
    destruct Hk as (_ & K2 & _). rewrite K2. now apply Hpos.
  - intros E' L' HE' HL' Heq.
    destruct (In_update_kept _ _ _ _ Hf HE') as [E [HE HkE]].
    destruct (In_update_kept _ _ _ _ Hf HL') as [L [HL HkL]].
    rewrite (dependency_step_keys E E' L L' HkE HkL).
    destruct HkE as (_ & K2 & _ & _ & _ & _ & _ & _ & K9).
    destruct HkL as (_ & J2 & _).
    rewrite K2, J2. apply Hg; auto. congruence.
Qed.

Lemma memo_inv_busy (E : event) (l : list event) :
  queue_inv l -> memo_inv l -> In E l ->
  memo_inv (update_event (e_ptr E)
              (set_delaying_seqnum (e_delaying_seqnum (snd (busy_scan E l)))) l).
Proof.
  intros [Hnd Hs Hwf Hm Hb] Hmi HE. pose proof Hmi as [Hpos Hg].
  assert (Huniq : forall e, In e l -> e_ptr e = e_ptr E -> e = E).
  { intros e He Hp. pose proof (find_event_of_In _ _ Hnd He) as F1.
    pose proof (find_event_of_In _ _ Hnd HE) as F2. congruence. }
  destruct (busy_scan_cases E l) as [Hsame|(pre & M & rest & Hl & Hpre & HM & Hsnd)].
  - rewrite Hsame, update_event_id; [exact Hmi|].
    intros e He Hp. rewrite (Huniq e He Hp). apply set_delaying_same.
  - rewrite Hsnd. simpl. set (s := e_seqnum M).
    apply busy_step_record in HM as [HMlt HMdep].
    assert (HMin : In M l) by (rewrite Hl; apply in_app_iff; right; now left).
    assert (Hshape : forall e', In e' (update_event (e_ptr E) (set_delaying_seqnum s) l) ->
               exists e, In e l /\ same_dev e e' /\
                         (e_delaying_seqnum e' = e_delaying_seqnum e \/
                          (e = E /\ e_delaying_seqnum e' = s))).
    { intros e' He'. apply In_update_event in He' as [H|[e [H1 [H2 ->]]]].
      - exists e'. repeat split; auto.
      - exists e. rewrite (Huniq e H1 H2) in *. repeat split; auto. }
    constructor.
    + intros e' He'. destruct (Hshape e' He') as [e [He [(K1 & _) _]]].
      rewrite K1. now apply Hpos.
    + intros E' L' HE' HL' Heq.
      destruct (Hshape E' HE') as [E0 [HE0 [HkE Hd]]].
      destruct (Hshape L' HL') as [L0 [HL0 [HkL _]]].
      rewrite (dependency_step_dev E0 E' L0 L' HkE HkL).
      destruct HkE as (K1 & _). destruct HkL as (J1 & _).
      rewrite K1, J1. rewrite J1 in Heq.
      destruct Hd as [Hd|[-> Hd]].
      * apply Hg; auto. congruence.
      * assert (L0 = M) as ->.
        { apply (seqnum_sorted_inj l); auto. unfold s in Hd. congruence. }
        auto.
Qed.

Lemma memo_inv_snoc (l : list event) (p : nat) (d : udev_device) :
  queue_inv l -> memo_inv l -> 0 < dev_seqnum d ->
  (forall e, In e l -> e_seqnum e < dev_seqnum d) ->
  memo_inv (l ++ [event_new p d]).
Proof.
  intros Hq [Hpos Hg] Hd Hlt. constructor.
  - intros e He. apply in_app_iff in He as [He|[<-|[]]]; [now apply Hpos | exact Hd].
  - intros E L HE HL Heq.
    apply in_app_iff in HE as [HE|[<-|[]]]; apply in_app_iff in HL as [HL|[<-|[]]].
    + now apply Hg.
    + exfalso. simpl in Heq. specialize (Hlt E HE).
      destruct (q_below _ Hq E HE) as [H0|H1]; lia.
    + exfalso. simpl in Heq. specialize (Hpos L HL). lia.
    + exfalso. simpl in Heq. lia.
Qed.

Lemma reachable_memo_inv (b : broker) :
  reachable in_order_pos b ->
  broker_inv b /\ queue_inv (event_list b) /\ memo_inv (event_list b).
Proof.
  intros Hr.
  destruct (reachable_queue_inv b (reachable_weaken _ _ b in_order_pos_in_order Hr))
    as [Hinv Hq].
  split; [exact Hinv|]. split; [exact Hq|].
  clear Hinv Hq. induction Hr as [cm t w cg | b b' Hr IH Hstep].
  - constructor; simpl; [intros e [] | intros E L []].
  - destruct (reachable_queue_inv b (reachable_weaken _ _ b in_order_pos_in_order Hr))
      as [Hinv Hq].
    assert (Hboth : queue_inv (event_list b') /\ memo_inv (event_list b')).
    { apply (step_closed (fun l => queue_inv l /\ memo_inv l) in_order_pos b b'); auto.
      - intros p l [H1 H2]. split; [now apply queue_inv_remove | now apply memo_inv_remove].
      - intros p f l Hf [H1 H2].
        split; [now apply queue_inv_update | now apply memo_inv_update].
      - intros E l [H1 H2] HE.
        split; [now apply queue_inv_busy | now apply memo_inv_busy].
      - intros d alloc_ok [Hpos Hlt] [H1 H2]. simpl. unfold event_queue_insert.
        destruct alloc_ok; simpl; [|auto].
        assert (Hfresh : ~ In (heap_next b) (map e_ptr (event_list b))).
        { apply find_event_None.
          destruct (find_event (heap_next b) (event_list b)) as [x|] eqn:Hx; [|reflexivity].
          apply (inv_heap _ _ _ Hinv) in Hx. lia. }
        split; [apply queue_inv_snoc; auto; lia | now apply memo_inv_snoc]. }
    apply Hboth.
Qed.

Lemma busy_scan_true (E : event) (l : list event) :
  fst (busy_scan E l) = true ->
  exists M, In M l /\ (busy_step E M = ScanTrue \/ busy_step E M = ScanTrueRecord).
Proof.
  induction l as [|a l IH]; simpl; [discriminate|].
  destruct (busy_step E a) eqn:Ha.
  - intros H. destruct (IH H) as [M [HM Hs]]. exists M. auto.
  - discriminate.
  - intros _. exists a. auto.
  - intros _. exists a. auto.
Qed.

Lemma busy_step_true_cases (E M : event) :
  busy_step E M = ScanTrue \/ busy_step E M = ScanTrueRecord ->
  e_seqnum M = e_delaying_seqnum E \/ depends_on E M.
Proof.
  unfold busy_step, depends_on.
  destruct (e_seqnum M <? e_delaying_seqnum E); [intros [H|H]; discriminate|].
  destruct (e_seqnum M =? e_delaying_seqnum E) eqn:Heq; [left; now apply Z.eqb_eq|].
  destruct (e_seqnum M >=? e_seqnum E) eqn:Hge; [intros [H|H]; discriminate|].
  rewrite Z.geb_leb in Hge. apply Z.leb_gt in Hge. auto.
Qed.

(** X2: the dependency check is exact: in every state the broker reaches
    when uevents arrive numbered from 1 in increasing order,
    [is_devpath_busy] returns true for a listed event exactly when some
    listed event with a lower sequence number matches one of the tests for
    device number, ifindex, old name or devpath.  The memoized sequence
    number never hides a blocker and never reports one that is not there. *)
Theorem is_devpath_busy_exact (b : broker) (E : event) :
  reachable in_order_pos b ->
  In E (event_list b) ->
  fst (is_devpath_busy E b) = true <->
  exists L, In L (event_list b) /\ depends_on E L.
Proof.
  intros Hr HE. destruct (reachable_memo_inv b Hr) as [_ [Hq Hmi]].
  rewrite is_devpath_busy_fst. split.
  - intros Hbusy. apply busy_scan_true in Hbusy as [M [HM Hstep]].
    exists M. split; [exact HM|].
    apply busy_step_true_cases in Hstep as [Heq|Hdep]; [|exact Hdep].
    destruct (m_genuine _ Hmi E M HE HM Heq) as [Hlt Hrec]. split; auto.
  - intros [L [HL [Hlt Hdep]]].
    apply (busy_scan_finds E L); auto; [apply Hq|].
    apply busy_step_true_of_dependency; auto.
    apply (q_memo _ Hq E L HE HL Hlt). destruct Hdep as [H|H]; rewrite H; discriminate.
Qed.

Lemma is_devpath_busy_exact_witness :
  fst (is_devpath_busy (event_new 2 Examples.pci_a)
         (Examples.queued 2 [Examples.pci; Examples.pci_a])) = true <->
  exists L, In L (event_list (Examples.queued 2 [Examples.pci; Examples.pci_a])) /\
            depends_on (event_new 2 Examples.pci_a) L.
Proof.
  apply is_devpath_busy_exact.
  - apply (reach_step _ (Examples.queued 2 [Examples.pci])).
    + apply (reach_step _ (Examples.fresh 2)); [apply reach_init|].
      apply (step_uevent in_order_pos (Examples.fresh 2) Examples.pci true).
      split; [simpl; lia | intros e []].
    + apply (step_uevent in_order_pos (Examples.queued 2 [Examples.pci]) Examples.pci_a true).
      split; [simpl; lia|]. intros e [<-|[]]. simpl. lia.
  - simpl. auto.
Defined.

(** ** Sequence number 0 *)

Lemma reachable_zero_inv (b : broker) :
  reachable in_order b -> zero_inv (event_list b).
Proof.
  induction 1 as [cm t w cg | b b' Hr IH Hstep].
  - intros _ E [].
  - destruct (reachable_queue_inv b Hr) as [Hinv Hq].
    assert (Hboth : queue_inv (event_list b') /\ zero_inv (event_list b')).
    { apply (step_closed (fun l => queue_inv l /\ zero_inv l) in_order b b'); auto.
      - intros p l [H1 H2]. split; [now apply queue_inv_remove|].
        intros [L [HL H0]] E HE. apply In_remove_event in HL, HE. apply H2; eauto.
      - intros p f l Hf [H1 H2]. split; [now apply queue_inv_update|].
        intros [L' [HL' H0]] E' HE'.
        destruct (In_update_kept _ _ _ _ Hf HL') as [L [HL HkL]].
        destruct (In_update_kept _ _ _ _ Hf HE') as [E [HE HkE]].
        destruct HkL as (_ & J2 & _).
        destruct HkE as (_ & _ & _ & _ & _ & _ & _ & _ & K9).
        rewrite K9. apply H2; [|exact HE]. exists L. split; [exact HL | congruence].
      - intros E l [H1 H2] HE. split; [now apply queue_inv_busy|].
        intros [L' [HL' H0]] E' HE'.
        assert (Hz : exists L, In L l /\ e_seqnum L = 0).
        { apply In_update_event in HL' as [H|[e [He [_ ->]]]]; [now exists L'|].
          exists e. split; [exact He | exact H0]. }
        destruct Hz as [L [HL HL0]].
        assert (Hscan : busy_scan E l = (true, E)).
        { apply (busy_scan_memoized_present E L); [apply H1 | exact HL|].
          rewrite HL0. symmetry. apply H2; eauto. }
        rewrite Hscan in HE'. simpl in HE'.
        apply In_update_event in HE' as [H|[e [He [_ ->]]]]; [apply H2; eauto|].
        simpl. apply H2; eauto.
      - intros d alloc_ok [Hpos Hlt] [H1 H2]. simpl. unfold event_queue_insert.
        destruct alloc_ok; simpl; [|auto].
        assert (Hfresh : ~ In (heap_next b) (map e_ptr (event_list b))).
        { apply find_event_None.
          destruct (find_event (heap_next b) (event_list b)) as [x|] eqn:Hx; [|reflexivity].
          apply (inv_heap _ _ _ Hinv) in Hx. lia. }
        split; [apply queue_inv_snoc; auto|].
        intros [L [HL HL0]] E HE.
        apply in_app_iff in HE as [HE|[<-|[]]]; [|reflexivity].
        apply in_app_iff in HL as [HL|[<-|[]]]; [apply H2; eauto|].
        exfalso. simpl in HL0. specialize (Hlt E HE).
        destruct (q_wf _ H1 E HE) as [_ Hnn]. lia. }
    apply Hboth.
Qed.

Lemma is_devpath_busy_zero (b : broker) (E L : event) :
  reachable in_order b -> In E (event_list b) -> In L (event_list b) ->
  e_seqnum L = 0 -> is_devpath_busy E b = (true, b).
Proof.
  intros Hr HE HL HL0. destruct (reachable_queue_inv b Hr) as [_ Hq].
  apply is_devpath_busy_unchanged; [apply Hq | exact HE|].
  apply (busy_scan_memoized_present E L); [apply Hq | exact HL|].
  rewrite HL0. symmetry. apply (reachable_zero_inv b Hr); eauto.
Qed.

Lemma reachable_zero_queued :
  reachable in_order (Examples.queued 2 [Examples.device 0 "/devices/a" None 0 "tty" 0]).
Proof.
  apply (reach_step _ (Examples.fresh 2)); [apply reach_init|].
  apply (step_uevent in_order (Examples.fresh 2)
           (Examples.device 0 "/devices/a" None 0 "tty" 0) true).
  split; [simpl; lia | intros e []].
Qed.

(** X3: the value 0 of [delaying_seqnum] means that nothing is memoized, and
    the scan compares it with the sequence numbers in the list before any
    other test.  So in every state the broker reaches when uevents arrive
    in order, an event that carries sequence number 0 (a uevent without
    SEQNUM) makes [is_devpath_busy] return true for every listed event,
    itself included, and a pass of [event_queue_start] starts nothing and
    changes nothing, whatever the workers would answer. *)
Theorem seqnum_zero_stalls_queue (b : broker) (L : event) (envs : nat -> run_env) :
  reachable in_order b -> In L (event_list b) -> e_seqnum L = 0 ->
  (forall E, In E (event_list b) -> is_devpath_busy E b = (true, b)) /\
  event_queue_start envs b = Some b.
Proof.
  intros Hr HL HL0.
  assert (Hall : forall E, In E (event_list b) -> is_devpath_busy E b = (true, b)).
  { intros E HE. now apply (is_devpath_busy_zero b E L). }
  split; [exact Hall|].
  unfold event_queue_start. generalize (map e_ptr (event_list b)). intros ptrs.
  induction ptrs as [|p rest IH]; simpl; [reflexivity|].
  destruct (find_event p (event_list b)) as [ev|] eqn:Hev; [|exact IH].
  destruct (negb (event_state_eqb (e_state ev) EVENT_QUEUED)); [exact IH|].
  rewrite (Hall ev (find_event_In _ _ _ Hev)). exact IH.
Qed.

Lemma seqnum_zero_stalls_queue_witness :
  let b := Examples.queued 2 [Examples.device 0 "/devices/a" None 0 "tty" 0] in
  (forall E, In E (event_list b) -> is_devpath_busy E b = (true, b)) /\
  event_queue_start (fun _ => Examples.spawn_env 100) b = Some b.
Proof.
  apply (seqnum_zero_stalls_queue _
           (event_new 1 (Examples.device 0 "/devices/a" None 0 "tty" 0))).
  - exact reachable_zero_queued.
  - simpl. auto.
  - reflexivity.
Defined.

(** ** [worker_kill] *)

Lemma event_state_eqb_eq (a b : event_state) : event_state_eqb a b = true <-> a = b.
Proof. destruct a, b; simpl; split; intros H; try reflexivity; discriminate. Qed.

Lemma set_w_state_same (w : worker) (s : worker_state) : w_state w = s -> set_w_state s w = w.
Proof. intros <-. now destruct w. Qed.

Lemma worker_kill_one_lookup (b : broker) (a pid : Z) :
  workers (worker_kill_one b a) !! pid =
  if Z.eqb pid a then set_w_state WORKER_KILLED <$> workers b !! pid else workers b !! pid.
Proof.
  unfold worker_kill_one. destruct (Z.eqb_spec pid a) as [->|Hne].
  - destruct (workers b !! a) as [w|] eqn:Hw; [|now rewrite Hw].
    destruct (worker_state_eqb (w_state w) WORKER_KILLED) eqn:Hk.
    + rewrite Hw. simpl. apply worker_state_eqb_eq in Hk. now rewrite set_w_state_same.
    + simpl. now rewrite lookup_alter_eq, Hw.
  - destruct (workers b !! a) as [w|] eqn:Hw; [|reflexivity].
    destruct (worker_state_eqb (w_state w) WORKER_KILLED); [reflexivity|].
    simpl. rewrite lookup_alter_ne; [reflexivity | congruence].
Qed.

Lemma worker_kill_one_trace (b : broker) (a : Z) :
  trace (worker_kill_one b a) =
  trace b ++ (if not_killed b a then [EffKill a SIGTERM] else []).
Proof.
  unfold worker_kill_one, not_killed. destruct (workers b !! a) as [w|].
  - destruct (worker_state_eqb (w_state w) WORKER_KILLED); simpl;
      [now rewrite app_nil_r | reflexivity].
  - now rewrite app_nil_r.
Qed.

Lemma foldl_kill_lookup (pids : list Z) (b : broker) (pid : Z) :
  workers (foldl worker_kill_one b pids) !! pid =
  if existsb (Z.eqb pid) pids
  then set_w_state WORKER_KILLED <$> workers b !! pid else workers b !! pid.
Proof.
  revert b. induction pids as [|a rest IH]; intros b; simpl; [reflexivity|].
  rewrite IH, worker_kill_one_lookup.
  destruct (pid =? a); simpl; [|reflexivity].
  destruct (existsb (Z.eqb pid) rest); [|reflexivity].
  now destruct (workers b !! pid).
Qed.

Lemma foldl_kill_trace (pids : list Z) (b : broker) :
  NoDup pids ->
  trace (foldl worker_kill_one b pids) =
  trace b ++ map (fun pid => EffKill pid SIGTERM) (List.filter (not_killed b) pids).
Proof.
  revert b. induction pids as [|a rest IH]; intros b Hnd; simpl; [now rewrite app_nil_r|].
  apply NoDup_cons in Hnd as [Ha Hnd]. rewrite list_elem_of_In in Ha.
  rewrite (IH _ Hnd), worker_kill_one_trace, <- app_assoc. f_equal.
  assert (Hext : List.filter (not_killed (worker_kill_one b a)) rest =
                 List.filter (not_killed b) rest).
  { apply filter_ext_in. intros x Hx. unfold not_killed.
    rewrite worker_kill_one_lookup.
    destruct (Z.eqb_spec x a) as [->|_]; [contradiction | reflexivity]. }
  rewrite Hext. now destruct (not_killed b a).
Qed.

Lemma foldl_kill_all_killed (pids : list Z) (b : broker) :
  (forall pid w, workers b !! pid = Some w -> w_state w = WORKER_KILLED) ->
  foldl worker_kill_one b pids = b.
Proof.
  intros Hall. induction pids as [|a rest IH]; simpl; [reflexivity|].
  assert (Hone : worker_kill_one b a = b).
  { unfold worker_kill_one. destruct (workers b !! a) as [w|] eqn:Hw; [|reflexivity].
    apply Hall in Hw. now rewrite Hw. }
  now rewrite Hone.
Qed.

Lemma worker_kill_lookup (b : broker) (pid : Z) :
  workers (worker_kill b) !! pid = set_w_state WORKER_KILLED <$> workers b !! pid.
Proof.
  unfold worker_kill. rewrite foldl_kill_lookup.
  destruct (workers b !! pid) as [w|] eqn:Hw; [|now destruct (existsb _ _)].
  assert (Hex : existsb (Z.eqb pid) (worker_pids b) = true).
  { apply existsb_exists. exists pid. split; [now apply worker_pids_In with w | apply Z.eqb_refl]. }
  now rewrite Hex.
Qed.

(** X9: [worker_kill] leaves every registered worker in state
    [WORKER_KILLED] with its pid and its event as they were, sends SIGTERM
    once to each worker that was not yet in that state and to no other
    process, and leaves the event list alone.  A second call changes
    nothing and sends no signal. *)
Theorem worker_kill_all (b : broker) :
  (forall pid, workers (worker_kill b) !! pid =
               set_w_state WORKER_KILLED <$> workers b !! pid) /\
  event_list (worker_kill b) = event_list b /\
  trace (worker_kill b) =
    trace b ++ map (fun pid => EffKill pid SIGTERM)
                   (List.filter (not_killed b) (worker_pids b)) /\
  NoDup (worker_pids b) /\
  worker_kill (worker_kill b) = worker_kill b.
Proof.
  split; [apply worker_kill_lookup|].
  split; [apply event_list_worker_kill|].
  assert (Hnd : NoDup (worker_pids b)) by apply NoDup_fst_map_to_list.
  split; [now apply foldl_kill_trace|].
  split; [exact Hnd|].
  unfold worker_kill at 1. apply foldl_kill_all_killed.
  intros pid w. rewrite worker_kill_lookup.
  destruct (workers b !! pid); simpl; [|discriminate]. now intros [= <-].
Qed.

(** ** [event_queue_cleanup] *)

Lemma remove_event_middle (pre suf : list event) (a : event) :
  ~ In (e_ptr a) (map e_ptr pre) ->
  remove_event (e_ptr a) (pre ++ a :: suf) = pre ++ suf.
Proof.
  induction pre as [|x pre IH]; simpl; intros Hnot.
  - now rewrite Nat.eqb_refl.
  - destruct (Nat.eqb_spec (e_ptr x) (e_ptr a)) as [Heq|_]; [exfalso; auto|].
    rewrite IH; auto.
Qed.

Lemma find_event_middle (pre suf : list event) (a : event) :
  ~ In (e_ptr a) (map e_ptr pre) ->
  find_event (e_ptr a) (pre ++ a :: suf) = Some a.
Proof.
  induction pre as [|x pre IH]; simpl; intros Hnot.
  - now rewrite Nat.eqb_refl.
  - destruct (Nat.eqb_spec (e_ptr x) (e_ptr a)) as [Heq|_]; [exfalso; auto|].
    apply IH. auto.
Qed.

Lemma event_free_list (p : nat) (b : broker) (e : event) :
  find_event p (event_list b) = Some e ->
  event_list (event_free (Some p) b) = remove_event p (event_list b).
Proof. intros He. unfold event_free. rewrite He. now destruct (e_worker e). Qed.

Lemma NoDup_ptr_middle (pre suf : list event) (a : event) :
  NoDup (map e_ptr (pre ++ a :: suf)) ->
  ~ In (e_ptr a) (map e_ptr pre) /\ NoDup (map e_ptr (pre ++ suf)).
Proof.
  rewrite !map_app. simpl. intros H.
  apply NoDup_ListNoDup in H. split.
  - apply List.NoDup_remove_2 in H. intros Hin. apply H. apply in_app_iff. now left.
  - apply NoDup_ListNoDup. now apply List.NoDup_remove_1 in H.
Qed.

Lemma cleanup_fold (match_type : event_state) (suf pre : list event) (b : broker) :
  event_list b = pre ++ suf -> NoDup (map e_ptr (pre ++ suf)) ->
  event_list (foldl (event_queue_cleanup_one match_type) b (map e_ptr suf)) =
  pre ++ List.filter (cleanup_keeps match_type) suf.
Proof.
  revert pre b. induction suf as [|a suf IH]; intros pre b Hl Hnd; simpl; [exact Hl|].
  destruct (NoDup_ptr_middle _ _ _ Hnd) as [Hnot Hnd'].
  unfold event_queue_cleanup_one at 2. rewrite Hl, (find_event_middle _ _ _ Hnot).
  fold (cleanup_keeps match_type a). destruct (cleanup_keeps match_type a).
  - rewrite (IH (pre ++ [a])); rewrite <- ?app_assoc; auto.
  - apply IH; [|exact Hnd'].
    rewrite (event_free_list _ _ a); rewrite Hl;
      [now apply remove_event_middle | now apply find_event_middle].
Qed.

Lemma event_queue_cleanup_list (match_type : event_state) (b : broker) :
  NoDup (map e_ptr (event_list b)) ->
  event_list (event_queue_cleanup match_type b) =
  List.filter (cleanup_keeps match_type) (event_list b).
Proof. intros Hnd. apply (cleanup_fold match_type (event_list b) [] b); auto. Qed.

Lemma event_queue_cleanup_pool (b : broker) :
  broker_inv b ->
  workers (event_queue_cleanup EVENT_QUEUED b) = workers b /\
  trace (event_queue_cleanup EVENT_QUEUED b) = trace b.
Proof.
  intros Hinv.
  assert (H : workers (event_queue_cleanup EVENT_QUEUED b) = workers b /\
              trace (event_queue_cleanup EVENT_QUEUED b) = trace b /\
              broker_inv (event_queue_cleanup EVENT_QUEUED b)).
  { unfold event_queue_cleanup.
    apply (foldl_preserves
             (fun x => workers x = workers b /\ trace x = trace b /\ broker_inv x)); [|auto].
    intros x p (Hw & Ht & Hx). unfold event_queue_cleanup_one.
    destruct (find_event p (event_list x)) as [ev|] eqn:Hev; [|auto].
    change (negb (event_state_eqb EVENT_QUEUED EVENT_UNDEF)) with true.
    rewrite andb_true_l.
    destruct (event_state_eqb EVENT_QUEUED (e_state ev)) eqn:Hst; cbn [negb]; [|auto].
    split; [|split; [|now apply broker_inv_event_free]].
    - unfold event_free. rewrite Hev.
      rewrite (inv_queued _ _ _ Hx p ev Hev); [exact Hw|].
      symmetry. now apply event_state_eqb_eq.
    - unfold event_free. rewrite Hev. now destruct (e_worker ev). }
  destruct H as (Hw & Ht & _). auto.
Qed.

(** X10: [event_queue_cleanup] removes while it walks the list, and it removes
    what it should: called with [EVENT_QUEUED], as the exit path of the main
    loop does, it frees exactly the queued events, keeps all others in their
    order, changes no worker and emits nothing; called with [EVENT_UNDEF] it
    empties the list. *)
Theorem event_queue_cleanup_exact (b : broker) :
  broker_inv b ->
  event_list (event_queue_cleanup EVENT_QUEUED b) =
    List.filter (fun e => negb (event_state_eqb EVENT_QUEUED (e_state e))) (event_list b) /\
  workers (event_queue_cleanup EVENT_QUEUED b) = workers b /\
  trace (event_queue_cleanup EVENT_QUEUED b) = trace b /\
  event_list (event_queue_cleanup EVENT_UNDEF b) = [].
Proof.
  intros Hinv. pose proof (inv_nodup _ _ _ Hinv) as Hnd.
  split; [now rewrite event_queue_cleanup_list|].
  destruct (event_queue_cleanup_pool b Hinv) as [Hw Ht]. repeat split; auto.
  rewrite event_queue_cleanup_list; [|exact Hnd].
  generalize (event_list b). intros l.
  induction l as [|a l IH]; [reflexivity | exact IH].
Qed.

Lemma event_queue_cleanup_exact_witness :
  event_list (event_queue_cleanup EVENT_QUEUED Examples.idle_queued) =
    List.filter (fun e => negb (event_state_eqb EVENT_QUEUED (e_state e)))
                (event_list Examples.idle_queued) /\
  workers (event_queue_cleanup EVENT_QUEUED Examples.idle_queued) =
    workers Examples.idle_queued /\
  trace (event_queue_cleanup EVENT_QUEUED Examples.idle_queued) =
    trace Examples.idle_queued /\
  event_list (event_queue_cleanup EVENT_UNDEF Examples.idle_queued) = [].
Proof.
  apply event_queue_cleanup_exact.
  apply (reachable_broker_inv any_device). exact reachable_idle_queued.
Defined.

(** ** [event_queue_insert] and [event_free] *)

(** X11: insertion and lookup.  When the allocation fails, [event_queue_insert]
    returns -1 and the state is as it was.  Otherwise it returns 0, the new
    event is the last of the list, queued and attached to no worker, it is
    found at an address at which no event was, and every event that was in
    the list is found where it was. *)
Theorem event_queue_insert_lookup (d : udev_device) (b : broker) :
  broker_inv b ->
  event_queue_insert d false b = (-1, b) /\
  let r := event_queue_insert d true b in
  let ev := event_new (heap_next b) d in
  fst r = 0 /\
  event_list (snd r) = event_list b ++ [ev] /\
  find_event (heap_next b) (event_list b) = None /\
  find_event (heap_next b) (event_list (snd r)) = Some ev /\
  (forall q e, find_event q (event_list b) = Some e ->
               find_event q (event_list (snd r)) = Some e) /\
  workers (snd r) = workers b.
Proof.
  intros Hinv. split; [reflexivity|]. cbv zeta.
  assert (Hfresh : find_event (heap_next b) (event_list b) = None).
  { destruct (find_event (heap_next b) (event_list b)) as [x|] eqn:Hx; [|reflexivity].
    apply (inv_heap _ _ _ Hinv) in Hx. lia. }
  unfold event_queue_insert. simpl. repeat split; auto.
  - rewrite find_snoc, Hfresh. simpl. now rewrite Nat.eqb_refl.
  - intros q e He. now rewrite find_snoc, He.
Qed.

Lemma event_queue_insert_lookup_witness :
  event_queue_insert Examples.pci_a false Examples.idle = (-1, Examples.idle) /\
  let r := event_queue_insert Examples.pci_a true Examples.idle in
  let ev := event_new (heap_next Examples.idle) Examples.pci_a in
  fst r = 0 /\
  event_list (snd r) = event_list Examples.idle ++ [ev] /\
  find_event (heap_next Examples.idle) (event_list Examples.idle) = None /\
  find_event (heap_next Examples.idle) (event_list (snd r)) = Some ev /\
  (forall q e, find_event q (event_list Examples.idle) = Some e ->
               find_event q (event_list (snd r)) = Some e) /\
  workers (snd r) = workers Examples.idle.
Proof.
  apply event_queue_insert_lookup.
  apply (reachable_broker_inv any_device).
  apply (reach_step _ Examples.dispatched); [exact reachable_dispatched|].
  apply step_worker.
Defined.

(** X12: release and lookup.  [event_free] of a listed event unlinks that
    event and no other, and clears the event pointer of the worker it was
    attached to and of no other worker; that worker keeps its state.
    [event_free(NULL)] does nothing. *)
Theorem event_free_lookup (b : broker) (p : nat) (e : event) :
  broker_inv b -> find_event p (event_list b) = Some e ->
  let b' := event_free (Some p) b in
  find_event p (event_list b') = None /\
  (forall q, q <> p -> find_event q (event_list b') = find_event q (event_list b)) /\
  (forall pid, workers b' !! pid =
               if decide (e_worker e = Some pid)
               then set_w_event None <$> workers b !! pid
               else workers b !! pid) /\
  trace b' = trace b /\
  event_free None b = b.
Proof.
  intros Hinv He. cbv zeta. pose proof (inv_nodup _ _ _ Hinv) as Hnd.
  rewrite (event_free_list _ _ e He).
  split; [rewrite find_remove, Nat.eqb_refl; auto|].
  split.
  { intros q Hq. rewrite find_remove; auto.
    destruct (Nat.eqb_spec q p); [contradiction | reflexivity]. }
  unfold event_free. rewrite He. split; [|split; [now destruct (e_worker e) | reflexivity]].
  intros pid. destruct (e_worker e) as [owner|]; simpl.
  - destruct (decide (Some owner = Some pid)) as [[= ->]|Hne].
    + now rewrite lookup_alter_eq.
    + rewrite lookup_alter_ne; [reflexivity | congruence].
  - destruct (decide (None = Some pid)); [discriminate | reflexivity].
Qed.

Lemma event_free_lookup_witness :
  let b := Examples.dispatched in
  let e := attach_to_worker 100 1000 (event_new 1 Examples.pci) in
  let b' := event_free (Some 1%nat) b in
  find_event 1 (event_list b') = None /\
  (forall q, q <> 1%nat -> find_event q (event_list b') = find_event q (event_list b)) /\
  (forall pid, workers b' !! pid =
               if decide (e_worker e = Some pid)
               then set_w_event None <$> workers b !! pid
               else workers b !! pid) /\
  trace b' = trace b /\
  event_free None b = b.
Proof.
  apply (event_free_lookup Examples.dispatched 1
           (attach_to_worker 100 1000 (event_new 1 Examples.pci))).
  - apply (reachable_broker_inv any_device). exact reachable_dispatched.
  - reflexivity.
Defined.

(** ** [on_worker] *)

Lemma on_worker_dropped_one (ws : gmap Z worker) (size : Z) (ucred_pid : option Z)
      (rest : list recv_result) (b : broker) :
  workers b = ws -> dropped_message ws (RecvMsg size ucred_pid) ->
  exists line, is_log line /\
               on_worker (RecvMsg size ucred_pid :: rest) b =
               on_worker rest (emit line b).
Proof.
  intros Hws Hd. simpl in *.
  destruct (Z.eqb_spec size sizeof_worker_message) as [Heq|Hne]; simpl.
  - destruct Hd as [Hd|Hd]; [contradiction|].
    destruct ucred_pid as [pid|]; [|eexists; split; [|reflexivity]; repeat eexists].
    destruct (Z.leb_spec pid 0) as [Hle|Hgt];
      [eexists; split; [|reflexivity]; repeat eexists|].
    destruct Hd as [Hd|Hd]; [lia|]. rewrite Hws, Hd.
    eexists; split; [|reflexivity]; repeat eexists.
  - eexists; split; [|reflexivity]; repeat eexists.
Qed.

(** X13: whatever arrives on the worker socket with a wrong size, without
    credentials, with a pid that is not positive, or from a process that is
    not a registered worker, [on_worker] only logs one line for it and goes
    on to the next message: no event is freed and no worker changes. *)
Theorem on_worker_drops (incoming : list recv_result) (b : broker) :
  Forall (dropped_message (workers b)) incoming ->
  event_list (on_worker incoming b) = event_list b /\
  workers (on_worker incoming b) = workers b /\
  exists lines, trace (on_worker incoming b) = trace b ++ lines /\
                length lines = length incoming /\ Forall is_log lines.
Proof.
  revert b. induction incoming as [|m rest IH]; intros b Hall.
  - simpl. repeat split; auto. exists []. now rewrite app_nil_r.
  - apply Forall_cons in Hall as [Hm Hrest].
    destruct m as [again|size ucred_pid]; [destruct Hm|].
    destruct (on_worker_dropped_one (workers b) size ucred_pid rest b eq_refl Hm)
      as [line [Hline ->]].
    destruct (IH (emit line b) Hrest) as (Hl & Hw & lines & Ht & Hlen & Hlog).
    rewrite Hl, Hw. repeat split; auto.
    exists (line :: lines). rewrite Ht. simpl. rewrite <- app_assoc. simpl.
    repeat split; auto.
Qed.

Lemma on_worker_drops_witness :
  let incoming := [RecvMsg 4 (Some 100); RecvMsg 0 None; RecvMsg 0 (Some 0);
                   RecvMsg 0 (Some 321)] in
  event_list (on_worker incoming Examples.dispatched) = event_list Examples.dispatched /\
  workers (on_worker incoming Examples.dispatched) = workers Examples.dispatched /\
  exists lines, trace (on_worker incoming Examples.dispatched) =
                trace Examples.dispatched ++ lines /\
                length lines = length incoming /\ Forall is_log lines.
Proof.
  apply on_worker_drops.
  repeat apply Forall_cons_2; [| | | |apply Forall_nil_2]; simpl.
  - left. unfold sizeof_worker_message. lia.
  - now right.
  - right. left. lia.
  - right. right. reflexivity.
Defined.

(** X14: a message of the right size from a registered worker is the return
    of that worker: the event it holds is unlinked from the list, its
    event pointer is cleared, and its state becomes [WORKER_IDLE], unless it
    is [WORKER_KILLED], which it then stays.  No other worker and no other
    event changes, and nothing is logged. *)
Theorem on_worker_returned (b : broker) (pid : Z) (w : worker) :
  broker_inv b -> workers b !! pid = Some w -> 0 < pid ->
  let b' := on_worker [RecvMsg sizeof_worker_message (Some pid)] b in
  workers b' !! pid =
    Some {| w_pid := w_pid w;
            w_state := if worker_state_eqb (w_state w) WORKER_KILLED
                       then WORKER_KILLED else WORKER_IDLE;
            w_event := None |} /\
  (forall other, other <> pid -> workers b' !! other = workers b !! other) /\
  event_list b' = match w_event w with
                  | Some p => remove_event p (event_list b)
                  | None => event_list b
                  end /\
  trace b' = trace b.
Proof.
  intros Hinv Hw Hpos. cbv zeta. simpl.
  destruct (Z.leb_spec pid 0) as [Hle|_]; [lia|]. rewrite Hw.
  set (b1 := if negb (worker_state_eqb (w_state w) WORKER_KILLED) then _ else b).
  assert (H1 : event_list b1 = event_list b /\ trace b1 = trace b /\
               workers b1 !! pid =
                 Some {| w_pid := w_pid w;
                         w_state := if worker_state_eqb (w_state w) WORKER_KILLED
                                    then WORKER_KILLED else WORKER_IDLE;
                         w_event := w_event w |} /\
               forall other, other <> pid -> workers b1 !! other = workers b !! other).
  { unfold b1. destruct (worker_state_eqb (w_state w) WORKER_KILLED) eqn:Hk; simpl.
    - repeat split; auto. rewrite Hw. apply worker_state_eqb_eq in Hk.
      destruct w; simpl in *; now subst.
    - repeat split; auto.
      + now rewrite lookup_alter_eq, Hw.
      + intros other Hne. rewrite lookup_alter_ne; [reflexivity | congruence]. }
  clearbody b1. destruct H1 as (Hl1 & Ht1 & Hw1 & Ho1).
  destruct (w_event w) as [p|] eqn:Hev.
  - destruct (inv_worker_event _ _ _ Hinv pid w p Hw Hev) as [e [He Hown]].
    unfold event_free. rewrite Hl1, He, Hown. simpl.
    rewrite lookup_alter_eq, Hw1. simpl. repeat split; auto.
    intros other Hne. rewrite lookup_alter_ne; [now apply Ho1 | congruence].
  - simpl. repeat split; auto.
Qed.

Lemma on_worker_returned_witness :
  let b := Examples.dispatched in
  let w := {| w_pid := 100; w_state := WORKER_RUNNING; w_event := Some 1%nat |} in
  let b' := on_worker [RecvMsg sizeof_worker_message (Some 100)] b in
  workers b' !! 100 =
    Some {| w_pid := w_pid w;
            w_state := if worker_state_eqb (w_state w) WORKER_KILLED
                       then WORKER_KILLED else WORKER_IDLE;
            w_event := None |} /\
  (forall other, other <> 100 -> workers b' !! other = workers b !! other) /\
  event_list b' = match w_event w with
                  | Some p => remove_event p (event_list b)
                  | None => event_list b
                  end /\
  trace b' = trace b.
Proof.
  apply (on_worker_returned Examples.dispatched 100
           {| w_pid := 100; w_state := WORKER_RUNNING; w_event := Some 1%nat |}).
  - apply (reachable_broker_inv any_device). exact reachable_dispatched.
  - reflexivity.
  - lia.
Defined.

(** ** [on_sigchld] *)

(** X15: a worker that is reaped with exit code zero is freed without more
    ado, also when it still holds an event: that event is unlinked from the
    list with it, and nothing but the line that the worker exited is
    emitted, so neither is the device's database record deleted nor is the
    kernel event forwarded. *)
Theorem on_sigchld_clean_exit (b : broker) (pid status : Z) (w : worker) :
  broker_inv b -> workers b !! pid = Some w -> 0 < pid ->
  WIFEXITED status = true -> WEXITSTATUS status = 0 ->
  let b' := on_sigchld [(pid, status)] b in
  trace b' = trace b ++ [EffLog LOG_DEBUG "worker [%d] exited"] /\
  workers b' = delete pid (workers b) /\
  event_list b' = match w_event w with
                  | Some p => remove_event p (event_list b)
                  | None => event_list b
                  end.
Proof.
  intros Hinv Hw Hpos Hex Hst. cbv zeta. simpl.
  destruct (Z.leb_spec pid 0) as [Hle|_]; [lia|]. rewrite Hw, Hex, Hst. simpl.
  destruct (w_event w) as [p|] eqn:Hev.
  - destruct (inv_worker_event _ _ _ Hinv pid w p Hw Hev) as [e [He Hown]].
    rewrite (worker_free_attached _ pid w p e); auto.
  - unfold worker_free. simpl. rewrite Hw, Hev. simpl. auto.
Qed.

Lemma on_sigchld_clean_exit_witness :
  let b := Examples.dispatched in
  let w := {| w_pid := 100; w_state := WORKER_RUNNING; w_event := Some 1%nat |} in
  let b' := on_sigchld [(100, 0)] b in
  trace b' = trace b ++ [EffLog LOG_DEBUG "worker [%d] exited"] /\
  workers b' = delete 100 (workers b) /\
  event_list b' = match w_event w with
                  | Some p => remove_event p (event_list b)
                  | None => event_list b
                  end.
Proof.
  apply (on_sigchld_clean_exit Examples.dispatched 100 0
           {| w_pid := 100; w_state := WORKER_RUNNING; w_event := Some 1%nat |}).
  - apply (reachable_broker_inv any_device). exact reachable_dispatched.
  - reflexivity.
  - lia.
  - reflexivity.
  - reflexivity.
Defined.

(** ** Dispatch: [event_run] and [event_queue_start] *)

Lemma event_run_loop_outcome (ev : event) (env : run_env) (pids : list Z) (b b' : broker)
      (returned : bool) :
  event_run_loop ev env pids b = Some (returned, b') ->
  arg_children_max b' = arg_children_max b /\
  hashmap_size b' = hashmap_size b /\
  (forall pid, workers b' !! pid = None <-> workers b !! pid = None) /\
  if returned then
    exists pid w,
      workers b !! pid = Some w /\ w_state w = WORKER_IDLE /\ 0 <= send_count env pid /\
      event_list b' =
        update_event (e_ptr ev) (attach_to_worker pid (now_usec env)) (event_list b) /\
      workers b' !! pid =
        Some {| w_pid := w_pid w; w_state := WORKER_RUNNING; w_event := Some (e_ptr ev) |}
  else event_list b' = event_list b.
Proof.
  revert b. induction pids as [|pid rest IH]; intros b; simpl.
  - intros [= <- <-]. repeat split; auto.
  - destruct (workers b !! pid) as [w|] eqn:Hw; [|apply IH].
    destruct (worker_state_eqb (w_state w) WORKER_IDLE) eqn:Hidle; simpl; [|apply IH].
    apply worker_state_eqb_eq in Hidle.
    destruct (Z.ltb_spec (send_count env pid) 0) as [Hneg|Hok].
    + intros Hloop. apply IH in Hloop as (Hcap & Hsize & Hdom & Hres). simpl in *.
      split; [exact Hcap|]. split.
      { rewrite Hsize. unfold hashmap_size. simpl. now rewrite size_alter_workers. }
      split.
      { intros q. rewrite Hdom, lookup_alter.
        destruct (decide (pid = q)) as [->|]; [|reflexivity].
        rewrite Hw. simpl. split; discriminate. }
      destruct returned; [|exact Hres].
      destruct Hres as (q & wq & Hq & Hqidle & Hcount & Hl & Hq').
      exists q, wq. repeat split; auto.
      rewrite lookup_alter in Hq. destruct (decide (pid = q)) as [->|]; [|exact Hq].
      rewrite Hw in Hq. simpl in Hq. injection Hq as <-. discriminate.
    + destruct (worker_attach_event _ _ _ _) as [b2|] eqn:Hatt; simpl; [|discriminate].
      intros [= <- <-].
      apply worker_attach_event_result in Hatt as (w0 & e & Hw0 & _ & _ & _ & ->).
      simpl in *. rewrite Hw in Hw0. injection Hw0 as <-.
      split; [reflexivity|]. split.
      { unfold hashmap_size. simpl. rewrite map_size_insert_Some; [reflexivity | eauto]. }
      split.
      { intros q. rewrite lookup_insert.
        destruct (decide (pid = q)) as [->|]; [|reflexivity].
        rewrite Hw. split; discriminate. }
      exists pid, w. repeat split; auto. now rewrite lookup_insert_eq.
Qed.

Lemma start_dispatched :
  event_queue_start (fun _ => Examples.spawn_env 100) (Examples.queued 2 [Examples.pci]) =
  Some Examples.dispatched.
Proof. vm_compute. reflexivity. Qed.

Lemma run_dispatched :
  event_run (event_new 1 Examples.pci) (Examples.spawn_env 100)
    (Examples.queued 2 [Examples.pci]) = Some Examples.dispatched.
Proof. vm_compute. reflexivity. Qed.

(** X5: what one call of [event_run] does to a queued event.  Either the
    event is left exactly as it was, or it is attached, running, to one
    worker that is then running with this event; and that worker either was
    registered and idle and accepted the device, or is the newly forked
    process, registered by this call while fewer than [arg_children_max]
    workers were registered.  No other event changes. *)
Theorem event_run_outcome (ev : event) (env : run_env) (b b' : broker) :
  broker_inv b -> In ev (event_list b) -> e_state ev = EVENT_QUEUED ->
  event_run ev env b = Some b' ->
  (forall q, q <> e_ptr ev ->
             find_event q (event_list b') = find_event q (event_list b)) /\
  (find_event (e_ptr ev) (event_list b') = Some ev \/
   exists pid w',
     find_event (e_ptr ev) (event_list b') =
       Some (attach_to_worker pid (now_usec env) ev) /\
     workers b' !! pid = Some w' /\
     w_state w' = WORKER_RUNNING /\ w_event w' = Some (e_ptr ev) /\
     ((exists w, workers b !! pid = Some w /\ w_state w = WORKER_IDLE /\
                 0 <= send_count env pid) \/
      (workers b !! pid = None /\ spawn env = Forked pid true /\
       hashmap_size b < arg_children_max b))).
Proof.
  intros Hinv Hin Hst. pose proof (inv_nodup _ _ _ Hinv) as Hnd.
  pose proof (find_event_of_In _ _ Hnd Hin) as Hfind.
  unfold event_run.
  destruct (event_run_loop ev env (worker_pids b) b) as [[returned b1]|] eqn:Hloop;
    simpl; [|discriminate].
  apply event_run_loop_outcome in Hloop as (Hcap & Hsize & Hdom & Hres).
  destruct returned.
  - intros [= <-]. destruct Hres as (pid & w & Hw & Hidle & Hcount & Hl & Hw').
    rewrite Hl. destruct (find_event_attached _ ev pid (now_usec env) Hnd Hin) as [F1 F2].
    split; [exact F2|]. right. eexists pid, _. repeat split; eauto.
  - destruct (Z.geb_spec (hashmap_size b1) (arg_children_max b1)) as [Hfull|Hroom].
    + intros [= <-]. split.
      * intros q _. destruct (arg_children_max b1 >? 1); simpl; now rewrite Hres.
      * left. destruct (arg_children_max b1 >? 1); simpl; now rewrite Hres.
    + unfold worker_spawn. destruct (spawn env) as [| |pid alloc_ok] eqn:Hspawn.
      * intros [= <-]. rewrite Hres. auto.
      * intros [= <-]. simpl. rewrite Hres.
        rewrite set_queued_same by auto. auto.
      * unfold worker_new. destruct (negb (pid >? 1)); [discriminate|].
        destruct alloc_ok; simpl; [|intros [= <-]; rewrite Hres; auto].
        destruct (workers b1 !! pid) as [w1|] eqn:Hw1; simpl;
          [intros [= <-]; rewrite Hres; auto|].
        destruct (worker_attach_event _ _ _ _) as [b2|] eqn:Hatt; simpl; [|discriminate].
        intros [= <-].
        apply worker_attach_event_result in Hatt as (w0 & e & Hw0 & _ & _ & _ & ->).
        simpl in *. rewrite lookup_insert_eq in Hw0. injection Hw0 as <-. simpl.
        rewrite Hres.
        destruct (find_event_attached _ ev pid (now_usec env) Hnd Hin) as [F1 F2].
        split; [exact F2|]. right. eexists pid, _. split; [exact F1|].
        split; [now rewrite lookup_insert_eq|]. repeat split.
        right. repeat split; [now apply Hdom | lia].
Qed.

Lemma event_run_outcome_witness :
  let ev := event_new 1 Examples.pci in
  let env := Examples.spawn_env 100 in
  let b := Examples.queued 2 [Examples.pci] in
  let b' := Examples.dispatched in
  (forall q, q <> e_ptr ev ->
             find_event q (event_list b') = find_event q (event_list b)) /\
  (find_event (e_ptr ev) (event_list b') = Some ev \/
   exists pid w',
     find_event (e_ptr ev) (event_list b') =
       Some (attach_to_worker pid (now_usec env) ev) /\
     workers b' !! pid = Some w' /\
     w_state w' = WORKER_RUNNING /\ w_event w' = Some (e_ptr ev) /\
     ((exists w, workers b !! pid = Some w /\ w_state w = WORKER_IDLE /\
                 0 <= send_count env pid) \/
      (workers b !! pid = None /\ spawn env = Forked pid true /\
       hashmap_size b < arg_children_max b))).
Proof.
  apply (event_run_outcome (event_new 1 Examples.pci) (Examples.spawn_env 100)
           (Examples.queued 2 [Examples.pci]) Examples.dispatched).
  - apply (reachable_broker_inv any_device).
    apply (reach_step _ (Examples.fresh 2)); [apply reach_init|].
    now apply (step_uevent any_device (Examples.fresh 2) Examples.pci true).
  - simpl. auto.
  - reflexivity.
  - exact run_dispatched.
Defined.

Lemma event_run_cap (ev : event) (env : run_env) (b b' : broker) :
  event_run ev env b = Some b' ->
  arg_children_max b' = arg_children_max b /\
  hashmap_size b <= hashmap_size b' <= Z.max (hashmap_size b) (arg_children_max b).
Proof.
  unfold event_run.
  destruct (event_run_loop ev env (worker_pids b) b) as [[returned b1]|] eqn:Hloop;
    simpl; [|discriminate].
  apply event_run_loop_outcome in Hloop as (Hcap & Hsize & _ & _).
  destruct returned; [intros [= <-]; lia|].
  destruct (Z.geb_spec (hashmap_size b1) (arg_children_max b1)) as [Hfull|Hroom].
  - intros [= <-]. destruct (arg_children_max b1 >? 1); simpl;
      (split; [exact Hcap|]); unfold hashmap_size in *; simpl; lia.
  - unfold worker_spawn. destruct (spawn env) as [| |pid alloc_ok].
    + intros [= <-]. lia.
    + intros [= <-]. simpl. unfold hashmap_size in *. simpl. lia.
    + unfold worker_new. destruct (negb (pid >? 1)); [discriminate|].
      destruct alloc_ok; simpl; [|intros [= <-]; lia].
      destruct (workers b1 !! pid) as [w1|] eqn:Hw1; simpl; [intros [= <-]; lia|].
      destruct (worker_attach_event _ _ _ _) as [b2|] eqn:Hatt; simpl; [|discriminate].
      intros [= <-].
      apply worker_attach_event_result in Hatt as (w0 & e & Hw0 & _ & _ & _ & ->).
      simpl in *. split; [exact Hcap|]. unfold hashmap_size in *. simpl.
      rewrite map_size_insert_Some by eauto.
      rewrite map_size_insert_None by exact Hw1. lia.
Qed.

Lemma is_devpath_busy_pool (ev : event) (b : broker) :
  workers (snd (is_devpath_busy ev b)) = workers b /\
  arg_children_max (snd (is_devpath_busy ev b)) = arg_children_max b.
Proof. unfold is_devpath_busy. now destruct (busy_scan ev (event_list b)). Qed.

(** X6: the size of the pool.  A pass of [event_queue_start] changes
    [arg_children_max] not, removes no worker, and registers a new worker
    only while fewer than [arg_children_max] are registered: where the pool
    was within the limit it stays within it, and where it was above (the
    limit can be lowered by a control message) it does not grow. *)
Theorem event_queue_start_cap (envs : nat -> run_env) (b b' : broker) :
  event_queue_start envs b = Some b' ->
  arg_children_max b' = arg_children_max b /\
  hashmap_size b <= hashmap_size b' <= Z.max (hashmap_size b) (arg_children_max b).
Proof.
  unfold event_queue_start. generalize (map e_ptr (event_list b)). intros ptrs.
  revert b. induction ptrs as [|p rest IH]; intros b; simpl.
  - intros [= <-]. lia.
  - destruct (find_event p (event_list b)) as [ev|]; [|apply IH].
    destruct (negb (event_state_eqb (e_state ev) EVENT_QUEUED)); [apply IH|].
    pose proof (is_devpath_busy_pool ev b) as [Hw Hc].
    destruct (is_devpath_busy ev b) as [busy b1]. simpl in Hw, Hc.
    assert (Hs : hashmap_size b1 = hashmap_size b) by (unfold hashmap_size; now rewrite Hw).
    destruct busy.
    + intros H. apply IH in H. lia.
    + destruct (event_run ev (envs p) b1) as [b2|] eqn:Hrun; simpl; [|discriminate].
      apply event_run_cap in Hrun. intros H. apply IH in H. lia.
Qed.

Lemma event_queue_start_cap_witness :
  arg_children_max Examples.dispatched = arg_children_max (Examples.queued 2 [Examples.pci]) /\
  hashmap_size (Examples.queued 2 [Examples.pci]) <= hashmap_size Examples.dispatched <=
    Z.max (hashmap_size (Examples.queued 2 [Examples.pci]))
          (arg_children_max (Examples.queued 2 [Examples.pci])).
Proof.
  apply (event_queue_start_cap (fun _ => Examples.spawn_env 100)). exact start_dispatched.
Defined.

Lemma map_key_update (p : nat) (f : event -> event) (l : list event) :
  (forall e, event_key (f e) = event_key e) ->
  map event_key (update_event p f l) = map event_key l.
Proof.
  intros Hf. induction l as [|a l IH]; simpl; [reflexivity|].
  destruct (Nat.eqb (e_ptr a) p); simpl; [now rewrite Hf | now rewrite IH].
Qed.

Lemma keys_kept_key (e e' : event) : keys_kept e e' -> event_key e' = event_key e.
Proof.
  intros (K1 & K2 & K3 & K4 & K5 & K6 & K7 & K8 & _). unfold event_key. congruence.
Qed.

(** X7: a pass of [event_queue_start] neither unlinks nor adds nor reorders
    events, and the address of each event and what was captured from its
    device at insertion (seqnum, devpath and its length, old devpath,
    devnum, ifindex, is_block) are as before. *)
Theorem event_queue_start_keeps (envs : nat -> run_env) (b b' : broker) :
  event_queue_start envs b = Some b' ->
  map event_key (event_list b') = map event_key (event_list b).
Proof.
  intros Hstart. unfold event_queue_start in Hstart.
  apply (closed_start_loop (fun l => map event_key l = map event_key (event_list b)))
    with (envs := envs) (ptrs := map e_ptr (event_list b)) (b := b); auto.
  - intros p f l Hf Hl. rewrite map_key_update; [exact Hl|].
    intros e. now apply keys_kept_key.
  - intros E l Hl _. now rewrite map_key_update.
Qed.

Lemma event_queue_start_keeps_witness :
  map event_key (event_list Examples.dispatched) =
  map event_key (event_list (Examples.queued 2 [Examples.pci])).
Proof.
  apply (event_queue_start_keeps (fun _ => Examples.spawn_env 100)). exact start_dispatched.
Defined.

(** X8: across every operation of the broker, an event that is in the list
    afterwards either was in the list before, at the same address and with
    the same captured fields, or has the address and the fields of the event
    that [event_queue_insert] has just built at the next free address. *)
Theorem captured_fields_immutable (delivers : broker -> udev_device -> Prop)
        (b b' : broker) (e' : event) :
  step delivers b b' -> In e' (event_list b') ->
  (exists e, In e (event_list b) /\ event_key e' = event_key e) \/
  (exists d, event_key e' = event_key (event_new (heap_next b) d)).
Proof.
  intros Hstep.
  set (P := fun l : list event =>
              forall x, In x l ->
                        (exists e, In e (event_list b) /\ event_key x = event_key e) \/
                        (exists d, event_key x = event_key (event_new (heap_next b) d))).
  assert (Hkey : forall l x e, P l -> In e l -> event_key x = event_key e ->
                 (exists e, In e (event_list b) /\ event_key x = event_key e) \/
                 (exists d, event_key x = event_key (event_new (heap_next b) d))).
  { intros l x e Hl He Hk. destruct (Hl e He) as [[e0 [H0 H1]]|[d Hd]].
    - left. exists e0. split; [exact H0 | congruence].
    - right. exists d. congruence. }
  assert (HP : P (event_list b')).
  { apply (step_closed P delivers b b'); auto.
    - intros p l Hl x Hx. apply Hl. now apply In_remove_event in Hx.
    - intros p f l Hf Hl x Hx.
      destruct (In_update_kept _ _ _ _ Hf Hx) as [e [He Hk]].
      apply keys_kept_key in Hk. now apply (Hkey l x e).
    - intros E l Hl _ x Hx. apply In_update_event in Hx as [Hx|[e [He [_ ->]]]]; [auto|].
      now apply (Hkey l _ e).
    - intros d alloc_ok _ Hl. simpl. unfold event_queue_insert.
      destruct alloc_ok; simpl; [|exact Hl].
      intros x Hx. apply in_app_iff in Hx as [Hx|[<-|[]]]; [auto|]. right. now exists d.
    - intros x Hx. left. now exists x. }
  exact (HP e').
Qed.

Lemma captured_fields_immutable_witness :
  let e' := attach_to_worker 100 1000 (event_new 1 Examples.pci) in
  (exists e, In e (event_list (Examples.queued 2 [Examples.pci])) /\
             event_key e' = event_key e) \/
  (exists d, event_key e' =
             event_key (event_new (heap_next (Examples.queued 2 [Examples.pci])) d)).
Proof.
  apply (captured_fields_immutable any_device (Examples.queued 2 [Examples.pci])
           Examples.dispatched).
  - apply (step_start _ _ (fun _ => Examples.spawn_env 100)). exact start_dispatched.
  - vm_compute. left. reflexivity.
Defined.

(** ** [on_ctrl_msg] *)

Lemma worker_kill_one_view (b : broker) (pid : Z) :
  ctrl_view (worker_kill_one b pid) = ctrl_view b.
Proof.
  unfold worker_kill_one. destruct (workers b !! pid) as [w|]; [|reflexivity].
  now destruct (worker_state_eqb (w_state w) WORKER_KILLED).
Qed.

Lemma worker_kill_view (b : broker) : ctrl_view (worker_kill b) = ctrl_view b.
Proof.
  unfold worker_kill. apply (foldl_preserves (fun x => ctrl_view x = ctrl_view b)); [|reflexivity].
  intros x pid Hx. now rewrite worker_kill_one_view.
Qed.

Lemma set_killed_twice (o : option worker) :
  set_w_state WORKER_KILLED <$> (set_w_state WORKER_KILLED <$> o) =
  set_w_state WORKER_KILLED <$> o.
Proof. now destruct o. Qed.

Ltac next_stage props :=
  lazymatch goal with
  | |- props (let x := ?A in @?B x) =>
      let x1 := fresh "b" in set (x1 := A); change (props (B x1)); cbv beta
  end.

Lemma ctrl_view_eq (x : broker) (l : list event) (q s r : bool) (a : Z) (u : bool) :
  ctrl_view x = (l, q, s, r, a, u) <->
  event_list x = l /\ queue_file x = q /\ stop_exec_queue x = s /\ reload x = r /\
  arg_children_max x = a /\ udev_exit x = u.
Proof.
  unfold ctrl_view. split.
  - intros [= <- <- <- <- <- <-]. repeat split.
  - intros (<- & <- & <- & <- & <- & <-). reflexivity.
Qed.

(** X16: what one control message does.  The event list and the marker file
    are not touched.  SET_LOG_LEVEL and SET_ENV, and only these, put every
    worker in state [WORKER_KILLED]; in particular lowering
    [arg_children_max] or asking for exit kills no worker here.  When one
    message both stops and starts the queue, the start wins.  The reload
    and exit flags are only ever set, never cleared. *)
Theorem on_ctrl_msg_effect (m : ctrl_msg) (b : broker) :
  ctrl_view (on_ctrl_msg (Some m) b) =
    (event_list b, queue_file b,
     (if ctrl_start_exec_queue m >? 0 then false
      else if ctrl_stop_exec_queue m >? 0 then true else stop_exec_queue b),
     (if ctrl_reload m >? 0 then true else reload b),
     (if ctrl_set_children_max m >=? 0 then ctrl_set_children_max m
      else arg_children_max b),
     (if ctrl_exit m >? 0 then true else udev_exit b)) /\
  forall pid, workers (on_ctrl_msg (Some m) b) !! pid =
              if ctrl_kills m then set_w_state WORKER_KILLED <$> workers b !! pid
              else workers b !! pid.
Proof.
  pattern (on_ctrl_msg (Some m) b).
  match goal with |- ?P _ => set (props := P) end.
  cbv beta iota delta [on_ctrl_msg].
  next_stage props.
  assert (H1 : ctrl_view b0 = ctrl_view b /\
               forall pid, workers b0 !! pid =
                           if ctrl_set_log_level m >=? 0
                           then set_w_state WORKER_KILLED <$> workers b !! pid
                           else workers b !! pid).
  { unfold b0. destruct (ctrl_set_log_level m >=? 0); [|auto].
    split; [now rewrite worker_kill_view|]. intros pid. now rewrite worker_kill_lookup. }
  clearbody b0. destruct H1 as [V1 W1].
  next_stage props.
  assert (H2 : ctrl_view b1 =
               (event_list b, queue_file b,
                (if ctrl_stop_exec_queue m >? 0 then true else stop_exec_queue b),
                reload b, arg_children_max b, udev_exit b) /\
               workers b1 = workers b0).
  { apply ctrl_view_eq in V1 as (E1 & E2 & E3 & E4 & E5 & E6).
    unfold b1. destruct (ctrl_stop_exec_queue m >? 0); (split; [|reflexivity]);
      apply ctrl_view_eq; simpl; repeat split; auto. }
  clearbody b1. destruct H2 as [V2 W2]. rewrite <- W2 in W1. clear V1 W2 b0.
  next_stage props.
  assert (H3 : ctrl_view b0 =
               (event_list b, queue_file b,
                (if ctrl_start_exec_queue m >? 0 then false
                 else if ctrl_stop_exec_queue m >? 0 then true else stop_exec_queue b),
                reload b, arg_children_max b, udev_exit b) /\
               workers b0 = workers b1).
  { apply ctrl_view_eq in V2 as (E1 & E2 & E3 & E4 & E5 & E6).
    unfold b0. destruct (ctrl_start_exec_queue m >? 0); (split; [|reflexivity]);
      apply ctrl_view_eq; simpl; repeat split; auto. }
  clearbody b0. destruct H3 as [V3 W3]. rewrite <- W3 in W1. clear V2 W3 b1.
  next_stage props.
  assert (H4 : ctrl_view b1 =
               (event_list b, queue_file b,
                (if ctrl_start_exec_queue m >? 0 then false
                 else if ctrl_stop_exec_queue m >? 0 then true else stop_exec_queue b),
                (if ctrl_reload m >? 0 then true else reload b),
                arg_children_max b, udev_exit b) /\
               workers b1 = workers b0).
  { apply ctrl_view_eq in V3 as (E1 & E2 & E3 & E4 & E5 & E6).
    unfold b1. destruct (ctrl_reload m >? 0); (split; [|reflexivity]);
      apply ctrl_view_eq; simpl; repeat split; auto. }
  clearbody b1. destruct H4 as [V4 W4]. rewrite <- W4 in W1. clear V3 W4 b0.
  next_stage props.
  assert (H5 : ctrl_view b0 = ctrl_view b1 /\
               forall pid, workers b0 !! pid =
                           if ctrl_kills m
                           then set_w_state WORKER_KILLED <$> workers b !! pid
                           else workers b !! pid).
  { unfold b0, ctrl_kills. destruct (ctrl_set_env m) as [str|].
    - rewrite orb_true_r, worker_kill_view. split.
      + destruct (split_at_equals str) as [[key val]|]; [|reflexivity].
        now destruct (String.eqb val EmptyString).
      + intros pid. rewrite worker_kill_lookup.
        assert (Hw : forall x, workers x = workers b1 ->
                     set_w_state WORKER_KILLED <$> workers x !! pid =
                     set_w_state WORKER_KILLED <$> workers b !! pid).
        { intros x ->. rewrite W1.
          destruct (ctrl_set_log_level m >=? 0); [apply set_killed_twice | reflexivity]. }
        apply Hw. destruct (split_at_equals str) as [[key val]|]; [|reflexivity].
        now destruct (String.eqb val EmptyString).
    - rewrite orb_false_r. auto. }
  clearbody b0. destruct H5 as [V5 W5]. rewrite <- V5 in V4. clear V5 W1 b1.
  next_stage props.
  assert (H6 : ctrl_view b1 =
               (event_list b, queue_file b,
                (if ctrl_start_exec_queue m >? 0 then false
                 else if ctrl_stop_exec_queue m >? 0 then true else stop_exec_queue b),
                (if ctrl_reload m >? 0 then true else reload b),
                (if ctrl_set_children_max m >=? 0 then ctrl_set_children_max m
                 else arg_children_max b),
                udev_exit b) /\
               workers b1 = workers b0).
  { apply ctrl_view_eq in V4 as (E1 & E2 & E3 & E4 & E5 & E6).
    unfold b1. destruct (ctrl_set_children_max m >=? 0); (split; [|reflexivity]);
      apply ctrl_view_eq; simpl; repeat split; auto. }
  clearbody b1. destruct H6 as [V6 W6]. rewrite <- W6 in W5. clear V4 W6 b0.
  next_stage props.
  assert (H7 : ctrl_view b0 = ctrl_view b1 /\ workers b0 = workers b1).
  { unfold b0. now destruct (ctrl_ping m >? 0). }
  clearbody b0. destruct H7 as [V7 W7]. rewrite <- V7 in V6. rewrite <- W7 in W5.
  clear V7 W7 b1.
  apply ctrl_view_eq in V6 as (E1 & E2 & E3 & E4 & E5 & E6).
  unfold props. destruct (ctrl_exit m >? 0); (split; [|exact W5]);
    apply ctrl_view_eq; simpl; repeat split; auto.
Qed.

(** ** The exit path of the main loop *)

Lemma worker_kill_size (b : broker) : hashmap_isempty (worker_kill b) = hashmap_isempty b.
Proof.
  unfold hashmap_isempty. f_equal. unfold worker_kill.
  apply (foldl_preserves (fun x => size (workers x) = size (workers b))); [|reflexivity].
  intros x pid Hx. unfold worker_kill_one. destruct (workers x !! pid) as [w|]; [|exact Hx].
  destruct (worker_state_eqb (w_state w) WORKER_KILLED); [exact Hx|].
  simpl. now rewrite size_alter_workers.
Qed.

(** X17: once [udev_exit] is set, the top of the loop discards the queued
    events and sends SIGTERM to the workers, and it leaves the loop exactly
    when no event was running or otherwise not queued and no worker is
    registered.  Otherwise it waits, for at most 30 seconds, with the
    events that are not queued still listed and every worker in state
    [WORKER_KILLED]. *)
Theorem main_loop_head_exit (fs_ok : bool) (b : broker) :
  broker_inv b -> udev_exit b = true ->
  let drained := worker_kill (event_queue_cleanup EVENT_QUEUED b) in
  event_list drained =
    List.filter (fun e => negb (event_state_eqb EVENT_QUEUED (e_state e))) (event_list b) /\
  (forall pid, workers drained !! pid = set_w_state WORKER_KILLED <$> workers b !! pid) /\
  match main_loop_head fs_ok b with
  | HeadBreak b' =>
      b' = drained /\
      (forall e, In e (event_list b) -> e_state e = EVENT_QUEUED) /\ workers b = ∅
  | HeadWait timeout b' =>
      timeout = 30000 /\ b' = event_queue_update fs_ok drained /\
      ((exists e, In e (event_list b) /\ e_state e <> EVENT_QUEUED) \/ workers b <> ∅)
  end.
Proof.
  intros Hinv Hexit. cbv zeta.
  destruct (event_queue_cleanup_pool b Hinv) as [Hw _].
  pose proof (event_queue_cleanup_list EVENT_QUEUED b (inv_nodup _ _ _ Hinv)) as Hl.
  change (cleanup_keeps EVENT_QUEUED)
    with (fun e => negb (event_state_eqb EVENT_QUEUED (e_state e))) in Hl.
  assert (Hl' : event_list (worker_kill (event_queue_cleanup EVENT_QUEUED b)) =
                List.filter (fun e => negb (event_state_eqb EVENT_QUEUED (e_state e)))
                            (event_list b)).
  { now rewrite event_list_worker_kill. }
  split; [exact Hl'|]. split; [intros pid; now rewrite worker_kill_lookup, Hw|].
  unfold main_loop_head. rewrite Hexit.
  unfold list_is_empty at 1. rewrite Hl', worker_kill_size.
  unfold hashmap_isempty. rewrite Hw.
  destruct (List.filter _ (event_list b)) as [|x rest] eqn:Hf.
  - destruct (Nat.eqb_spec (size (workers b)) 0) as [Hz|Hnz]; simpl.
    + split; [reflexivity|]. split; [|now apply map_size_empty_iff].
      intros e He. destruct (event_state_eqb EVENT_QUEUED (e_state e)) eqn:Hq.
      * symmetry. now apply event_state_eqb_eq.
      * assert (Hin : In e (List.filter
                               (fun e => negb (event_state_eqb EVENT_QUEUED (e_state e)))
                               (event_list b))).
        { apply filter_In. split; [exact He | now rewrite Hq]. }
        rewrite Hf in Hin. destruct Hin.
    + repeat split. right. intros Hempty. apply Hnz. now apply map_size_empty_iff.
  - simpl. repeat split. left. exists x.
    assert (Hin : In x (List.filter
                          (fun e => negb (event_state_eqb EVENT_QUEUED (e_state e)))
                          (event_list b))) by (rewrite Hf; now left).
    apply filter_In in Hin as [Hin Hq]. split; [exact Hin|].
    intros Hst. rewrite Hst in Hq. discriminate.
Qed.

Lemma main_loop_head_exit_witness :
  let b := set_udev_exit true Examples.idle_queued in
  let drained := worker_kill (event_queue_cleanup EVENT_QUEUED b) in
  event_list drained =
    List.filter (fun e => negb (event_state_eqb EVENT_QUEUED (e_state e))) (event_list b) /\
  (forall pid, workers drained !! pid = set_w_state WORKER_KILLED <$> workers b !! pid) /\
  match main_loop_head true b with
  | HeadBreak b' =>
      b' = drained /\
      (forall e, In e (event_list b) -> e_state e = EVENT_QUEUED) /\ workers b = ∅
  | HeadWait timeout b' =>
      timeout = 30000 /\ b' = event_queue_update true drained /\
      ((exists e, In e (event_list b) /\ e_state e <> EVENT_QUEUED) \/ workers b <> ∅)
  end.
Proof.
  apply (main_loop_head_exit true (set_udev_exit true Examples.idle_queued)).
  - apply (broker_inv_env Examples.idle_queued); try reflexivity.
    apply (reachable_broker_inv any_device). exact reachable_idle_queued.
  - reflexivity.
Defined.

(** ** No assertion fails in the main loop *)

Lemma pool_ok_env (b b' : broker) :
  event_list b' = event_list b -> workers b' = workers b -> heap_next b' = heap_next b ->
  pool_ok b -> pool_ok b'.
Proof.
  intros Hl Hw Hh [Hinv Hr]. split; [now apply (broker_inv_env b)|]. now rewrite Hw.
Qed.

Lemma running_set_state (pid : Z) (s : worker_state) (ws : gmap Z worker) :
  s <> WORKER_RUNNING -> running_has_event ws ->
  running_has_event (alter (set_w_state s) pid ws).
Proof.
  intros Hs Hr q w. rewrite lookup_alter.
  destruct (decide (pid = q)) as [->|]; [|apply Hr].
  destruct (ws !! q) as [w0|]; simpl; [|discriminate].
  intros [= <-]. simpl. intros ->. contradiction.
Qed.

Lemma running_clear_event (pid : Z) (ws : gmap Z worker) :
  (forall w, ws !! pid = Some w -> w_state w <> WORKER_RUNNING) ->
  running_has_event ws ->
  running_has_event (alter (set_w_event None) pid ws).
Proof.
  intros Hs Hr q w. rewrite lookup_alter.
  destruct (decide (pid = q)) as [->|]; [|apply Hr].
  destruct (ws !! q) as [w0|] eqn:Hw0; simpl; [|discriminate].
  intros [= <-]. simpl. intros Hst. exfalso. now apply (Hs w0).
Qed.

Lemma running_delete (pid : Z) (ws : gmap Z worker) :
  running_has_event ws -> running_has_event (delete pid ws).
Proof.
  intros Hr q w. rewrite lookup_delete.
  destruct (decide (pid = q)); [discriminate | apply Hr].
Qed.

Lemma running_insert (pid : Z) (w : worker) (ws : gmap Z worker) :
  (w_state w = WORKER_RUNNING -> w_event w <> None) ->
  running_has_event ws -> running_has_event (<[pid := w]> ws).
Proof.
  intros Hw Hr q w'. rewrite lookup_insert.
  destruct (decide (pid = q)); [now intros [= <-] | apply Hr].
Qed.

Lemma pool_ok_worker_kill (b : broker) : pool_ok b -> pool_ok (worker_kill b).
Proof.
  intros [Hinv Hr]. split; [now apply broker_inv_worker_kill|].
  intros pid w. rewrite worker_kill_lookup.
  destruct (workers b !! pid); simpl; [|discriminate]. intros [= <-]. discriminate.
Qed.

Lemma pool_ok_on_uevent (received : option udev_device) (alloc_ok : bool) (b : broker) :
  pool_ok b -> pool_ok (on_uevent received alloc_ok b).
Proof.
  intros [Hinv Hr]. destruct received as [d|]; simpl; [|now split].
  split; [now apply broker_inv_insert|].
  unfold event_queue_insert. now destruct alloc_ok.
Qed.

Lemma pool_ok_returned (b : broker) (pid : Z) (w : worker) :
  pool_ok b -> workers b !! pid = Some w ->
  pool_ok (event_free (w_event w)
             (if negb (worker_state_eqb (w_state w) WORKER_KILLED)
              then set_workers (alter (set_w_state WORKER_IDLE) pid (workers b)) b
              else b)).
Proof.
  intros [Hinv Hr] Hw. split.
  { destruct (negb (worker_state_eqb (w_state w) WORKER_KILLED));
      [now apply broker_inv_returned | now apply broker_inv_event_free]. }
  set (b1 := if negb _ then _ else b).
  assert (H1 : event_list b1 = event_list b /\ running_has_event (workers b1) /\
               forall w1, workers b1 !! pid = Some w1 -> w_state w1 <> WORKER_RUNNING).
  { unfold b1. destruct (worker_state_eqb (w_state w) WORKER_KILLED) eqn:Hk; simpl.
    - repeat split; auto. intros w1. rewrite Hw. intros [= <-].
      apply worker_state_eqb_eq in Hk. rewrite Hk. discriminate.
    - repeat split; [apply running_set_state; [discriminate | exact Hr]|].
      intros w1. rewrite lookup_alter_eq, Hw. simpl. intros [= <-]. discriminate. }
  clearbody b1. destruct H1 as (Hl1 & Hr1 & Hs1).
  destruct (w_event w) as [p|] eqn:Hev; [|exact Hr1].
  destruct (inv_worker_event _ _ _ Hinv pid w p Hw Hev) as [e [He Hown]].
  unfold event_free. rewrite Hl1, He, Hown. simpl.
  now apply running_clear_event.
Qed.

Lemma pool_ok_on_worker (incoming : list recv_result) (b : broker) :
  pool_ok b -> pool_ok (on_worker incoming b).
Proof.
  assert (Hlog : forall lvl msg x, pool_ok x -> pool_ok (log lvl msg x)).
  { intros lvl msg x. now apply pool_ok_env. }
  revert b. induction incoming as [|m rest IH]; intros b H; simpl; [exact H|].
  destruct m as [again|size ucred_pid]; [destruct again; auto|].
  destruct (negb (size =? sizeof_worker_message)); [apply IH; auto|].
  destruct ucred_pid as [pid|]; [|apply IH; auto].
  destruct (pid <=? 0); [apply IH; auto|].
  destruct (workers b !! pid) as [w|] eqn:Hw; [|apply IH; auto].
  apply IH. now apply pool_ok_returned.
Qed.

Lemma pool_ok_worker_free (pid : Z) (b : broker) : pool_ok b -> pool_ok (worker_free pid b).
Proof.
  intros [Hinv Hr]. split; [now apply broker_inv_worker_free|].
  unfold worker_free. destruct (workers b !! pid) as [w|] eqn:Hw; [|exact Hr].
  destruct (w_event w) as [p|] eqn:Hev; simpl; [|now apply running_delete].
  destruct (inv_worker_event _ _ _ Hinv pid w p Hw Hev) as [e [He Hown]].
  rewrite He, Hown. simpl. apply running_clear_event; [|now apply running_delete].
  intros w1. now rewrite lookup_delete_eq.
Qed.

Lemma pool_ok_on_sigchld (reaped : list (Z * Z)) (b : broker) :
  pool_ok b -> pool_ok (on_sigchld reaped b).
Proof.
  assert (Hlog : forall lvl msg x, pool_ok x -> pool_ok (log lvl msg x)).
  { intros lvl msg x. now apply pool_ok_env. }
  revert b. induction reaped as [|[pid status] rest IH]; intros b H; simpl; [exact H|].
  destruct (pid <=? 0); [exact H|].
  destruct (workers b !! pid) as [w|] eqn:Hw; [|auto].
  assert (Hgo : forall (b1 : broker) (go_on : bool),
             pool_ok b1 ->
             pool_ok (if negb go_on then b1
                      else on_sigchld rest
                             (worker_free pid
                                (if negb (WIFEXITED status) || negb (WEXITSTATUS status =? 0)
                                 then on_sigchld_failed w b1 else b1)))).
  { intros b1 [] H1; simpl; [|exact H1].
    apply IH, pool_ok_worker_free.
    destruct (_ || _); [|exact H1].
    apply (pool_ok_env b1); auto.
    - apply event_list_sigchld_failed.
    - unfold on_sigchld_failed. destruct (w_event w) as [p|]; [|reflexivity].
      now destruct (find_event p (event_list b1)).
    - unfold on_sigchld_failed. destruct (w_event w) as [p|]; [|reflexivity].
      now destruct (find_event p (event_list b1)). }
  destruct (WIFEXITED status); [destruct (WEXITSTATUS status =? 0)|];
    [apply Hgo; auto | apply Hgo; auto|].
  destruct (WIFSIGNALED status); [apply Hgo; auto|].
  destruct (WIFSTOPPED status); [apply Hgo; auto|].
  destruct (WIFCONTINUED status); apply Hgo; auto.
Qed.

Lemma pool_ok_attach (pid : Z) (p : nat) (now : Z) (b b' : broker) :
  pool_ok b -> worker_attach_event pid p now b = Some b' -> pool_ok b'.
Proof.
  intros [Hinv Hr] Hatt. split; [now apply (broker_inv_attach pid p now b)|].
  apply worker_attach_event_result in Hatt as (w & e & _ & _ & _ & _ & ->). simpl.
  apply running_insert; [discriminate | exact Hr].
Qed.

Lemma pool_ok_event_run_loop (ev : event) (env : run_env) (pids : list Z) (b b' : broker)
      (returned : bool) :
  pool_ok b -> event_run_loop ev env pids b = Some (returned, b') -> pool_ok b'.
Proof.
  revert b. induction pids as [|pid rest IH]; intros b H; simpl.
  - now intros [= <- <-].
  - destruct (workers b !! pid) as [w|] eqn:Hw; [|now apply IH].
    destruct (negb (worker_state_eqb (w_state w) WORKER_IDLE)); [now apply IH|].
    destruct (send_count env pid <? 0).
    + apply IH. destruct H as [Hinv Hr]. split.
      * apply (broker_inv_env
                 (set_workers (alter (set_w_state WORKER_KILLED) pid (workers b)) b));
          try reflexivity.
        apply broker_inv_set_state; [exact Hinv | discriminate].
      * simpl. apply running_set_state; [discriminate | exact Hr].
    + destruct (worker_attach_event pid (e_ptr ev) (now_usec env) _) as [b2|] eqn:Hatt;
        simpl; [|discriminate].
      intros [= <- <-]. apply pool_ok_attach in Hatt; [exact Hatt|].
      now apply (pool_ok_env b).
Qed.

Lemma pool_ok_event_run (ev : event) (env : run_env) (b b' : broker) :
  pool_ok b -> queued_at ev b -> event_run ev env b = Some b' -> pool_ok b'.
Proof.
  intros H Hq Hrun. split; [now apply (broker_inv_event_run ev env b); [apply H| |]|].
  revert Hrun. unfold event_run.
  destruct (event_run_loop ev env (worker_pids b) b) as [[returned b1]|] eqn:Hloop;
    simpl; [|discriminate].
  apply pool_ok_event_run_loop in Hloop; [|exact H]. destruct Hloop as [Hinv1 Hr1].
  destruct returned; [now intros [= <-]|].
  destruct (hashmap_size b1 >=? arg_children_max b1).
  { intros [= <-]. now destruct (arg_children_max b1 >? 1). }
  unfold worker_spawn. destruct (spawn env) as [| |pid alloc_ok].
  - now intros [= <-].
  - now intros [= <-].
  - unfold worker_new. destruct (negb (pid >? 1)); [discriminate|].
    destruct (negb alloc_ok); simpl; [now intros [= <-]|].
    destruct (workers b1 !! pid) as [w|] eqn:Hw; simpl; [now intros [= <-]|].
    destruct (worker_attach_event pid (e_ptr ev) (now_usec env) _) as [b2|] eqn:Hatt;
      simpl; [|discriminate].
    intros [= <-].
    apply worker_attach_event_result in Hatt as (w & e & _ & _ & _ & _ & ->). simpl.
    apply running_insert; [discriminate|]. apply running_insert; [discriminate | exact Hr1].
Qed.

Lemma queued_at_busy (ev : event) (p : nat) (b : broker) :
  find_event p (event_list b) = Some ev -> e_state ev = EVENT_QUEUED ->
  queued_at ev (snd (is_devpath_busy ev b)).
Proof.
  intros Hev Hst. unfold is_devpath_busy.
  destruct (busy_scan ev (event_list b)) as [r ev']. simpl.
  pose proof (find_event_ptr _ _ _ Hev) as Hp.
  exists (set_delaying_seqnum (e_delaying_seqnum ev') ev). split.
  - simpl. rewrite find_update by reflexivity. now rewrite Nat.eqb_refl, Hp, Hev.
  - exact Hst.
Qed.

Lemma pool_ok_busy (ev : event) (b : broker) :
  pool_ok b -> pool_ok (snd (is_devpath_busy ev b)).
Proof.
  intros [Hinv Hr]. split; [now apply broker_inv_busy|].
  now rewrite (proj1 (is_devpath_busy_pool ev b)).
Qed.

Lemma pool_ok_start_loop (envs : nat -> run_env) (ptrs : list nat) (b : broker) :
  pool_ok b ->
  (forall b', event_queue_start_loop envs ptrs b = Some b' -> pool_ok b') /\
  (forks_ok envs -> exists b', event_queue_start_loop envs ptrs b = Some b').
Proof.
  revert b. induction ptrs as [|p rest IH]; intros b H; simpl.
  { split; [now intros b' [= <-] | eauto]. }
  destruct (find_event p (event_list b)) as [ev|] eqn:Hev; [|now apply IH].
  destruct (event_state_eqb (e_state ev) EVENT_QUEUED) eqn:Hst; simpl; [|now apply IH].
  apply event_state_eqb_eq in Hst.
  pose proof (pool_ok_busy ev b H) as Hb.
  pose proof (queued_at_busy ev p b Hev Hst) as Hq.
  destruct (is_devpath_busy ev b) as [busy b1]. simpl in Hb, Hq.
  destruct busy; [now apply IH|].
  split.
  - destruct (event_run ev (envs p) b1) as [b2|] eqn:Hrun; simpl; [|discriminate].
    apply IH. now apply (pool_ok_event_run ev (envs p) b1).
  - intros Hforks.
    destruct (event_run_total ev (envs p) b1) as [b2 Hrun]; [apply Hb | exact Hq | |].
    { intros pid alloc_ok. apply Hforks. }
    rewrite Hrun. simpl. apply IH; [|exact Hforks].
    now apply (pool_ok_event_run ev (envs p) b1).
Qed.

Lemma pool_ok_hanging (now : Z) (b : broker) (pid : Z) :
  pool_ok b -> exists b', hanging_check_one now (Some b) pid = Some b' /\ pool_ok b'.
Proof.
  intros H. pose proof H as [Hinv Hr]. unfold hanging_check_one. simpl.
  destruct (workers b !! pid) as [w|] eqn:Hw; [|eauto].
  destruct (worker_state_eqb (w_state w) WORKER_RUNNING) eqn:Hrun; simpl; [|eauto].
  apply worker_state_eqb_eq in Hrun.
  destruct (w_event w) as [p|] eqn:Hev; [|now destruct (Hr pid w Hw Hrun)].
  destruct (inv_worker_event _ _ _ Hinv pid w p Hw Hev) as [e [He _]].
  simpl. rewrite He. simpl.
  destruct (_ >? arg_event_timeout_warn_usec b); [|eauto].
  destruct (_ >? arg_event_timeout_usec b).
  - eexists. split; [reflexivity|]. split.
    + apply (broker_inv_env
               (set_workers (alter (set_w_state WORKER_KILLED) pid (workers b)) b));
        try reflexivity.
      apply broker_inv_set_state; [exact Hinv | discriminate].
    + simpl. apply running_set_state; [discriminate | exact Hr].
  - destruct (negb (e_warned e)); [|eauto].
    eexists. split; [reflexivity|]. split; [|exact Hr].
    unfold broker_inv. simpl. apply pool_inv_update; auto.
Qed.

Lemma pool_ok_on_timeout (now : Z) (b : broker) :
  pool_ok b -> exists b', on_timeout now b = Some b' /\ pool_ok b'.
Proof.
  intros H. unfold on_timeout.
  set (b1 := if list_is_empty b then _ else b).
  assert (H1 : pool_ok b1).
  { unfold b1. destruct (list_is_empty b); [|exact H].
    apply pool_ok_worker_kill. now apply (pool_ok_env b). }
  clearbody b1.
  apply (foldl_preserves (fun ob => exists b', ob = Some b' /\ pool_ok b')); [|eauto].
  intros ob pid [x [-> Hx]]. now apply pool_ok_hanging.
Qed.

Lemma pool_ok_on_inotify (buffer : option (list inotify_item)) (b : broker) :
  pool_ok b -> pool_ok (on_inotify buffer b).
Proof.
  intros H. destruct buffer as [items|]; simpl; [|exact H].
  apply foldl_preserves; [|exact H].
  intros x item Hx. destruct item; try exact Hx; try (now apply (pool_ok_env x)).
  apply pool_ok_on_uevent. now apply (pool_ok_env x).
Qed.

Lemma pool_ok_update (fs_ok : bool) (b : broker) :
  pool_ok b -> pool_ok (event_queue_update fs_ok b).
Proof.
  intros H. apply (pool_ok_env b); [apply event_queue_update_list | | | exact H];
    unfold event_queue_update; destruct (event_list b); destruct fs_ok;
    destruct (queue_file b); reflexivity.
Qed.

Lemma pool_ok_cleanup (b : broker) : pool_ok b -> pool_ok (event_queue_cleanup EVENT_QUEUED b).
Proof.
  intros [Hinv Hr]. split; [now apply broker_inv_cleanup|].
  now rewrite (proj1 (event_queue_cleanup_pool b Hinv)).
Qed.

Lemma pool_ok_main_loop_head (fs_ok : bool) (b : broker) :
  pool_ok b ->
  match main_loop_head fs_ok b with
  | HeadBreak b' | HeadWait _ b' => pool_ok b'
  end.
Proof.
  intros H. unfold main_loop_head. destruct (udev_exit b).
  - assert (H1 : pool_ok (worker_kill (event_queue_cleanup EVENT_QUEUED b))).
    { now apply pool_ok_worker_kill, pool_ok_cleanup. }
    destruct (_ && _); [exact H1 | now apply pool_ok_update].
  - destruct (_ && _); apply pool_ok_update; [|exact H].
    destruct (udev_cgroup b); [now apply (pool_ok_env b) | exact H].
Qed.

Lemma pool_ok_main_loop_events (inp : loop_input) (b : broker) :
  pool_ok b ->
  match main_loop_events inp b with
  | BodyAbort => ~ forks_ok (in_envs inp)
  | BodyBreak b' | BodyContinue b' | BodyAtCtrl b' => pool_ok b'
  end.
Proof.
  intros H. unfold main_loop_events. destruct (in_epoll inp) as [ready|]; [|exact H].
  destruct (_ && udev_exit b); [now apply (pool_ok_env b)|].
  assert (H1 : exists b1, (if match ready with [] => true | _ => false end
                           then on_timeout (in_now inp) b else Some b) = Some b1 /\
                          pool_ok b1).
  { destruct ready; [now apply pool_ok_on_timeout | eauto]. }
  destruct H1 as [b1 [-> H1]].
  set (b2 := if in_config_changed inp then set_reload true b1 else b1).
  assert (H2 : pool_ok b2).
  { unfold b2. destruct (in_config_changed inp); [now apply (pool_ok_env b1) | exact H1]. }
  clearbody b2.
  set (b3 := if reload b2 then _ else b2).
  assert (H3 : pool_ok b3).
  { unfold b3. destruct (reload b2); [|exact H2].
    apply (pool_ok_env (worker_kill b2)); try reflexivity. now apply pool_ok_worker_kill. }
  clearbody b3.
  set (b4 := if is_ready SrcWorker ready then _ else b3).
  assert (H4 : pool_ok b4).
  { unfold b4. destruct (is_ready SrcWorker ready); [|exact H3]. now apply pool_ok_on_worker. }
  clearbody b4.
  set (b5 := if _ && is_ready SrcNetlink ready then _ else b4).
  assert (H5 : pool_ok b5).
  { unfold b5. destruct (_ && is_ready SrcNetlink ready); [|exact H4].
    now apply pool_ok_on_uevent. }
  clearbody b5.
  assert (H6 : (forall b6, start_new_events inp b5 = Some b6 -> pool_ok b6) /\
               (forks_ok (in_envs inp) -> exists b6, start_new_events inp b5 = Some b6)).
  { unfold start_new_events.
    destruct (_ && negb (stop_exec_queue b5)); [|split; [now intros b6 [= <-] | eauto]].
    set (b5' := if rules b5 then b5 else _).
    assert (H5' : pool_ok b5').
    { unfold b5'. destruct (rules b5); [exact H5 | now apply (pool_ok_env b5)]. }
    clearbody b5'.
    destruct (rules b5'); [|split; [now intros b6 [= <-] | eauto]].
    now apply pool_ok_start_loop. }
  destruct H6 as [H6 H6'].
  destruct (start_new_events inp b5) as [b6|] eqn:Hs.
  - specialize (H6 b6 eq_refl).
    set (b7 := if is_ready SrcSignal ready then _ else b6).
    assert (H7 : pool_ok b7).
    { unfold b7. destruct (is_ready SrcSignal ready); [|exact H6].
      unfold on_signal. destruct (in_signal inp) as [[]|]; try exact H6;
        try (now apply (pool_ok_env b6)).
      now apply pool_ok_on_sigchld. }
    clearbody b7.
    destruct (udev_exit b7); [exact H7|].
    apply pool_ok_update.
    destruct (_ && is_ready SrcInotify ready); [|exact H7].
    now apply pool_ok_on_inotify.
  - intros Hforks. destruct (H6' Hforks) as [b6 Hb6]. discriminate.
Qed.

Lemma pool_ok_on_ctrl_msg (received : option ctrl_msg) (b : broker) :
  pool_ok b -> pool_ok (on_ctrl_msg received b).
Proof.
  apply on_ctrl_msg_preserves.
  - apply pool_ok_worker_kill.
  - intros x x' Hl Hw Hh _. now apply pool_ok_env.
Qed.

Lemma pool_ok_main_loop_body (inp : loop_input) (b : broker) :
  pool_ok b ->
  match main_loop_body inp b with
  | LoopAbort => ~ forks_ok (in_envs inp)
  | LoopBreak b' | LoopNext b' => pool_ok b'
  end.
Proof.
  intros H. unfold main_loop_body.
  pose proof (pool_ok_main_loop_events inp b H) as He.
  destruct (main_loop_events inp b) as [|b1|b1|b1]; try exact He.
  destruct (in_epoll inp) as [ready|]; [|exact He].
  destruct (_ && is_ready SrcCtrl ready); [|exact He].
  now apply pool_ok_on_ctrl_msg.
Qed.

Lemma at_wait_pool_ok (b : broker) : at_wait b -> pool_ok b.
Proof.
  induction 1 as [cm t w cg fs_ok timeout b Hhead | b inp b1 fs_ok timeout b2 _ IH Hbody Hhead].
  - assert (H0 : pool_ok (broker_init cm t w cg)).
    { split; [apply broker_inv_init|]. intros pid x. simpl. now rewrite lookup_empty. }
    pose proof (pool_ok_main_loop_head fs_ok _ H0) as H. now rewrite Hhead in H.
  - pose proof (pool_ok_main_loop_body inp b IH) as H1. rewrite Hbody in H1.
    pose proof (pool_ok_main_loop_head fs_ok b1 H1) as H. now rewrite Hhead in H.
Qed.

(** X4: no assertion of the parent fails.  In every run of the main loop,
    [fork] returning pids above 1 to the parent, the iteration that follows
    a wait in [epoll_wait] ends at the bottom of the loop, at a [continue]
    or at the [break] of the exit path: the four assertions of
    [worker_attach_event], [assert(pid > 1)] of [worker_new] and
    [assert(event)] of the check for hanging events all hold when they are
    reached.  In particular every worker in state [WORKER_RUNNING] holds an
    event in every state in which the loop waits. *)
Theorem main_loop_no_abort (inp : loop_input) (b : broker) :
  at_wait b -> forks_ok (in_envs inp) ->
  main_loop_body inp b <> LoopAbort /\
  running_has_event (workers b).
Proof.
  intros Hw Hforks. apply at_wait_pool_ok in Hw. split; [|apply Hw].
  pose proof (pool_ok_main_loop_body inp b Hw) as H.
  destruct (main_loop_body inp b); [contradiction | discriminate | discriminate].
Qed.

Lemma main_loop_no_abort_witness :
  main_loop_body Examples.uevent_input (event_queue_update true (Examples.fresh 2))
    <> LoopAbort /\
  running_has_event (workers (event_queue_update true (Examples.fresh 2))).
Proof.
  apply main_loop_no_abort.
  - apply (wait_first 2 180000000 60000000 false true (-1)). reflexivity.
  - intros p pid alloc_ok. simpl. intros [= <- _]. lia.
Defined.

(** ** The check for hanging events *)

Lemma on_timeout_check (now : Z) (b : broker) :
  on_timeout now b =
  check_hanging_events (fun _ => now)
    (if list_is_empty b then worker_kill (log LOG_DEBUG "cleanup idle workers" b) else b).
Proof. reflexivity. Qed.

Lemma set_e_warned_same (e : event) : e_warned e = true -> set_e_warned true e = e.
Proof. intros H. destruct e; simpl in *. now subst. Qed.

Lemma hanging_other (pid : Z) (p : nat) (t : Z) (x : broker) (q : Z) (w : worker) (e : event) :
  pool_ok x -> q <> pid -> workers x !! pid = Some w -> w_event w = Some p ->
  find_event p (event_list x) = Some e ->
  exists x' app, hanging_check_one t (Some x) q = Some x' /\ pool_ok x' /\
                 kept pid p w e x x' app.
Proof.
  intros Hok Hq Hw Hev He. pose proof Hok as [Hinv Hr].
  destruct (pool_ok_hanging t x q Hok) as [x1 [Hx1 Hok1]].
  exists x1. 
  assert (Hk : exists app, kept pid p w e x x1 app); [|destruct Hk as [app Hk]; eauto].
  assert (Hsame : exists app, kept pid p w e x x app).
  { exists []. unfold kept. rewrite app_nil_r. repeat split; auto. }
  revert Hx1. clear Hok1. unfold hanging_check_one. simpl.
  destruct (workers x !! q) as [wq|] eqn:Hwq; [|now intros [= <-]].
  destruct (worker_state_eqb (w_state wq) WORKER_RUNNING) eqn:Hrun; simpl;
    [|now intros [= <-]].
  apply worker_state_eqb_eq in Hrun.
  destruct (w_event wq) as [p'|] eqn:Hevq; simpl; [|discriminate].
  destruct (find_event p' (event_list x)) as [e'|] eqn:He'; simpl; [|discriminate].
  destruct (inv_worker_event _ _ _ Hinv q wq p' Hwq Hevq) as [e1 [He1 Hown']].
  destruct (inv_worker_event _ _ _ Hinv pid w p Hw Hev) as [e0 [He0 Hown]].
  assert (Hpp : p <> p').
  { intros ->. rewrite He1 in He0. injection He0 as <-. congruence. }
  destruct (_ >? arg_event_timeout_warn_usec x); [|now intros [= <-]].
  destruct (_ >? arg_event_timeout_usec x).
  - intros [= <-].
    exists [EffLog LOG_ERR "worker [%d] %s timeout; kill it"; EffKill q SIGKILL;
            EffLog LOG_ERR "seq %llu '%s' killed"].
    unfold kept. simpl.
    rewrite lookup_alter_ne by exact Hq. rewrite <- !app_assoc. simpl.
    repeat split; auto.
    intros [H|[H|[H|[]]]]; try discriminate. injection H as H. contradiction.
  - destruct (negb (e_warned e')); [|now intros [= <-]].
    intros [= <-]. exists [EffLog LOG_WARNING "worker [%d] %s is taking a long time"].
    unfold kept. simpl.
    rewrite find_update by reflexivity.
    destruct (Nat.eqb_spec p p'); [contradiction|].
    repeat split; auto. intros [H|[]]. discriminate.
Qed.

Lemma hanging_others (pid : Z) (p : nat) (clock : Z -> Z) (pids : list Z) (x : broker) (w : worker) (e : event) :
  ~ In pid pids ->
  pool_ok x -> workers x !! pid = Some w -> w_event w = Some p ->
  find_event p (event_list x) = Some e ->
  exists x' app,
    foldl (fun ob q => hanging_check_one (clock q) ob q) (Some x) pids = Some x' /\
    pool_ok x' /\ kept pid p w e x x' app.
Proof.
  revert x. induction pids as [|q rest IH]; intros x Hnot Hok Hw Hev He.
  - exists x, []. simpl. split; [reflexivity|]. split; [exact Hok|].
    unfold kept. rewrite app_nil_r. repeat split; auto.
  - cbn [foldl].
    destruct (hanging_other pid p (clock q) x q w e Hok) as (x1 & app1 & -> & Hok1 & K1); auto.
    { intros ->. apply Hnot. now left. }
    destruct K1 as (Hw1 & He1 & Ht1 & Hwn1 & Htr1 & Hno1).
    destruct (IH x1) as (x2 & app2 & Hfold & Hok2 & K2); auto.
    { intros Hin. apply Hnot. now right. }
    destruct K2 as (Hw2 & He2 & Ht2 & Hwn2 & Htr2 & Hno2).
    exists x2, (app1 ++ app2). split; [exact Hfold|]. split; [exact Hok2|].
    unfold kept. rewrite Htr2, Htr1, <- app_assoc. repeat split; auto; try congruence.
    intros Hin. apply in_app_iff in Hin as [Hin|Hin]; contradiction.
Qed.


(** X18: what the check for hanging events does to a worker that is running an
    event: when the time the event has been running exceeds both
    [arg_event_timeout_warn_usec] and [arg_event_timeout_usec], the worker
    is sent SIGKILL and put in state [WORKER_KILLED], still holding its
    event; otherwise it is sent no SIGKILL and stays as it is, and when
    only the warning time is exceeded its event is marked as warned.  This
    holds wherever the worker comes in the iteration over the hashmap, and
    the loop reaches its end: [assert(event)] holds for every worker. *)
Theorem check_hanging_events_overdue (clock : Z -> Z) (b : broker) (pid : Z) (w : worker)
        (p : nat) (e : event) :
  pool_ok b -> workers b !! pid = Some w -> w_state w = WORKER_RUNNING ->
  w_event w = Some p -> find_event p (event_list b) = Some e ->
  let age := usec_sub (clock pid) (e_start_usec e) in
  let warn := age >? arg_event_timeout_warn_usec b in
  let overdue := warn && (age >? arg_event_timeout_usec b) in
  exists b' appended,
    check_hanging_events clock b = Some b' /\
    trace b' = trace b ++ appended /\
    (In (EffKill pid SIGKILL) appended <-> overdue = true) /\
    workers b' !! pid = Some (if overdue then set_w_state WORKER_KILLED w else w) /\
    find_event p (event_list b') =
      Some (if warn && negb overdue then set_e_warned true e else e).
Proof.
  intros Hok Hw Hrun Hev He. cbv zeta.
  set (age := usec_sub (clock pid) (e_start_usec e)).
  unfold check_hanging_events.
  assert (Hin : In pid (worker_pids b)) by now apply worker_pids_In with w.
  assert (Hnd : NoDup (worker_pids b)) by apply NoDup_fst_map_to_list.
  apply in_split in Hin as (pre & post & Hsplit). rewrite Hsplit in *.
  apply NoDup_ListNoDup in Hnd.
  pose proof (List.NoDup_remove_2 _ _ _ Hnd) as Hnot.
  assert (Hpre : ~ In pid pre) by (intros H; apply Hnot, in_app_iff; now left).
  assert (Hpost : ~ In pid post) by (intros H; apply Hnot, in_app_iff; now right).
  rewrite foldl_app. cbn [foldl].
  destruct (hanging_others pid p clock pre b w e Hpre Hok Hw Hev He)
    as (x1 & app1 & -> & Hok1 & Hw1 & He1 & Ht1 & Hwn1 & Htr1 & Hno1).
  (* the pass for the worker itself *)
  set (w' := if (age >? arg_event_timeout_warn_usec b) && (age >? arg_event_timeout_usec b)
             then set_w_state WORKER_KILLED w else w).
  set (e' := if (age >? arg_event_timeout_warn_usec b) &&
                negb ((age >? arg_event_timeout_warn_usec b) &&
                      (age >? arg_event_timeout_usec b))
             then set_e_warned true e else e).
  assert (Hself : exists x2 app2,
             hanging_check_one (clock pid) (Some x1) pid = Some x2 /\ pool_ok x2 /\
             workers x2 !! pid = Some w' /\ find_event p (event_list x2) = Some e' /\
             trace x2 = trace x1 ++ app2 /\
             (In (EffKill pid SIGKILL) app2 <->
              (age >? arg_event_timeout_warn_usec b) && (age >? arg_event_timeout_usec b)
              = true)).
  { destruct (pool_ok_hanging (clock pid) x1 pid Hok1) as [x2 [Hx2 Hok2]].
    exists x2. rewrite Hx2.
    assert (Hk : exists app2,
               workers x2 !! pid = Some w' /\ find_event p (event_list x2) = Some e' /\
               trace x2 = trace x1 ++ app2 /\
               (In (EffKill pid SIGKILL) app2 <->
                (age >? arg_event_timeout_warn_usec b) &&
                (age >? arg_event_timeout_usec b) = true));
      [|destruct Hk as [app2 Hk]; exists app2; tauto].
    revert Hx2. unfold hanging_check_one. simpl. rewrite Hw1, Hrun, Hev. simpl.
    rewrite He1. simpl. rewrite Hwn1, Ht1. fold age. unfold w', e'.
    destruct (age >? arg_event_timeout_warn_usec b); simpl.
    - destruct (age >? arg_event_timeout_usec b); simpl.
      + intros [= <-].
        exists [EffLog LOG_ERR "worker [%d] %s timeout; kill it"; EffKill pid SIGKILL;
                EffLog LOG_ERR "seq %llu '%s' killed"].
        simpl. rewrite lookup_alter_eq, Hw1.
        rewrite <- !app_assoc. simpl. repeat split; auto.
      + destruct (e_warned e) eqn:Hwarned; simpl.
        * intros [= <-]. exists []. rewrite app_nil_r, set_e_warned_same by exact Hwarned.
          repeat split; auto; try discriminate; try (intros []).
        * intros [= <-]. exists [EffLog LOG_WARNING "worker [%d] %s is taking a long time"].
          simpl. rewrite find_update by reflexivity.
          rewrite Nat.eqb_refl, He1. simpl.
          repeat split; auto; try discriminate; try (intros [H|[]]; discriminate).
    - intros [= <-]. exists []. rewrite app_nil_r.
      repeat split; auto; try discriminate; try (intros []). }
  destruct Hself as (x2 & app2 & -> & Hok2 & Hw2 & He2 & Htr2 & Hkill2).
  assert (Hev' : w_event w' = Some p) by (unfold w'; now destruct (_ && _)).
  destruct (hanging_others pid p clock post x2 w' e' Hpost Hok2 Hw2 Hev' He2)
    as (x3 & app3 & -> & Hok3 & Hw3 & He3 & Ht3 & Hwn3 & Htr3 & Hno3).
  exists x3, (app1 ++ app2 ++ app3). split; [reflexivity|].
  split; [rewrite Htr3, Htr2, Htr1, <- !app_assoc; reflexivity|].
  split; [|split; [exact Hw3 | exact He3]].
  rewrite !in_app_iff. rewrite <- Hkill2. tauto.
Qed.

Lemma pool_ok_dispatched : pool_ok Examples.dispatched.
Proof.
  assert (H0 : pool_ok (Examples.fresh 2)).
  { split; [apply broker_inv_init|]. intros pid x. simpl. now rewrite lookup_empty. }
  apply (pool_ok_on_uevent (Some Examples.pci) true) in H0.
  apply (proj1 (pool_ok_start_loop (fun _ => Examples.spawn_env 100)
                  (map e_ptr (event_list (Examples.queued 2 [Examples.pci])))
                  (Examples.queued 2 [Examples.pci]) H0)).
  exact start_dispatched.
Qed.

Lemma check_hanging_events_overdue_witness :
  let b := Examples.dispatched in
  let w := {| w_pid := 100; w_state := WORKER_RUNNING; w_event := Some 1%nat |} in
  let e := attach_to_worker 100 1000 (event_new 1 Examples.pci) in
  let clock := fun _ : Z => 200001000 in
  let age := usec_sub (clock 100) (e_start_usec e) in
  let warn := age >? arg_event_timeout_warn_usec b in
  let overdue := warn && (age >? arg_event_timeout_usec b) in
  exists b' appended,
    check_hanging_events clock b = Some b' /\
    trace b' = trace b ++ appended /\
    (In (EffKill 100 SIGKILL) appended <-> overdue = true) /\
    workers b' !! 100 = Some (if overdue then set_w_state WORKER_KILLED w else w) /\
    find_event 1 (event_list b') =
      Some (if warn && negb overdue then set_e_warned true e else e).
Proof.
  apply (check_hanging_events_overdue (fun _ => 200001000) Examples.dispatched 100
           {| w_pid := 100; w_state := WORKER_RUNNING; w_event := Some 1%nat |} 1
           (attach_to_worker 100 1000 (event_new 1 Examples.pci))).
  - exact pool_ok_dispatched.
  - reflexivity.
  - reflexivity.
  - reflexivity.
  - reflexivity.
Defined.

Lemma check_hanging_none (clock : Z -> Z) (pids : list Z) (b : broker) :
  (forall pid w, workers b !! pid = Some w -> w_state w <> WORKER_RUNNING) ->
  foldl (fun ob pid => hanging_check_one (clock pid) ob pid) (Some b) pids = Some b.
Proof.
  intros Hall. induction pids as [|pid rest IH]; [reflexivity|].
  cbn [foldl].
  assert (Hone : hanging_check_one (clock pid) (Some b) pid = Some b).
  { unfold hanging_check_one. simpl.
    destruct (workers b !! pid) as [w|] eqn:Hw; [|reflexivity].
    specialize (Hall pid w Hw). destruct (w_state w); try reflexivity. contradiction. }
  now rewrite Hone.
Qed.

(** X19: when the wait times out and the event list is empty, every worker
    is put in state [WORKER_KILLED] by [worker_kill], and the check for
    hanging events that follows finds no running worker: the state after
    [worker_kill] is the state after the whole block. *)
Theorem on_timeout_idle (now : Z) (b : broker) :
  event_list b = [] ->
  on_timeout now b = Some (worker_kill (log LOG_DEBUG "cleanup idle workers" b)) /\
  forall pid w, workers (worker_kill (log LOG_DEBUG "cleanup idle workers" b)) !! pid = Some w ->
                w_state w = WORKER_KILLED.
Proof.
  intros Hl.
  assert (Hk : forall pid w,
             workers (worker_kill (log LOG_DEBUG "cleanup idle workers" b)) !! pid = Some w ->
             w_state w = WORKER_KILLED).
  { intros pid w. rewrite worker_kill_lookup.
    destruct (workers _ !! pid); simpl; [|discriminate]. now intros [= <-]. }
  split; [|exact Hk].
  rewrite on_timeout_check. unfold list_is_empty. rewrite Hl.
  apply check_hanging_none. intros pid w Hw. rewrite (Hk pid w Hw). discriminate.
Qed.

Lemma on_timeout_idle_witness :
  on_timeout 5000 Examples.idle =
    Some (worker_kill (log LOG_DEBUG "cleanup idle workers" Examples.idle)) /\
  forall pid w,
    workers (worker_kill (log LOG_DEBUG "cleanup idle workers" Examples.idle)) !! pid = Some w ->
    w_state w = WORKER_KILLED.
Proof. apply on_timeout_idle. reflexivity. Defined.

(** ** Running events are independent *)

Lemma loop_step_step (b b' : broker) : loop_step b b' -> step in_order b b'.
Proof.
  destruct 1; try (now constructor).
  - eapply step_start; eauto.
  - eapply step_timeout; eauto.
Qed.

Lemma scheduled_reachable (b : broker) : scheduled b -> reachable in_order b.
Proof.
  induction 1 as [cm t w cg | b b' _ IH Hstep]; [apply reach_init|].
  apply (reach_step _ b); [exact IH | now apply loop_step_step].
Qed.

Lemma depends_on_dev (E E' L L' : event) :
  same_dev E E' -> same_dev L L' -> depends_on E' L' -> depends_on E L.
Proof.
  intros HE HL [Hlt Hdep]. unfold depends_on.
  rewrite <- (dependency_step_dev E E' L L' HE HL).
  destruct HE as (K1 & _). destruct HL as (J1 & _). split; [lia | exact Hdep].
Qed.

Lemma same_dev_refl (e : event) : same_dev e e.
Proof. repeat split. Qed.

Lemma In_update_dev (p : nat) (f : event -> event) (l : list event) (e' : event) :
  (forall e, same_dev e (f e)) ->
  In e' (update_event p f l) ->
  exists e, In e l /\ same_dev e e' /\ (e' = e \/ (e_ptr e = p /\ e' = f e)).
Proof.
  intros Hf Hin. apply In_update_event in Hin as [Hin|[e [He [Hp ->]]]].
  - exists e'. split; [exact Hin|]. split; [apply same_dev_refl | now left].
  - exists e. split; [exact He|]. split; [apply Hf | now right].
Qed.

Lemma running_clear_remove (p : nat) (l : list event) :
  running_clear l -> running_clear (remove_event p l).
Proof.
  intros H E L HE HL. apply H; now apply In_remove_event with p.
Qed.

Lemma running_clear_update (p : nat) (f : event -> event) (l : list event) :
  (forall e, same_dev e (f e)) ->
  (forall e, e_state (f e) = EVENT_RUNNING -> e_state e = EVENT_RUNNING) ->
  running_clear l -> running_clear (update_event p f l).
Proof.
  intros Hdev Hst H E' L' HE' HL' Hrun Hdep.
  destruct (In_update_dev p f l E' Hdev HE') as (E & HE & HdE & HcE).
  destruct (In_update_dev p f l L' Hdev HL') as (L & HL & HdL & _).
  apply (H E L HE HL).
  - destruct HcE as [->|[_ ->]]; [exact Hrun | now apply Hst].
  - now apply (depends_on_dev E E' L L').
Qed.

Lemma running_clear_attach (p : nat) (pid now : Z) (l : list event) :
  (forall e L, In e l -> e_ptr e = p -> In L l -> ~ depends_on e L) ->
  running_clear l -> running_clear (update_event p (attach_to_worker pid now) l).
Proof.
  intros Hfree H E' L' HE' HL' Hrun Hdep.
  assert (Hdev : forall e, same_dev e (attach_to_worker pid now e)) by (intros e; repeat split).
  destruct (In_update_dev p _ l E' Hdev HE') as (E & HE & HdE & HcE).
  destruct (In_update_dev p _ l L' Hdev HL') as (L & HL & HdL & _).
  apply (depends_on_dev E E' L L') in Hdep; auto.
  destruct HcE as [->|[Hp ->]].
  - now apply (H E L HE HL).
  - now apply (Hfree E L).
Qed.

Lemma not_busy_clear (E : event) (l : list event) :
  queue_inv l -> In E l -> fst (busy_scan E l) = false ->
  forall L, In L l -> ~ depends_on E L.
Proof.
  intros Hq HE Hbusy L HL [Hlt Hdep].
  assert (Htrue : fst (busy_scan E l) = true); [|congruence].
  apply (busy_scan_finds E L); auto; [apply Hq|].
  apply busy_step_true_of_dependency; auto.
  apply (q_memo _ Hq E L HE HL Hlt). destruct Hdep as [H|H]; rewrite H; discriminate.
Qed.

Lemma event_run_loop_list (ev : event) (env : run_env) (pids : list Z) (b b' : broker)
      (returned : bool) :
  event_run_loop ev env pids b = Some (returned, b') ->
  event_list b' = event_list b \/
  exists pid, event_list b' =
              update_event (e_ptr ev) (attach_to_worker pid (now_usec env)) (event_list b).
Proof.
  intros Hloop. apply event_run_loop_outcome in Hloop as (_ & _ & _ & Hres).
  destruct returned; [|now left].
  destruct Hres as (pid & w & _ & _ & _ & Hl & _). right. now exists pid.
Qed.

Lemma event_run_list (ev : event) (env : run_env) (b b' : broker) :
  event_run ev env b = Some b' ->
  event_list b' = event_list b \/
  event_list b' = update_event (e_ptr ev) (set_e_state EVENT_QUEUED) (event_list b) \/
  exists pid, event_list b' =
              update_event (e_ptr ev) (attach_to_worker pid (now_usec env)) (event_list b).
Proof.
  unfold event_run.
  destruct (event_run_loop ev env (worker_pids b) b) as [[returned b1]|] eqn:Hloop;
    simpl; [|discriminate].
  pose proof (event_run_loop_outcome _ _ _ _ _ _ Hloop) as (_ & _ & _ & Hres).
  destruct returned.
  { intros [= <-]. destruct Hres as (pid & w & _ & _ & _ & Hl & _). right. right.
    now exists pid. }
  destruct (hashmap_size b1 >=? arg_children_max b1).
  { intros [= <-]. left. now destruct (arg_children_max b1 >? 1). }
  unfold worker_spawn. destruct (spawn env) as [| |pid alloc_ok].
  - intros [= <-]. now left.
  - intros [= <-]. right. left. simpl. now rewrite Hres.
  - unfold worker_new. destruct (negb (pid >? 1)); [discriminate|].
    destruct (negb alloc_ok); simpl; [intros [= <-]; now left|].
    destruct (workers b1 !! pid) as [w|] eqn:Hw; simpl; [intros [= <-]; now left|].
    destruct (worker_attach_event pid (e_ptr ev) (now_usec env) _) as [b2|] eqn:Hatt;
      simpl; [|discriminate].
    intros [= <-].
    apply worker_attach_event_result in Hatt as (w & e & _ & _ & _ & _ & ->). simpl.
    right. right. exists pid. now rewrite Hres.
Qed.

Lemma running_clear_start_loop (envs : nat -> run_env) (ptrs : list nat) (b b' : broker) :
  broker_inv b -> queue_inv (event_list b) -> running_clear (event_list b) ->
  event_queue_start_loop envs ptrs b = Some b' -> running_clear (event_list b').
Proof.
  revert b. induction ptrs as [|p rest IH]; intros b Hinv Hq Hc; simpl;
    [now intros [= <-]|].
  destruct (find_event p (event_list b)) as [ev|] eqn:Hev; [|now apply IH].
  destruct (event_state_eqb (e_state ev) EVENT_QUEUED) eqn:Hst; simpl; [|now apply IH].
  apply event_state_eqb_eq in Hst.
  pose proof (find_event_In _ _ _ Hev) as Hin.
  pose proof (find_event_ptr _ _ _ Hev) as Hp.
  pose proof (broker_inv_busy ev b Hinv) as Hinv1.
  pose proof (queued_at_busy ev p b Hev Hst) as Hqat.
  assert (Hq1 : queue_inv (event_list (snd (is_devpath_busy ev b)))).
  { apply (closed_busy queue_inv); auto. intros E l. apply queue_inv_busy. }
  assert (Hc1 : running_clear (event_list (snd (is_devpath_busy ev b)))).
  { apply (closed_busy running_clear); auto.
    intros E l Hl _. apply running_clear_update; auto. intros e. repeat split. }
  assert (Hfree : fst (is_devpath_busy ev b) = false ->
                  forall e L, In e (event_list (snd (is_devpath_busy ev b))) ->
                              e_ptr e = e_ptr ev ->
                              In L (event_list (snd (is_devpath_busy ev b))) ->
                              ~ depends_on e L).
  { rewrite is_devpath_busy_fst. intros Hbusy e L He Hpe HL Hdep.
    pose proof (not_busy_clear ev (event_list b) Hq Hin Hbusy) as Hnb.
    unfold is_devpath_busy in He, HL.
    destruct (busy_scan ev (event_list b)) as [r ev'] eqn:Hscan. simpl in *.
    assert (Hdev : forall x, same_dev x (set_delaying_seqnum (e_delaying_seqnum ev') x))
      by (intros x; repeat split).
    destruct (In_update_dev _ _ _ e Hdev He) as (e0 & He0 & Hd0 & Hc0).
    destruct (In_update_dev _ _ _ L Hdev HL) as (L0 & HL0 & HdL0 & _).
    assert (e0 = ev) as ->.
    { assert (Hp0 : e_ptr e0 = e_ptr ev).
      { destruct Hc0 as [->|[Hp0 _]]; [exact Hpe | exact Hp0]. }
      pose proof (find_event_of_In _ _ (q_nodup _ Hq) He0) as F1.
      pose proof (find_event_of_In _ _ (q_nodup _ Hq) Hin) as F2. congruence. }
    apply (depends_on_dev ev e L0 L) in Hdep; auto.
    now apply (Hnb L0). }
  destruct (is_devpath_busy ev b) as [busy b1]. simpl in *.
  destruct busy; [now apply IH|].
  destruct (event_run ev (envs p) b1) as [b2|] eqn:Hrun; simpl; [|discriminate].
  apply IH.
  - now apply (broker_inv_event_run ev (envs p) b1).
  - apply (closed_event_run queue_inv) with (ev := ev) (env := envs p) (b := b1); auto.
    intros q f l. apply queue_inv_update.
  - apply event_run_list in Hrun as [->|[->|[pid ->]]]; [exact Hc1| |].
    + apply running_clear_update; auto; [intros e; repeat split | discriminate].
    + apply running_clear_attach; auto.
Qed.

Lemma running_clear_hanging (now : Z) (ob : option broker) (pid : Z) :
  (forall b, ob = Some b -> running_clear (event_list b)) ->
  forall b', hanging_check_one now ob pid = Some b' -> running_clear (event_list b').
Proof.
  intros H b'. unfold hanging_check_one. destruct ob as [b|]; simpl; [|discriminate].
  specialize (H b eq_refl).
  destruct (workers b !! pid) as [w|]; [|now intros [= <-]].
  destruct (negb (worker_state_eqb (w_state w) WORKER_RUNNING)); [now intros [= <-]|].
  destruct (w_event w) as [p|]; simpl; [|discriminate].
  destruct (find_event p (event_list b)) as [ev|]; simpl; [|discriminate].
  destruct (_ >? arg_event_timeout_warn_usec b); [|now intros [= <-]].
  destruct (_ >? arg_event_timeout_usec b); [now intros [= <-]|].
  destruct (negb (e_warned ev)); [|now intros [= <-]].
  intros [= <-]. simpl. apply running_clear_update; auto. intros e. repeat split.
Qed.

Lemma running_clear_step (b b' : broker) :
  broker_inv b -> queue_inv (event_list b) -> running_clear (event_list b) ->
  loop_step b b' -> running_clear (event_list b').
Proof.
  intros Hinv Hq Hc Hstep. destruct Hstep.
  - simpl. unfold event_queue_insert. destruct alloc_ok; simpl; [|exact Hc].
    destruct H as [_ Hlt].
    intros E L HE HL Hrun Hdep.
    apply in_app_iff in HE as [HE|[<-|[]]]; [|discriminate].
    apply in_app_iff in HL as [HL|[<-|[]]].
    + now apply (Hc E L HE HL Hrun).
    + destruct Hdep as [Hdep _]. simpl in Hdep. specialize (Hlt E HE). lia.
  - now apply (running_clear_start_loop envs (map e_ptr (event_list b)) b).
  - apply closed_on_worker; auto. apply running_clear_remove.
  - apply closed_on_sigchld; auto. apply running_clear_remove.
  - apply closed_cleanup; auto. apply running_clear_remove.
  - now rewrite event_list_worker_kill.
  - revert H. unfold on_timeout.
    set (b1 := if list_is_empty b then _ else b).
    assert (H1 : running_clear (event_list b1)).
    { unfold b1. destruct (list_is_empty b); [|exact Hc]. now rewrite event_list_worker_kill. }
    clearbody b1. revert b'.
    apply (foldl_preserves (fun ob => forall b', ob = Some b' -> running_clear (event_list b'))).
    + intros ob pid Hob. now apply running_clear_hanging.
    + now intros b' [= <-].
  - now rewrite event_list_on_ctrl_msg.
  - now rewrite H.
Qed.

(** X1: the rule the queue exists for.  In every state the broker reaches
    from its start by the operations of the main loop, uevents arriving in
    the order of their sequence numbers, an event that is running depends on
    no event in the list: no listed event with a lower sequence number has
    its device number, its ifindex, its devpath as the old name, the same
    devpath, or a devpath above or below.  In particular of two running
    events neither depends on the other. *)
Theorem running_events_independent (b : broker) (E L : event) :
  scheduled b -> In E (event_list b) -> In L (event_list b) ->
  e_state E = EVENT_RUNNING -> ~ depends_on E L.
Proof.
  intros Hs. revert E L.
  change (running_clear (event_list b)).
  induction Hs as [cm t w cg | b b' Hs IH Hstep].
  - intros E L [].
  - destruct (reachable_queue_inv b (scheduled_reachable b Hs)) as [Hinv Hq].
    now apply (running_clear_step b b').
Qed.

Lemma scheduled_running_and_queued :
  scheduled (on_uevent (Some Examples.pci_a) true Examples.dispatched).
Proof.
  apply (sched_step Examples.dispatched).
  - apply (sched_step (Examples.queued 2 [Examples.pci])).
    + apply (sched_step (Examples.fresh 2)); [apply sched_init|].
      apply (loop_uevent (Examples.fresh 2) Examples.pci true).
      split; [simpl; lia | intros e []].
    + apply (loop_start _ (fun _ => Examples.spawn_env 100)). exact start_dispatched.
  - apply loop_uevent. split; [simpl; lia|].
    intros e He. vm_compute in He. destruct He as [<-|[]]. simpl. lia.
Qed.

Lemma running_events_independent_witness :
  ~ depends_on (attach_to_worker 100 1000 (event_new 1 Examples.pci))
               (event_new 2 Examples.pci_a).
Proof.
  apply (running_events_independent
           (on_uevent (Some Examples.pci_a) true Examples.dispatched)).
  - exact scheduled_running_and_queued.
  - vm_compute. left. reflexivity.
  - vm_compute. right. left. reflexivity.
  - reflexivity.
Defined.

(** ** Start-up: the descriptors passed by systemd *)

Lemma systemd_fds_loop_count (is_seqpacket is_netlink : Z -> Z) (count : nat) (fd c k c' k' : Z) :
  0 <= fd ->
  systemd_fds_loop is_seqpacket is_netlink count fd c k = Some (c', k') ->
  (if c' >=? 0 then 1 else 0) + (if k' >=? 0 then 1 else 0) =
  (if c >=? 0 then 1 else 0) + (if k >=? 0 then 1 else 0) + Z.of_nat count.
Proof.
  revert fd c k. induction count as [|count IH]; intros fd c k Hfd; simpl systemd_fds_loop.
  - intros [= <- <-]. simpl. lia.
  - destruct (negb (is_seqpacket fd =? 0)).
    + destruct (Z.geb_spec c 0) as [Hc|Hc]; [discriminate|].
      intros H. apply IH in H; [|lia]. rewrite H.
      destruct (Z.geb_spec fd 0); lia.
    + destruct (negb (is_netlink fd =? 0)); [|discriminate].
      destruct (Z.geb_spec k 0) as [Hk|Hk]; [discriminate|].
      intros H. apply IH in H; [|lia]. rewrite H.
      destruct (Z.geb_spec fd 0); lia.
Qed.

(** X23: [systemd_fds] succeeds exactly when systemd passed two descriptors
    (numbers 3 and 4), one of them a local SOCK_SEQPACKET socket and the
    other a netlink socket and not a local SOCK_SEQPACKET socket, in either
    order; the first becomes the control socket and the second the netlink
    socket.  With one descriptor, with three or more, or with a descriptor
    of another kind it fails. *)
Theorem systemd_fds_exact (is_seqpacket is_netlink : Z -> Z) (n ctrl netlink : Z) :
  systemd_fds is_seqpacket is_netlink n = Some (ctrl, netlink) <->
  n = 2 /\
  ((ctrl = 3 /\ netlink = 4) \/ (ctrl = 4 /\ netlink = 3 /\ is_seqpacket 3 = 0)) /\
  is_seqpacket ctrl <> 0 /\ is_netlink netlink <> 0 /\
  (netlink = 4 -> is_seqpacket 4 = 0).
Proof.
  unfold systemd_fds, SD_LISTEN_FDS_START. split.
  - destruct (Z.leb_spec n 0) as [Hn|Hn]; [discriminate|].
    destruct (systemd_fds_loop _ _ _ _ _ _) as [[c k]|] eqn:Hloop; [|discriminate].
    destruct (Z.ltb_spec c 0) as [Hc|Hc]; [discriminate|].
    destruct (Z.ltb_spec k 0) as [Hk|Hk]; [discriminate|].
    simpl. intros [= <- <-].
    pose proof (systemd_fds_loop_count is_seqpacket is_netlink (Z.to_nat n) 3 (-1) (-1) c k
                  ltac:(lia) Hloop) as Hcount.
    destruct (Z.geb_spec c 0); [|lia]. destruct (Z.geb_spec k 0); [|lia].
    simpl in Hcount.
    assert (Hn2 : n = 2) by lia. subst n.
    change (Z.to_nat 2) with 2%nat in Hloop. simpl in Hloop.
    change (3 + 1) with 4 in Hloop.
    destruct (Z.eqb_spec (is_seqpacket 3) 0) as [H3|H3]; simpl in Hloop.
    + destruct (Z.eqb_spec (is_netlink 3) 0) as [N3|N3]; simpl in Hloop; [discriminate|].
      destruct (Z.eqb_spec (is_seqpacket 4) 0) as [H4|H4]; simpl in Hloop.
      * destruct (Z.eqb_spec (is_netlink 4) 0); simpl in Hloop; discriminate.
      * injection Hloop as <- <-. repeat split; auto. lia.
    + destruct (Z.eqb_spec (is_seqpacket 4) 0) as [H4|H4]; simpl in Hloop; [|discriminate].
      destruct (Z.eqb_spec (is_netlink 4) 0) as [N4|N4]; simpl in Hloop; [discriminate|].
      injection Hloop as <- <-. repeat split; auto.
  - intros (-> & Hfd & Hs & Hn & H4). simpl. change (3 + 1) with 4.
    destruct Hfd as [[-> ->]|(-> & -> & H3)].
    + specialize (H4 eq_refl).
      destruct (Z.eqb_spec (is_seqpacket 3) 0); [contradiction|]. simpl.
      rewrite H4. simpl.
      destruct (Z.eqb_spec (is_netlink 4) 0); [contradiction|]. reflexivity.
    + rewrite H3. simpl.
      destruct (Z.eqb_spec (is_netlink 3) 0); [contradiction|]. simpl.
      destruct (Z.eqb_spec (is_seqpacket 4) 0); [contradiction|]. reflexivity.
Qed.

(** ** Start-up: the settings *)

Lemma startswith_spec (s prefix rest : string) :
  startswith s prefix = Some rest <-> s = String.append prefix rest.
Proof.
  revert s. induction prefix as [|c prefix IH]; intros s.
  - change (String.append "" rest) with rest.
    destruct s; simpl; (split; [intros [= <-]; reflexivity | intros <-; reflexivity]).
  - change (String.append (String c prefix) rest) with (String c (String.append prefix rest)).
    destruct s as [|d s]; simpl; [split; discriminate|].
    destruct (Ascii.eqb_spec c d) as [->|Hne].
    + rewrite IH. split; [intros ->; reflexivity | intros [= ->]; reflexivity].
    + split; [discriminate | intros [= H _]; congruence].
Qed.

Section Settings.

Variable util_log_priority : string -> Z.
Variables safe_atou safe_atoi safe_atou64 : string -> option Z.


(** X24: what an item of the kernel command line can change.  An item
    without a value changes nothing.  The number of workers changes only
    for the key udev.children-max, the event timeouts only for
    udev.event-timeout, the delay only for udev.exec-delay and the log
    level only for udev.log-priority, each with or without rd. in front;
    and in front of a key that begins with udev. the prefix rd. makes no
    difference. *)
Theorem parse_proc_cmdline_item_keys (key : string) (value : option string) (s : settings) :
  parse_proc_cmdline_item util_log_priority safe_atou safe_atoi safe_atou64 key None s = s /\
  (s_children_max (parse_proc_cmdline_item util_log_priority safe_atou safe_atoi safe_atou64 key value s) <> s_children_max s ->
   key = "udev.children-max"%string \/ key = "rd.udev.children-max"%string) /\
  (s_event_timeout_usec (parse_proc_cmdline_item util_log_priority safe_atou safe_atoi safe_atou64 key value s) <> s_event_timeout_usec s \/
   s_event_timeout_warn_usec (parse_proc_cmdline_item util_log_priority safe_atou safe_atoi safe_atou64 key value s) <> s_event_timeout_warn_usec s ->
   key = "udev.event-timeout"%string \/ key = "rd.udev.event-timeout"%string) /\
  (s_exec_delay (parse_proc_cmdline_item util_log_priority safe_atou safe_atoi safe_atou64 key value s) <> s_exec_delay s ->
   key = "udev.exec-delay"%string \/ key = "rd.udev.exec-delay"%string) /\
  (s_max_level (parse_proc_cmdline_item util_log_priority safe_atou safe_atoi safe_atou64 key value s) <> s_max_level s ->
   key = "udev.log-priority"%string \/ key = "rd.udev.log-priority"%string) /\
  (forall rest, startswith key "udev." = Some rest ->
                parse_proc_cmdline_item util_log_priority safe_atou safe_atoi safe_atou64
                  (String.append "rd." key) value s =
                parse_proc_cmdline_item util_log_priority safe_atou safe_atoi safe_atou64
                  key value s).
Proof.
  split; [reflexivity|].
  assert (Hkey : forall name,
             (exists k0 k1, match startswith key "rd." with Some r => r | None => key end = k0 /\
                            startswith k0 "udev." = Some k1 /\ streq k1 name = true) ->
             key = String.append "udev." name \/ key = String.append "rd.udev." name).
  { intros name (k0 & k1 & H0 & H1 & H2).
    apply String.eqb_eq in H2. subst k1. apply startswith_spec in H1.
    destruct (startswith key "rd.") as [r|] eqn:Hrd.
    - apply startswith_spec in Hrd. subst. right. reflexivity.
    - subst. now left. }
  unfold parse_proc_cmdline_item.
  destruct value as [value|].
  2:{ repeat split; intros; try reflexivity; exfalso; intuition congruence. }
  set (k0 := match startswith key "rd." with Some r => r | None => key end) in *.
  split; [|split; [|split; [|split]]].
  - destruct (startswith k0 "udev.") as [k1|] eqn:H1; [|intros H; now destruct H].
    destruct (streq k1 "log-priority") eqn:E1; [intros H; now destruct H|].
    destruct (streq k1 "children-max") eqn:E2.
    { intros _. apply (Hkey "children-max"%string). now exists k0, k1. }
    destruct (streq k1 "exec-delay") eqn:E3;
      [destruct (safe_atoi value); intros H; now destruct H|].
    destruct (streq k1 "event-timeout") eqn:E4;
      [destruct (safe_atou64 value); intros H; now destruct H|].
    intros H; now destruct H.
  - destruct (startswith k0 "udev.") as [k1|] eqn:H1; [|intros [H|H]; now destruct H].
    destruct (streq k1 "log-priority") eqn:E1; [intros [H|H]; now destruct H|].
    destruct (streq k1 "children-max") eqn:E2;
      [destruct (safe_atou value); intros [H|H]; now destruct H|].
    destruct (streq k1 "exec-delay") eqn:E3;
      [destruct (safe_atoi value); intros [H|H]; now destruct H|].
    destruct (streq k1 "event-timeout") eqn:E4.
    { intros _. apply (Hkey "event-timeout"%string). now exists k0, k1. }
    intros [H|H]; now destruct H.
  - destruct (startswith k0 "udev.") as [k1|] eqn:H1; [|intros H; now destruct H].
    destruct (streq k1 "log-priority") eqn:E1; [intros H; now destruct H|].
    destruct (streq k1 "children-max") eqn:E2;
      [destruct (safe_atou value); intros H; now destruct H|].
    destruct (streq k1 "exec-delay") eqn:E3.
    { intros _. apply (Hkey "exec-delay"%string). now exists k0, k1. }
    destruct (streq k1 "event-timeout") eqn:E4;
      [destruct (safe_atou64 value); intros H; now destruct H|].
    intros H; now destruct H.
  - destruct (startswith k0 "udev.") as [k1|] eqn:H1; [|intros H; now destruct H].
    destruct (streq k1 "log-priority") eqn:E1.
    { intros _. apply (Hkey "log-priority"%string). now exists k0, k1. }
    destruct (streq k1 "children-max") eqn:E2;
      [destruct (safe_atou value); intros H; now destruct H|].
    destruct (streq k1 "exec-delay") eqn:E3;
      [destruct (safe_atoi value); intros H; now destruct H|].
    destruct (streq k1 "event-timeout") eqn:E4;
      [destruct (safe_atou64 value); intros H; now destruct H|].
    intros H; now destruct H.
  - intros rest Hrest. unfold k0. clear k0 Hkey.
    assert (Hrd : startswith key "rd." = None).
    { apply startswith_spec in Hrest. subst key. reflexivity. }
    rewrite Hrd.
    assert (Hrd' : startswith (String.append "rd." key) "rd." = Some key).
    { apply startswith_spec. reflexivity. }
    now rewrite Hrd'.
Qed.

End Settings.

(** X25: the event timeout as either command line sets it, for every number
    parsed.  The timeout is the number of seconds times 1000000, reduced
    modulo 2^64; the warning time is a third of it and never 0.  Either the
    timeout is 0 and the warning time is 1 microsecond, or the warning time
    is at most a third of the timeout.  So the check for hanging events,
    which kills when the age of an event exceeds both, kills exactly when
    the age exceeds the timeout, or 1 microsecond where the timeout is 0. *)
Theorem set_event_timeout_bounds (n : Z) (s : settings) :
  let s' := set_event_timeout n s in
  let timeout := s_event_timeout_usec s' in
  let warning := s_event_timeout_warn_usec s' in
  timeout = (n * 1000000) mod 2 ^ 64 /\
  ((timeout = 0 /\ warning = 1) \/
   (64 <= timeout /\ 1 <= warning /\ 3 * warning <= timeout < 3 * warning + 3)) /\
  forall age, (age >? warning) && (age >? timeout) = (age >? Z.max timeout 1).
Proof.
  cbv zeta. unfold set_event_timeout, USEC_PER_SEC. simpl.
  set (t := (n * 1000000) mod 2 ^ 64).
  assert (Ht : exists q, t = 64 * q /\ 0 <= q).
  { exists ((n * 15625) mod 2 ^ 58). unfold t.
    replace (n * 1000000) with (64 * (n * 15625)) by lia.
    change (2 ^ 64) with (64 * 2 ^ 58).
    rewrite Z.mul_mod_distr_l by lia. split; [reflexivity|].
    apply Z.mod_pos_bound. lia. }
  destruct Ht as [q [Hq Hq0]]. clearbody t.
  assert (Hdiv : 3 * (t / 3) <= t < 3 * (t / 3) + 3).
  { pose proof (Z.div_mod t 3 ltac:(lia)). pose proof (Z.mod_pos_bound t 3 ltac:(lia)). lia. }
  split; [reflexivity|].
  destruct (Z.eqb_spec (t / 3) 0) as [Hz|Hnz].
  - assert (t = 0) by lia. subst t. split; [now left|].
    intros age. rewrite H. change (Z.max 0 1) with 1.
    destruct (Z.gtb_spec age 1), (Z.gtb_spec age 0); simpl; try reflexivity; lia.
  - assert (64 <= t) by lia. split; [right; lia|].
    intros age. rewrite Z.max_l by lia.
    destruct (Z.gtb_spec age (t / 3)), (Z.gtb_spec age t); simpl; try reflexivity; lia.
Qed.

(** ** Start-up: the first event *)

Lemma worker_pids_empty (b : broker) : workers b = ∅ -> worker_pids b = [].
Proof. intros H. unfold worker_pids. now rewrite H, map_to_list_empty. Qed.

(** X26: from start-up to the first worker.  After [main] has applied its
    default to [arg_children_max] the limit is positive, so the first
    uevent that arrives with a sequence number above 0 is not held back:
    the pass of [event_queue_start] that follows forks a worker for it,
    when [fork] succeeds, and leaves the event running on that worker. *)
Theorem first_event_forks (children_max : Z) (cpu_count : option Z)
        (timeout_usec warn_usec : Z) (cgroup : bool) (d : udev_device)
        (envs : nat -> run_env) (pid : Z) :
  0 <= children_max < 2 ^ 32 ->
  (forall c, cpu_count = Some c -> 0 <= c < 2 ^ 30) ->
  0 < dev_seqnum d ->
  spawn (envs 1%nat) = Forked pid true -> 1 < pid ->
  let limit := default_children_max children_max cpu_count in
  let b := on_uevent (Some d) true (broker_init limit timeout_usec warn_usec cgroup) in
  0 < limit /\
  exists b',
    event_queue_start envs b = Some b' /\
    event_list b' = [attach_to_worker pid (now_usec (envs 1%nat)) (event_new 1 d)] /\
    workers b' = {[ pid := {| w_pid := pid; w_state := WORKER_RUNNING;
                              w_event := Some 1%nat |} ]}.
Proof.
  intros Hcm Hcpu Hseq Hspawn Hpid. cbv zeta.
  assert (Hlimit : 0 < default_children_max children_max cpu_count).
  { unfold default_children_max. destruct (Z.eqb_spec children_max 0); [|lia].
    destruct cpu_count as [c|]; [|lia]. specialize (Hcpu c eq_refl).
    rewrite Z.mod_small; lia. }
  split; [exact Hlimit|].
  set (limit := default_children_max children_max cpu_count) in *. clearbody limit.
  unfold event_queue_start. simpl.
  set (E := event_new 1 d).
  set (b0 := set_event_list [E] _).
  assert (Hbusy : is_devpath_busy E b0 = (false, b0)).
  { apply is_devpath_busy_unchanged.
    - simpl. apply NoDup_singleton.
    - simpl. now left.
    - simpl. unfold busy_step. simpl.
      destruct (Z.ltb_spec (dev_seqnum d) 0) as [|_]; [lia|].
      destruct (Z.eqb_spec (dev_seqnum d) 0) as [|_]; [lia|].
      destruct (Z.geb_spec (dev_seqnum d) (dev_seqnum d)) as [_|]; [reflexivity | lia]. }
  rewrite Hbusy.
  unfold event_run. rewrite worker_pids_empty by reflexivity. simpl.
  unfold hashmap_size. simpl. rewrite map_size_empty. change (Z.of_nat 0) with 0.
  destruct (Z.geb_spec 0 limit) as [|_]; [lia|].
  unfold worker_spawn. rewrite Hspawn. unfold worker_new.
  destruct (Z.gtb_spec pid 1) as [_|]; [|lia]. simpl.
  rewrite lookup_empty. simpl.
  unfold worker_attach_event. simpl. rewrite lookup_insert_eq. simpl.
  eexists. split; [reflexivity|]. simpl. split; [reflexivity|].
  now rewrite insert_insert_eq.
Qed.

Lemma first_event_forks_witness :
  let limit := default_children_max 0 (Some 4) in
  let b := on_uevent (Some Examples.pci) true (broker_init limit 180000000 60000000 false) in
  0 < limit /\
  exists b',
    event_queue_start (fun _ => Examples.spawn_env 100) b = Some b' /\
    event_list b' = [attach_to_worker 100 (now_usec (Examples.spawn_env 100))
                       (event_new 1 Examples.pci)] /\
    workers b' = {[ 100 := {| w_pid := 100; w_state := WORKER_RUNNING;
                              w_event := Some 1%nat |} ]}.
Proof.
  apply (first_event_forks 0 (Some 4) 180000000 60000000 false Examples.pci
           (fun _ => Examples.spawn_env 100) 100).
  - lia.
  - intros c [= <-]. lia.
  - simpl. lia.
  - reflexivity.
  - lia.
Defined.

(** ** The forked child *)

Lemma event_free_dom (op : option nat) (b : broker) (pid : Z) :
  workers (event_free op b) !! pid = None <-> workers b !! pid = None.
Proof.
  unfold event_free. destruct op as [p|]; [|reflexivity].
  destruct (find_event p (event_list b)) as [e|]; [|reflexivity].
  destruct (e_worker e) as [owner|]; simpl; [|reflexivity].
  rewrite lookup_alter. destruct (decide (owner = pid)) as [->|]; [|reflexivity].
  destruct (workers b !! pid); simpl; split; congruence.
Qed.

Lemma worker_free_dom (q : Z) (b : broker) (pid : Z) :
  workers (worker_free q b) !! pid = None <->
  workers b !! pid = None \/ pid = q.
Proof.
  unfold worker_free. destruct (workers b !! q) as [w|] eqn:Hw.
  - rewrite event_free_dom. simpl. rewrite lookup_delete.
    destruct (decide (q = pid)) as [->|Hne]; [tauto|].
    split; [tauto | intros [H|H]; [exact H | congruence]].
  - split; [tauto | intros [H| ->]; [exact H | exact Hw]].
Qed.

Lemma workers_free_fold (pids : list Z) (b : broker) (pid : Z) :
  workers (foldl (fun x q => worker_free q x) b pids) !! pid = None <->
  workers b !! pid = None \/ In pid pids.
Proof.
  revert b. induction pids as [|q rest IH]; intros b; simpl; [tauto|].
  rewrite IH, worker_free_dom. intuition congruence.
Qed.

(** X20: the child starts from nothing.  [workers_free] followed by
    [event_queue_cleanup(EVENT_UNDEF)], as the forked child runs them on its
    copy of the state, leaves no worker and no event; and after
    [workers_free] alone every worker has been removed from the hashmap one
    by one, and no event that is left points to a worker. *)
Theorem child_reset_empty (b : broker) :
  broker_inv b ->
  workers (foldl (fun x q => worker_free q x) b (worker_pids b)) = ∅ /\
  (forall e, In e (event_list (workers_free b)) -> e_worker e = None) /\
  event_list (child_reset b) = [] /\
  workers (child_reset b) = ∅.
Proof.
  intros Hinv.
  set (b1 := foldl (fun x q => worker_free q x) b (worker_pids b)).
  assert (Hinv1 : broker_inv b1).
  { unfold b1. apply foldl_preserves; [|exact Hinv].
    intros x q Hx. now apply broker_inv_worker_free. }
  assert (Hempty : workers b1 = ∅).
  { apply map_empty. intros pid. unfold b1. apply workers_free_fold.
    destruct (workers b !! pid) as [w|] eqn:Hw; [right|now left].
    now apply worker_pids_In with w. }
  split; [exact Hempty|].
  assert (Hfree : forall e, In e (event_list (workers_free b)) -> e_worker e = None).
  { intros e He. unfold workers_free in He. simpl in He. fold b1 in He.
    destruct (e_worker e) as [pid|] eqn:Hown; [|reflexivity].
    pose proof (find_event_of_In _ _ (inv_nodup _ _ _ Hinv1) He) as Hfind.
    destruct (inv_event_worker _ _ _ Hinv1 _ _ pid Hfind Hown) as [w [Hw _]].
    rewrite Hempty, lookup_empty in Hw. discriminate. }
  split; [exact Hfree|].
  unfold child_reset. split.
  - rewrite event_queue_cleanup_list.
    + generalize (event_list (workers_free b)). intros l.
      induction l as [|a l IH]; [reflexivity | exact IH].
    + unfold workers_free. simpl. apply Hinv1.
  - unfold event_queue_cleanup.
    apply (foldl_preserves (fun x => workers x = ∅)); [|reflexivity].
    intros x p Hx. unfold event_queue_cleanup_one.
    destruct (find_event p (event_list x)) as [ev|] eqn:Hev; [|exact Hx].
    destruct (_ && _); [exact Hx|].
    apply map_empty. intros pid. apply event_free_dom. now rewrite Hx, lookup_empty.
Qed.

Lemma child_reset_empty_witness :
  workers (foldl (fun x q => worker_free q x) Examples.dispatched
             (worker_pids Examples.dispatched)) = ∅ /\
  (forall e, In e (event_list (workers_free Examples.dispatched)) -> e_worker e = None) /\
  event_list (child_reset Examples.dispatched) = [] /\
  workers (child_reset Examples.dispatched) = ∅.
Proof.
  apply child_reset_empty.
  apply (reachable_broker_inv any_device). exact reachable_dispatched.
Defined.

Lemma child_report_effects (env : child_env) (done : list child_effect) :
  List.filter is_result (fst (child_report env done)) =
    List.filter is_result done ++ [CeSendResult] /\
  existsb is_rules (fst (child_report env done)) = existsb is_rules done /\
  existsb is_processed (fst (child_report env done)) = existsb is_processed done /\
  snd (child_report env done) =
    (if ce_sigterm env then ChildOut (ce_send env) else ChildWait (ce_send env)).
Proof.
  unfold child_report.
  destruct (ce_send env <? 0), (ce_sigterm env); cbn [fst snd];
    rewrite ?List.filter_app, ?existsb_app; cbn;
    rewrite ?app_nil_r, ?orb_false_r; auto.
Qed.

(** X21: what the child does with one device.  When [udev_event_new] fails
    it leaves with a failure status and sends nothing.  Otherwise it sends
    the daemon exactly one result message, whether it handled the device or
    not: when the device node to lock is held by another process, neither
    the rules are executed nor is the device sent on to the listeners, and
    the daemon is told all the same; and the value with which the child
    then waits or leaves is the result of that [send], not the -EAGAIN of
    the lock. *)
Theorem child_handle_device_reports (dev : child_device) (env : child_env) :
  let effects := fst (child_handle_device dev env) in
  let next := snd (child_handle_device dev env) in
  if ce_event_new env then
    length (List.filter is_result effects) = 1%nat /\
    existsb is_rules effects = negb (lock_contended dev env) /\
    existsb is_processed effects = negb (lock_contended dev env) /\
    next = (if ce_sigterm env then ChildOut (ce_send env) else ChildWait (ce_send env))
  else
    List.filter is_result effects = [] /\ next = ChildOut (-12) /\
    child_exit_status (-12) = 1.
Proof.
  cbv zeta. unfold child_handle_device, lock_contended.
  destruct (ce_event_new env); cbn [negb]; [|cbn; auto].
  destruct (takes_lock dev), (streq_ptr (cd_devtype dev) "partition"), (cd_has_parent dev),
    (ce_open env >=? 0), (ce_flock env <? 0); cbn [andb negb];
    match goal with
    | |- context [child_report env ?d] =>
        destruct (child_report_effects env d) as (H1 & H2 & H3 & H4);
        rewrite H1, H2, H3, H4
    end;
    destruct (ce_inotify_watch env); cbn; auto.
Qed.

(** ** [synthesize_change] *)

Lemma written_write_partitions (entries : list enum_entry) :
  written (write_partitions entries) = map uevent_file (partitions_to_write entries).
Proof.
  unfold written, partitions_to_write.
  induction entries as [|e rest IH]; simpl; [reflexivity|].
  destruct (en_write e) as [d|]; [|exact IH].
  destruct (streq_ptr (sd_devtype d) "partition"); simpl; [now rewrite IH | exact IH].
Qed.

Lemma has_partitions_existsb (entries : list enum_entry) :
  has_partitions entries = existsb (fun e => is_partition (en_search e)) entries.
Proof.
  induction entries as [|e rest IH]; simpl; [reflexivity|].
  now destruct (is_partition (en_search e)).
Qed.

(** X22: which uevent files [synthesize_change] writes "change" to.  For a
    device that is not a whole disk, or a device-mapper disk: its own, and
    the function returns 0.  For a whole disk: none, with a negative return
    value, when the enumeration of its partitions cannot be set up; none
    when the kernel re-read the partition table and the disk has a
    partition, since the kernel then sends the events itself; and otherwise
    that of the disk followed by those of its partitions in the order of
    the enumeration.  A partition is never written without the disk. *)
Theorem synthesize_change_writes (dev : sys_device) (env : change_env) :
  let r := fst (synthesize_change dev env) in
  let files := written (snd (synthesize_change dev env)) in
  files =
    (if whole_disk dev then
       if enumerated env then
         if part_table_read env &&
            existsb (fun e => is_partition (en_search e)) (ch_entries env)
         then []
         else uevent_file dev :: map uevent_file (partitions_to_write (ch_entries env))
       else []
     else [uevent_file dev]) /\
  (if whole_disk dev && negb (enumerated env) then r < 0 else r = 0) /\
  match files with
  | [] => True
  | first :: _ => first = uevent_file dev
  end.
Proof.
  cbv zeta. unfold synthesize_change, enumerated.
  destruct (whole_disk dev); [|cbn; auto].
  destruct (ch_enumerate_new env); [|cbn; split; [reflexivity | split; [lia | exact I]]].
  destruct (Z.ltb_spec (ch_add_match_parent env) 0); [cbn; auto|].
  destruct (Z.ltb_spec (ch_add_match_subsystem env) 0); [cbn; auto|].
  destruct (Z.ltb_spec (ch_scan_devices env) 0); [cbn; auto|].
  rewrite <- (has_partitions_existsb (ch_entries env)).
  destruct (part_table_read env && has_partitions (ch_entries env)); [cbn; auto|].
  cbn [fst snd negb andb].
  change (written (ChLog "device %s closed, synthesising 'change'"
                     :: ChWrite (uevent_file dev) :: write_partitions (ch_entries env)))
    with (uevent_file dev :: written (write_partitions (ch_entries env))).
  rewrite written_write_partitions. auto.
Qed.
